(** * liner: a shallow embedding of the line editor core

    The Go package [liner] (files [common.go] and [line.go]) is embedded as
    pure functions over explicit state.  A Go [string] is its byte sequence,
    a [[]rune] is a list of code points, every Go [int] is a [Z] (all the
    integers of this code are lengths and indices, far from the 64-bit
    bounds), the terminal is a trace of the operations issued to it, and the
    keys returned by successive [readNext] calls are a list of events. *)

From Stdlib Require Import String Ascii.
From Stdlib Require Import ZArith List Bool Lia ZifyBool.
Import ListNotations.
Local Open Scope Z_scope.

(** ** Go strings, runes and UTF-8 *)

Definition byte := Z.
Definition gostring := list byte.
Definition rune := Z.

(** A string literal of the source, as its bytes. *)
Definition str (s : String.string) : gostring :=
  map (fun a => Z.of_N (N_of_ascii a)) (list_ascii_of_string s).

Definition len {A : Type} (l : list A) : Z := Z.of_nat (length l).

(** [l[lo:hi]]: Go checks [0 <= lo <= hi <= len(l)] and panics otherwise
    ([None]).  Go allows [hi] up to the capacity; a slice here has no spare
    capacity, so reaching past the length is out of range as well. *)
Definition slice {A : Type} (l : list A) (lo hi : Z) : option (list A) :=
  if (0 <=? lo) && (lo <=? hi) && (hi <=? len l)
  then Some (firstn (Z.to_nat (hi - lo)) (skipn (Z.to_nat lo) l))
  else None.

(** [l[i]], with the bounds check. *)
Definition index {A : Type} (l : list A) (i : Z) : option A :=
  if (0 <=? i) && (i <? len l) then nth_error l (Z.to_nat i) else None.

Definition RuneError : rune := 65533.
Definition MaxRune : rune := 1114111.

(** [utf8.ValidRune]: a code point that is no surrogate half. *)
Definition ValidRune (r : rune) : bool :=
  ((0 <=? r) && (r <? 55296)) || ((57343 <? r) && (r <=? MaxRune)).

(** [utf8.EncodeRune] (what [string(r)] appends for one rune): values that
    are no valid rune are written as U+FFFD. *)
Definition EncodeRune (r : rune) : gostring :=
  if r <? 0 then [239; 191; 189]
  else if r <=? 127 then [r]
  else if r <=? 2047 then [192 + r / 64; 128 + r mod 64]
  else if (MaxRune <? r) || ((55296 <=? r) && (r <=? 57343)) then [239; 191; 189]
  else if r <=? 65535 then
    [224 + r / 4096; 128 + (r / 64) mod 64; 128 + r mod 64]
  else
    [240 + r / 262144; 128 + (r / 4096) mod 64; 128 + (r / 64) mod 64;
     128 + r mod 64].

(** [string(line)] for [line []rune]. *)
Definition string_of_runes (l : list rune) : gostring := flat_map EncodeRune l.

Definition inb (lo hi b : Z) : bool := (lo <=? b) && (b <=? hi).

(** The table of [unicode/utf8]: from the first byte of a sequence, its size
    and the range the second byte must lie in. *)
Definition first (b0 : byte) : option (nat * Z * Z) :=
  if inb 194 223 b0 then Some (2%nat, 128, 191)
  else if b0 =? 224 then Some (3%nat, 160, 191)
  else if inb 225 236 b0 || inb 238 239 b0 then Some (3%nat, 128, 191)
  else if b0 =? 237 then Some (3%nat, 128, 159)
  else if b0 =? 240 then Some (4%nat, 144, 191)
  else if inb 241 243 b0 then Some (4%nat, 128, 191)
  else if b0 =? 244 then Some (4%nat, 128, 143)
  else None.

(** [utf8.DecodeRune]: the first code point of [s] and its width in bytes;
    [(RuneError, 1)] for a byte that starts no well-formed sequence. *)
Definition DecodeRune (s : gostring) : rune * nat :=
  match s with
  | [] => (RuneError, 0%nat)
  | b0 :: t =>
    if inb 0 127 b0 then (b0, 1%nat)
    else match first b0 with
    | None => (RuneError, 1%nat)
    | Some (sz, lo, hi) =>
      match t with
      | [] => (RuneError, 1%nat)
      | b1 :: t1 =>
        if negb (inb lo hi b1) then (RuneError, 1%nat)
        else if (sz =? 2)%nat then ((b0 mod 32) * 64 + b1 mod 64, 2%nat)
        else match t1 with
        | [] => (RuneError, 1%nat)
        | b2 :: t2 =>
          if negb (inb 128 191 b2) then (RuneError, 1%nat)
          else if (sz =? 3)%nat then
            ((b0 mod 16) * 4096 + (b1 mod 64) * 64 + b2 mod 64, 3%nat)
          else match t2 with
          | [] => (RuneError, 1%nat)
          | b3 :: _ =>
            if negb (inb 128 191 b3) then (RuneError, 1%nat)
            else ((b0 mod 8) * 262144 + (b1 mod 64) * 4096
                  + (b2 mod 64) * 64 + b3 mod 64, 4%nat)
          end
        end
      end
    end
  end.

(** The loop [for len(s) > 0 { r, size := DecodeRune(s); s = s[size:] }] that
    [[]rune(s)], [utf8.RuneCountInString] and [utf8.Valid] share; every round
    consumes at least one byte, so [length s] rounds are enough. *)
Fixpoint runes_loop (fuel : nat) (s : gostring) : list rune :=
  match fuel, s with
  | O, _ | _, [] => []
  | S fuel', _ :: _ =>
    let (r, size) := DecodeRune s in r :: runes_loop fuel' (skipn size s)
  end.

(** [[]rune(s)]. *)
Definition runes (s : gostring) : list rune := runes_loop (length s) s.

Definition RuneCountInString (s : gostring) : Z := len (runes s).

Fixpoint Valid_loop (fuel : nat) (s : gostring) : bool :=
  match fuel, s with
  | O, _ | _, [] => true
  | S fuel', _ :: _ =>
    let (r, size) := DecodeRune s in
    negb ((r =? RuneError) && (size =? 1)%nat) && Valid_loop fuel' (skipn size s)
  end.

(** [utf8.Valid]. *)
Definition Valid (s : gostring) : bool := Valid_loop (length s) s.

Fixpoint HasPrefix (s prefix : gostring) : bool :=
  match prefix, s with
  | [], _ => true
  | p :: prefix', c :: s' => (c =? p) && HasPrefix s' prefix'
  | _ :: _, [] => false
  end.

(** [strings.Index]: the byte offset of the first occurrence of [sep] in
    [s], or -1. *)
Fixpoint Index (s sep : gostring) : Z :=
  if HasPrefix s sep then 0
  else match s with
  | [] => -1
  | _ :: s' => let i := Index s' sep in if i <? 0 then -1 else i + 1
  end.

Definition eqb_string (a b : gostring) : bool :=
  if list_eq_dec Z.eq_dec a b then true else false.

(** ** Keys, errors and the terminal *)

(** [type action int] of line.go.  The constants live in a module of their
    own: [left], [right] and [end] are taken in Rocq. *)
Module Act.
Inductive action : Set :=
  | left | right | up | down | home | end_ | insert | del | pageUp | pageDown
  | f1 | f2 | f3 | f4 | f5 | f6 | f7 | f8 | f9 | f10 | f11 | f12
  | altY | shiftTab | wordLeft | wordRight | winch | unknown.
End Act.
Definition action : Set := Act.action.

Definition ctrlA : rune := 1.
Definition ctrlB : rune := 2.
Definition ctrlC : rune := 3.
Definition ctrlD : rune := 4.
Definition ctrlE : rune := 5.
Definition ctrlF : rune := 6.
Definition ctrlG : rune := 7.
Definition ctrlH : rune := 8.
Definition tab : rune := 9.
Definition lf : rune := 10.
Definition ctrlK : rune := 11.
Definition ctrlL : rune := 12.
Definition cr : rune := 13.
Definition ctrlN : rune := 14.
Definition ctrlO : rune := 15.
Definition ctrlP : rune := 16.
Definition ctrlQ : rune := 17.
Definition ctrlR : rune := 18.
Definition ctrlS : rune := 19.
Definition ctrlT : rune := 20.
Definition ctrlU : rune := 21.
Definition ctrlV : rune := 22.
Definition ctrlW : rune := 23.
Definition ctrlX : rune := 24.
Definition ctrlY : rune := 25.
Definition ctrlZ : rune := 26.
Definition esc : rune := 27.
Definition bs : rune := 127.

Definition beep : gostring := [7].

Definition KillRingMax : Z := 60.
Definition HistoryLimit : Z := 1000.

(** The [error] values of the package: [io.EOF], the package's own
    [errNotTerminalOutput], [bufio.ErrBufferFull], the two [fmt.Errorf]
    messages of [ReadHistory] with their line number, and any other error
    of the operating system, by number. *)
Inductive error : Set :=
  | io_EOF
  | errNotTerminalOutput
  | ErrBufferFull
  | errLineTooLong (n : Z)
  | errInvalidString (n : Z)
  | errOS (code : Z).

Definition is_EOF (e : error) : bool :=
  match e with io_EOF => true | _ => false end.

(** What reaches the terminal, in order: the cursor primitives of the
    terminal layer, [fmt.Print] on standard output, and the two calls that
    prepare the reader. *)
Inductive termop : Set :=
  | CursorPos (x : Z)
  | EraseLine
  | EraseScreen
  | Print (s : gostring)
  | StartPrompt
  | GetColumns.

(** [WordCompleter]: from the line and the cursor to head, candidates and
    tail. *)
Definition WordCompleter : Type :=
  gostring -> Z -> gostring * list gostring * gostring.
Definition Completer : Type := gostring -> list gostring.

(** [*ring.Ring] of container/ring, as the values met from the pointer on
    along [Next]: the head is the node pointed at, [[]] is the nil pointer.
    A node's [Value] is an [interface{}]: nil, or a [[]rune]. *)
Definition Ring : Type := list (option (list rune)).

(** [commonState] with what the terminal layer adds to it: the operations
    issued so far ([out], oldest first), the error standard output answers
    every write with, if it is broken ([stdoutErr]), and the width the
    terminal reports ([termWidth]).  [historyMutex] guards [history] against
    other goroutines; this embedding is sequential and has no use for it. *)
Record State : Type := mkState {
  terminalSupported : bool;
  terminalOutput : bool;
  history : list gostring;
  completer : option WordCompleter;
  columns : Z;
  killRing : Ring;
  out : list termop;
  stdoutErr : option error;
  termWidth : Z
}.

Definition set_history (s : State) (h : list gostring) : State :=
  mkState (terminalSupported s) (terminalOutput s) h (completer s)
          (columns s) (killRing s) (out s) (stdoutErr s) (termWidth s).
Definition set_completer (s : State) (c : option WordCompleter) : State :=
  mkState (terminalSupported s) (terminalOutput s) (history s) c
          (columns s) (killRing s) (out s) (stdoutErr s) (termWidth s).
Definition set_columns (s : State) (c : Z) : State :=
  mkState (terminalSupported s) (terminalOutput s) (history s) (completer s)
          c (killRing s) (out s) (stdoutErr s) (termWidth s).
Definition set_killRing (s : State) (k : Ring) : State :=
  mkState (terminalSupported s) (terminalOutput s) (history s) (completer s)
          (columns s) k (out s) (stdoutErr s) (termWidth s).
Definition emit (s : State) (o : termop) : State :=
  mkState (terminalSupported s) (terminalOutput s) (history s) (completer s)
          (columns s) (killRing s) (out s ++ [o]) (stdoutErr s) (termWidth s).

(** A state as [NewLiner] leaves it on a terminal [w] columns wide. *)
Definition newState (w : Z) : State :=
  mkState true true [] None 80 [] [] None w.

(** ** History (common.go) *)

(** An [io.Reader] as [bufio] sees it: the bytes it still delivers, and the
    error it answers with once they are used up ([io.EOF] at the end of a
    file). *)
Record Reader : Type := mkReader { r_data : list byte; r_err : error }.

(** [bufio.NewReader] allocates 4096 bytes. *)
Definition defaultBufSize : nat := 4096.

Fixpoint IndexByte (s : list byte) (c : byte) : option nat :=
  match s with
  | [] => None
  | b :: s' => if b =? c then Some O
               else match IndexByte s' c with Some i => Some (S i) | None => None end
  end.

(** [bufio.Reader.ReadSlice] with delimiter LF: the bytes up to and including the
    first LF when it lies within the buffer; the whole buffer with
    [ErrBufferFull] when the buffer fills up first; what is left with the
    reader's error when the input ends first. *)
Definition ReadSlice (size : nat) (r : Reader) : list byte * option error * Reader :=
  match IndexByte (firstn size (r_data r)) lf with
  | Some i => (firstn (S i) (r_data r), None, mkReader (skipn (S i) (r_data r)) (r_err r))
  | None =>
    if (size <=? length (r_data r))%nat
    then (firstn size (r_data r), Some ErrBufferFull,
          mkReader (skipn size (r_data r)) (r_err r))
    else (r_data r, Some (r_err r), mkReader [] (r_err r))
  end.

Definition unread (b : byte) (r : Reader) : Reader :=
  mkReader (b :: r_data r) (r_err r).

(** [bufio.Reader.ReadLine]: [(line, isPrefix, err)] and the reader
    after the call.  The line end, LF or CR LF, is not part of the line. *)
Definition ReadLine (size : nat) (r : Reader)
  : list byte * bool * option error * Reader :=
  let '(line, err, r') := ReadSlice size r in
  match err with
  | Some ErrBufferFull =>
    match last line 0 =? cr, line with
    | true, _ :: _ => (removelast line, true, None, unread cr r')
    | _, _ => (line, true, None, r')
    end
  | _ =>
    match line with
    | [] => ([], false, err, r')
    | _ :: _ =>
      if last line 0 =? lf then
        let drop := if (1 <? len line) && (last (removelast line) 0 =? cr)
                    then 2%nat else 1%nat in
        (firstn (length line - drop) line, false, None, r')
      else (line, false, None, r')
    end
  end.

(** The body of [ReadHistory]'s loop, iterated.  Every round but the last
    takes a line off the reader, so [fuel] rounds are enough once [fuel]
    exceeds the number of bytes by two; [None] is a loop cut short. *)
Fixpoint ReadHistory_loop (fuel : nat) (s : State) (rd : Reader) (num : Z)
  : option (State * Z * option error) :=
  match fuel with
  | O => None
  | S fuel' =>
    let '(line, part, err, rd') := ReadLine defaultBufSize rd in
    match err with
    | Some io_EOF => Some (s, num, None)
    | Some e => Some (s, num, Some e)
    | None =>
      if part then Some (s, num, Some (errLineTooLong (num + 1)))
      else if negb (Valid line) then Some (s, num, Some (errInvalidString (num + 1)))
      else
        let num := num + 1 in
        let h := history s ++ [line] in
        let h := if HistoryLimit <? len h then tl h else h in
        ReadHistory_loop fuel' (set_history s h) rd' num
    end
  end.

(** [State.ReadHistory]. *)
Definition ReadHistory (s : State) (r : Reader) : option (State * Z * option error) :=
  ReadHistory_loop (length (r_data r) + 2) s r 0.

(** An [io.Writer]: [Write] returns the writer after the call, the number of
    bytes taken and an error. *)
Class Writer (W : Type) : Type :=
  Write : W -> list byte -> W * Z * option error.

(** A writer that keeps everything, as [bytes.Buffer] or a file does. *)
#[export] Instance buffer_Writer : Writer (list byte) :=
  fun w p => (w ++ p, len p, None).

(** A writer with room for [n] more bytes: it takes what fits and then
    fails, as a full disk does. *)
Record Limited : Type := mkLimited { room : nat; written : list byte }.
#[export] Instance limited_Writer : Writer Limited :=
  fun w p =>
    if (length p <=? room w)%nat
    then (mkLimited (room w - length p) (written w ++ p), len p, None)
    else (mkLimited 0 (written w ++ firstn (room w) p), Z.of_nat (room w),
          Some (errOS 28)).

(** [fmt.Fprintln(w, item)] for a string: one [Write] of the item and LF. *)
Definition Fprintln {W : Type} `{Writer W} (w : W) (item : gostring)
  : W * Z * option error :=
  Write w (item ++ [lf]).

Fixpoint WriteHistory_loop {W : Type} `{Writer W} (items : list gostring)
  (w : W) (num : Z) : W * Z * option error :=
  match items with
  | [] => (w, num, None)
  | item :: items' =>
    let '(w', _, err) := Fprintln w item in
    match err with
    | Some e => (w', num, Some e)
    | None => WriteHistory_loop items' w' (num + 1)
    end
  end.

(** [State.WriteHistory]: the writer after the call, [num] and [err]. *)
Definition WriteHistory {W : Type} `{Writer W} (s : State) (w : W)
  : W * Z * option error :=
  WriteHistory_loop (history s) w 0.

(** [State.AppendHistory]. *)
Definition AppendHistory (s : State) (item : gostring) : State :=
  if (0 <? len (history s)) && eqb_string item (last (history s) [])
  then s
  else
    let h := history s ++ [item] in
    set_history s (if HistoryLimit <? len h then tl h else h).

(** [State.getHistoryByPrefix]. *)
Definition getHistoryByPrefix (s : State) (prefix : gostring) : list gostring :=
  filter (fun h => HasPrefix h prefix) (history s).

Fixpoint historyByPattern (hs : list gostring) (pattern : gostring)
  : list gostring * list Z :=
  match hs with
  | [] => ([], [])
  | h :: hs' =>
    let '(ph, pos) := historyByPattern hs' pattern in
    let i := Index h pattern in
    if 0 <=? i then (h :: ph, i :: pos) else (ph, pos)
  end.

(** [State.getHistoryByPattern]: nothing for the empty pattern. *)
Definition getHistoryByPattern (s : State) (pattern : gostring)
  : list gostring * list Z :=
  match pattern with
  | [] => ([], [])
  | _ :: _ => historyByPattern (history s) pattern
  end.

(** [State.SetCompleter]: [line[:pos]] and [line[pos:]] cut the string at
    [pos] taken as a byte offset.  [tabComplete] passes the cursor, which
    counts runes and so is within the string while it is within the line;
    past the end of the string Go panics, and the cut here takes the
    whole string. *)
Definition SetCompleter (s : State) (f : option Completer) : State :=
  match f with
  | None => set_completer s None
  | Some f =>
    set_completer s (Some (fun line pos =>
      ([], f (firstn (Z.to_nat pos) line), skipn (Z.to_nat pos) line)))
  end.

Definition SetWordCompleter (s : State) (f : option WordCompleter) : State :=
  set_completer s f.

(** ** Calls that may panic *)

(** A call on the state returns, or it panics (a slice or an index out of
    range, a type assertion on nil); either way the state it leaves is
    kept. *)
Inductive result (A : Type) : Type :=
  | Ret (a : A) (s : State)
  | Panic (s : State).
Arguments Ret {A} a s.
Arguments Panic {A} s.

Definition M (A : Type) : Type := State -> result A.

Definition ret {A : Type} (a : A) : M A := fun s => Ret a s.
Definition bind {A B : Type} (m : M A) (f : A -> M B) : M B :=
  fun s => match m s with Ret a s' => f a s' | Panic s' => Panic s' end.
Definition panic {A : Type} : M A := fun s => Panic s.
Definition get : M State := fun s => Ret s s.
Definition modify (f : State -> State) : M unit := fun s => Ret tt (f s).
(** A bounds-checked access: [None] is the run-time panic. *)
Definition check {A : Type} (o : option A) : M A :=
  match o with Some a => ret a | None => panic end.

Declare Scope go_scope.
Delimit Scope go_scope with go.
Notation "x <- m ;; k" := (bind m (fun x => k))
  (at level 61, m at next level, right associativity) : go_scope.
Notation "' pat <- m ;; k" := (bind m (fun x => match x with pat => k end))
  (at level 61, pat pattern, m at next level, right associativity) : go_scope.
Notation "m ;;; k" := (bind m (fun _ => k))
  (at level 61, right associativity) : go_scope.
Local Open Scope go_scope.

(** ** The terminal layer *)

(** Modelled from the spec: [cursorPos], [eraseLine], [eraseScreen],
    [startPrompt] and [getColumns] belong to the terminal files of the
    package, which are not among the sources; the spec lists them as
    cursor primitives, the call that arms the reader and the call that
    refreshes the cached width.  Each is recorded in the trace. *)
Definition cursorPos (x : Z) : M unit := modify (fun s => emit s (CursorPos x)).
Definition eraseLine : M unit := modify (fun s => emit s EraseLine).
Definition eraseScreen : M unit := modify (fun s => emit s EraseScreen).
Definition startPrompt : M unit := modify (fun s => emit s StartPrompt).
Definition getColumns : M unit :=
  modify (fun s => set_columns (emit s GetColumns) (termWidth s)).

(** [fmt.Print(x)] on standard output: the text reaches the terminal, or
    the write fails with the error of a broken standard output. *)
Definition fmt_Print (x : gostring) : M (option error) :=
  fun s => match stdoutErr s with
           | Some e => Ret (Some e) s
           | None => Ret None (emit s (Print x))
           end.

(** [unicode.IsSpace]. *)
Definition IsSpace (r : rune) : bool :=
  inb 9 13 r || (r =? 32) || (r =? 133) || (r =? 160) || (r =? 5760)
  || inb 8192 8202 r || (r =? 8232) || (r =? 8233) || (r =? 8239)
  || (r =? 8287) || (r =? 12288).

(** ** Rendering (line.go) *)

(** [colorExpr.ReplaceAllString(in, "")] for the expression ESC [^m]* m: a
    match starts at an ESC that has an m somewhere after it and ends at the
    first such m.  [drop] says that the scan is inside a match. *)
Fixpoint stripAnsi (drop : bool) (s : gostring) : gostring :=
  match s with
  | [] => []
  | b :: s' =>
    if drop then (if b =? 109 then stripAnsi false s' else stripAnsi true s')
    else if (b =? 27) && existsb (Z.eqb 109) s' then stripAnsi true s'
    else b :: stripAnsi false s'
  end.

Definition stripAnsiColorSequences (s : gostring) : gostring := stripAnsi false s.

(** [State.refresh].  Go's [/] on [int] truncates towards zero
    ([Z.quot]). *)
Definition refresh (prompt buf : gostring) (pos : Z) : M (option error) :=
  cursorPos 0 ;;;
  err <- fmt_Print prompt ;;
  match err with
  | Some e => ret (Some e)
  | None =>
    s <- get ;;
    let pLen := RuneCountInString (stripAnsiColorSequences prompt) in
    let bLen := RuneCountInString buf in
    if pLen + bLen <? columns s then
      err <- fmt_Print buf ;;
      eraseLine ;;;
      cursorPos (pLen + pos) ;;;
      ret err
    else
      (* Find space available *)
      let space := columns s - pLen in
      let space := space - 1 in
      let start := pos - Z.quot space 2 in
      let end_ := start + space in
      let '(start, end_) :=
        if bLen <? end_ then (bLen - space, bLen) else (start, end_) in
      let '(start, end_) :=
        if start <? 0 then (0, space) else (start, end_) in
      let pos := pos - start in
      (* Leave space for markers *)
      let start := if 0 <? start then start + 1 else start in
      let end_ := if end_ <? bLen then end_ - 1 else end_ in
      line <- check (slice (runes buf) start end_) ;;
      (* Output *)
      (if 0 <? start then fmt_Print (str "{") else ret None) ;;;
      fmt_Print (string_of_runes line) ;;;
      (if end_ <? bLen then fmt_Print (str "}") else ret None) ;;;
      (* Set cursor position *)
      eraseLine ;;;
      cursorPos (pLen + pos) ;;;
      ret None
  end.

(** ** The kill ring (container/ring and addToKillRing) *)

(** [ring.New(1)]: one node, its [Value] nil. *)
Definition ring_New1 : Ring := [None].
Definition ring_Len (r : Ring) : Z := len r.
(** [r.Next()] and [r.Prev()] move the pointer one node on or back. *)
Definition ring_Next (r : Ring) : Ring :=
  match r with [] => [] | v :: t => t ++ [v] end.
Definition ring_Prev (r : Ring) : Ring :=
  match r with [] => [] | _ :: _ => last r None :: removelast r end.
(** [r.Link(n)] puts the nodes of [n] right after the node [r] points at;
    [r] still points at the same node. *)
Definition ring_Link (r n : Ring) : Ring :=
  match r with [] => [] | v :: t => v :: n ++ t end.
Definition ring_Value (r : Ring) : option (list rune) :=
  match r with [] => None | v :: _ => v end.
Definition ring_SetValue (r : Ring) (v : list rune) : Ring :=
  match r with [] => [] | _ :: t => Some v :: t end.

(** [State.addToKillRing].  [killLine] is a copy of [text]; lists are
    values, so nothing is shared to begin with.  The package calls [Len],
    [Next], [Prev] and [Link] behind a nil check only. *)
Definition addToKillRing (text : list rune) (mode : Z) : M unit :=
  let killLine := text in
  s <- get ;;
  (* Point killRing to a newNode *)
  killLine <-
    (if mode =? 0 then
       (match killRing s with
        | [] => modify (fun s => set_killRing s ring_New1)
        | _ :: _ =>
          if KillRingMax <=? ring_Len (killRing s) then
            modify (fun s => set_killRing s (ring_Next (killRing s)))
          else
            modify (fun s => set_killRing s (ring_Link (killRing s) ring_New1)) ;;;
            modify (fun s => set_killRing s (ring_Next (killRing s)))
        end) ;;;
       ret killLine
     else
       (match killRing s with
        | [] => modify (fun s => set_killRing s (ring_SetValue ring_New1 []))
        | _ :: _ => ret tt
        end) ;;;
       s <- get ;;
       if mode =? 1 then
         v <- check (ring_Value (killRing s)) ;; ret (v ++ killLine)
       else if mode =? 2 then
         v <- check (ring_Value (killRing s)) ;; ret (killLine ++ v)
       else ret killLine) ;;
  (* Save text in the current killring node *)
  modify (fun s => set_killRing s (ring_SetValue (killRing s) killLine)).

(** ** Sub-modes that read keys *)

(** The values of [interface{}] that travel as "next": what [readNext]
    returned, a rune or an action; [Int], the type an untyped constant such
    as [esc] takes when it is returned as an [interface{}]; and nil. *)
Inductive iface : Set :=
  | Nil
  | Int (n : Z)
  | Rune (r : rune)
  | Action (a : action).

(** What one call of [readNext] returns: [(next, nil)] or [(nil, err)]. *)
Inductive event : Set :=
  | Key (k : iface)
  | Fail (e : error).

(** A call that reads keys returns with the events it left unread, or is
    still waiting in [readNext] when the events are used up, or panics. *)
Inductive outcome (A : Type) : Type :=
  | Done (a : A) (s : State) (rest : list event)
  | Blocked (s : State)
  | Panicked (s : State).
Arguments Done {A} a s rest.
Arguments Blocked {A} s.
Arguments Panicked {A} s.

(** Run a call that reads no key, then go on. *)
Definition run {A B : Type} (m : M A) (s : State) (k : A -> State -> outcome B)
  : outcome B :=
  match m s with Ret a s' => k a s' | Panic s' => Panicked s' end.

(** What a sub-mode hands back to [Prompt]: line, cursor, next key, error. *)
Definition handback : Type := list rune * Z * iface * option error.

(** [lineStart := text[:pos]] and [lineEnd := text[pos:]]. *)
Definition split (text : list rune) (pos : Z) : M (list rune * list rune) :=
  lineStart <- check (slice text 0 pos) ;;
  lineEnd <- check (slice text pos (len text)) ;;
  ret (lineStart, lineEnd).

(** The loop of [State.yank]; [ls] and [le] are [lineStart] and [lineEnd].
    With [again] unset this is [yank] itself, which returns on every rune.
    [Prompt] calls [yank] in a loop of its own, once more for as long as the
    key handed back is CTRL-Y: with [again] set that loop is followed as
    well, a CTRL-Y starting the next call on the line and cursor of this
    one ([yanks_unfold] below states the loop of [Prompt] of it). *)
Fixpoint yank_loop (again : bool) (p : gostring) (ls le : list rune)
  (s : State) (inp : list event) : outcome handback :=
  run (s <- get ;;
       value <- check (ring_Value (killRing s)) ;;
       let line := ls ++ value ++ le in
       let pos := len ls + len value in
       refresh p (string_of_runes line) pos ;;;
       ret (line, pos)) s
  (fun '(line, pos) s =>
    match inp with
    | [] => Blocked s
    | Fail e :: inp' => Done (line, pos, Nil, Some e) s inp'
    | Key next :: inp' =>
      match next with
      | Rune key =>
        if again && (key =? ctrlY) && negb (ring_Len (killRing s) =? 0) then
          run (split line pos) s
              (fun '(ls', le') s => yank_loop again p ls' le' s inp')
        else Done (line, pos, next, None) s inp'
      | Action Act.altY =>
        yank_loop again p ls le (set_killRing s (ring_Prev (killRing s))) inp'
      | Action _ => Done (line, pos, next, None) s inp'
      | _ => yank_loop again p ls le s inp'
      end
    end).

(** [State.yank]. *)
Definition yank (p : gostring) (text : list rune) (pos : Z) (s : State)
  (inp : list event) : outcome handback :=
  run (split text pos) s (fun '(ls, le) s => yank_loop false p ls le s inp).

(** The loop [for cont] of [Prompt] from its first call of [yank] on. *)
Definition yanks (p : gostring) (text : list rune) (pos : Z) (s : State)
  (inp : list event) : outcome handback :=
  run (split text pos) s (fun '(ls, le) s => yank_loop true p ls le s inp).

(** The loop of [State.tabComplete], entered with [listEntry]. *)
Fixpoint tabComplete_loop (p : gostring) (line : list rune) (pos : Z)
  (head : gostring) (list' : list gostring) (tail : gostring) (hl : Z)
  (listEntry : Z) (s : State) (inp : list event) : outcome handback :=
  run (pick <- check (index list' listEntry) ;;
       refresh p (head ++ pick ++ tail) (hl + RuneCountInString pick) ;;;
       ret pick) s
  (fun pick s =>
    match inp with
    | [] => Blocked s
    | Fail e :: inp' => Done (line, pos, Rune tab, Some e) s inp'
    | Key next :: inp' =>
      let commit :=
        Done (runes (head ++ pick ++ tail), hl + RuneCountInString pick,
              next, None) s inp' in
      match next with
      | Rune key =>
        if key =? tab then
          let listEntry :=
            if listEntry <? len list' - 1 then listEntry + 1 else 0 in
          tabComplete_loop p line pos head list' tail hl listEntry s inp'
        else if key =? esc then Done (line, pos, Rune esc, None) s inp'
        else commit
      | Action Act.shiftTab =>
        let listEntry :=
          if 0 <? listEntry then listEntry - 1 else len list' - 1 in
        tabComplete_loop p line pos head list' tail hl listEntry s inp'
      | _ => commit
      end
    end).

(** [State.tabComplete]. *)
Definition tabComplete (p : gostring) (line : list rune) (pos : Z) (s : State)
  (inp : list event) : outcome handback :=
  match completer s with
  | None => Done (line, pos, Rune tab, None) s inp
  | Some complete =>
    let '(head, list', tail) := complete (string_of_runes line) pos in
    if len list' <=? 0 then Done (line, pos, Rune tab, None) s inp
    else
      let listEntry := 0 in
      let hl := RuneCountInString head in
      tabComplete_loop p line pos head list' tail hl listEntry s inp
  end.

(** The local variables of [State.reverseISearch]. *)
Module Search.
Record locals : Type := mk {
  line : list rune;
  pos : Z;
  foundLine : gostring;
  foundPos : Z;
  history : list gostring;
  positions : list Z;
  historyPos : Z
}.
End Search.

(** The closure [getLine]: the prompt with the pattern in it, the found
    line and the offset of the match. *)
Definition getLine (v : Search.locals) : gostring * gostring * Z :=
  let search := string_of_runes (Search.line v) in
  (str "(reverse-i-search)`" ++ search ++ str "': ",
   Search.foundLine v, Search.foundPos v).

(** The keys that leave the search with the found line: the control codes
    of the two [case] lists that end in [return]. *)
Definition search_commits (v : rune) : bool :=
  inb 0 6 v || inb 9 17 v || inb 20 31 v.

(** After a change of the pattern: the newest match, if there is one.
    [keep] is false for the backspace branch, whose [:=] declares a
    [history] and a [positions] of its own, so that the lists of the
    function stay as they were. *)
Definition research (keep : bool) (s : State) (line : list rune) (pos : Z)
  (v : Search.locals) : M Search.locals :=
  let '(history, positions) := getHistoryByPattern s (string_of_runes line) in
  let historyPos := len history - 1 in
  let outer_h := if keep then history else Search.history v in
  let outer_p := if keep then positions else Search.positions v in
  if 0 <? len history then
    fl <- check (index history historyPos) ;;
    fp <- check (index positions historyPos) ;;
    ret (Search.mk line pos fl fp outer_h outer_p historyPos)
  else
    ret (Search.mk line pos [] 0 outer_h outer_p historyPos).

(** One round of the search loop on a rune that does not leave it. *)
Definition search_rune (r : rune) (v : Search.locals) : M Search.locals :=
  s <- get ;;
  let historyPos := Search.historyPos v in
  let history := Search.history v in
  if r =? ctrlR then (* Search backwards *)
    if (0 <? historyPos) && (historyPos <? len history) then
      let historyPos := historyPos - 1 in
      fl <- check (index history historyPos) ;;
      fp <- check (index (Search.positions v) historyPos) ;;
      ret (Search.mk (Search.line v) (Search.pos v) fl fp history
                     (Search.positions v) historyPos)
    else fmt_Print beep ;;; ret v
  else if r =? ctrlS then (* Search forward *)
    if (historyPos <? len history - 1) && (0 <=? historyPos) then
      let historyPos := historyPos + 1 in
      fl <- check (index history historyPos) ;;
      fp <- check (index (Search.positions v) historyPos) ;;
      ret (Search.mk (Search.line v) (Search.pos v) fl fp history
                     (Search.positions v) historyPos)
    else fmt_Print beep ;;; ret v
  else if (r =? ctrlH) || (r =? bs) then (* Backspace *)
    if Search.pos v <=? 0 then fmt_Print beep ;;; ret v
    else
      a <- check (slice (Search.line v) 0 (Search.pos v - 1)) ;;
      b <- check (slice (Search.line v) (Search.pos v) (len (Search.line v))) ;;
      research false s (a ++ b) (Search.pos v - 1) v
  else
    a <- check (slice (Search.line v) 0 (Search.pos v)) ;;
    b <- check (slice (Search.line v) (Search.pos v) (len (Search.line v))) ;;
    research true s (a ++ [r] ++ b) (Search.pos v + 1) v.

Fixpoint reverseISearch_loop (origLine : list rune) (origPos : Z)
  (v : Search.locals) (s : State) (inp : list event) : outcome handback :=
  let found := (runes (Search.foundLine v), Search.foundPos v) in
  match inp with
  | [] => Blocked s
  | Fail e :: inp' => Done (found, Int esc, Some e) s inp'
  | Key next :: inp' =>
    let again (m : M Search.locals) :=
      run (v' <- m ;;
           let '(p, l, n) := getLine v' in refresh p l n ;;; ret v') s
          (fun v' s => reverseISearch_loop origLine origPos v' s inp') in
    match next with
    | Rune r =>
      if r =? ctrlG then (* Cancel *)
        Done (origLine, origPos, Int esc, None) s inp'
      else if search_commits r then Done (found, next, None) s inp'
      else again (search_rune r v)
    | Action _ => Done (found, next, None) s inp'
    | _ => again (ret v)
    end
  end.

(** [State.reverseISearch]. *)
Definition reverseISearch (origLine : list rune) (origPos : Z) (s : State)
  (inp : list event) : outcome handback :=
  run (refresh (str "(reverse-i-search)`': ") (string_of_runes origLine) origPos) s
  (fun _ s =>
    let line := [] in
    let pos := 0 in
    let '(history, positions) := getHistoryByPattern s (string_of_runes line) in
    let historyPos := len history - 1 in
    reverseISearch_loop origLine origPos
      (Search.mk line pos [] 0 history positions historyPos) s inp).

(** ** Prompt (line.go) *)

(** The local variables of [State.Prompt]. *)
Module Loop.
Record locals : Type := mk {
  line : list rune;
  pos : Z;
  historyEnd : gostring;
  prefixHistory : list gostring;
  historyPos : Z;
  historyAction : bool;
  killAction : Z
}.
Definition set_line (l : locals) (x : list rune) : locals :=
  mk x (pos l) (historyEnd l) (prefixHistory l) (historyPos l)
     (historyAction l) (killAction l).
Definition set_pos (l : locals) (x : Z) : locals :=
  mk (line l) x (historyEnd l) (prefixHistory l) (historyPos l)
     (historyAction l) (killAction l).
Definition set_historyEnd (l : locals) (x : gostring) : locals :=
  mk (line l) (pos l) x (prefixHistory l) (historyPos l)
     (historyAction l) (killAction l).
Definition set_prefixHistory (l : locals) (x : list gostring) : locals :=
  mk (line l) (pos l) (historyEnd l) x (historyPos l)
     (historyAction l) (killAction l).
Definition set_historyPos (l : locals) (x : Z) : locals :=
  mk (line l) (pos l) (historyEnd l) (prefixHistory l) x
     (historyAction l) (killAction l).
Definition set_historyAction (l : locals) (x : bool) : locals :=
  mk (line l) (pos l) (historyEnd l) (prefixHistory l) (historyPos l)
     x (killAction l).
Definition set_killAction (l : locals) (x : Z) : locals :=
  mk (line l) (pos l) (historyEnd l) (prefixHistory l) (historyPos l)
     (historyAction l) x.
End Loop.

(** How one round of the main loop ends: at the bottom of the loop body, at
    [break mainLoop], or at a [return] of [Prompt]. *)
Inductive control : Type :=
  | Continue (l : Loop.locals)
  | Break (l : Loop.locals)
  | Return (line : gostring) (err : error).

(** [line = append(line[:i], line[j:]...)]. *)
Definition cut (line : list rune) (i j : Z) : M (list rune) :=
  a <- check (slice line 0 i) ;;
  b <- check (slice line j (len line)) ;;
  ret (a ++ b).

(** [line = append(line[:pos], append([]rune{v}, line[pos:]...)...)]. *)
Definition insertAt (line : list rune) (pos : Z) (v : rune) : M (list rune) :=
  a <- check (slice line 0 pos) ;;
  b <- check (slice line pos (len line)) ;;
  ret (a ++ [v] ++ b).

(** [refresh(p, string(line), pos)] with the locals of the loop; [Prompt]
    drops the error. *)
Definition redraw (p : gostring) (l : Loop.locals) : M unit :=
  refresh p (string_of_runes (Loop.line l)) (Loop.pos l) ;;; ret tt.

(** The two loops of CTRL-W: rounds that move one rune from before the
    cursor to [buf], until the cursor is at 0 or [stop] holds of the rune
    before it.  A round moves the cursor back by one, so [fuel] beyond the
    cursor is never used up. *)
Fixpoint erase_loop (stop : rune -> bool) (fuel : nat) (line : list rune)
  (pos : Z) (buf : list rune) : M (list rune * Z * list rune) :=
  match fuel with
  | O => ret (line, pos, buf)
  | S fuel' =>
    if pos =? 0 then ret (line, pos, buf)
    else
      c <- check (index line (pos - 1)) ;;
      if stop c then ret (line, pos, buf)
      else
        line <- cut line (pos - 1) pos ;;
        erase_loop stop fuel' line (pos - 1) (buf ++ [c])
  end.

(** [for { pos--; if pos == 0 || unicode.IsSpace(line[pos-1]) { break } }]. *)
Fixpoint wordLeft_loop (fuel : nat) (line : list rune) (pos : Z) : M Z :=
  match fuel with
  | O => ret pos
  | S fuel' =>
    let pos := pos - 1 in
    if pos =? 0 then ret pos
    else
      c <- check (index line (pos - 1)) ;;
      if IsSpace c then ret pos else wordLeft_loop fuel' line pos
  end.

(** [for { pos++; if pos == len(line) || unicode.IsSpace(line[pos]) { break } }]. *)
Fixpoint wordRight_loop (fuel : nat) (line : list rune) (pos : Z) : M Z :=
  match fuel with
  | O => ret pos
  | S fuel' =>
    let pos := pos + 1 in
    if pos =? len line then ret pos
    else
      c <- check (index line pos) ;;
      if IsSpace c then ret pos else wordRight_loop fuel' line pos
  end.

(** History previous, the body shared by CTRL-P and the up arrow up to the
    refresh: [None] is the branch that beeps. *)
Definition historyPrev (l : Loop.locals) : M (option Loop.locals) :=
  if 0 <? Loop.historyPos l then
    let l := if Loop.historyPos l =? len (Loop.prefixHistory l)
             then Loop.set_historyEnd l (string_of_runes (Loop.line l)) else l in
    let l := Loop.set_historyPos l (Loop.historyPos l - 1) in
    h <- check (index (Loop.prefixHistory l) (Loop.historyPos l)) ;;
    let l := Loop.set_line l (runes h) in
    ret (Some (Loop.set_pos l (len (Loop.line l))))
  else ret None.

(** History next, shared by CTRL-N and the down arrow in the same way. *)
Definition historyNext (l : Loop.locals) : M (option Loop.locals) :=
  if Loop.historyPos l <? len (Loop.prefixHistory l) then
    let l := Loop.set_historyPos l (Loop.historyPos l + 1) in
    l <- (if Loop.historyPos l =? len (Loop.prefixHistory l)
          then ret (Loop.set_line l (runes (Loop.historyEnd l)))
          else h <- check (index (Loop.prefixHistory l) (Loop.historyPos l)) ;;
               ret (Loop.set_line l (runes h))) ;;
    ret (Some (Loop.set_pos l (len (Loop.line l))))
  else ret None.

(** A kill: text to the ring, appended or prepended ([mode] 1 or 2) to the
    current entry when the latch is set, as an entry of its own
    otherwise. *)
Definition kill (l : Loop.locals) (text : list rune) (mode : Z) : M unit :=
  if 0 <? Loop.killAction l then addToKillRing text mode
  else addToKillRing text 0.

(** The control codes that only beep in [Prompt]: those handled before the
    switch, the unused ones, and the unhandled codes below 32. *)
Definition beeps (v : rune) : bool :=
  (v =? tab) || (v =? ctrlR) || (v =? ctrlY) || (v =? ctrlG) || (v =? ctrlO)
  || (v =? ctrlQ) || (v =? ctrlS) || (v =? ctrlV) || (v =? ctrlX)
  || (v =? ctrlZ) || (v =? 0) || (v =? ctrlC) || inb 28 31 v.

(** [case rune:] of the switch on [next] in [Prompt]. *)
Definition dispatchRune (p : gostring) (v : rune) (l : Loop.locals) : M control :=
  let line := Loop.line l in
  let pos := Loop.pos l in
  let continue (l : Loop.locals) : M control := ret (Continue l) in
  let redrawn (l : Loop.locals) : M control := redraw p l ;;; ret (Continue l) in
  let beeped (l : Loop.locals) : M control := fmt_Print beep ;;; ret (Continue l) in
  if (v =? cr) || (v =? lf) then
    fmt_Print [lf] ;;; ret (Break l)
  else if v =? ctrlA then (* Start of line *)
    redrawn (Loop.set_pos l 0)
  else if v =? ctrlE then (* End of line *)
    redrawn (Loop.set_pos l (len line))
  else if v =? ctrlB then (* left *)
    if 0 <? pos then redrawn (Loop.set_pos l (pos - 1)) else beeped l
  else if v =? ctrlF then (* right *)
    if pos <? len line then redrawn (Loop.set_pos l (pos + 1)) else beeped l
  else if v =? ctrlD then (* del *)
    if (pos =? 0) && (len line =? 0) then ret (Return [] io_EOF)
    else
      startPrompt ;;;
      if len line <=? pos then beeped l
      else line <- cut line pos (pos + 1) ;; redrawn (Loop.set_line l line)
  else if v =? ctrlK then (* delete remainder of line *)
    if len line <=? pos then beeped l
    else
      text <- check (slice line pos (len line)) ;;
      kill l text 1 ;;;
      let l := Loop.set_killAction l 2 in
      line <- check (slice line 0 pos) ;;
      redrawn (Loop.set_line l line)
  else if v =? ctrlP then (* up *)
    let l := Loop.set_historyAction l true in
    r <- historyPrev l ;;
    match r with Some l => redrawn l | None => beeped l end
  else if v =? ctrlN then (* down *)
    let l := Loop.set_historyAction l true in
    r <- historyNext l ;;
    match r with Some l => redrawn l | None => beeped l end
  else if v =? ctrlT then (* transpose prev rune with rune under cursor *)
    if (len line <? 2) || (pos <? 1) then beeped l
    else
      let pos := if pos =? len line then pos - 1 else pos in
      a <- check (index line (pos - 1)) ;;
      b <- check (index line pos) ;;
      let line := firstn (Z.to_nat (pos - 1)) line ++ [b; a]
                  ++ skipn (Z.to_nat (pos + 1)) line in
      redrawn (Loop.set_pos (Loop.set_line l line) (pos + 1))
  else if v =? ctrlL then (* clear screen *)
    eraseScreen ;;; redrawn l
  else if (v =? ctrlH) || (v =? bs) then (* Backspace *)
    if pos <=? 0 then beeped l
    else
      line <- cut line (pos - 1) pos ;;
      redrawn (Loop.set_pos (Loop.set_line l line) (pos - 1))
  else if v =? ctrlU then (* Erase line before cursor *)
    text <- check (slice line 0 pos) ;;
    kill l text 2 ;;;
    let l := Loop.set_killAction l 2 in
    line <- check (slice line pos (len line)) ;;
    redrawn (Loop.set_pos (Loop.set_line l line) 0)
  else if v =? ctrlW then (* Erase word *)
    if pos =? 0 then beeped l
    else
      (* Remove whitespace to the left *)
      '(line, pos, buf) <-
        erase_loop (fun c => negb (IsSpace c)) (S (Z.to_nat pos)) line pos [] ;;
      (* Remove non-whitespace to the left *)
      '(line, pos, buf) <- erase_loop IsSpace (S (Z.to_nat pos)) line pos buf ;;
      (* Invert the buffer and save the result on the killRing *)
      let newBuf := rev buf in
      kill l newBuf 2 ;;;
      let l := Loop.set_killAction l 2 in
      redrawn (Loop.set_pos (Loop.set_line l line) pos)
  else if v =? esc then continue l
  else if beeps v then beeped l
  else
    s <- get ;;
    if (pos =? len line) && (len p + len line <? columns s - 1) then
      let line := line ++ [v] in
      fmt_Print (EncodeRune v) ;;;
      continue (Loop.set_pos (Loop.set_line l line) (pos + 1))
    else
      line <- insertAt line pos v ;;
      redrawn (Loop.set_pos (Loop.set_line l line) (pos + 1)).

(** [case action:] of the same switch. *)
Definition dispatchAction (p : gostring) (v : action) (l : Loop.locals) : M control :=
  let line := Loop.line l in
  let pos := Loop.pos l in
  let beeped (l : Loop.locals) : M Loop.locals := fmt_Print beep ;;; ret l in
  l <- match v with
       | Act.del =>
         if len line <=? pos then beeped l
         else line <- cut line pos (pos + 1) ;; ret (Loop.set_line l line)
       | Act.left =>
         if 0 <? pos then ret (Loop.set_pos l (pos - 1)) else beeped l
       | Act.wordLeft =>
         if 0 <? pos then
           pos <- wordLeft_loop (Z.to_nat pos) line pos ;; ret (Loop.set_pos l pos)
         else beeped l
       | Act.right =>
         if pos <? len line then ret (Loop.set_pos l (pos + 1)) else beeped l
       | Act.wordRight =>
         if pos <? len line then
           pos <- wordRight_loop (Z.to_nat (len line - pos)) line pos ;;
           ret (Loop.set_pos l pos)
         else beeped l
       | Act.up =>
         let l := Loop.set_historyAction l true in
         r <- historyPrev l ;;
         match r with Some l => ret l | None => beeped l end
       | Act.down =>
         let l := Loop.set_historyAction l true in
         r <- historyNext l ;;
         match r with Some l => ret l | None => beeped l end
       | Act.home => ret (Loop.set_pos l 0) (* Start of line *)
       | Act.end_ => ret (Loop.set_pos l (len line)) (* End of line *)
       | _ => ret l
       end ;;
  redraw p l ;;;
  ret (Continue l).

(** The switch on the type of [next]: a value that is neither a rune nor
    an action matches no case. *)
Definition dispatch (p : gostring) (next : iface) (l : Loop.locals) : M control :=
  match next with
  | Rune v => dispatchRune p v l
  | Action v => dispatchAction p v l
  | _ => ret (Continue l)
  end.

(** The bottom of the loop body: the history snapshot is taken again
    unless the key was a history key, and the kill latch counts down. *)
Definition bottom (l : Loop.locals) : M Loop.locals :=
  s <- get ;;
  let l := if negb (Loop.historyAction l) then
             let l := Loop.set_prefixHistory l
                        (getHistoryByPrefix s (string_of_runes (Loop.line l))) in
             Loop.set_historyPos l (len (Loop.prefixHistory l))
           else l in
  ret (if 0 <? Loop.killAction l
       then Loop.set_killAction l (Loop.killAction l - 1) else l).

(** Where a round stands once the key is read and the sub-modes are
    through: at the switch, with the locals and the key to dispatch, or at
    the [return "", err] that follows a sub-mode. *)
Definition pre : Type := (Loop.locals * iface + error)%type.

(** After a sub-mode has handed back line, cursor and next key: [Prompt]
    returns on an error, and goes on otherwise, for the completion and the
    search after a refresh. *)
Definition resume (o : outcome handback) (p : gostring) (l : Loop.locals)
  (again : bool) : outcome pre :=
  match o with
  | Done (_, _, _, Some err) s inp => Done (inr err) s inp
  | Done (line, pos, next, None) s inp =>
    let l := Loop.set_pos (Loop.set_line l line) pos in
    if again then run (redraw p l) s (fun _ s => Done (inl (l, next)) s inp)
    else Done (inl (l, next)) s inp
  | Blocked s => Blocked s
  | Panicked s => Panicked s
  end.

Definition and_then (o : outcome pre)
  (k : Loop.locals -> iface -> State -> list event -> outcome pre)
  : outcome pre :=
  match o with
  | Done (inl (l, next)) s inp => k l next s inp
  | Done (inr err) s inp => Done (inr err) s inp
  | Blocked s => Blocked s
  | Panicked s => Panicked s
  end.

Definition is_rune (next : iface) (r : rune) : bool :=
  match next with Rune key => key =? r | _ => false end.

(** If the key is a tab do autocomplete, and then resume execution. *)
Definition hookTab (p : gostring) (l : Loop.locals) (next : iface) (s : State)
  (inp : list event) : outcome pre :=
  if is_rune next tab
  then resume (tabComplete p (Loop.line l) (Loop.pos l) s inp) p l true
  else Done (inl (l, next)) s inp.

(** If the key is a CtrlY and the kill ring is not empty do yank, for as
    long as yank hands back CtrlY. *)
Definition hookYank (p : gostring) (l : Loop.locals) (next : iface) (s : State)
  (inp : list event) : outcome pre :=
  if is_rune next ctrlY && negb (ring_Len (killRing s) =? 0)
  then resume (yanks p (Loop.line l) (Loop.pos l) s inp) p l false
  else Done (inl (l, next)) s inp.

(** If the key is a CtrlR do reverse intelligent search. *)
Definition hookSearch (p : gostring) (l : Loop.locals) (next : iface)
  (s : State) (inp : list event) : outcome pre :=
  if is_rune next ctrlR
  then resume (reverseISearch (Loop.line l) (Loop.pos l) s inp) p l true
  else Done (inl (l, next)) s inp.

(** The three of them in the order of the loop body, on the key read. *)
Definition hooks (p : gostring) (l : Loop.locals) (next : iface) (s : State)
  (inp : list event) : outcome pre :=
  and_then (and_then (hookTab p l next s inp) (hookYank p)) (hookSearch p).

(** The switch and the bottom of the loop body, which [break] and [return]
    skip. *)
Definition dispatched (p : gostring) (next : iface) (l : Loop.locals) : M control :=
  c <- dispatch p next l ;;
  match c with
  | Continue l => l <- bottom l ;; ret (Continue l)
  | _ => ret c
  end.

(** One round of [mainLoop]: a key is read, the sub-modes take it if it is
    theirs and hand back the key to go on with, and that key is
    dispatched. *)
Definition iteration (p : gostring) (l : Loop.locals) (s : State)
  (inp : list event) : outcome control :=
  let l := Loop.set_historyAction l false in
  match inp with
  | [] => Blocked s
  | Fail err :: inp => Done (Return [] err) s inp
  | Key next :: inp =>
    match hooks p l next s inp with
    | Done (inl (l, next)) s inp =>
      run (dispatched p next l) s (fun c s => Done c s inp)
    | Done (inr err) s inp => Done (Return [] err) s inp
    | Blocked s => Blocked s
    | Panicked s => Panicked s
    end
  end.

(** [mainLoop]: rounds until one breaks or returns.  A round reads a key,
    so a [fuel] beyond the number of events is never used up ([None]). *)
Fixpoint mainLoop (fuel : nat) (p : gostring) (l : Loop.locals) (s : State)
  (inp : list event) : option (outcome (gostring * option error)) :=
  match fuel with
  | O => None
  | S fuel' =>
    match iteration p l s inp with
    | Done (Continue l') s' inp' => mainLoop fuel' p l' s' inp'
    | Done (Break l') s' inp' =>
      Some (Done (string_of_runes (Loop.line l'), None) s' inp')
    | Done (Return line err) s' inp' => Some (Done (line, Some err) s' inp')
    | Blocked s' => Some (Blocked s')
    | Panicked s' => Some (Panicked s')
    end
  end.

(** The locals of [Prompt] when it enters [mainLoop]. *)
Definition initial (s : State) : Loop.locals :=
  let line := [] in
  let prefixHistory := getHistoryByPrefix s (string_of_runes line) in
  Loop.mk line 0 [] prefixHistory (len prefixHistory) false 0.

(** [State.Prompt].  [promptUnsupported], the reader for a terminal
    without line editing, is in the terminal files and comes as a
    parameter. *)
Definition Prompt
  (promptUnsupported : gostring -> State -> list event
                       -> outcome (gostring * option error))
  (p : gostring) (s : State) (inp : list event)
  : option (outcome (gostring * option error)) :=
  if negb (terminalOutput s) then Some (Done ([], Some errNotTerminalOutput) s inp)
  else if negb (terminalSupported s) then Some (promptUnsupported p s inp)
  else
    match (startPrompt ;;; getColumns ;;; fmt_Print p) s with
    | Ret _ s => mainLoop (S (length inp)) p (initial s) s inp
    | Panic s => Some (Panicked s)
    end.

(** ** PasswordPrompt (line.go) *)

(** What [PasswordPrompt] returns as its error: an error of the kinds
    above or, on a terminal without line editing, the error it makes on
    the spot with [errors.New]. *)
Inductive passwordError : Set :=
  | errNotSupported
  | pwError (e : error).

(** The control codes that only beep in [PasswordPrompt]: the unused keys
    and the unhandled codes below 32. *)
Definition passwordBeeps (v : rune) : bool :=
  (v =? esc) || (v =? tab) || (v =? ctrlA) || (v =? ctrlB) || (v =? ctrlE)
  || (v =? ctrlF) || (v =? ctrlG) || (v =? ctrlK) || (v =? ctrlN)
  || (v =? ctrlO) || (v =? ctrlP) || (v =? ctrlQ) || (v =? ctrlR)
  || (v =? ctrlS) || (v =? ctrlT) || (v =? ctrlU) || (v =? ctrlV)
  || (v =? ctrlW) || (v =? ctrlX) || (v =? ctrlY) || (v =? ctrlZ)
  || (v =? 0) || (v =? ctrlC) || inb 28 31 v.

(** [mainLoop] of [PasswordPrompt], with its locals [line] and [pos]: a
    round reads a key; a key that is no rune matches no case of the
    switch. *)
Fixpoint passwordLoop (p : gostring) (line : list rune) (pos : Z) (s : State)
  (inp : list event) : outcome (gostring * option passwordError) :=
  match inp with
  | [] => Blocked s
  | Fail err :: inp' => Done ([], Some (pwError err)) s inp'
  | Key next :: inp' =>
    match next with
    | Rune v =>
      if (v =? cr) || (v =? lf) then
        run (fmt_Print [lf]) s
            (fun _ s => Done (string_of_runes line, None) s inp')
      else if v =? ctrlD then (* del *)
        if (pos =? 0) && (len line =? 0) then
          Done ([], Some (pwError io_EOF)) s inp'
        else run startPrompt s (fun _ s => passwordLoop p line pos s inp')
      else if v =? ctrlL then (* clear screen *)
        run (eraseScreen ;;; refresh p [] 0) s
            (fun _ s => passwordLoop p line pos s inp')
      else if (v =? ctrlH) || (v =? bs) then (* Backspace *)
        if pos <=? 0 then
          run (fmt_Print beep) s (fun _ s => passwordLoop p line pos s inp')
        else
          run (cut line (pos - 1) pos) s
              (fun line s => passwordLoop p line (pos - 1) s inp')
      else if passwordBeeps v then
        run (fmt_Print beep) s (fun _ s => passwordLoop p line pos s inp')
      else
        run (insertAt line pos v) s
            (fun line s => passwordLoop p line (pos + 1) s inp')
    | _ => passwordLoop p line pos s inp'
    end
  end.

(** [State.PasswordPrompt]. *)
Definition PasswordPrompt (p : gostring) (s : State) (inp : list event)
  : outcome (gostring * option passwordError) :=
  if negb (terminalOutput s) then
    Done ([], Some (pwError errNotTerminalOutput)) s inp
  else if negb (terminalSupported s) then Done ([], Some errNotSupported) s inp
  else
    run (startPrompt ;;; getColumns ;;; fmt_Print p) s
        (fun _ s => passwordLoop p [] 0 s inp).

(** * Notions the statements are written with *)

(** What [WriteHistory] writes for the entries [h]: each followed by LF. *)
Definition history_file (h : list gostring) : list byte :=
  flat_map (fun item => item ++ [lf]) h.

(** The entries that come back from the file as they went in: no LF
    inside, valid UTF-8, a line that fits the buffer of the reader with
    its LF, and no CR at the end, which [ReadLine] would take for a part of
    the line end. *)
Definition storable (e : gostring) : Prop :=
  ~ In lf e /\ Valid e = true /\ (length e < defaultBufSize)%nat
  /\ last e 0 <> cr.

(** The round trip as the claim has it, for entries that are free of LF,
    valid UTF-8 and short enough: what [WriteHistory] wrote for [h] into an
    empty buffer, read by [ReadHistory] into a state with no history, is [h]
    again, and both calls count [len h]. *)
Definition roundtrip (h : list gostring) : Prop :=
  forall s s0 : State,
  history s = h -> history s0 = [] ->
  exists w : list byte,
    WriteHistory s [] = (w, len h, None)
    /\ ReadHistory s0 (mkReader w io_EOF) = Some (set_history s0 h, len h, None).

(** No two consecutive entries are equal. *)
Fixpoint distinct_neighbours (h : list gostring) : Prop :=
  match h with
  | a :: (b :: _) as t => a <> b /\ distinct_neighbours t
  | _ => True
  end.

(** The newest [HistoryLimit] entries of [h]: the oldest go first. *)
Definition evict (h : list gostring) : list gostring :=
  skipn (length h - Z.to_nat HistoryLimit) h.

(** The line that the bytes [raw] before an LF make: a CR at their end
    belongs to the line end. *)
Definition chomp (raw : list byte) : gostring :=
  if last raw 0 =? cr then removelast raw else raw.

(** What reading takes from an input whose bytes before each LF are
    [raws], with [rest] after the last LF, from a reader that ends with
    [err]: the lines in their order, each as it stands without its line
    end, up to the first one that does not end within the 4096 bytes of
    the buffer or is no valid UTF-8; the error says which line that was.
    A last line without LF counts as a line.  At the end of the input the
    error is that of the reader, none for [io.EOF]; [bufio.ErrBufferFull]
    from the reader is taken for a full buffer.  No line is compared with
    another. *)
Fixpoint lines_read (raws : list (list byte)) (rest : list byte) (err : error)
  (num : Z) : list gostring * option error :=
  match raws with
  | raw :: raws' =>
    if (defaultBufSize <=? length raw)%nat
    then ([], Some (errLineTooLong (num + 1)))
    else if negb (Valid (chomp raw)) then ([], Some (errInvalidString (num + 1)))
    else let '(lines, e) := lines_read raws' rest err (num + 1) in
         (chomp raw :: lines, e)
  | [] =>
    let full := match err with ErrBufferFull => true | _ => false end in
    if (defaultBufSize <=? length rest)%nat || full
    then ([], Some (errLineTooLong (num + 1)))
    else
      let e := if is_EOF err then None else Some err in
      match rest with
      | [] => ([], e)
      | _ :: _ =>
        if negb (Valid rest) then ([], Some (errInvalidString (num + 1)))
        else ([rest], e)
      end
  end.

(** The last line of an input, which may lack its LF. *)
Definition unterminated (e : gostring) : list gostring :=
  match e with [] => [] | _ :: _ => [e] end.

(** A line of the input that [ReadHistory] takes: the bytes before an LF,
    fewer than the reader's buffer holds, and valid UTF-8 once the CR that
    may end them is dropped. *)
Definition readable (raw : list byte) : Prop :=
  ~ In lf raw /\ (length raw < defaultBufSize)%nat /\ Valid (chomp raw) = true.

(** The state after the operations [ops] reached the terminal. *)
Definition emits (s : State) (ops : list termop) : State :=
  mkState (terminalSupported s) (terminalOutput s) (history s) (completer s)
          (columns s) (killRing s) (out s ++ ops) (stdoutErr s) (termWidth s).

(** The window of the spec: centred on [pos], pulled to the right edge and
    then to the left edge of the buffer. *)
Definition window (cols pLen bLen pos : Z) : Z * Z :=
  let space := cols - pLen - 1 in
  let start := pos - space / 2 in
  let end_ := start + space in
  let '(start, end_) := if bLen <? end_ then (bLen - space, bLen) else (start, end_) in
  if start <? 0 then (0, space) else (start, end_).

(** What the spec has [refresh] send for a buffer that does not fit: the
    prompt, the markers next to a cut, the runes of the window without the
    column of each marker, and the cursor at [pLen + (pos - start)], where
    [start] is the start of the window before a marker took its column. *)
Definition viewport (cols : Z) (prompt buf : gostring) (pos : Z) : list termop :=
  let pLen := RuneCountInString (stripAnsiColorSequences prompt) in
  let bLen := RuneCountInString buf in
  let '(start, end_) := window cols pLen bLen pos in
  let first := if 0 <? start then start + 1 else start in
  let last := if end_ <? bLen then end_ - 1 else end_ in
  [CursorPos 0; Print prompt]
  ++ (if 0 <? start then [Print (str "{")] else [])
  ++ [Print (string_of_runes
               (firstn (Z.to_nat (last - first)) (skipn (Z.to_nat first) (runes buf))))]
  ++ (if end_ <? bLen then [Print (str "}")] else [])
  ++ [EraseLine; CursorPos (pLen + (pos - start))].

(** The same with the cursor where the words of the claim put it: at
    [pLen + (pos - start)] for the [start] the window is cut at, which is
    the start moved past the left marker. *)
Definition stated_viewport (cols : Z) (prompt buf : gostring) (pos : Z)
  : list termop :=
  let pLen := RuneCountInString (stripAnsiColorSequences prompt) in
  let bLen := RuneCountInString buf in
  let '(start, end_) := window cols pLen bLen pos in
  let first := if 0 <? start then start + 1 else start in
  let last := if end_ <? bLen then end_ - 1 else end_ in
  [CursorPos 0; Print prompt]
  ++ (if 0 <? start then [Print (str "{")] else [])
  ++ [Print (string_of_runes
               (firstn (Z.to_nat (last - first)) (skipn (Z.to_nat first) (runes buf))))]
  ++ (if end_ <? bLen then [Print (str "}")] else [])
  ++ [EraseLine; CursorPos (pLen + (pos - first))].

(** C6 as the claim states it, for a terminal that takes the output. *)
Definition renders_window (s : State) (prompt buf : gostring) (pos : Z) : Prop :=
  stdoutErr s = None ->
  columns s <= RuneCountInString (stripAnsiColorSequences prompt)
               + RuneCountInString buf ->
  refresh prompt buf pos s
  = Ret None (emits s (stated_viewport (columns s) prompt buf pos)).

(** The state a call leaves, returned or panicked. *)
Definition after {A : Type} (r : result A) : State :=
  match r with Ret _ s | Panic s => s end.

(** A call that does nothing to the state but write to the terminal. *)
Definition writes {A : Type} (m : M A) : Prop :=
  forall s : State, exists ops : list termop, after (m s) = emits s ops.

(** On a terminal with two columns to spare after the prompt and the
    cursor, [refresh] returns whatever the buffer. *)
Definition roomy (p : gostring) (s : State) : Prop :=
  2 <= columns s - RuneCountInString (stripAnsiColorSequences p) - 1.

(** [wp m s Q]: the result of the call [m] in the state [s] satisfies [Q]. *)
Definition wp {A : Type} (m : M A) (s : State) (Q : result A -> Prop) : Prop :=
  Q (m s).

(** A new node after the current one, and the pointer on it; on a full
    ring no node is made: the node after the current one takes the text. *)
Definition pushed (r : Ring) (text : list rune) : Ring :=
  match r with
  | [] => [Some text]
  | v :: t =>
    if KillRingMax <=? len r
    then match t ++ [v] with [] => [] | _ :: t' => Some text :: t' end
    else Some text :: t ++ [v]
  end.

(** The text joined to the current node: after it ([mode] 1) or before it
    ([mode] 2). *)
Definition joined (r : Ring) (text : list rune) (mode : Z) : Ring :=
  match r with
  | [] => [Some text]
  | Some v :: t => Some (if mode =? 1 then v ++ text else text ++ v) :: t
  | None :: t => None :: t
  end.

(** Every node holds a text: no [Value] is nil. *)
Definition filled (r : Ring) : Prop := Forall (fun v => v <> None) r.

Definition bounded (r : Ring) : Prop := len r <= KillRingMax.

(** Every node holds a text that is not empty. *)
Definition segments_nonempty (r : Ring) : Prop :=
  Forall (fun v => exists t, v = Some t /\ t <> []) r.

(** The ring of a state that [addToKillRing] may leave: within the bound,
    every node holding a text. *)
Definition ring_ok (s : State) : Prop :=
  bounded (killRing s) /\ filled (killRing s).

(** [touched s s']: [s'] is [s] but for the terminal trace and the kill
    ring, and the ring of [s'] is in order if that of [s] is. *)
Definition touched (s s' : State) : Prop :=
  exists (r : Ring) (ops : list termop),
    s' = emits (set_killRing s r) ops /\ (ring_ok s -> bounded r /\ filled r).

(** The state a call that reads keys leaves. *)
Definition final {A : Type} (o : outcome A) : State :=
  match o with Done _ s _ | Blocked s | Panicked s => s end.

(** What every sub-mode keeps to, from a state [s0] and events [inp]: it
    changes the trace and the ring only, it hands back events of [inp], and
    an error is one that [readNext] reported. *)
Definition sane (s0 : State) (inp : list event) (o : outcome handback) : Prop :=
  touched s0 (final o)
  /\ match o with
     | Done (_, _, _, err) _ rest =>
       (exists used, inp = used ++ rest)
       /\ (forall e, err = Some e -> In (Fail e) inp)
     | _ => True
     end.

(** The same for the hooks: an error at their end is one that [readNext]
    reported. *)
Definition psane (s0 : State) (inp : list event) (o : outcome pre) : Prop :=
  touched s0 (final o)
  /\ match o with
     | Done x _ rest =>
       (exists used, inp = used ++ rest)
       /\ match x with inr e => In (Fail e) inp | inl _ => True end
     | _ => True
     end.

(** The switch hands out [Return] for one key in one state: CTRL-D on an
    empty line with the cursor at 0, and then it is [io.EOF] with nothing
    written. *)
Definition eof_key (next : iface) (l : Loop.locals) : Prop :=
  next = Rune ctrlD /\ Loop.pos l = 0 /\ Loop.line l = [].

(** A round: where it leaves the state and the events, and what a
    [Return] of it comes from. *)
Definition round_sane (p : gostring) (s0 : State) (inp : list event)
  (o : outcome control) : Prop :=
  touched s0 (final o)
  /\ match o with
     | Done c _ rest =>
       (exists used, used <> [] /\ inp = used ++ rest)
       /\ match c with
          | Return line err => line = [] /\ (In (Fail err) inp \/ err = io_EOF)
          | _ => True
          end
     | _ => True
     end.

(** The ring after the texts [ts] were killed one by one, each as a node of
    its own, from the empty ring: the newest text under the pointer, then
    the 59 texts before it, oldest first. *)
Definition ring_of (ts : list (list rune)) : Ring :=
  match rev ts with
  | [] => []
  | newest :: older => Some newest :: map Some (rev (firstn 59 older))
  end.

(** A reader for terminals without line editing that gives up at once. *)
Definition noFallback (p : gostring) (s : State) (inp : list event)
  : outcome (gostring * option error) := Blocked s.

(** The keys that fill the ring with the texts "A", "B", ... of one rune
    each: the rune, then CTRL-U. *)
Definition sixty_kills : list event :=
  flat_map (fun i => [Key (Rune (65 + Z.of_nat i)); Key (Rune ctrlU)]) (seq 0 60).

(** The rounds of the main loop: from the head of the loop with locals,
    state and unread events to the head of the loop some rounds later. *)
Inductive reaches (p : gostring)
  : Loop.locals * State * list event -> Loop.locals * State * list event -> Prop :=
  | reaches_here : forall x, reaches p x x
  | reaches_round : forall l s inp l1 s1 inp1 y,
      iteration p l s inp = Done (Continue l1) s1 inp1 ->
      reaches p (l1, s1, inp1) y ->
      reaches p (l, s, inp) y.

(** A round that reads [next], gets CTRL-D back from the sub-modes as the
    key to dispatch, and has an empty line with the cursor at 0 by then. *)
Definition eof_round (p : gostring) (l : Loop.locals) (s : State)
  (inp : list event) (s' : State) (rest : list event) : Prop :=
  exists next inp1 l1,
    inp = Key next :: inp1
    /\ hooks p (Loop.set_historyAction l false) next s inp1
       = Done (inl (l1, Rune ctrlD)) s' rest
    /\ Loop.pos l1 = 0 /\ Loop.line l1 = [].

(** A round that ends because a read of a key fails with [io.EOF]: the
    read at the head of the round, or a read inside a sub-mode, which
    hands the error back. *)
Definition read_eof_round (p : gostring) (l : Loop.locals) (s : State)
  (inp : list event) (s' : State) (rest : list event) : Prop :=
  (inp = Fail io_EOF :: rest /\ s' = s)
  \/ exists next inp1,
       inp = Key next :: inp1
       /\ hooks p (Loop.set_historyAction l false) next s inp1
          = Done (inr io_EOF) s' rest.

(** The state in which [Prompt] enters its loop. *)
Definition entered (p : gostring) (s : State) : State :=
  after ((startPrompt ;;; getColumns ;;; fmt_Print p) s).

(** C7 as the specification states it, for one session: [Prompt] ends
    with [io.EOF] exactly when it reaches a round that dispatches CTRL-D
    on an empty line with the cursor at 0. *)
Definition eof_iff_ctrlD
  (promptUnsupported : gostring -> State -> list event
                       -> outcome (gostring * option error))
  (p : gostring) (s : State) (inp : list event) : Prop :=
  forall line s' rest,
    Prompt promptUnsupported p s inp = Some (Done (line, Some io_EOF) s' rest)
    <-> line = []
        /\ exists l0 s0 inp0,
             reaches p (initial (entered p s), entered p s, inp) (l0, s0, inp0)
             /\ eof_round p l0 s0 inp0 s' rest.

Definition is_up (k : iface) : Prop := k = Action Act.up \/ k = Rune ctrlP.
Definition is_down (k : iface) : Prop := k = Action Act.down \/ k = Rune ctrlN.

(** The locals after a history key has been dispatched: the key marked the
    round as a history round, so the bottom of the body only counts the
    kill latch down. *)
Definition settled (l : Loop.locals) : Loop.locals :=
  let l := Loop.set_historyAction l true in
  if 0 <? Loop.killAction l then Loop.set_killAction l (Loop.killAction l - 1) else l.

(** One step towards the oldest entry of the snapshot, if there is one. *)
Definition older (l : Loop.locals) : Loop.locals :=
  if 0 <? Loop.historyPos l then
    let e := if Loop.historyPos l =? len (Loop.prefixHistory l)
             then string_of_runes (Loop.line l) else Loop.historyEnd l in
    let line := runes (nth (Z.to_nat (Loop.historyPos l - 1)) (Loop.prefixHistory l) []) in
    Loop.mk line (len line) e (Loop.prefixHistory l) (Loop.historyPos l - 1)
            (Loop.historyAction l) (Loop.killAction l)
  else l.

(** One step towards the line in progress. *)
Definition newer (l : Loop.locals) : Loop.locals :=
  if Loop.historyPos l <? len (Loop.prefixHistory l) then
    let line := if Loop.historyPos l + 1 =? len (Loop.prefixHistory l)
                then runes (Loop.historyEnd l)
                else runes (nth (Z.to_nat (Loop.historyPos l + 1))
                                (Loop.prefixHistory l) []) in
    Loop.mk line (len line) (Loop.historyEnd l) (Loop.prefixHistory l)
            (Loop.historyPos l + 1) (Loop.historyAction l) (Loop.killAction l)
  else l.

(** While the history keys are pressed: the snapshot stays, the cursor in
    it stays within its bounds, the line in progress [l0] is the line at the
    end of the snapshot and is saved as soon as the cursor leaves the end.
    [m] says that a step has been taken; from then on the cursor of the
    line is at its end. *)
Definition navigating (l0 : Loop.locals) (m : bool) (l : Loop.locals) : Prop :=
  let H := len (Loop.prefixHistory l0) in
  Loop.prefixHistory l = Loop.prefixHistory l0
  /\ 0 <= Loop.historyPos l <= H
  /\ (Loop.historyPos l = H -> Loop.line l = Loop.line l0)
  /\ (Loop.historyPos l < H -> Loop.historyEnd l = string_of_runes (Loop.line l0))
  /\ (m = true -> Loop.pos l = len (Loop.line l))
  /\ (m = false -> Loop.pos l = Loop.pos l0 /\ Loop.historyPos l = H).

(** The head of the loop after [n] rounds, if every one of them went on to
    the next. *)
Fixpoint rounds (n : nat) (p : gostring) (l : Loop.locals) (s : State)
  (inp : list event) : option (Loop.locals * State * list event) :=
  match n with
  | O => Some (l, s, inp)
  | S n' =>
    match iteration p l s inp with
    | Done (Continue l') s' inp' => rounds n' p l' s' inp'
    | _ => None
    end
  end.

(** Line and cursor after [n] rounds of a session on the events [inp]. *)
Definition line_after (n : nat) (p : gostring) (s : State) (inp : list event)
  : option (list rune * Z) :=
  match rounds n p (initial (entered p s)) (entered p s) inp with
  | Some (l, _, _) => Some (Loop.line l, Loop.pos l)
  | None => None
  end.

(** [sep] stands in [s] at the byte offset [i]. *)
Definition occurs_at (s sep : gostring) (i : Z) : Prop :=
  exists a b, s = a ++ sep ++ b /\ len a = i.

(** The [default] case of the switch on the rune in [reverseISearch]: the
    rune is none of the constants of the other cases. *)
Definition search_types (r : rune) : bool :=
  negb ((r =? ctrlR) || (r =? ctrlS) || (r =? ctrlH) || (r =? bs)
        || (r =? ctrlG) || search_commits r).

(** The history entries that hold [pattern], in the order of the history. *)
Definition matches (s : State) (pattern : gostring) : list gostring :=
  filter (fun h => 0 <=? Index h pattern) (history s).

(** The locals of the search once [r] is typed at the end of the
    pattern. *)
Definition typed (s : State) (r : rune) (v : Search.locals) : Search.locals :=
  let line := Search.line v ++ [r] in
  let pattern := string_of_runes line in
  let found := matches s pattern in
  Search.mk line (len line) (last found [])
    (match found with [] => 0 | _ :: _ => Index (last found []) pattern end)
    found (map (fun h => Index h pattern) found) (len found - 1).

(** The history of the example. *)
Definition make_history : State :=
  set_history (newState 80) [str "make build"; str "make test"].

(** The prompt [reverseISearch] starts with. *)
Definition searchPrompt : gostring := str "(reverse-i-search)`': ".

(** The locals [reverseISearch] enters its loop with: no pattern, nothing
    found, and [historyPos] at [len(history) - 1] of an empty list. *)
Definition search_start : Search.locals := Search.mk [] 0 [] 0 [] [] (-1).

(** The keys that leave the search with the found line. *)
Definition commits (k : iface) : bool :=
  match k with
  | Rune r => search_commits r
  | Action _ => true
  | _ => false
  end.

(** The keys that neither leave the search nor go into the pattern. *)
Definition idles (k : iface) : bool :=
  match k with
  | Rune r => (r =? ctrlR) || (r =? ctrlS) || (r =? ctrlH) || (r =? bs)
  | Action _ => false
  | _ => true
  end.

(** The keys that leave the search: the committing ones and CTRL-G. *)
Definition leaves (k : iface) : bool := commits k || is_rune k ctrlG.

Definition is_shiftTab (k : iface) : bool :=
  match k with Action Act.shiftTab => true | _ => false end.

(** The line and the cursor a key other than TAB, SHIFT-TAB and ESC leaves
    the completion with. *)
Definition committed (head pick tail : gostring) : list rune * Z :=
  (runes (head ++ pick ++ tail),
   RuneCountInString head + RuneCountInString pick).

(** The completer of the example, and a state that has it. *)
Definition abc_completer : WordCompleter :=
  fun _ _ => ([], [str "abcdef"; str "abcxyz"], []).

Definition abc_state : State := SetWordCompleter (newState 80) (Some abc_completer).

(** The keys on which the switch of [Prompt] calls [addToKillRing]: CTRL-K
    before the end of the line, CTRL-U, and CTRL-W after the start of the
    line. *)
Definition killing (k : iface) (l : Loop.locals) : bool :=
  match k with
  | Rune v =>
    ((v =? ctrlK) && (Loop.pos l <? len (Loop.line l)))
    || (v =? ctrlU)
    || ((v =? ctrlW) && negb (Loop.pos l =? 0))
  | _ => false
  end.

(** A call of the switch that leaves the latch and the ring alone. *)
Definition kept (l : Loop.locals) (s0 : State) (r : result control) : Prop :=
  match r with
  | Ret (Continue l') s' =>
    Loop.killAction l' = Loop.killAction l
    /\ killRing s' = killRing s0 /\ columns s' = columns s0
  | Ret _ s' => killRing s' = killRing s0
  | Panic _ => True
  end.

(** The latch once the bottom of the loop body is through. *)
Definition counted (n : Z) : Z := if 0 <? n then n - 1 else n.

(** What CTRL-K and CTRL-U do to the ring: a node of its own without the
    latch, the text after ([mode] 1) or before ([mode] 2) the text of the
    current node with it. *)
Definition killed (latch : Z) (r : Ring) (text : list rune) (mode : Z) : Ring :=
  if 0 <? latch then joined r text mode else pushed r text.

(** The keys of a session at the prompt [> ] on a terminal of 80 columns,
    and the line and the ring it ends with. *)
Definition session (keys : list rune) : option (gostring * Ring) :=
  match Prompt (fun _ s _ => Blocked s) (str "> ") (newState 80)
               (map (fun r => Key (Rune r)) keys) with
  | Some (Done (line, None) s _) => Some (line, killRing s)
  | _ => None
  end.

(** What [PasswordPrompt] may send to the terminal for the prompt [p]: no
    text but the prompt, the newline, the bell and the empty string. *)
Definition discreet (p : gostring) (op : termop) : Prop :=
  match op with
  | Print x => x = p \/ x = [lf] \/ x = beep \/ x = []
  | _ => True
  end.

(** The line of [PasswordPrompt] after a key that neither ends the input
    nor is CTRL-D: a backspace takes the last rune off, a control code
    changes nothing, any other rune goes to the end. *)
Definition password_key (line : list rune) (k : iface) : list rune :=
  match k with
  | Rune v =>
    if (v =? ctrlH) || (v =? bs) then removelast line
    else if inb 0 31 v then line
    else line ++ [v]
  | _ => line
  end.

(** The keys that end the input of a password, CR and LF, and CTRL-D. *)
Definition password_ends (k : iface) : bool :=
  is_rune k cr || is_rune k lf || is_rune k ctrlD.

(** A rune that goes into the password: no control code. *)
Definition password_rune (v : rune) : bool := negb (inb 0 31 v) && negb (v =? bs).

(** The events with every rune of the password replaced by an asterisk. *)
Definition masked (ev : event) : event :=
  match ev with
  | Key (Rune v) => if password_rune v then Key (Rune 42) else ev
  | _ => ev
  end.

(** The runes the switch of [Prompt] puts into the line, its [default]
    case: no control code. *)
Definition inserts (v : rune) : bool := negb (inb 0 31 v) && negb (v =? bs).

(** The line with [v] put in at [pos]. *)
Definition inserted (line : list rune) (pos : Z) (v : rune) : list rune :=
  firstn (Z.to_nat pos) line ++ [v] ++ skipn (Z.to_nat pos) line.

(** The line with the rune before [pos] taken out. *)
Definition erased (line : list rune) (pos : Z) : list rune :=
  firstn (Z.to_nat (pos - 1)) line ++ skipn (Z.to_nat pos) line.

(** The keys on which [yank] returns: every rune, and every action but
    ALT-Y. *)
Definition leaves_yank (k : iface) : bool :=
  match k with
  | Rune _ => true
  | Action Act.altY => false
  | Action _ => true
  | _ => false
  end.

(** The text at the pointer of a ring, the empty text for a ring without
    one. *)
Definition ring_text (r : Ring) : list rune :=
  match ring_Value r with Some v => v | None => [] end.

(** The line with [text] put in at [pos]. *)
Definition yanked (line : list rune) (pos : Z) (text : list rune) : list rune :=
  firstn (Z.to_nat pos) line ++ text ++ skipn (Z.to_nat pos) line.


(** The lines of [h] that lie within the first [n] bytes of its file, of
    which there are [k]: one more would not fit. *)
Definition whole_lines (h : list gostring) (n k : nat) : Prop :=
  (k <= length h)%nat
  /\ (length (history_file (firstn k h)) <= n)%nat
  /\ (k = length h \/ (n < length (history_file (firstn (S k) h)))%nat).

(** What the locals of [Prompt] keep to between two rounds: the cursor is
    in the line or at its end, and the place in the history snapshot is in
    the snapshot or at its end. *)
Definition in_line (l : Loop.locals) : Prop :=
  0 <= Loop.pos l <= len (Loop.line l)
  /\ 0 <= Loop.historyPos l <= len (Loop.prefixHistory l).

Definition in_line_after (c : control) : Prop :=
  match c with
  | Continue l | Break l => in_line l
  | Return _ _ => True
  end.

(** A call returns, with a value of which [Q] holds, in a state that
    differs from [s0] in the trace and the ring only. *)
Definition returns {A : Type} (s0 : State) (Q : A -> Prop) (r : result A) : Prop :=
  match r with
  | Ret a s => touched s0 s /\ Q a
  | Panic _ => False
  end.

(** The events of a session without reverse search. *)
Definition no_search (ev : event) : Prop := ev <> Key (Rune ctrlR).

(** The locals at the head of a round that follows a key which was no
    history key: the snapshot holds the entries that begin with the line,
    and the place in it is its end. *)
Definition fresh_snapshot (l : Loop.locals) (s : State) : Prop :=
  Loop.prefixHistory l = getHistoryByPrefix s (string_of_runes (Loop.line l))
  /\ Loop.historyPos l = len (Loop.prefixHistory l).

(** What up leaves in the line: the newest entry of the history that
    begins with the line, and the line itself when there is none. *)
Definition recalled (h : list gostring) (line : list rune) : list rune :=
  match rev (filter (fun e => HasPrefix e (string_of_runes line)) h) with
  | e :: _ => runes e
  | [] => line
  end.

(** Empty, or ending in white space. *)
Definition ends_in_space (a : list rune) : Prop :=
  a = [] \/ exists a' c, a = a' ++ [c] /\ IsSpace c = true.

(** Empty, or beginning with white space. *)
Definition begins_with_space (b : list rune) : Prop :=
  b = [] \/ exists c b', b = c :: b' /\ IsSpace c = true.

(** A line of ASCII runes: its string has one byte for each rune. *)
Definition ascii_line (line : list rune) : Prop :=
  Forall (fun r => 0 <= r <= 127) line.

(** The keys that end a completion with the candidate on display. *)
Definition picks_candidate (k : iface) : bool :=
  negb (is_rune k tab) && negb (is_shiftTab k) && negb (is_rune k esc).

(** The locals of the search once the runes [rs] are typed one after the
    other. *)
Definition typed_all (s : State) (rs : list rune) (v : Search.locals)
  : Search.locals :=
  fold_left (fun v r => typed s r v) rs v.

(** * Properties *)

(** ** Lists, slices and UTF-8 *)

Lemma len_app {A : Type} (a b : list A) : len (a ++ b) = len a + len b.
Proof. unfold len. rewrite length_app. lia. Qed.

Lemma len_nonneg {A : Type} (a : list A) : 0 <= len a.
Proof. unfold len. lia. Qed.

Lemma slice_prefix {A : Type} (l : list A) (n : Z) :
  0 <= n <= len l -> slice l 0 n = Some (firstn (Z.to_nat n) l).
Proof.
  intros H. unfold slice.
  replace ((0 <=? 0) && (0 <=? n) && (n <=? len l)) with true
    by (symmetry; rewrite !andb_true_iff, !Z.leb_le; lia).
  rewrite Z.sub_0_r. reflexivity.
Qed.

Lemma slice_suffix {A : Type} (l : list A) (n : Z) :
  0 <= n <= len l -> slice l n (len l) = Some (skipn (Z.to_nat n) l).
Proof.
  intros H. unfold slice.
  replace ((0 <=? n) && (n <=? len l) && (len l <=? len l)) with true
    by (symmetry; rewrite !andb_true_iff, !Z.leb_le; lia).
  f_equal. apply firstn_all2. rewrite length_skipn. unfold len in *. lia.
Qed.

Lemma slice_app {A : Type} (a b : list A) :
  slice (a ++ b) 0 (len a) = Some a /\ slice (a ++ b) (len a) (len (a ++ b)) = Some b.
Proof.
  pose proof (len_nonneg a). pose proof (len_nonneg b).
  rewrite slice_prefix, slice_suffix by (rewrite len_app; lia).
  unfold len. rewrite Nat2Z.id, firstn_app, skipn_app, Nat.sub_diag, firstn_all, skipn_all.
  simpl. rewrite app_nil_r. auto.
Qed.

(** Deciding a test of the decoder from the range of its argument. *)
Ltac range_test :=
  unfold inb; rewrite ?andb_true_iff, ?orb_true_iff, ?andb_false_iff,
    ?orb_false_iff, ?negb_true_iff, ?negb_false_iff, ?Z.leb_le, ?Z.ltb_lt,
    ?Z.leb_gt, ?Z.ltb_ge, ?Z.eqb_eq, ?Z.eqb_neq;
  repeat match goal with
         | |- context [ ?a / ?b ] => progress (pose proof (Z.div_mod a b ltac:(lia));
             pose proof (Z.mod_pos_bound a b ltac:(lia)); generalize dependent (a / b);
             generalize dependent (a mod b); intros)
         end; lia.

Lemma ValidRune_range (r : rune) :
  ValidRune r = true <-> 0 <= r < 55296 \/ 57343 < r <= MaxRune.
Proof.
  unfold ValidRune.
  rewrite orb_true_iff, !andb_true_iff, !Z.leb_le, !Z.ltb_lt. tauto.
Qed.

Lemma EncodeRune_cases (r : rune) :
  ValidRune r = true ->
  (0 <= r <= 127 /\ EncodeRune r = [r])
  \/ (128 <= r <= 2047 /\ EncodeRune r = [192 + r / 64; 128 + r mod 64])
  \/ (2048 <= r <= 65535 /\ (r < 55296 \/ 57343 < r) /\
      EncodeRune r = [224 + r / 4096; 128 + (r / 64) mod 64; 128 + r mod 64])
  \/ (65536 <= r <= MaxRune /\
      EncodeRune r = [240 + r / 262144; 128 + (r / 4096) mod 64;
                      128 + (r / 64) mod 64; 128 + r mod 64]).
Proof.
  intros H. apply ValidRune_range in H. unfold MaxRune in *. unfold EncodeRune, MaxRune.
  destruct (Z.ltb_spec r 0); [lia|].
  destruct (Z.leb_spec r 127); [left; split; [lia|reflexivity]|].
  destruct (Z.leb_spec r 2047); [right; left; split; [lia|reflexivity]|].
  destruct (Z.ltb_spec 1114111 r); [lia|].
  destruct (Z.leb_spec 55296 r), (Z.leb_spec r 57343); simpl; try lia;
    (destruct (Z.leb_spec r 65535);
     [right; right; left; repeat split; (lia || reflexivity)
     |right; right; right; repeat split; (lia || reflexivity)]).
Qed.

Ltac btest := unfold inb in *; Z.div_mod_to_equations; lia.

(** Settle the next test of the goal: by its value when the context fixes
    it, by cases otherwise. *)
Ltac decide_if :=
  match goal with
  | |- context [if ?c then _ else _] =>
    first [ replace c with true by (symmetry; btest)
          | replace c with false by (symmetry; btest)
          | destruct c eqn:? ]
  end.

Lemma DecodeRune_EncodeRune (r : rune) (s : gostring) :
  ValidRune r = true ->
  DecodeRune (EncodeRune r ++ s) = (r, length (EncodeRune r)).
Proof.
  intros H.
  destruct (EncodeRune_cases r H) as [[R E]|[[R E]|[[R [V E]]|[R E]]]];
    rewrite E; unfold MaxRune in *; cbn [app length DecodeRune].
  - decide_if. reflexivity.
  - decide_if. unfold first.
    repeat (decide_if; cbv beta iota; cbn [negb Nat.eqb]).
    f_equal; btest.
  - decide_if. unfold first.
    repeat (decide_if; cbv beta iota; cbn [negb Nat.eqb]).
    all: first [f_equal; btest | exfalso; btest].
  - decide_if. unfold first.
    repeat (decide_if; cbv beta iota; cbn [negb Nat.eqb]).
    all: first [f_equal; btest | exfalso; btest].
Qed.

Lemma EncodeRune_nonempty (r : rune) : (1 <= length (EncodeRune r))%nat.
Proof.
  unfold EncodeRune.
  repeat match goal with |- context [if ?c then _ else _] => destruct c end;
    simpl; lia.
Qed.

Lemma DecodeRune_size (b : byte) (s : gostring) :
  (1 <= snd (DecodeRune (b :: s)))%nat.
Proof.
  unfold DecodeRune.
  repeat match goal with
         | |- context [if ?c then _ else _] => destruct c
         | |- context [match ?x with _ => _ end] => destruct x
         end; simpl; lia.
Qed.

Lemma runes_loop_enough (n m : nat) (s : gostring) :
  (length s <= n)%nat -> (length s <= m)%nat -> runes_loop n s = runes_loop m s.
Proof.
  revert m s. induction n as [|n IH]; intros m s Hn Hm.
  - destruct s; [|simpl in Hn; lia]. destruct m; reflexivity.
  - destruct s as [|b t]; [destruct m; reflexivity|].
    destruct m as [|m]; [simpl in Hm; lia|].
    cbn [runes_loop].
    pose proof (DecodeRune_size b t) as Hs.
    destruct (DecodeRune (b :: t)) as [r size]. cbn [snd] in Hs.
    f_equal. apply IH; rewrite length_skipn; cbn [length] in *; lia.
Qed.

Lemma runes_EncodeRune_app (r : rune) (s : gostring) :
  ValidRune r = true -> runes (EncodeRune r ++ s) = r :: runes s.
Proof.
  intros H. unfold runes.
  pose proof (EncodeRune_nonempty r) as Hne.
  destruct (EncodeRune r ++ s) as [|b t] eqn:E.
  - apply (f_equal (@length _)) in E. rewrite length_app in E. simpl in E. lia.
  - cbn [length runes_loop]. rewrite <- E, DecodeRune_EncodeRune by assumption.
    f_equal. rewrite skipn_app, skipn_all, Nat.sub_diag. simpl.
    apply runes_loop_enough; [|lia].
    apply (f_equal (@length _)) in E. rewrite length_app in E. simpl in E. lia.
Qed.

(** [[]rune(string(l))] is [l] when [l] holds valid runes only. *)
Lemma runes_string_of_runes (l : list rune) :
  Forall (fun r => ValidRune r = true) l -> runes (string_of_runes l) = l.
Proof.
  induction 1 as [|r l Hr Hl IH]; [reflexivity|].
  cbn [string_of_runes flat_map]. rewrite runes_EncodeRune_app by assumption.
  f_equal. exact IH.
Qed.

(** ** History: writing and reading back *)

Lemma WriteHistory_loop_buffer (h : list gostring) (w : list byte) (num : Z) :
  WriteHistory_loop h w num = (w ++ history_file h, num + len h, None).
Proof.
  revert w num. induction h as [|item h IH]; intros w num.
  - cbn. rewrite app_nil_r. f_equal. f_equal. unfold len. simpl. lia.
  - cbn [WriteHistory_loop Fprintln Write buffer_Writer].
    rewrite IH. cbn [history_file flat_map]. rewrite <- !app_assoc.
    f_equal. f_equal. unfold len. cbn [length]. lia.
Qed.

Lemma IndexByte_app (e rest : list byte) (c : byte) :
  ~ In c e -> IndexByte (e ++ c :: rest) c = Some (length e).
Proof.
  induction e as [|b e IH]; intros H; cbn [app IndexByte length].
  - rewrite Z.eqb_refl. reflexivity.
  - destruct (Z.eqb_spec b c) as [->|_]; [exfalso; apply H; left; reflexivity|].
    rewrite IH; [reflexivity|]. intros Hin. apply H. right. exact Hin.
Qed.

Lemma IndexByte_firstn (e rest : list byte) (c : byte) (size : nat) :
  ~ In c e -> (length e < size)%nat ->
  IndexByte (firstn size (e ++ c :: rest)) c = Some (length e).
Proof.
  intros H L.
  replace size with (length e + S (size - S (length e)))%nat by lia.
  rewrite firstn_app_2. cbn [firstn]. apply IndexByte_app. exact H.
Qed.

(** An entry free of LF that fits the buffer and does not end in CR comes
    back from [ReadLine] as it was written. *)
Lemma ReadLine_entry (size : nat) (e rest : list byte) (err : error) :
  ~ In lf e -> (length e < size)%nat -> last e 0 <> cr ->
  ReadLine size (mkReader (e ++ lf :: rest) err) = (e, false, None, mkReader rest err).
Proof.
  intros H L C. unfold ReadLine, ReadSlice. cbn [r_data r_err].
  rewrite IndexByte_firstn by assumption.
  replace (firstn (S (length e)) (e ++ lf :: rest)) with (e ++ [lf]).
  2:{ replace (S (length e)) with (length e + 1)%nat by lia.
      rewrite firstn_app_2. reflexivity. }
  replace (skipn (S (length e)) (e ++ lf :: rest)) with rest.
  2:{ replace (S (length e)) with (length e + 1)%nat by lia.
      rewrite skipn_app, skipn_all2 by lia.
      replace (length e + 1 - length e)%nat with 1%nat by lia. reflexivity. }
  destruct (e ++ [lf]) as [|b t] eqn:E; [destruct e; discriminate|].
  rewrite <- E. rewrite last_last, Z.eqb_refl, removelast_last.
  replace (last e 0 =? cr) with false by (symmetry; apply Z.eqb_neq; exact C).
  rewrite andb_false_r. rewrite length_app. cbn [length].
  replace (length e + 1 - 1)%nat with (length e) by lia.
  rewrite firstn_app, firstn_all, Nat.sub_diag. cbn. rewrite app_nil_r. reflexivity.
Qed.

Lemma ReadLine_EOF (size : nat) :
  (0 < size)%nat ->
  ReadLine size (mkReader [] io_EOF) = ([], false, Some io_EOF, mkReader [] io_EOF).
Proof.
  intros L. unfold ReadLine, ReadSlice. cbn [r_data r_err].
  rewrite firstn_nil. cbn [IndexByte length].
  replace (size <=? 0)%nat with false by (symmetry; apply Nat.leb_gt; exact L).
  reflexivity.
Qed.

Lemma set_history_twice (s : State) (a b : list gostring) :
  set_history (set_history s a) b = set_history s b.
Proof. reflexivity. Qed.

Lemma set_history_same (s : State) : set_history s (history s) = s.
Proof. destruct s. reflexivity. Qed.

Lemma ReadHistory_loop_file (h : list gostring) :
  forall (fuel : nat) (s : State) (num : Z),
  Forall storable h -> (length h < fuel)%nat ->
  len (history s) + len h <= HistoryLimit ->
  ReadHistory_loop fuel s (mkReader (history_file h) io_EOF) num
  = Some (set_history s (history s ++ h), num + len h, None).
Proof.
  induction h as [|e h IH]; intros fuel s num Hok Hfuel Hlim.
  - destruct fuel as [|fuel]; [simpl in Hfuel; lia|].
    cbn [ReadHistory_loop history_file flat_map].
    rewrite ReadLine_EOF by (unfold defaultBufSize; lia).
    rewrite app_nil_r, set_history_same. do 2 f_equal. f_equal.
    unfold len; simpl; lia.
  - destruct fuel as [|fuel]; [simpl in Hfuel; lia|].
    inversion Hok as [|? ? [Hlf [Hv [Hfit Hcr]]] Hok']; subst.
    cbn [ReadHistory_loop history_file flat_map]. rewrite <- app_assoc.
    cbn [app]. rewrite ReadLine_entry by assumption.

    assert (Hlen : len (e :: h) = 1 + len h) by (unfold len; cbn [length]; lia).
    assert (Hlt : (HistoryLimit <? len (history s ++ [e])) = false).
    { apply Z.ltb_ge. rewrite len_app.
      pose proof (len_nonneg h). unfold len at 2. simpl. lia. }
    cbv beta iota zeta. rewrite Hv. cbn [negb]. cbv beta iota zeta.
    match goal with |- context [if ?c then _ else _] =>
      replace c with false by (symmetry; exact Hlt) end.
    fold (history_file h). rewrite IH.
    + rewrite set_history_twice. cbn [history set_history].
      rewrite <- app_assoc. cbn [app]. do 2 f_equal. f_equal. lia.
    + assumption.
    + cbn [length] in Hfuel. lia.
    + cbn [history set_history]. rewrite len_app. unfold len at 2. simpl. lia.
Qed.

Lemma history_file_length (h : list gostring) :
  (length h <= length (history_file h))%nat.
Proof.
  unfold history_file.
  induction h as [|e h IH]; [simpl; lia|].
  cbn [flat_map]. rewrite !length_app. cbn [length].
  unfold gostring, byte, rune in *. lia.
Qed.

(** C3, as amended: the round trip of [WriteHistory] and [ReadHistory] is
    the identity on a history of at most [HistoryLimit] entries, each free
    of LF, valid UTF-8, shorter than the 4096 bytes of the reader's buffer
    and not ending in CR; both calls return the number of entries. *)
Theorem history_roundtrip (h : list gostring) :
  len h <= HistoryLimit -> Forall storable h -> roundtrip h.
Proof.
  intros Hlim Hok s s0 Hs Hs0. exists (history_file h).
  unfold WriteHistory. rewrite Hs, WriteHistory_loop_buffer. split; [reflexivity|].
  unfold ReadHistory. cbn [r_data].
  rewrite ReadHistory_loop_file.
  - rewrite Hs0. reflexivity.
  - assumption.
  - pose proof (history_file_length h). lia.
  - rewrite Hs0. unfold len at 1. simpl. lia.
Qed.

Ltac not_in := let H := fresh in intros H; vm_compute in H; intuition discriminate.
Ltac fits := apply Nat.ltb_lt; vm_compute; reflexivity.

Lemma history_roundtrip_witness :
  roundtrip [str "git status"; str "git push"].
Proof.
  apply history_roundtrip.
  - vm_compute. discriminate.
  - repeat (apply Forall_cons || apply Forall_nil);
      (split; [not_in|split; [vm_compute; reflexivity|split; [fits|]]]);
      vm_compute; discriminate.
Defined.

(** C3, as stated, fails: an entry that ends in CR has no LF in it, is
    valid UTF-8 and fits the buffer, and it comes back without its CR. *)
Lemma history_roundtrip_counterexample :
  let h := [[97; cr]] in
  len h <= HistoryLimit
  /\ Forall (fun e => ~ In lf e /\ Valid e = true
                      /\ (length e < defaultBufSize)%nat) h
  /\ ReadHistory (newState 80)
       (mkReader (fst (fst (WriteHistory (set_history (newState 80) h) []))) io_EOF)
     = Some (set_history (newState 80) [[97]], 1, None)
  /\ ~ roundtrip h.
Proof.
  cbv zeta. split; [vm_compute; discriminate|]. split.
  - apply Forall_cons; [|apply Forall_nil].
    split; [not_in|split; [vm_compute; reflexivity|fits]].
  - split; [vm_compute; reflexivity|].
    intros R.
    destruct (R (set_history (newState 80) [[97; cr]]) (newState 80) eq_refl eq_refl)
      as [w [Hw Hr]].
    vm_compute in Hw. injection Hw as <-. vm_compute in Hr. discriminate.
Qed.

(** ** History: the bound and the neighbours *)

Lemma evict_short (h : list gostring) : len h <= HistoryLimit -> evict h = h.
Proof.
  intros H. unfold evict, len in *.
  replace (length h - Z.to_nat HistoryLimit)%nat with 0%nat by lia. reflexivity.
Qed.

Lemma len_evict (h : list gostring) : len (evict h) <= HistoryLimit.
Proof.
  unfold evict, len, HistoryLimit. rewrite length_skipn. lia.
Qed.

(** The step both [AppendHistory] and [ReadHistory] take after [append]. *)
Lemma trim_evict (h : list gostring) (x : gostring) :
  len h <= HistoryLimit ->
  (if HistoryLimit <? len (h ++ [x]) then tl (h ++ [x]) else h ++ [x])
  = evict (h ++ [x]).
Proof.
  intros H. unfold evict. rewrite len_app. unfold len in *. rewrite length_app.
  cbn [length]. unfold HistoryLimit in *.
  destruct (Z.ltb_spec 1000 (Z.of_nat (length h) + Z.of_nat 1)).
  - replace (length h + 1 - Z.to_nat 1000)%nat with 1%nat by lia.
    destruct (h ++ [x]); reflexivity.
  - replace (length h + 1 - Z.to_nat 1000)%nat with 0%nat by lia. reflexivity.
Qed.

Lemma evict_app (a : list gostring) (x : gostring) :
  evict (evict a ++ [x]) = evict (a ++ [x]).
Proof.
  unfold evict. rewrite !length_app, length_skipn. cbn [length].
  assert (Hn : (1 <= Z.to_nat HistoryLimit)%nat) by (unfold HistoryLimit; lia).
  remember (Z.to_nat HistoryLimit) as n eqn:En. clear En.
  destruct (Nat.le_gt_cases (length a) n) as [L|L].
  - replace (length a - n)%nat with 0%nat by lia.
    cbn [skipn]. rewrite Nat.sub_0_r. reflexivity.
  - rewrite !skipn_app, length_skipn, skipn_skipn.
    replace (length a - (length a - n) + 1 - n)%nat with 1%nat by lia.
    replace (1 - (length a - (length a - n)))%nat with 0%nat by lia.
    replace (length a + 1 - n - length a)%nat with 0%nat by lia.
    replace (1 + (length a - n))%nat with (length a + 1 - n)%nat by lia.
    reflexivity.
Qed.

Lemma evict_app_list (a b : list gostring) :
  evict (evict a ++ b) = evict (a ++ b).
Proof.
  induction b as [|x b IH] using rev_ind.
  - rewrite !app_nil_r. apply evict_short, len_evict.
  - rewrite !app_assoc, <- evict_app, IH, evict_app. reflexivity.
Qed.

Lemma distinct_neighbours_app (h : list gostring) (x : gostring) :
  distinct_neighbours h -> (h <> [] -> last h [] <> x) ->
  distinct_neighbours (h ++ [x]).
Proof.
  induction h as [|a h IH]; intros D L; [exact I|].
  destruct h as [|b h].
  - cbn. split; [|exact I]. apply L. discriminate.
  - cbn [app distinct_neighbours] in *. destruct D as [Hab D]. split; [exact Hab|].
    apply IH; [exact D|]. intros _. apply L. discriminate.
Qed.

Lemma distinct_neighbours_skipn (n : nat) (h : list gostring) :
  distinct_neighbours h -> distinct_neighbours (skipn n h).
Proof.
  revert h. induction n as [|n IH]; intros h D; [exact D|].
  destruct h as [|a h]; [exact I|]. cbn [skipn]. apply IH.
  destruct h; [exact I|]. apply D.
Qed.

Lemma eqb_string_eq (a b : gostring) : eqb_string a b = true <-> a = b.
Proof.
  unfold eqb_string. destruct (list_eq_dec Z.eq_dec a b); split; congruence.
Qed.

Lemma IndexByte_bound (s : list byte) (c : byte) (i : nat) :
  IndexByte s c = Some i -> (i < length s)%nat.
Proof.
  revert i. induction s as [|b s IH]; intros i H; [discriminate|].
  cbn [IndexByte] in H. destruct (b =? c).
  - injection H as <-. simpl. lia.
  - destruct (IndexByte s c) as [j|]; [|discriminate].
    injection H as <-. specialize (IH j eq_refl). simpl. lia.
Qed.

(** A line that [ReadLine] hands out whole took bytes off the reader. *)
Lemma ReadLine_consumes (size : nat) (rd rd' : Reader) (line : list byte) :
  ReadLine size rd = (line, false, None, rd') ->
  (length (r_data rd') < length (r_data rd))%nat.
Proof.
  unfold ReadLine, ReadSlice.
  destruct (IndexByte (firstn size (r_data rd)) lf) as [i|] eqn:E.
  - apply IndexByte_bound in E. rewrite length_firstn in E.
    destruct (firstn (S i) (r_data rd)) eqn:F.
    + destruct (r_data rd); [simpl in E; lia|discriminate].
    + destruct (last (b :: l) 0 =? lf); intros H;
        apply (f_equal snd) in H; cbn [snd] in H; rewrite <- H;
        cbn [r_data]; rewrite length_skipn; lia.
  - destruct (size <=? length (r_data rd))%nat.
    + destruct (last (firstn size (r_data rd)) 0 =? cr);
        destruct (firstn size (r_data rd)); discriminate.
    + destruct (r_err rd); destruct (r_data rd) eqn:D; try discriminate;
        try (destruct (last (b :: l) 0 =? lf); intros H;
             apply (f_equal snd) in H; cbn [snd] in H; rewrite <- H;
             cbn [r_data length]; lia);
        destruct (last (b :: l) 0 =? cr); discriminate.
Qed.

(** [ReadHistory]'s loop ends when its fuel exceeds the bytes left, and
    leaves the newest [HistoryLimit] entries of the old history followed by
    the lines it read, in order; [num] grows by their number. *)
Lemma ReadHistory_loop_spec (fuel : nat) :
  forall (s : State) (rd : Reader) (num : Z),
  (length (r_data rd) < fuel)%nat -> len (history s) <= HistoryLimit ->
  exists (lines : list gostring) (err : option error),
    ReadHistory_loop fuel s rd num
    = Some (set_history s (evict (history s ++ lines)), num + len lines, err).
Proof.
  induction fuel as [|fuel IH]; intros s rd num Hfuel Hlim; [lia|].
  cbn [ReadHistory_loop].
  destruct (ReadLine defaultBufSize rd) as [[[line part] err] rd'] eqn:E.
  assert (Hstop : forall e : option error, exists lines err',
    Some (s, num, e) = Some (set_history s (evict (history s ++ lines)),
                             num + len lines, err')).
  { intros e. exists [], e. rewrite app_nil_r, evict_short, set_history_same by assumption.
    do 2 f_equal. f_equal. unfold len. simpl. lia. }
  destruct err as [e|].
  - destruct e; apply Hstop.
  - destruct part; [apply Hstop|].
    destruct (Valid line); cbn [negb]; [|apply Hstop].
    cbv zeta. apply ReadLine_consumes in E.
    pose proof (trim_evict (history s) line Hlim) as T.
    match goal with
    | |- exists _ _, ReadHistory_loop fuel (set_history s ?h1) rd' ?n1 = _ =>
      replace h1 with (evict (history s ++ [line])) by (symmetry; exact T)
    end.
    destruct (IH (set_history s (evict (history s ++ [line]))) rd' (num + 1))
      as [lines [err H]].
    + lia.
    + cbn [history set_history]. apply len_evict.
    + exists (line :: lines), err. rewrite H. rewrite set_history_twice.
      cbn [history set_history].
      replace (num + 1 + len lines) with (num + len (line :: lines))
        by (unfold len, gostring, byte, rune in *; cbn [length]; lia).
      do 3 f_equal.
      rewrite (evict_app_list (history s ++ [line]) lines), <- app_assoc.
      reflexivity.
Qed.

(** ** History: the lines of the input *)

Lemma IndexByte_none (l : list byte) (c : byte) :
  ~ In c l -> IndexByte l c = None.
Proof.
  induction l as [|b l IH]; intros H; [reflexivity|]. cbn [IndexByte].
  destruct (Z.eqb_spec b c) as [->|_]; [exfalso; apply H; left; reflexivity|].
  rewrite IH; [reflexivity|]. intros Hin. apply H. right. exact Hin.
Qed.

(** [ReadLine] on what is left of an input that ends without LF. *)
Lemma ReadLine_rest (e : list byte) (err : error) :
  ~ In lf e -> (length e < defaultBufSize)%nat -> err <> ErrBufferFull ->
  ReadLine defaultBufSize (mkReader e err)
  = match e with
    | [] => ([], false, Some err, mkReader [] err)
    | _ :: _ => (e, false, None, mkReader [] err)
    end.
Proof.
  intros H L N. unfold ReadLine, ReadSlice. cbn [r_data r_err].
  rewrite firstn_all2 by lia. rewrite IndexByte_none by exact H.
  replace (defaultBufSize <=? length e)%nat with false
    by (symmetry; apply Nat.leb_gt; exact L).
  destruct err; try congruence; destruct e as [|b e]; try reflexivity;
    (replace (last (b :: e) 0 =? lf) with false; [reflexivity|]);
    symmetry; apply Z.eqb_neq; intros E; apply H; rewrite <- E;
    destruct (@exists_last _ (b :: e) ltac:(discriminate)) as [l' [x Ex]];
    rewrite Ex, last_last; apply in_or_app; right; left; reflexivity.
Qed.

(** [ReadLine] on a line that does not end within the buffer. *)
Lemma ReadLine_long (data : list byte) (err : error) :
  ~ In lf (firstn defaultBufSize data) ->
  (defaultBufSize <= length data)%nat ->
  exists line rd', ReadLine defaultBufSize (mkReader data err) = (line, true, None, rd').
Proof.
  intros H L. unfold ReadLine, ReadSlice. cbn [r_data r_err].
  rewrite IndexByte_none by exact H.
  replace (defaultBufSize <=? length data)%nat with true
    by (symmetry; apply Nat.leb_le; exact L).
  destruct (last (firstn defaultBufSize data) 0 =? cr);
    destruct (firstn defaultBufSize data); eexists _, _; reflexivity.
Qed.

(** A round of [ReadHistory]'s loop that gets a line. *)
Lemma ReadHistory_loop_line (fuel : nat) (s : State) (rd rd' : Reader) (num : Z)
  (line : gostring) :
  ReadLine defaultBufSize rd = (line, false, None, rd') ->
  Valid line = true -> len (history s) <= HistoryLimit ->
  ReadHistory_loop (S fuel) s rd num
  = ReadHistory_loop fuel (set_history s (evict (history s ++ [line]))) rd' (num + 1).
Proof.
  intros E V L. cbn [ReadHistory_loop]. rewrite E, V. cbn [negb].
  cbv beta iota zeta. rewrite trim_evict by exact L. reflexivity.
Qed.

(** The bytes up to an LF within the buffer come back from [ReadLine]
    without the line end. *)
Lemma ReadLine_chomp (size : nat) (raw rest : list byte) (err : error) :
  ~ In lf raw -> (length raw < size)%nat ->
  ReadLine size (mkReader (raw ++ lf :: rest) err)
  = (chomp raw, false, None, mkReader rest err).
Proof.
  intros H L.
  destruct (Z.eqb_spec (last raw 0) cr) as [C|C];
    [|unfold chomp; replace (last raw 0 =? cr) with false by lia;
      apply ReadLine_entry; assumption].
  unfold ReadLine, ReadSlice. cbn [r_data r_err].
  rewrite IndexByte_firstn by assumption.
  replace (firstn (S (length raw)) (raw ++ lf :: rest)) with (raw ++ [lf]).
  2:{ replace (S (length raw)) with (length raw + 1)%nat by lia.
      rewrite firstn_app_2. reflexivity. }
  replace (skipn (S (length raw)) (raw ++ lf :: rest)) with rest.
  2:{ replace (S (length raw)) with (length raw + 1)%nat by lia.
      rewrite skipn_app, skipn_all2 by lia.
      replace (length raw + 1 - length raw)%nat with 1%nat by lia. reflexivity. }
  assert (N : raw <> []) by (intros ->; cbn in C; unfold cr in C; lia).
  destruct (raw ++ [lf]) as [|b t] eqn:E; [destruct raw; discriminate|].
  rewrite <- E. rewrite last_last, Z.eqb_refl, removelast_last.
  unfold chomp. rewrite C, Z.eqb_refl.
  replace (1 <? len (raw ++ [lf])) with true
    by (rewrite len_app; destruct raw; [congruence|unfold len; cbn [length]; lia]).
  cbn [andb]. do 3 f_equal.
  destruct (exists_last N) as [r0 [c ->]].
  rewrite removelast_last, !length_app. cbn [length].
  replace (length r0 + 1 + 1 - 2)%nat with (length r0) by lia.
  rewrite <- app_assoc, firstn_app, firstn_all, Nat.sub_diag. cbn [firstn].
  apply app_nil_r.
Qed.

(** A reader that ends with [bufio.ErrBufferFull]: what is left is taken
    for the start of a line that is too long. *)
Lemma ReadLine_full (e : list byte) :
  ~ In lf e -> (length e < defaultBufSize)%nat ->
  exists line rd',
    ReadLine defaultBufSize (mkReader e ErrBufferFull) = (line, true, None, rd').
Proof.
  intros H L. unfold ReadLine, ReadSlice. cbn [r_data r_err].
  rewrite firstn_all2 by lia. rewrite IndexByte_none by exact H.
  replace (defaultBufSize <=? length e)%nat with false
    by (symmetry; apply Nat.leb_gt; exact L).
  destruct (last e 0 =? cr); destruct e; eexists _, _; reflexivity.
Qed.

Lemma stopped (s : State) (num : Z) (e : option error) :
  len (history s) <= HistoryLimit ->
  Some (s, num, e)
  = Some (set_history s (evict (history s ++ [])), num + len (@nil gostring), e).
Proof.
  intros L. rewrite app_nil_r, evict_short, set_history_same by exact L.
  do 3 f_equal. unfold len. cbn [length]. lia.
Qed.

Lemma not_in_firstn (n : nat) (l : list byte) (c : byte) :
  ~ In c l -> ~ In c (firstn n l).
Proof.
  intros H I. apply H. rewrite <- (firstn_skipn n l). apply in_or_app. left. exact I.
Qed.

(** [ReadHistory]'s loop on an input given by its lines. *)
Lemma ReadHistory_loop_read (raws : list (list byte)) (rest : list byte)
  (err : error) :
  forall (fuel : nat) (s : State) (num : Z),
  Forall (fun raw => ~ In lf raw) raws -> ~ In lf rest ->
  (length raws + 1 < fuel)%nat -> len (history s) <= HistoryLimit ->
  ReadHistory_loop fuel s (mkReader (history_file raws ++ rest) err) num
  = Some (set_history s (evict (history s ++ fst (lines_read raws rest err num))),
          num + len (fst (lines_read raws rest err num)),
          snd (lines_read raws rest err num)).
Proof.
  induction raws as [|raw raws IH]; intros fuel s num F R Hf Hl.
  - cbn [history_file flat_map app lines_read].
    destruct fuel as [|[|fuel]]; [cbn [length] in Hf; lia..|].
    destruct (Nat.leb_spec defaultBufSize (length rest)) as [Long|Short].
    { cbn [orb fst snd].
      destruct (ReadLine_long rest err (not_in_firstn _ _ _ R) Long) as [l [rd' E]].
      cbn [ReadHistory_loop]. rewrite E. apply stopped. exact Hl. }
    destruct (match err with ErrBufferFull => true | _ => false end) eqn:Full.
    { cbn [orb fst snd]. destruct err; try discriminate Full.
      destruct (ReadLine_full rest R Short) as [l [rd' E]].
      cbn [ReadHistory_loop]. rewrite E. apply stopped. exact Hl. }
    cbn [orb]. cbv zeta.
    assert (N : err <> ErrBufferFull) by (intros ->; discriminate Full).
    assert (End : forall fuel' s' num',
              ReadHistory_loop (S fuel') s' (mkReader [] err) num'
              = Some (s', num', if is_EOF err then None else Some err)).
    { intros fuel' s' num'. cbn [ReadHistory_loop].
      rewrite (ReadLine_rest [] err) by (auto; unfold defaultBufSize; cbn; lia).
      destruct err; reflexivity. }
    destruct rest as [|b rest].
    + cbn [fst snd]. rewrite End. apply stopped. exact Hl.
    + destruct (Valid (b :: rest)) eqn:V; cbn [negb fst snd].
      * rewrite (ReadHistory_loop_line _ _ _ (mkReader [] err) _ (b :: rest));
          [|rewrite ReadLine_rest by assumption; reflexivity|exact V|exact Hl].
        rewrite End. do 3 f_equal; unfold len; cbn [length]; lia.
      * cbn [ReadHistory_loop]. rewrite ReadLine_rest by assumption.
        rewrite V. cbn [negb]. apply stopped. exact Hl.
  - inversion F as [|? ? Hraw F']; subst.
    destruct fuel as [|fuel]; [cbn [length] in Hf; lia|].
    cbn [history_file flat_map lines_read]. fold (history_file raws).
    rewrite <- !app_assoc. cbn [app].
    destruct (Nat.leb_spec defaultBufSize (length raw)) as [Long|Short].
    { cbn [fst snd].
      match goal with
      | |- context [mkReader ?d err] =>
        destruct (ReadLine_long d err) as [l [rd' E]]
      end.
      - rewrite firstn_app. intros I. apply in_app_or in I.
        destruct I as [I|I]; [exact (not_in_firstn _ _ _ Hraw I)|].
        match type of I with
        | In _ (firstn ?n _) =>
          replace n with 0%nat in I by (unfold gostring, byte, rune in *; lia)
        end.
        exact I.
      - rewrite length_app. unfold gostring, byte, rune in *. lia.
      - cbn [ReadHistory_loop]. rewrite E. apply stopped. exact Hl. }
    destruct (Valid (chomp raw)) eqn:V; cbn [negb].
    + rewrite (ReadHistory_loop_line _ _ _ (mkReader (history_file raws ++ rest) err)
                 _ (chomp raw));
        [|apply ReadLine_chomp; assumption|exact V|exact Hl].
      rewrite IH; [|exact F'|exact R|cbn [length] in Hf; lia|apply len_evict].
      destruct (lines_read raws rest err (num + 1)) as [lines e].
      cbn [fst snd history set_history].
      rewrite set_history_twice, evict_app_list, <- app_assoc. cbn [app].
      do 3 f_equal. unfold len. cbn [length]. lia.
    + cbn [fst snd ReadHistory_loop]. rewrite ReadLine_chomp by assumption.
      rewrite V. cbn [negb]. apply stopped. exact Hl.
Qed.

(** Every input is a number of lines that end in LF and what follows the
    last LF. *)
Lemma history_file_split (data : list byte) :
  exists raws rest,
    data = history_file raws ++ rest
    /\ Forall (fun raw => ~ In lf raw) raws /\ ~ In lf rest.
Proof.
  induction data as [|b data [raws [rest [E [F R]]]]].
  - exists [], []. split; [reflexivity|]. split; [constructor|exact (fun H => H)].
  - destruct (Z.eqb_spec b lf) as [->|N].
    + exists ([] :: raws), rest. split; [rewrite E; reflexivity|].
      split; [constructor; [exact (fun H => H)|exact F]|exact R].
    + destruct raws as [|raw raws].
      * exists [], (b :: rest). split; [rewrite E; reflexivity|].
        split; [constructor|]. intros [H|H]; [congruence|exact (R H)].
      * exists ((b :: raw) :: raws), rest. split; [rewrite E; reflexivity|].
        inversion F; subst. split; [|exact R].
        constructor; [|assumption]. intros [H|H]; [congruence|auto].
Qed.

(** [ReadHistory] on an input given by its lines. *)
Lemma ReadHistory_reads (s : State) (raws : list (list byte)) (rest : list byte)
  (err : error) :
  Forall (fun raw => ~ In lf raw) raws -> ~ In lf rest ->
  len (history s) <= HistoryLimit ->
  ReadHistory s (mkReader (history_file raws ++ rest) err)
  = Some (set_history s (evict (history s ++ fst (lines_read raws rest err 0))),
          len (fst (lines_read raws rest err 0)),
          snd (lines_read raws rest err 0)).
Proof.
  intros F R L. unfold ReadHistory. cbn [r_data].
  rewrite ReadHistory_loop_read; [reflexivity|exact F|exact R| |exact L].
  pose proof (history_file_length raws). rewrite length_app.
  unfold gostring, byte, rune in *. lia.
Qed.

Lemma lines_read_readable (raws : list (list byte)) (e : gostring) (err : error) :
  forall num : Z,
  Forall readable raws -> (length e < defaultBufSize)%nat -> Valid e = true ->
  lines_read raws e err num
  = match err with
    | ErrBufferFull =>
      (map chomp raws, Some (errLineTooLong (num + len raws + 1)))
    | _ => (map chomp raws ++ unterminated e,
            if is_EOF err then None else Some err)
    end.
Proof.
  induction raws as [|raw raws IH]; intros num Hok Hfit Hv.
  - cbn [lines_read map app]. unfold len. cbn [length].
    assert (G : (defaultBufSize <=? length e)%nat = false)
      by (apply Nat.leb_gt; exact Hfit).
    rewrite G. cbn [orb]. rewrite Hv. cbn [negb].
    replace (num + Z.of_nat 0 + 1) with (num + 1) by lia.
    destruct err, e; reflexivity.
  - inversion Hok as [|? ? [Hlf [Hraw Hvr]] Hok']; subst.
    cbn [lines_read map].
    assert (G : (defaultBufSize <=? length raw)%nat = false)
      by (apply Nat.leb_gt; exact Hraw).
    rewrite G, Hvr. cbn [negb]. rewrite IH by assumption.
    replace (num + 1 + len raws + 1) with (num + len (raw :: raws) + 1)
      by (unfold len; cbn [length]; lia).
    destruct err; reflexivity.
Qed.

Lemma distinct_neighbours_suffix (a b : list gostring) :
  distinct_neighbours (a ++ b) -> distinct_neighbours b.
Proof.
  induction a as [|x a IH]; [auto|]. intros D. apply IH.
  cbn [app] in D. destruct (a ++ b); [exact I|exact (proj2 D)].
Qed.

(** A line read twice in a row makes two equal neighbours. *)
Lemma evict_twice (h : list gostring) (c : gostring) :
  ~ distinct_neighbours (evict (h ++ [c; c])).
Proof.
  unfold evict. rewrite skipn_app.
  replace (length (h ++ [c; c]) - Z.to_nat HistoryLimit - length h)%nat with 0%nat
    by (rewrite length_app; cbn [length]; unfold HistoryLimit; lia).
  intros D. apply distinct_neighbours_suffix in D. cbn in D. apply (proj1 D). reflexivity.
Qed.

(** C8, as amended: on a history of at most [HistoryLimit] entries,
    [AppendHistory] and [ReadHistory] leave at most [HistoryLimit] entries,
    the oldest evicted first; [AppendHistory] keeps consecutive entries
    distinct, and with an item equal to the last entry it changes nothing;
    [ReadHistory] appends the lines of its input in their order and as
    they are, each without its line end, up to the first line that is too
    long or no valid UTF-8, and compares no line with another: a line
    read twice in a row leaves two equal neighbours.  Every input is made
    of such lines: bytes without LF up to an LF, and what follows the
    last LF. *)
Theorem history_mutations (s : State) :
  len (history s) <= HistoryLimit ->
  (forall item : gostring,
     let s' := AppendHistory s item in
     len (history s') <= HistoryLimit
     /\ (distinct_neighbours (history s) -> distinct_neighbours (history s'))
     /\ (history s <> [] -> last (history s) [] = item -> s' = s)
     /\ (history s = [] \/ last (history s) [] <> item ->
         history s' = evict (history s ++ [item])))
  /\ (forall (raws : list (list byte)) (rest : list byte) (err : error),
        Forall (fun raw => ~ In lf raw) raws -> ~ In lf rest ->
        let lines := fst (lines_read raws rest err 0) in
        ReadHistory s (mkReader (history_file raws ++ rest) err)
        = Some (set_history s (evict (history s ++ lines)), len lines,
                snd (lines_read raws rest err 0))
        /\ len (evict (history s ++ lines)) <= HistoryLimit)
  /\ (forall data : list byte,
        exists raws rest,
          data = history_file raws ++ rest
          /\ Forall (fun raw => ~ In lf raw) raws /\ ~ In lf rest)
  /\ (forall line : list byte,
        readable line ->
        exists s' : State,
          ReadHistory s (mkReader (history_file [line; line]) io_EOF)
          = Some (s', 2, None)
          /\ history s' = evict (history s ++ [chomp line; chomp line])
          /\ ~ distinct_neighbours (history s')).
Proof.
  intros Hlim. split; [|split; [|split]].
  - intros item s'. subst s'. unfold AppendHistory.
    destruct ((0 <? len (history s)) && eqb_string item (last (history s) [])) eqn:E.
    + apply andb_true_iff in E. destruct E as [Hne Heq].
      apply eqb_string_eq in Heq.
      repeat split; auto.
      intros [H|H]; [rewrite H in Hne; discriminate|congruence].
    + cbv zeta. rewrite trim_evict by assumption. cbn [history set_history].
      split; [apply len_evict|]. split; [|split].
      * intros D. apply distinct_neighbours_skipn, distinct_neighbours_app; [exact D|].
        intros Hne Heq. apply andb_false_iff in E. destruct E as [E|E].
        -- destruct (history s); [congruence|]. discriminate.
        -- rewrite <- Heq in E.
           assert (eqb_string (last (history s) []) (last (history s) []) = true)
             by (apply eqb_string_eq; reflexivity).
           congruence.
      * intros Hne Heq. apply andb_false_iff in E. destruct E as [E|E].
        -- destruct (history s); [congruence|]. discriminate.
        -- rewrite Heq in E.
           assert (eqb_string item item = true) by (apply eqb_string_eq; reflexivity).
           congruence.
      * reflexivity.
  - intros raws rest err F R lines. split; [|apply len_evict].
    apply ReadHistory_reads; assumption.
  - exact history_file_split.
  - intros line L. pose proof L as [Hlf _]. eexists.
    rewrite <- (app_nil_r (history_file [line; line])).
    rewrite ReadHistory_reads;
      [|repeat (apply Forall_cons; [exact Hlf|]); apply Forall_nil|intros []|exact Hlim].
    rewrite (lines_read_readable [line; line] [] io_EOF 0);
      [|repeat (apply Forall_cons; [exact L|]); apply Forall_nil
       |unfold defaultBufSize; cbn [length]; lia|reflexivity].
    cbn [fst snd map app unterminated is_EOF].
    split; [reflexivity|]. cbn [history set_history].
    split; [reflexivity|apply evict_twice].
Qed.

Lemma history_mutations_witness :
  let s := set_history (newState 80) [str "ls"] in
  history (AppendHistory s (str "ls")) = [str "ls"]
  /\ history (AppendHistory s (str "cd")) = [str "ls"; str "cd"].
Proof.
  cbv zeta.
  destruct (history_mutations (set_history (newState 80) [str "ls"])) as [A _].
  - vm_compute. discriminate.
  - split.
    + destruct (A (str "ls")) as [_ [_ [E _]]].
      rewrite E; [reflexivity|discriminate|reflexivity].
    + destruct (A (str "cd")) as [_ [_ [_ E]]].
      rewrite E; [reflexivity|right; vm_compute; discriminate].
Defined.

(** C8, as stated, fails for [ReadHistory]: it reads two equal lines into
    two equal neighbours. *)
Lemma history_mutations_counterexample :
  exists s' : State,
    ReadHistory (newState 80) (mkReader (str "a" ++ [lf] ++ str "a" ++ [lf]) io_EOF)
    = Some (s', 2, None)
    /\ distinct_neighbours (history (newState 80))
    /\ ~ distinct_neighbours (history s').
Proof.
  eexists. split; [vm_compute; reflexivity|]. split; [exact I|].
  cbn. intros [H _]. apply H. reflexivity.
Qed.

(** ** Rendering *)

Lemma emits_emit (s : State) (ops : list termop) (o : termop) :
  emit (emits s ops) o = emits s (ops ++ [o]).
Proof. unfold emit, emits. cbn. rewrite <- app_assoc. reflexivity. Qed.

Lemma emit_emits (s : State) (o : termop) : emit s o = emits s [o].
Proof. reflexivity. Qed.

Lemma fmt_Print_ok (x : gostring) (s : State) :
  stdoutErr s = None -> fmt_Print x s = Ret None (emit s (Print x)).
Proof. intros H. unfold fmt_Print. rewrite H. reflexivity. Qed.

Lemma window_range (cols pLen bLen pos : Z) :
  cols <= pLen + bLen -> 0 <= cols - pLen - 1 ->
  let '(start, end_) := window cols pLen bLen pos in
  0 <= start /\ end_ = start + (cols - pLen - 1) /\ end_ <= bLen.
Proof.
  intros H1 H2. unfold window. cbv zeta.
  destruct (Z.ltb_spec bLen (pos - (cols - pLen - 1) / 2 + (cols - pLen - 1))).
  - destruct (Z.ltb_spec (bLen - (cols - pLen - 1)) 0); lia.
  - destruct (Z.ltb_spec (pos - (cols - pLen - 1) / 2) 0); lia.
Qed.

(** [refresh] on a buffer that does not fit, on a terminal that leaves two
    columns or more after the prompt and the cursor. *)
Lemma refresh_windowed (s : State) (prompt buf : gostring) (pos : Z) :
  stdoutErr s = None ->
  columns s <= RuneCountInString (stripAnsiColorSequences prompt)
               + RuneCountInString buf ->
  2 <= columns s - RuneCountInString (stripAnsiColorSequences prompt) - 1 ->
  refresh prompt buf pos s = Ret None (emits s (viewport (columns s) prompt buf pos)).
Proof.
  intros Hout Hfit Hspace. unfold refresh, viewport.
  set (pLen := RuneCountInString (stripAnsiColorSequences prompt)) in *.
  set (bLen := RuneCountInString buf) in *.
  pose proof (window_range (columns s) pLen bLen pos Hfit ltac:(lia)) as W.
  unfold window in *. cbv zeta in *.
  rewrite <- Z.quot_div_nonneg in * by lia.
  unfold bind at 1. unfold cursorPos at 1, modify at 1.
  unfold bind at 1. rewrite fmt_Print_ok by exact Hout.
  unfold bind at 1, get at 1. cbn [columns emit].
  replace (pLen + bLen <? columns s) with false by lia.
  set (space := columns s - pLen - 1) in *.
  replace (columns s - pLen - 1) with space by reflexivity.
  destruct (if bLen <? pos - space ÷ 2 + space
            then (bLen - space, bLen)
            else (pos - space ÷ 2, pos - space ÷ 2 + space)) as [start0 end0] eqn:E0.
  destruct (if start0 <? 0 then (0, space) else (start0, end0)) as [start end_] eqn:E1.
  destruct W as [W1 [W2 W3]].
  unfold bind at 1, check.
  assert (Hlen : len (runes buf) = bLen) by reflexivity.
  set (first := if 0 <? start then start + 1 else start) in *.
  set (last := if end_ <? bLen then end_ - 1 else end_) in *.
  assert (Hs : slice (runes buf) first last
               = Some (firstn (Z.to_nat (last - first))
                              (skipn (Z.to_nat first) (runes buf)))).
  { unfold slice. rewrite Hlen.
    replace ((0 <=? first) && (first <=? last) && (last <=? bLen)) with true;
      [reflexivity|].
    subst first last. destruct (0 <? start), (end_ <? bLen) eqn:?; lia. }
  rewrite Hs.
  assert (Hfirst : (0 <? first) = (0 <? start))
    by (subst first; destruct (0 <? start) eqn:?; lia).
  assert (Hlast : (last <? bLen) = (end_ <? bLen))
    by (subst last; destruct (end_ <? bLen) eqn:?; lia).
  rewrite Hfirst, Hlast.
  destruct s as [ts to h c cols k o se tw]. cbn [stdoutErr] in Hout. subst se.
  destruct (0 <? start), (end_ <? bLen);
    cbv [bind ret fmt_Print eraseLine cursorPos modify emit emits stdoutErr
         terminalSupported terminalOutput history completer columns killRing
         out termWidth];
    rewrite <- ?app_assoc; reflexivity.
Qed.

(** C6, as amended: when the buffer does not fit and the terminal leaves
    at least two columns after the prompt and the cursor, [refresh] sends
    the window of the spec with its markers, and puts the cursor at
    [pLen + (pos - start)] for the start of the window before the marker;
    the window lies within the buffer and is [cols - pLen - 1] wide. *)
Theorem refresh_viewport (s : State) (prompt buf : gostring) (pos : Z) :
  stdoutErr s = None ->
  columns s <= RuneCountInString (stripAnsiColorSequences prompt)
               + RuneCountInString buf ->
  2 <= columns s - RuneCountInString (stripAnsiColorSequences prompt) - 1 ->
  refresh prompt buf pos s = Ret None (emits s (viewport (columns s) prompt buf pos))
  /\ let pLen := RuneCountInString (stripAnsiColorSequences prompt) in
     let bLen := RuneCountInString buf in
     let '(start, end_) := window (columns s) pLen bLen pos in
     0 <= start /\ end_ = start + (columns s - pLen - 1) /\ end_ <= bLen.
Proof.
  intros Hout Hfit Hspace. split.
  - apply refresh_windowed; assumption.
  - cbv zeta. apply window_range; [exact Hfit|lia].
Qed.

Lemma refresh_viewport_witness :
  let s := set_columns (newState 80) 10 in
  refresh (str "> ") (str "hello world!") 5 s
  = Ret None (emits s [CursorPos 0; Print (str "> "); Print (str "{");
                       Print (str "lo wo"); Print (str "}"); EraseLine;
                       CursorPos 5]).
Proof.
  cbv zeta.
  rewrite (proj1 (refresh_viewport (set_columns (newState 80) 10) (str "> ")
                    (str "hello world!") 5 eq_refl
                    ltac:(vm_compute; discriminate)
                    ltac:(vm_compute; discriminate))).
  reflexivity.
Defined.

(** C6, as stated, fails.  With a left marker the cursor goes to
    [pLen + (pos - start)] for the start of the window before the marker
    took its column, which is where the rune at [pos] stands: column 5
    here, not the column 4 of the start the window is cut at.  On a
    terminal with one column left after the prompt and the cursor, both
    markers take a column and the slice [line[start:end]] panics with
    [start] beyond [end]. *)
Lemma refresh_viewport_counterexample :
  (let s := set_columns (newState 80) 10 in
   refresh (str "> ") (str "hello world!") 5 s
   = Ret None (emits s [CursorPos 0; Print (str "> "); Print (str "{");
                        Print (str "lo wo"); Print (str "}"); EraseLine;
                        CursorPos 5])
   /\ stated_viewport 10 (str "> ") (str "hello world!") 5
      = [CursorPos 0; Print (str "> "); Print (str "{"); Print (str "lo wo");
         Print (str "}"); EraseLine; CursorPos 4]
   /\ ~ renders_window s (str "> ") (str "hello world!") 5)
  /\ (let s := set_columns (newState 80) 4 in
      refresh (str "> ") (str "hello world!") 5 s
      = Panic (emits s [CursorPos 0; Print (str "> ")])
      /\ ~ renders_window s (str "> ") (str "hello world!") 5).
Proof.
  cbv zeta. split; [split; [|split]|split].
  - vm_compute. reflexivity.
  - vm_compute. reflexivity.
  - intros R. specialize (R eq_refl). vm_compute in R.
    specialize (R ltac:(discriminate)). discriminate.
  - vm_compute. reflexivity.
  - intros R. specialize (R eq_refl). vm_compute in R.
    specialize (R ltac:(discriminate)). discriminate.
Qed.

(** ** What a call changes *)

Lemma emits_nil (s : State) : emits s [] = s.
Proof. destruct s. unfold emits. cbn. rewrite app_nil_r. reflexivity. Qed.

Lemma emits_emits (s : State) (a b : list termop) :
  emits (emits s a) b = emits s (a ++ b).
Proof. unfold emits. cbn. rewrite app_assoc. reflexivity. Qed.

Lemma writes_ret {A : Type} (a : A) : writes (ret a).
Proof. intros s. exists []. cbn. symmetry. apply emits_nil. Qed.

Lemma writes_panic {A : Type} : writes (@panic A).
Proof. intros s. exists []. cbn. symmetry. apply emits_nil. Qed.

Lemma writes_get : writes get.
Proof. intros s. exists []. cbn. symmetry. apply emits_nil. Qed.

Lemma writes_check {A : Type} (o : option A) : writes (check o).
Proof. destruct o; [apply writes_ret|apply writes_panic]. Qed.

Lemma writes_bind {A B : Type} (m : M A) (k : A -> M B) :
  writes m -> (forall a, writes (k a)) -> writes (bind m k).
Proof.
  intros Hm Hk s. unfold bind. destruct (Hm s) as [ops1 H1].
  destruct (m s) as [a s1|s1]; cbn [after] in *; subst s1.
  - destruct (Hk a (emits s ops1)) as [ops2 H2]. exists (ops1 ++ ops2).
    rewrite H2. apply emits_emits.
  - exists ops1. reflexivity.
Qed.

Lemma writes_emit (o : termop) : writes (modify (fun s => emit s o)).
Proof. intros s. exists [o]. reflexivity. Qed.

Lemma writes_fmt_Print (x : gostring) : writes (fmt_Print x).
Proof.
  intros s. unfold fmt_Print. destruct (stdoutErr s).
  - exists []. cbn. symmetry. apply emits_nil.
  - exists [Print x]. reflexivity.
Qed.

(** Decompose a call into the calls it is made of. *)
Ltac writes_tac :=
  repeat first
    [ apply writes_ret | apply writes_panic | apply writes_get
    | apply writes_check | apply writes_fmt_Print | apply writes_emit
    | assumption
    | apply writes_bind; [|intros]
    | match goal with
      | |- writes (if ?c then _ else _) => destruct c
      | |- writes (match ?x with _ => _ end) => destruct x
      | |- writes (let (_, _) := ?x in _) => destruct x
      end ].

Lemma writes_refresh (prompt buf : gostring) (pos : Z) :
  writes (refresh prompt buf pos).
Proof.
  unfold refresh, cursorPos, eraseLine. writes_tac.
Qed.

Lemma writes_redraw (p : gostring) (l : Loop.locals) : writes (redraw p l).
Proof. unfold redraw. apply writes_bind; [apply writes_refresh|intros; apply writes_ret]. Qed.

Lemma roomy_emits (p : gostring) (s : State) (ops : list termop) :
  roomy p s -> roomy p (emits s ops).
Proof. exact (fun H => H). Qed.

Lemma refresh_returns (p buf : gostring) (pos : Z) (s : State) :
  roomy p s -> exists (e : option error) (ops : list termop),
    refresh p buf pos s = Ret e (emits s ops).
Proof.
  intros R.
  destruct (stdoutErr s) as [e|] eqn:Hout.
  - exists (Some e), [CursorPos 0]. unfold refresh, bind, cursorPos, modify, fmt_Print.
    cbn [stdoutErr emit]. rewrite Hout. reflexivity.
  - destruct (Z.ltb_spec (RuneCountInString (stripAnsiColorSequences p)
                          + RuneCountInString buf) (columns s)) as [L|L].
    + exists None, [CursorPos 0; Print p; Print buf; EraseLine;
                    CursorPos (RuneCountInString (stripAnsiColorSequences p) + pos)].
      apply Z.ltb_lt in L.
      destruct s as [ts to h c cols k o se tw]. cbn [stdoutErr columns] in *. subst se.
      cbv [refresh bind cursorPos eraseLine modify fmt_Print get ret emit emits
           stdoutErr terminalSupported terminalOutput history completer columns
           killRing out termWidth].
      rewrite L. rewrite <- !app_assoc. reflexivity.
    + eexists _, _. apply refresh_windowed; assumption.
Qed.

Lemma redraw_returns (p : gostring) (l : Loop.locals) (s : State) :
  roomy p s -> exists ops : list termop, redraw p l s = Ret tt (emits s ops).
Proof.
  intros R. unfold redraw, bind.
  destruct (refresh_returns p (string_of_runes (Loop.line l)) (Loop.pos l) s R)
    as [e [ops H]].
  rewrite H. exists ops. reflexivity.
Qed.

(** ** Reasoning about calls *)

Lemma wp_bind {A B : Type} (m : M A) (k : A -> M B) (s : State)
  (Q : result B -> Prop) :
  wp m s (fun r => match r with
                   | Ret a s1 => wp (k a) s1 Q
                   | Panic s1 => Q (Panic s1)
                   end) ->
  wp (bind m k) s Q.
Proof. unfold wp, bind. destruct (m s); auto. Qed.

Lemma wp_ret {A : Type} (a : A) (s : State) (Q : result A -> Prop) :
  Q (Ret a s) -> wp (ret a) s Q.
Proof. exact (fun H => H). Qed.

Lemma wp_get (s : State) (Q : result State -> Prop) :
  Q (Ret s s) -> wp get s Q.
Proof. exact (fun H => H). Qed.

Lemma wp_modify (f : State -> State) (s : State) (Q : result unit -> Prop) :
  Q (Ret tt (f s)) -> wp (modify f) s Q.
Proof. exact (fun H => H). Qed.

Lemma wp_panic {A : Type} (s : State) (Q : result A -> Prop) :
  Q (Panic s) -> wp panic s Q.
Proof. exact (fun H => H). Qed.

Lemma wp_check {A : Type} (o : option A) (s : State) (Q : result A -> Prop) :
  (forall a, o = Some a -> Q (Ret a s)) -> (o = None -> Q (Panic s)) ->
  wp (check o) s Q.
Proof. destruct o; intros H1 H2; [apply H1|apply H2]; reflexivity. Qed.

Lemma wp_writes {A : Type} (m : M A) (s : State) (Q : result A -> Prop) :
  writes m ->
  (forall a ops, Q (Ret a (emits s ops))) -> (forall ops, Q (Panic (emits s ops))) ->
  wp m s Q.
Proof.
  intros W H1 H2. unfold wp. destruct (W s) as [ops H].
  destruct (m s); cbn [after] in H; subst; auto.
Qed.

Lemma wp_fmt_Print (x : gostring) (s : State) (Q : result (option error) -> Prop) :
  (forall e ops, Q (Ret e (emits s ops))) -> wp (fmt_Print x) s Q.
Proof.
  intros H. unfold wp, fmt_Print. destruct (stdoutErr s).
  - pose proof (H (Some e) []) as H0. rewrite emits_nil in H0. exact H0.
  - apply (H None [Print x]).
Qed.

(** Fields through the updates of the state. *)
Ltac is_field f :=
  lazymatch f with
  | killRing => idtac | history => idtac | columns => idtac
  | completer => idtac | stdoutErr => idtac | termWidth => idtac
  | out => idtac | terminalSupported => idtac | terminalOutput => idtac
  | after => idtac
  end.

Ltac is_update u :=
  lazymatch u with
  | emits _ _ => idtac | emit _ _ => idtac | set_killRing _ _ => idtac
  | set_history _ _ => idtac | set_columns _ _ => idtac
  | set_completer _ _ => idtac | mkState _ _ _ _ _ _ _ _ _ => idtac
  | Ret _ _ => idtac | Panic _ => idtac
  end.

Ltac field_of f u :=
  let t := eval cbn [killRing history columns completer stdoutErr termWidth out
                     terminalSupported terminalOutput emits emit set_killRing
                     set_history set_columns set_completer after] in (f u) in
  change (f u) with t in *.

Ltac fields :=
  repeat match goal with
         | |- context [?f ?u] => is_field f; is_update u; field_of f u
         | H : context [?f ?u] |- _ => is_field f; is_update u; field_of f u
         end.

(** One step of a call: the rule of its head. *)
Ltac wp_head :=
  lazymatch goal with
  | |- wp (bind _ _) _ _ => apply wp_bind
  | |- wp (ret _) _ _ => apply wp_ret
  | |- wp get _ _ => apply wp_get
  | |- wp (modify _) _ _ => apply wp_modify
  | |- wp panic _ _ => apply wp_panic
  | |- wp (check _) _ _ => apply wp_check; [intros ? ?|intros ?]
  | |- wp (fmt_Print _) _ _ => apply wp_fmt_Print; intros ? ?
  | |- wp (refresh _ _ _) _ _ =>
    apply wp_writes; [apply writes_refresh|intros ? ?|intros ?]
  | |- wp (redraw _ _) _ _ =>
    apply wp_writes; [apply writes_redraw|intros ? ?|intros ?]
  | |- wp (cursorPos _) _ _ => apply wp_modify
  | |- wp eraseLine _ _ => apply wp_modify
  | |- wp eraseScreen _ _ => apply wp_modify
  | |- wp startPrompt _ _ => apply wp_modify
  | |- wp (if ?c then _ else _) _ _ => destruct c eqn:?
  | |- wp (match ?x with _ => _ end) _ _ => destruct x eqn:?
  | |- wp (let (_, _) := ?x in _) _ _ => destruct x eqn:?
  end; cbv beta iota.

Ltac wp_go := repeat wp_head.

(** ** The kill ring *)

Lemma addToKillRing_new (text : list rune) (s : State) :
  addToKillRing text 0 s = Ret tt (set_killRing s (pushed (killRing s) text)).
Proof.
  unfold addToKillRing, pushed, bind, get, modify, ret. cbn [Z.eqb].
  destruct (killRing s) as [|v t] eqn:E; fields.
  - reflexivity.
  - unfold ring_Len. destruct (KillRingMax <=? len (v :: t)); fields.
    + rewrite E. cbn [ring_Next]. destruct (t ++ [v]); reflexivity.
    + rewrite E. cbn [ring_Link ring_Next ring_New1 app ring_SetValue].
      reflexivity.
Qed.

Lemma addToKillRing_join (text : list rune) (mode : Z) (s : State) :
  mode = 1 \/ mode = 2 -> filled (killRing s) ->
  addToKillRing text mode s = Ret tt (set_killRing s (joined (killRing s) text mode)).
Proof.
  intros Hm Hf. unfold addToKillRing, joined, bind, get, modify, ret, check.
  replace (mode =? 0) with false by lia.
  destruct (killRing s) as [|v t] eqn:E; fields.
  - destruct Hm; subst mode; cbn; rewrite ?app_nil_r; reflexivity.
  - rewrite E. inversion Hf; subst. destruct v as [v|]; [|congruence].
    destruct Hm; subst mode; simpl (_ =? _); cbv beta iota;
      unfold ring_Value, ret; rewrite E; reflexivity.
Qed.

Lemma pushed_bounded (r : Ring) (text : list rune) :
  bounded r -> bounded (pushed r text).
Proof.
  unfold bounded, pushed, KillRingMax. destruct r as [|v t]; [unfold len; simpl; lia|].
  destruct (Z.leb_spec 60 (len (v :: t))); intros B.
  - destruct (t ++ [v]) as [|x t'] eqn:E; [unfold len; simpl; lia|].
    apply (f_equal (@length _)) in E. rewrite length_app in E.
    unfold len in *. cbn [length] in *. lia.
  - unfold len in *. cbn [length] in *. rewrite length_app. cbn [length]. lia.
Qed.

Lemma pushed_filled (r : Ring) (text : list rune) :
  filled r -> filled (pushed r text).
Proof.
  unfold filled, pushed. destruct r as [|v t]; intros F.
  - repeat constructor. discriminate.
  - inversion F; subst.
    assert (Forall (fun v => v <> None) (t ++ [v]))
      by (apply Forall_app; split; [assumption|repeat constructor; assumption]).
    destruct (KillRingMax <=? len (v :: t)).
    + destruct (t ++ [v]); [constructor|].
      inversion H; subst. constructor; [discriminate|assumption].
    + constructor; [discriminate|assumption].
Qed.

Lemma joined_bounded (r : Ring) (text : list rune) (mode : Z) :
  bounded r -> bounded (joined r text mode).
Proof.
  unfold bounded, joined, KillRingMax, len. destruct r as [|[v|] t]; simpl; lia.
Qed.

Lemma joined_filled (r : Ring) (text : list rune) (mode : Z) :
  filled r -> filled (joined r text mode).
Proof.
  unfold filled, joined. destruct r as [|[v|] t]; intros F; auto.
  - repeat constructor. discriminate.
  - inversion F; subst. constructor; [discriminate|assumption].
Qed.

Lemma ring_Prev_length (r : Ring) : length (ring_Prev r) = length r.
Proof.
  destruct r as [|v t]; [reflexivity|]. unfold ring_Prev.
  assert (H : v :: t <> []) by discriminate.
  apply (app_removelast_last None) in H. apply (f_equal (@length _)) in H.
  rewrite length_app in H. cbn [length] in *. lia.
Qed.

Lemma ring_Prev_bounded (r : Ring) : bounded r -> bounded (ring_Prev r).
Proof. unfold bounded, len. rewrite ring_Prev_length. auto. Qed.

Lemma ring_Prev_filled (r : Ring) : filled r -> filled (ring_Prev r).
Proof.
  unfold filled. destruct r as [|v t]; [auto|]. intros F. unfold ring_Prev.
  assert (H : v :: t <> []) by discriminate.
  apply (app_removelast_last None) in H. rewrite H in F.
  apply Forall_app in F. destruct F as [F1 F2]. inversion F2; subst.
  constructor; assumption.
Qed.

Lemma wp_addToKillRing (text : list rune) (mode : Z) (s : State)
  (Q : result unit -> Prop) :
  mode = 0 \/ mode = 1 \/ mode = 2 -> ring_ok s ->
  (forall r, bounded r -> filled r ->
             r = (if mode =? 0 then pushed (killRing s) text
                  else joined (killRing s) text mode) ->
             Q (Ret tt (set_killRing s r))) ->
  wp (addToKillRing text mode) s Q.
Proof.
  intros Hm [B F] H. unfold wp. destruct Hm as [->|Hm].
  - rewrite addToKillRing_new. apply H; [apply pushed_bounded|apply pushed_filled|]; auto.
  - rewrite addToKillRing_join by assumption.
    replace (mode =? 0) with false in H by lia.
    apply H; [apply joined_bounded|apply joined_filled|]; auto.
Qed.

Create HintDb writes.
#[export] Hint Resolve writes_ret writes_panic writes_get writes_check
  writes_fmt_Print writes_emit writes_refresh writes_redraw : writes.

Lemma writes_cut (line : list rune) (i j : Z) : writes (cut line i j).
Proof. unfold cut. writes_tac. Qed.

Lemma writes_insertAt (line : list rune) (pos : Z) (v : rune) :
  writes (insertAt line pos v).
Proof. unfold insertAt. writes_tac. Qed.

Lemma writes_split (text : list rune) (pos : Z) : writes (split text pos).
Proof. unfold split. writes_tac. Qed.

Lemma writes_erase_loop (stop : rune -> bool) (fuel : nat) :
  forall line pos buf, writes (erase_loop stop fuel line pos buf).
Proof.
  induction fuel as [|fuel IH]; intros line pos buf; cbn [erase_loop].
  - apply writes_ret.
  - pose proof writes_cut. writes_tac. apply IH.
Qed.

Lemma writes_wordLeft_loop (fuel : nat) :
  forall line pos, writes (wordLeft_loop fuel line pos).
Proof.
  induction fuel as [|fuel IH]; intros line pos; cbn [wordLeft_loop].
  - apply writes_ret.
  - writes_tac. apply IH.
Qed.

Lemma writes_wordRight_loop (fuel : nat) :
  forall line pos, writes (wordRight_loop fuel line pos).
Proof.
  induction fuel as [|fuel IH]; intros line pos; cbn [wordRight_loop].
  - apply writes_ret.
  - writes_tac. apply IH.
Qed.

Lemma writes_historyPrev (l : Loop.locals) : writes (historyPrev l).
Proof. unfold historyPrev. writes_tac. Qed.

Lemma writes_historyNext (l : Loop.locals) : writes (historyNext l).
Proof. unfold historyNext. writes_tac. Qed.

Lemma writes_bottom (l : Loop.locals) : writes (bottom l).
Proof. unfold bottom. writes_tac. Qed.

#[export] Hint Resolve writes_cut writes_insertAt writes_split writes_erase_loop
  writes_wordLeft_loop writes_wordRight_loop writes_historyPrev
  writes_historyNext writes_bottom : writes.

Lemma writes_dispatchAction (p : gostring) (v : action) (l : Loop.locals) :
  writes (dispatchAction p v l).
Proof.
  unfold dispatchAction.
  apply writes_bind; [|intros; apply writes_bind; auto with writes].
  destruct v; writes_tac; auto with writes.
Qed.

#[export] Hint Resolve writes_dispatchAction : writes.

Lemma touched_refl (s : State) : touched s s.
Proof.
  exists (killRing s), []. split; [destruct s; unfold emits; cbn; rewrite app_nil_r; reflexivity|].
  auto.
Qed.

Lemma touched_emits (s s' : State) (ops : list termop) :
  touched s s' -> touched s (emits s' ops).
Proof.
  intros [r [ops' [-> H]]]. exists r, (ops' ++ ops). split; [|exact H].
  unfold emits. cbn. rewrite app_assoc. reflexivity.
Qed.

Lemma touched_set (s s' : State) (r : Ring) :
  touched s s' -> bounded r -> filled r -> touched s (set_killRing s' r).
Proof.
  intros [r' [ops [-> H]]] B F. exists r, ops. split; [reflexivity|]. auto.
Qed.

Lemma touched_ring_ok (s s' : State) : touched s s' -> ring_ok s -> ring_ok s'.
Proof. intros [r [ops [-> H]]] R. exact (H R). Qed.

Lemma touched_trans (s s' s'' : State) :
  touched s s' -> touched s' s'' -> touched s s''.
Proof.
  intros T [r [ops [-> H]]]. pose proof (touched_ring_ok _ _ T) as K.
  destruct T as [r' [ops' [-> H']]].
  exists r, (ops' ++ ops). split.
  - unfold emits, set_killRing. cbn. rewrite app_assoc. reflexivity.
  - auto.
Qed.

Lemma touched_frame (s s' : State) :
  touched s s' ->
  history s' = history s /\ columns s' = columns s /\ completer s' = completer s
  /\ stdoutErr s' = stdoutErr s /\ termWidth s' = termWidth s
  /\ terminalSupported s' = terminalSupported s
  /\ terminalOutput s' = terminalOutput s.
Proof. intros [r [ops [-> _]]]. repeat split. Qed.

(** Close a goal [touched s s'] along the shape of [s']. *)
Ltac touch :=
  repeat first
    [ assumption
    | apply touched_refl
    | apply touched_emits
    | apply touched_set; [|assumption|assumption]
    | match goal with
      | H : ring_ok ?s |- ring_ok ?s' =>
        apply (touched_ring_ok s s'); [|exact H]
      end ].

(** One step of a call, for the calls that only write and for
    [addToKillRing] as well. *)
Ltac wp_touch :=
  first
    [ wp_head
    | lazymatch goal with
      | |- wp (addToKillRing _ _) ?s1 _ =>
        apply wp_addToKillRing; [lia | try solve [touch] | intros ? ? ? ?]
      | |- wp _ _ _ =>
        apply wp_writes; [solve [auto with writes]|intros ? ?|intros ?]
      end; cbv beta iota ].

Lemma dispatchRune_touched (p : gostring) (v : rune) (l : Loop.locals) (s0 s : State) :
  ring_ok s0 -> touched s0 s ->
  wp (dispatchRune p v l) s (fun r => touched s0 (after r)).
Proof.
  intros R T. unfold dispatchRune, kill. repeat wp_touch; fields; touch.
Qed.

(** ** The sub-modes *)

Lemma run_wp {A B : Type} (m : M A) (s : State) (k : A -> State -> outcome B)
  (P : outcome B -> Prop) :
  wp m s (fun r => match r with
                   | Ret a s1 => P (k a s1)
                   | Panic s1 => P (Panicked s1)
                   end) ->
  P (run m s k).
Proof. unfold wp, run. destruct (m s); auto. Qed.

Lemma sane_cons (s0 : State) (ev : event) (inp : list event) (o : outcome handback) :
  sane s0 inp o -> sane s0 (ev :: inp) o.
Proof.
  intros [T H]. split; [exact T|].
  destruct o as [[[[line pos] next] err] s rest| |]; auto.
  destruct H as [[used Hu] He]. split.
  - exists (ev :: used). rewrite Hu. reflexivity.
  - intros e E. right. auto.
Qed.

Lemma sane_done (s0 s : State) (ev : event) (inp : list event)
  (line : list rune) (pos : Z) (next : iface) (err : option error) :
  touched s0 s -> (forall e, err = Some e -> ev = Fail e) ->
  sane s0 (ev :: inp) (Done (line, pos, next, err) s inp).
Proof.
  intros T E. split; [exact T|]. split.
  - exists [ev]. reflexivity.
  - intros e He. left. auto.
Qed.

Lemma sane_blocked (s0 s : State) (inp : list event) :
  touched s0 s -> sane s0 inp (Blocked s).
Proof. intros T. split; [exact T|exact I]. Qed.

Lemma sane_panicked (s0 s : State) (inp : list event) :
  touched s0 s -> sane s0 inp (Panicked s).
Proof. intros T. split; [exact T|exact I]. Qed.

(** Close a goal [sane] whose outcome is explicit. *)
Ltac sane_tac :=
  fields;
  lazymatch goal with
  | |- sane _ (_ :: _) (Done _ _ _) => apply sane_done; [touch|intros; congruence]
  | |- sane _ _ (Blocked _) => apply sane_blocked; touch
  | |- sane _ _ (Panicked _) => apply sane_panicked; touch
  | |- sane _ (_ :: _) _ => apply sane_cons
  end.

Lemma yank_loop_sane (inp : list event) :
  forall (again : bool) (p : gostring) (ls le : list rune) (s0 s : State),
  ring_ok s0 -> touched s0 s -> sane s0 inp (yank_loop again p ls le s inp).
Proof.
  induction inp as [|ev inp IH]; intros again p ls le s0 s R T;
    cbn [yank_loop]; apply run_wp; repeat wp_touch; try solve [sane_tac].
  destruct ev as [next|e]; [|sane_tac].
  destruct next as [| |key|act]; try solve [sane_tac; apply IH; [assumption|touch]].
  - destruct (again && (key =? ctrlY) && negb (ring_Len (killRing (emits s ops)) =? 0));
      [|sane_tac].
    apply run_wp; repeat wp_touch; try solve [sane_tac].
    match goal with x : (list rune * list rune)%type |- _ => destruct x as [ls' le'] end.
    sane_tac. apply IH; [assumption|touch].
  - destruct act; try solve [sane_tac].
    sane_tac. apply IH; [assumption|].
    pose proof (touched_ring_ok s0 s T R) as [B F].
    apply touched_set; [touch|apply ring_Prev_bounded|apply ring_Prev_filled];
      fields; assumption.
Qed.

Lemma yanks_sane (p : gostring) (text : list rune) (pos : Z) (s0 s : State)
  (inp : list event) :
  ring_ok s0 -> touched s0 s -> sane s0 inp (yanks p text pos s inp).
Proof.
  intros R T. unfold yanks. apply run_wp. repeat wp_touch; try solve [sane_tac].
  match goal with x : (list rune * list rune)%type |- _ => destruct x end.
  apply yank_loop_sane; [assumption|touch].
Qed.

Lemma tabComplete_loop_sane (inp : list event) :
  forall (p : gostring) (line : list rune) (pos : Z) (head : gostring)
         (list' : list gostring) (tail : gostring) (hl listEntry : Z)
         (s0 s : State),
  touched s0 s ->
  sane s0 inp (tabComplete_loop p line pos head list' tail hl listEntry s inp).
Proof.
  induction inp as [|ev inp IH]; intros p line pos head list' tail hl listEntry s0 s T;
    cbn [tabComplete_loop]; apply run_wp; repeat wp_touch; try solve [sane_tac].
  destruct ev as [next|e]; [|sane_tac].
  destruct next as [| |key|act]; try solve [sane_tac].
  - destruct (key =? tab); [sane_tac; apply IH; touch|].
    destruct (key =? esc); sane_tac.
  - destruct act; try solve [sane_tac]. sane_tac. apply IH. touch.
Qed.

Lemma sane_same (s0 s : State) (inp : list event) (line : list rune) (pos : Z)
  (next : iface) :
  touched s0 s -> sane s0 inp (Done (line, pos, next, None) s inp).
Proof.
  intros T. split; [exact T|]. split; [exists []; reflexivity|discriminate].
Qed.

Lemma tabComplete_sane (p : gostring) (line : list rune) (pos : Z) (s0 s : State)
  (inp : list event) :
  touched s0 s -> sane s0 inp (tabComplete p line pos s inp).
Proof.
  intros T. unfold tabComplete. destruct (completer s) as [complete|].
  - destruct (complete (string_of_runes line) pos) as [[head list'] tail].
    destruct (len list' <=? 0); [apply sane_same; assumption|].
    apply tabComplete_loop_sane. assumption.
  - apply sane_same. assumption.
Qed.

Lemma writes_research (keep : bool) (s : State) (line : list rune) (pos : Z)
  (v : Search.locals) : writes (research keep s line pos v).
Proof.
  unfold research. destruct (getHistoryByPattern s (string_of_runes line)).
  writes_tac.
Qed.

Lemma writes_search_rune (r : rune) (v : Search.locals) : writes (search_rune r v).
Proof.
  unfold search_rune. pose proof writes_research. writes_tac; apply writes_research.
Qed.

#[export] Hint Resolve writes_research writes_search_rune : writes.

Lemma reverseISearch_loop_sane (inp : list event) :
  forall (origLine : list rune) (origPos : Z) (v : Search.locals) (s0 s : State),
  touched s0 s -> sane s0 inp (reverseISearch_loop origLine origPos v s inp).
Proof.
  induction inp as [|ev inp IH]; intros origLine origPos v s0 s T;
    cbn [reverseISearch_loop]; [sane_tac|].
  destruct ev as [next|e]; [|sane_tac].
  destruct next as [| |key|act]; try solve [sane_tac].
  - apply run_wp. repeat wp_touch; try solve [sane_tac].
    sane_tac. apply IH. touch.
  - apply run_wp. repeat wp_touch; try solve [sane_tac].
    sane_tac. apply IH. touch.
  - destruct (key =? ctrlG); [sane_tac|].
    destruct (search_commits key); [sane_tac|].
    apply run_wp. repeat wp_touch; try solve [sane_tac].
    sane_tac. apply IH. touch.
Qed.

Lemma reverseISearch_sane (origLine : list rune) (origPos : Z) (s0 s : State)
  (inp : list event) :
  touched s0 s -> sane s0 inp (reverseISearch origLine origPos s inp).
Proof.
  intros T. unfold reverseISearch. apply run_wp. repeat wp_touch; try solve [sane_tac].
  destruct (getHistoryByPattern _ _). apply reverseISearch_loop_sane. touch.
Qed.

(** ** One round of the main loop *)

Lemma resume_psane (s0 : State) (inp : list event) (o : outcome handback)
  (p : gostring) (l : Loop.locals) (again : bool) :
  sane s0 inp o -> psane s0 inp (resume o p l again).
Proof.
  intros [T H]. destruct o as [[[[line pos] next] err] s rest|s|s]; cbn [resume final] in *.
  - destruct H as [U E]. destruct err as [e|].
    + split; [exact T|]. split; [exact U|]. apply E. reflexivity.
    + destruct again.
      * apply run_wp. repeat wp_touch.
        -- split; [cbn [final]; touch|]. split; [exact U|exact I].
        -- split; [cbn [final]; touch|exact I].
      * split; [exact T|]. split; [exact U|exact I].
  - split; [exact T|exact I].
  - split; [exact T|exact I].
Qed.

Lemma psane_same (s0 s : State) (inp : list event) (l : Loop.locals) (next : iface) :
  touched s0 s -> psane s0 inp (Done (inl (l, next)) s inp).
Proof. intros T. split; [exact T|]. split; [exists []; reflexivity|exact I]. Qed.

Lemma and_then_psane (s0 : State) (inp : list event) (o : outcome pre)
  (k : Loop.locals -> iface -> State -> list event -> outcome pre) :
  psane s0 inp o ->
  (forall l next s rest, touched s0 s -> psane s0 rest (k l next s rest)) ->
  psane s0 inp (and_then o k).
Proof.
  intros [T H] K. destruct o as [[[l next]|e] s rest|s|s]; cbn [and_then final] in *.
  - destruct H as [[used U] _]. destruct (K l next s rest T) as [T' H'].
    split; [exact T'|].
    destruct (k l next s rest) as [x s' rest'|s'|s']; auto.
    destruct H' as [[used' U'] E]. split.
    + exists (used ++ used'). rewrite U, U', app_assoc. reflexivity.
    + destruct x as [|e]; auto. rewrite U. apply in_or_app. right. exact E.
  - split; [exact T|exact H].
  - split; [exact T|exact I].
  - split; [exact T|exact I].
Qed.

Lemma hooks_psane (p : gostring) (l : Loop.locals) (next : iface) (s0 s : State)
  (inp : list event) :
  ring_ok s0 -> touched s0 s -> psane s0 inp (hooks p l next s inp).
Proof.
  intros R T. unfold hooks.
  apply and_then_psane; [apply and_then_psane|].
  - unfold hookTab. destruct (is_rune next tab); [|apply psane_same; assumption].
    apply resume_psane, tabComplete_sane. assumption.
  - intros l' next' s' rest T'. unfold hookYank.
    destruct (is_rune next' ctrlY && negb (ring_Len (killRing s') =? 0));
      [|apply psane_same; assumption].
    apply resume_psane, yanks_sane; assumption.
  - intros l' next' s' rest T'. unfold hookSearch.
    destruct (is_rune next' ctrlR); [|apply psane_same; assumption].
    apply resume_psane, reverseISearch_sane. assumption.
Qed.

Lemma len_zero {A : Type} (l : list A) : len l = 0 <-> l = [].
Proof. unfold len. destruct l; cbn; split; intros; (congruence || lia). Qed.

Lemma dispatchRune_wp (p : gostring) (v : rune) (l : Loop.locals) (s0 s : State) :
  ring_ok s0 -> touched s0 s ->
  wp (dispatchRune p v l) s
     (fun r => touched s0 (after r)
               /\ forall line err s', r = Ret (Return line err) s' ->
                    eof_key (Rune v) l /\ line = [] /\ err = io_EOF /\ s' = s).
Proof.
  intros R T. unfold dispatchRune, kill.
  repeat wp_touch; fields; (split; [touch|]); intros line' err' s' E;
    try discriminate.
  injection E as <- <- <-.
  repeat match goal with
         | H : (_ =? _) = true |- _ => apply Z.eqb_eq in H
         | H : (_ && _) = true |- _ => apply andb_true_iff in H; destruct H
         end.
  subst v. unfold eof_key. repeat split; auto. apply len_zero. assumption.
Qed.

Lemma dispatch_wp (p : gostring) (next : iface) (l : Loop.locals) (s0 s : State) :
  ring_ok s0 -> touched s0 s ->
  wp (dispatch p next l) s
     (fun r => touched s0 (after r)
               /\ forall line err s', r = Ret (Return line err) s' ->
                    eof_key next l /\ line = [] /\ err = io_EOF /\ s' = s).
Proof.
  intros R T. destruct next as [| |v|a]; cbn [dispatch].
  - apply wp_ret. split; [touch|discriminate].
  - apply wp_ret. split; [touch|discriminate].
  - apply dispatchRune_wp; assumption.
  - unfold dispatchAction. apply wp_bind.
    apply wp_writes;
      [destruct a; writes_tac; auto with writes|intros c ops|intros ops];
      cbv beta iota.
    + repeat wp_touch; fields; (split; [touch|discriminate]).
    + fields; (split; [touch|discriminate]).
Qed.

(** The switch and the bottom of the body. *)
Lemma dispatched_wp (p : gostring) (next : iface) (l : Loop.locals) (s0 s : State) :
  ring_ok s0 -> touched s0 s ->
  wp (dispatched p next l) s
     (fun r => touched s0 (after r)
               /\ forall line err s', r = Ret (Return line err) s' ->
                    eof_key next l /\ line = [] /\ err = io_EOF /\ s' = s).
Proof.
  intros R T. unfold dispatched. apply wp_bind.
  pose proof (dispatch_wp p next l s0 s R T) as D. unfold wp in *.
  destruct (dispatch p next l s) as [c s1|s1]; cbn [after] in D; destruct D as [T1 D].
  - destruct c as [l1|l1|line err].
    + repeat wp_touch; fields; (split; [touch|discriminate]).
    + apply wp_ret. split; [exact T1|discriminate].
    + apply wp_ret. split; [exact T1|].
      intros line' err' s' E. injection E as <- <- <-.
      destruct (D line err s1 eq_refl) as [K [-> [-> ->]]]. auto.
  - split; [exact T1|discriminate].
Qed.

Lemma iteration_sane (p : gostring) (l : Loop.locals) (s : State)
  (inp : list event) :
  ring_ok s -> round_sane p s inp (iteration p l s inp).
Proof.
  intros R. unfold iteration. destruct inp as [|[next|err] inp].
  - split; [apply touched_refl|exact I].
  - pose proof (hooks_psane p (Loop.set_historyAction l false) next s s inp R
                  (touched_refl s)) as [T H].
    destruct (hooks p (Loop.set_historyAction l false) next s inp)
      as [[[l1 next1]|e] s1 rest|s1|s1]; cbn [final] in T.
    + destruct H as [[used U] _]. apply run_wp.
      pose proof (dispatched_wp p next1 l1 s s1 R T) as D. unfold wp in *.
      destruct (dispatched p next1 l1 s1) as [c s2|s2]; cbn [after] in D;
        destruct D as [T2 D].
      * split; [exact T2|]. split.
        -- exists (Key next :: used). split; [discriminate|]. rewrite U. reflexivity.
        -- destruct c as [| |line e]; auto.
           destruct (D line e s2 eq_refl) as [_ [-> [-> _]]]. auto.
      * split; [exact T2|exact I].
    + destruct H as [[used U] E]. split; [exact T|]. split.
      * exists (Key next :: used). split; [discriminate|]. rewrite U. reflexivity.
      * split; [reflexivity|]. left. right. exact E.
    + split; [exact T|exact I].
    + split; [exact T|exact I].
  - split; [apply touched_refl|]. split.
    + exists [Fail err]. split; [discriminate|reflexivity].
    + split; [reflexivity|]. left. left. reflexivity.
Qed.

(** ** The session as a whole *)

Lemma mainLoop_total (fuel : nat) :
  forall (p : gostring) (l : Loop.locals) (s0 s : State) (inp : list event),
  ring_ok s0 -> touched s0 s -> (length inp < fuel)%nat ->
  exists o, mainLoop fuel p l s inp = Some o /\ touched s0 (final o).
Proof.
  induction fuel as [|fuel IH]; intros p l s0 s inp R T L; [lia|].
  cbn [mainLoop].
  pose proof (iteration_sane p l s inp (touched_ring_ok s0 s T R)) as [T1 H].
  destruct (iteration p l s inp) as [c s1 rest|s1|s1]; cbn [final] in T1.
  - destruct H as [[used [Hne U]] _].
    pose proof (touched_trans _ _ _ T T1) as T2.
    destruct c as [l1|l1|line err].
    + apply IH; [assumption|assumption|].
      rewrite U, length_app in L. destruct used; [congruence|]. cbn [length] in L. lia.
    + eexists. split; [reflexivity|exact T2].
    + eexists. split; [reflexivity|exact T2].
  - eexists. split; [reflexivity|]. exact (touched_trans _ _ _ T T1).
  - eexists. split; [reflexivity|]. exact (touched_trans _ _ _ T T1).
Qed.

(** [Prompt] on a terminal that supports editing gives a result for every
    sequence of events: the fuel of its loop is never used up.  The state it
    leaves keeps the history, and the ring in order. *)
Lemma Prompt_total (fb : gostring -> State -> list event
                          -> outcome (gostring * option error))
  (p : gostring) (s : State) (inp : list event) :
  terminalSupported s = true -> ring_ok s ->
  exists o, Prompt fb p s inp = Some o
            /\ ring_ok (final o) /\ history (final o) = history s.
Proof.
  intros TS R. unfold Prompt. rewrite TS. cbn [negb].
  destruct (terminalOutput s); cbn [negb].
  - unfold bind, startPrompt, getColumns, modify. fields.
    set (s1 := set_columns (emit (emit s StartPrompt) GetColumns) (termWidth s)).
    assert (R1 : ring_ok s1) by exact R.
    assert (H1 : history s1 = history s) by reflexivity.
    pose proof (wp_fmt_Print p s1
                  (fun r => ring_ok (after r) /\ history (after r) = history s)) as W.
    unfold wp in W.
    destruct (fmt_Print p s1) as [e s2|s2];
      (destruct W as [R2 H2]; [intros; fields; auto|]); cbn [after] in *.
    + destruct (mainLoop_total (S (length inp)) p (initial s2) s2 s2 inp R2
                  (touched_refl s2) ltac:(lia)) as [o [E T]].
      exists o. split; [exact E|]. split; [exact (touched_ring_ok _ _ T R2)|].
      destruct (touched_frame _ _ T) as [-> _]. exact H2.
    + eexists. split; [reflexivity|]. auto.
  - eexists. split; [reflexivity|]. cbn [final]. auto.
Qed.

(** ** The kill ring in a session *)

Lemma pushed_nonempty (r : Ring) (text : list rune) :
  text <> [] -> segments_nonempty r -> segments_nonempty (pushed r text).
Proof.
  unfold segments_nonempty, pushed. intros Ht F. destruct r as [|v t].
  - repeat constructor. exists text. auto.
  - inversion F; subst.
    assert (Forall (fun v => exists t, v = Some t /\ t <> []) (t ++ [v]))
      by (apply Forall_app; split; [assumption|repeat constructor; assumption]).
    destruct (KillRingMax <=? len (v :: t)).
    + destruct (t ++ [v]); [constructor|].
      inversion H; subst. constructor; [exists text; auto|assumption].
    + constructor; [exists text; auto|assumption].
Qed.

Lemma joined_nonempty (r : Ring) (text : list rune) (mode : Z) :
  text <> [] -> segments_nonempty r -> segments_nonempty (joined r text mode).
Proof.
  unfold segments_nonempty, joined. intros Ht F. destruct r as [|[v|] t]; auto.
  - repeat constructor. exists text. auto.
  - inversion F; subst. constructor; [|assumption].
    eexists. split; [reflexivity|].
    destruct (mode =? 1); intros E; apply app_eq_nil in E; tauto.
Qed.

Lemma slice_nonempty {A : Type} (l a : list A) (lo hi : Z) :
  slice l lo hi = Some a -> lo < hi -> a <> [].
Proof.
  unfold slice. destruct ((0 <=? lo) && (lo <=? hi) && (hi <=? len l)) eqn:E;
    [|discriminate].
  intros H L. injection H as <-. intros N. apply (f_equal (@length _)) in N.
  rewrite length_firstn, length_skipn in N. unfold len in *. cbn [length] in N. lia.
Qed.

(** [erase_loop] leaves the state alone and only adds to [buf]: nothing
    when [stop] holds of the rune before the cursor, that rune at least
    when it does not. *)
Lemma erase_loop_wp (stop : rune -> bool) (fuel : nat) :
  forall (line : list rune) (pos : Z) (buf : list rune) (s : State),
  wp (erase_loop stop fuel line pos buf) s
     (fun r => after r = s
               /\ forall line' pos' buf', r = Ret (line', pos', buf') s ->
                    exists extra, buf' = buf ++ extra
                    /\ ((0 < fuel)%nat -> pos <> 0 ->
                        exists c, index line (pos - 1) = Some c
                          /\ (stop c = false -> extra <> [])
                          /\ (stop c = true ->
                              line' = line /\ pos' = pos /\ extra = []))).
Proof.
  induction fuel as [|fuel IH]; intros line pos buf s; cbn [erase_loop].
  - apply wp_ret. split; [reflexivity|]. intros ? ? ? E. injection E as <- <- <-.
    exists []. rewrite app_nil_r. split; [reflexivity|]. intros; lia.
  - destruct (Z.eqb_spec pos 0) as [Hp|Hp].
    + apply wp_ret. split; [reflexivity|]. intros ? ? ? E. injection E as <- <- <-.
      exists []. rewrite app_nil_r. split; [reflexivity|]. intros; lia.
    + apply wp_bind, wp_check; [intros c Hc|intros _]; cbv beta iota.
      2:{ split; [reflexivity|discriminate]. }
      destruct (stop c) eqn:Hs.
      * apply wp_ret. split; [reflexivity|]. intros ? ? ? E. injection E as <- <- <-.
        exists []. rewrite app_nil_r. split; [reflexivity|].
        intros _ _. exists c. repeat split; auto. congruence.
      * apply wp_bind. unfold cut.
        repeat (first [apply wp_bind | apply wp_check; [intros ? ?|intros ?]
                      | apply wp_ret]; cbv beta iota);
          try (split; [reflexivity|discriminate]).
        specialize (IH (a ++ a0) (pos - 1) (buf ++ [c]) s). unfold wp in *.
        destruct (erase_loop stop fuel (a ++ a0) (pos - 1) (buf ++ [c]) s)
          as [[[line' pos'] buf'] s'|s']; destruct IH as [E IH]; cbn [after] in E;
          subst s'; (split; [reflexivity|]); [|discriminate].
        intros ? ? ? E. injection E as <- <- <-.
        destruct (IH line' pos' buf' eq_refl) as [extra [-> _]].
        exists (c :: extra). rewrite <- app_assoc. split; [reflexivity|].
        intros _ _. exists c. repeat split; try congruence; discriminate.
Qed.

Lemma wp_erase_loop (stop : rune -> bool) (fuel : nat) (line : list rune)
  (pos : Z) (buf : list rune) (s : State)
  (Q : result (list rune * Z * list rune) -> Prop) :
  (forall line' pos' extra,
     ((0 < fuel)%nat -> pos <> 0 ->
      exists c, index line (pos - 1) = Some c
        /\ (stop c = false -> extra <> [])
        /\ (stop c = true -> line' = line /\ pos' = pos /\ extra = [])) ->
     Q (Ret (line', pos', buf ++ extra) s)) ->
  Q (Panic s) ->
  wp (erase_loop stop fuel line pos buf) s Q.
Proof.
  intros H1 H2. pose proof (erase_loop_wp stop fuel line pos buf s) as W.
  unfold wp in *.
  destruct (erase_loop stop fuel line pos buf s) as [[[line' pos'] buf'] s'|s'];
    destruct W as [E W]; cbn [after] in E; subst s'; [|exact H2].
  destruct (W line' pos' buf' eq_refl) as [extra [-> P]]. apply H1. exact P.
Qed.

(** But for CTRL-U with the cursor at 0, no key puts an empty text into
    the ring. *)
Lemma dispatchRune_nonempty (p : gostring) (v : rune) (l : Loop.locals) (s : State) :
  ring_ok s -> segments_nonempty (killRing s) ->
  (v = ctrlU -> 0 < Loop.pos l) ->
  segments_nonempty (killRing (after (dispatchRune p v l s))).
Proof.
  intros R N U.
  change (wp (dispatchRune p v l) s
            (fun r => segments_nonempty (killRing (after r)))).
  unfold dispatchRune, kill.
  repeat first
    [ lazymatch goal with
      | |- wp (erase_loop _ _ _ _ _) _ _ =>
        apply wp_erase_loop; [intros ? ? ? ?|]
      | |- wp (addToKillRing _ _) _ _ =>
        apply wp_addToKillRing; [lia | exact R | intros ? ? ? ?]
      end; cbv beta iota
    | wp_touch ]; fields; try assumption.
  all: subst r; simpl (_ =? _); cbv iota;
    (apply pushed_nonempty || apply joined_nonempty); try assumption.
  all: try match goal with
           | Hs : slice _ ?lo ?hi = Some ?a |- ?a <> [] =>
             apply (slice_nonempty _ _ _ _ Hs);
             first [ apply U, Z.eqb_eq; assumption
                   | match goal with
                     | H : (_ <=? _) = false |- _ => apply Z.leb_gt in H; exact H
                     end ]
           end.
  all: rewrite app_nil_l; intros E; apply (f_equal (@rev _)) in E;
    rewrite rev_involutive in E; cbn [rev] in E; apply app_eq_nil in E;
    destruct E as [E1 E2]; subst extra extra0.
  all: match goal with
       | Hp : (?pos0 =? 0) = false,
         Ha : _ -> ?pos0 <> 0 -> _,
         Hb : _ -> ?pos' <> 0 -> _ |- _ =>
         apply Z.eqb_neq in Hp;
         destruct (Ha ltac:(apply Nat.lt_0_succ) Hp) as [c [Hc [Hc1 Hc2]]];
         destruct (IsSpace c) eqn:Sp; cbn [negb] in *;
         [exact (Hc1 eq_refl eq_refl)|];
         destruct (Hc2 eq_refl) as [-> [-> _]];
         destruct (Hb ltac:(apply Nat.lt_0_succ) Hp) as [c' [Hc' [Hc1' _]]];
         rewrite Hc in Hc'; injection Hc' as <-;
         exact (Hc1' Sp eq_refl)
       end.
Qed.

Lemma firstn_S_snoc {A : Type} (k : nat) (l : list A) (d : A) :
  (k < length l)%nat -> firstn (S k) l = firstn k l ++ [nth k l d].
Proof.
  revert l. induction k as [|k IH]; intros [|x l] L; cbn [length] in L; try lia.
  - reflexivity.
  - cbn [firstn nth app]. f_equal. apply IH. lia.
Qed.

Lemma pushed_ring_of (ts : list (list rune)) (t : list rune) :
  pushed (ring_of ts) t = ring_of (ts ++ [t]).
Proof.
  unfold ring_of. rewrite rev_app_distr. cbn [rev app].
  destruct (rev ts) as [|n older]; [reflexivity|].
  unfold pushed. change (firstn 59 (n :: older)) with (n :: firstn 58 older).
  cbn [rev]. rewrite map_app. cbn [map].
  unfold len, KillRingMax. cbn [length]. rewrite length_map, length_rev, length_firstn.
  destruct (Nat.le_gt_cases 59 (length older)) as [L|L].
  - replace (60 <=? Z.of_nat (S (Init.Nat.min 59 (length older)))) with true by lia.
    rewrite (firstn_S_snoc 58 older []) by lia.
    rewrite rev_app_distr. cbn [rev app map]. reflexivity.
  - replace (60 <=? Z.of_nat (S (Init.Nat.min 59 (length older)))) with false by lia.
    rewrite !firstn_all2 by lia. reflexivity.
Qed.

Lemma pushes_ring_of (ts : list (list rune)) : fold_left pushed ts [] = ring_of ts.
Proof.
  induction ts as [|t ts IH] using rev_ind; [reflexivity|].
  rewrite fold_left_app. cbn [fold_left]. rewrite IH. apply pushed_ring_of.
Qed.

(** C2, as amended.  In every state in which [Prompt] returns, panics or
    waits for the next key, the kill ring has at most [KillRingMax] nodes.
    But for CTRL-U with the cursor at 0, no key stores an empty text, so
    that the nodes of the ring keep texts that are not empty.  A new node
    on a full ring takes the place of the node after the pointer and the
    ring does not grow; as long as texts are only killed, one node each,
    that node is the oldest: the ring holds the newest 60 texts. *)
Theorem kill_ring_invariant :
  (forall fb p s inp,
     terminalSupported s = true -> ring_ok s ->
     exists o, Prompt fb p s inp = Some o
               /\ len (killRing (final o)) <= KillRingMax)
  /\ (forall p v l s,
        ring_ok s -> segments_nonempty (killRing s) ->
        (v = ctrlU -> 0 < Loop.pos l) ->
        segments_nonempty (killRing (after (dispatchRune p v l s))))
  /\ (forall text s,
        addToKillRing text 0 s = Ret tt (set_killRing s (pushed (killRing s) text)))
  /\ (forall text v old t,
        KillRingMax <= len (v :: old :: t) ->
        pushed (v :: old :: t) text = Some text :: t ++ [v])
  /\ (forall ts, fold_left pushed ts [] = ring_of ts).
Proof.
  split; [|split; [|split; [|split]]].
  - intros fb p s inp TS R.
    destruct (Prompt_total fb p s inp TS R) as [o [E [[B _] _]]].
    exists o. split; [exact E|exact B].
  - exact dispatchRune_nonempty.
  - exact addToKillRing_new.
  - intros text v old t L. unfold pushed.
    replace (KillRingMax <=? len (v :: old :: t)) with true by lia. reflexivity.
  - exact pushes_ring_of.
Qed.

Lemma kill_ring_invariant_witness :
  exists o,
    Prompt noFallback (str "> ") (newState 80)
      [Key (Rune 97); Key (Rune ctrlU); Key (Rune 98); Key (Rune ctrlU)] = Some o
    /\ len (killRing (final o)) <= KillRingMax.
Proof.
  apply (proj1 kill_ring_invariant); [reflexivity|].
  split; [vm_compute; discriminate|constructor].
Defined.

(** CTRL-U on the empty line of a fresh session puts an empty text into
    the ring: CTRL-K and CTRL-W beep where there is nothing to kill, CTRL-U
    does not. *)
Lemma ctrlU_at_start_stores_empty :
  exists s,
    Prompt noFallback (str "> ") (newState 80) [Key (Rune ctrlU)] = Some (Blocked s)
    /\ segments_nonempty (killRing (newState 80))
    /\ killRing s = [Some []]
    /\ ~ segments_nonempty (killRing s).
Proof.
  eexists. split; [vm_compute; reflexivity|]. split; [constructor|].
  split; [reflexivity|].
  cbn [killRing]. intros N. inversion N as [|? ? [t [E Ht]] _]; subst.
  injection E as <-. apply Ht. reflexivity.
Qed.

(** Once ALT-Y has moved the pointer back, a new node on the full ring
    takes the place of the newest text, and the oldest stays. *)
Lemma full_ring_after_rotation :
  exists s,
    Prompt noFallback (str "> ") (newState 80)
      (sixty_kills ++ [Key (Rune ctrlY); Key (Action Act.altY); Key (Rune 120);
                       Key (Rune ctrlU)]) = Some (Blocked s)
    /\ len (killRing s) = 60
    /\ ring_Value (killRing s) = Some [123; 120]
    /\ In (Some [65]) (killRing s)
    /\ ~ In (Some [124]) (killRing s).
Proof.
  eexists. split; [vm_compute; reflexivity|].
  split; [reflexivity|]. split; [reflexivity|]. split.
  - right. left. reflexivity.
  - intros H. cbn [In] in H.
    repeat (destruct H as [H|H]; [discriminate H|]). exact H.
Qed.

(** C2, as stated, fails.  On a full ring the new node does not take the
    place of the oldest text once ALT-Y has moved the pointer: after sixty
    kills of one rune each, a yank, ALT-Y, a rune and CTRL-U, the oldest
    text is still there and the newest is gone.  And a text of the ring
    can be empty: CTRL-U with the cursor at 0 stores one. *)
Lemma kill_ring_counterexample :
  (exists s,
     Prompt noFallback (str "> ") (newState 80)
       (sixty_kills ++ [Key (Rune ctrlY); Key (Action Act.altY); Key (Rune 120);
                        Key (Rune ctrlU)]) = Some (Blocked s)
     /\ len (killRing s) = 60
     /\ ring_Value (killRing s) = Some [123; 120]
     /\ In (Some [65]) (killRing s)
     /\ ~ In (Some [124]) (killRing s))
  /\ (exists s,
        Prompt noFallback (str "> ") (newState 80) [Key (Rune ctrlU)]
        = Some (Blocked s)
        /\ segments_nonempty (killRing (newState 80))
        /\ killRing s = [Some []]
        /\ ~ segments_nonempty (killRing s)).
Proof. exact (conj full_ring_after_rotation ctrlU_at_start_stores_empty). Qed.

(** ** CTRL-D and the end of input *)

Lemma dispatchRune_ctrlD_eof (p : gostring) (l : Loop.locals) (s : State) :
  Loop.pos l = 0 -> Loop.line l = [] ->
  dispatchRune p ctrlD l s = Ret (Return [] io_EOF) s.
Proof.
  intros Hp Hl. unfold dispatchRune. cbn [Z.eqb ctrlD cr lf ctrlA ctrlE ctrlB ctrlF
    Pos.eqb orb]. rewrite Hp, Hl. reflexivity.
Qed.

Lemma dispatchRune_ctrlD_other (p : gostring) (l : Loop.locals) (s : State) :
  ~ (Loop.pos l = 0 /\ Loop.line l = []) ->
  dispatchRune p ctrlD l s
  = (if len (Loop.line l) <=? Loop.pos l
     then fmt_Print beep ;;; ret (Continue l)
     else line <- cut (Loop.line l) (Loop.pos l) (Loop.pos l + 1) ;;
          redraw p (Loop.set_line l line) ;;; ret (Continue (Loop.set_line l line)))
    (emits s [StartPrompt]).
Proof.
  intros H. unfold dispatchRune. cbn [Z.eqb ctrlD cr lf ctrlA ctrlE ctrlB ctrlF
    Pos.eqb orb].
  replace ((Loop.pos l =? 0) && (len (Loop.line l) =? 0)) with false.
  - reflexivity.
  - symmetry. apply andb_false_iff.
    destruct (Z.eqb_spec (Loop.pos l) 0) as [E|E]; [|auto]. right.
    apply Z.eqb_neq. intros E'. apply len_zero in E'. auto.
Qed.

Lemma dispatched_eof (p : gostring) (l : Loop.locals) (s : State) :
  Loop.pos l = 0 -> Loop.line l = [] ->
  dispatched p (Rune ctrlD) l s = Ret (Return [] io_EOF) s.
Proof.
  intros Hp Hl. unfold dispatched, bind. cbn [dispatch].
  rewrite dispatchRune_ctrlD_eof by assumption. reflexivity.
Qed.

(** A round returns [io.EOF] when it is an [eof_round] or a
    [read_eof_round], and only then. *)
Lemma iteration_eof (p : gostring) (l : Loop.locals) (s : State) (inp : list event)
  (line : gostring) (s' : State) (rest : list event) :
  ring_ok s ->
  iteration p l s inp = Done (Return line io_EOF) s' rest
  <-> (eof_round p l s inp s' rest \/ read_eof_round p l s inp s' rest)
      /\ line = [].
Proof.
  intros R. unfold iteration, eof_round, read_eof_round. split.
  - destruct inp as [|[next|err] inp]; [discriminate| |].
    + pose proof (hooks_psane p (Loop.set_historyAction l false) next s s inp R
                    (touched_refl s)) as [T H].
      destruct (hooks p (Loop.set_historyAction l false) next s inp)
        as [[[l1 next1]|e] s1 rest1|s1|s1] eqn:Hk; cbn [final] in T;
        try discriminate.
      * unfold run.
        pose proof (dispatched_wp p next1 l1 s s1 R T) as D. unfold wp in D.
        destruct (dispatched p next1 l1 s1) as [c s2|s2]; [|discriminate].
        destruct D as [_ D]. intros E. injection E as -> <- <-.
        destruct (D line io_EOF s2 eq_refl) as [[-> [Hp Hl]] [-> [_ ->]]].
        split; [|reflexivity]. left. exists next, inp, l1. auto.
      * intros E. injection E as <- -> <- <-.
        split; [|reflexivity]. right. right. exists next, inp. auto.
    + intros E. injection E as <- -> <- <-.
      split; [|reflexivity]. right. left. auto.
  - intros [[[next [inp1 [l1 [-> [Hk [Hp Hl]]]]]]|[[-> ->]|[next [inp1 [-> Hk]]]]] ->].
    + rewrite Hk. unfold run. rewrite dispatched_eof by assumption. reflexivity.
    + reflexivity.
    + rewrite Hk. reflexivity.
Qed.

(** A [read_eof_round] has a read that fails with [io.EOF] before it. *)
Lemma read_eof_round_fail (p : gostring) (l : Loop.locals) (s : State)
  (inp : list event) (s' : State) (rest : list event) :
  ring_ok s -> read_eof_round p l s inp s' rest -> In (Fail io_EOF) inp.
Proof.
  intros R [[-> _]|[next [inp1 [-> Hk]]]]; [left; reflexivity|].
  pose proof (hooks_psane p (Loop.set_historyAction l false) next s s inp1 R
                (touched_refl s)) as [_ H].
  rewrite Hk in H. destruct H as [_ E]. right. exact E.
Qed.

Lemma reaches_suffix (p : gostring) (x y : Loop.locals * State * list event) :
  reaches p x y -> ring_ok (snd (fst x)) ->
  ring_ok (snd (fst y)) /\ exists used, snd x = used ++ snd y.
Proof.
  induction 1 as [x|l s inp l1 s1 inp1 y E _ IH]; intros R.
  - split; [exact R|exists []; reflexivity].
  - cbn [fst snd] in *.
    pose proof (iteration_sane p l s inp R) as [T H]. rewrite E in *.
    cbn [final] in T. destruct H as [[used [_ U]] _].
    destruct (IH (touched_ring_ok _ _ T R)) as [R' [used' U']].
    split; [exact R'|]. exists (used ++ used'). rewrite U, U', app_assoc. reflexivity.
Qed.

(** [mainLoop] returns an error when a round it reaches returns it. *)
Lemma mainLoop_returns (fuel : nat) :
  forall (p : gostring) (l : Loop.locals) (s : State) (inp : list event)
         (line : gostring) (err : error) (s' : State) (rest : list event),
  mainLoop fuel p l s inp = Some (Done (line, Some err) s' rest) ->
  exists l0 s0 inp0,
    reaches p (l, s, inp) (l0, s0, inp0)
    /\ iteration p l0 s0 inp0 = Done (Return line err) s' rest.
Proof.
  induction fuel as [|fuel IH]; intros p l s inp line err s' rest; [discriminate|].
  cbn [mainLoop].
  destruct (iteration p l s inp) as [[l1|l1|line1 err1] s1 inp1|s1|s1] eqn:E;
    try discriminate.
  - intros H. destruct (IH _ _ _ _ _ _ _ _ H) as [l0 [s0 [inp0 [Rch It]]]].
    exists l0, s0, inp0. split; [|exact It].
    eapply reaches_round; eassumption.
  - intros H. injection H as <- <- <- <-.
    exists l, s, inp. split; [apply reaches_here|exact E].
Qed.

Lemma mainLoop_reaches (p : gostring) (x y : Loop.locals * State * list event) :
  reaches p x y ->
  forall fuel o,
    mainLoop fuel p (fst (fst y)) (snd (fst y)) (snd y) = Some o ->
    exists fuel', mainLoop fuel' p (fst (fst x)) (snd (fst x)) (snd x) = Some o.
Proof.
  induction 1 as [x|l s inp l1 s1 inp1 y E _ IH]; intros fuel o H.
  - exists fuel. exact H.
  - destruct (IH fuel o H) as [fuel' H']. exists (S fuel').
    cbn [mainLoop fst snd] in *. rewrite E. exact H'.
Qed.

Lemma mainLoop_more (fuel : nat) :
  forall (p : gostring) (l : Loop.locals) (s : State) (inp : list event) o,
  mainLoop fuel p l s inp = Some o ->
  forall fuel', (fuel <= fuel')%nat -> mainLoop fuel' p l s inp = Some o.
Proof.
  induction fuel as [|fuel IH]; intros p l s inp o H fuel' L; [discriminate|].
  destruct fuel' as [|fuel']; [lia|]. cbn [mainLoop] in *.
  destruct (iteration p l s inp) as [[l1|l1|line1 err1] s1 inp1|s1|s1]; auto.
  apply IH; [exact H|lia].
Qed.

Lemma wp_any {A : Type} (m : M A) (s : State) (Q : result A -> Prop) :
  (forall r, Q r) -> wp m s Q.
Proof. intros H. apply H. Qed.

(** The switch returns from [Prompt] for CTRL-D on an empty line with the
    cursor at 0 and for nothing else. *)
Lemma dispatch_Return (p : gostring) (next : iface) (l : Loop.locals) (s : State)
  (line : gostring) (err : error) (s' : State) :
  dispatch p next l s = Ret (Return line err) s'
  <-> next = Rune ctrlD /\ Loop.pos l = 0 /\ Loop.line l = []
      /\ line = [] /\ err = io_EOF /\ s' = s.
Proof.
  split.
  - revert line err s'.
    change (wp (dispatch p next l) s
              (fun r => forall line err s', r = Ret (Return line err) s' ->
                 next = Rune ctrlD /\ Loop.pos l = 0 /\ Loop.line l = []
                 /\ line = [] /\ err = io_EOF /\ s' = s)).
    destruct next as [| |v|a]; cbn [dispatch]; try (apply wp_ret; discriminate).
    + unfold dispatchRune, kill.
      repeat first
        [ lazymatch goal with
          | |- wp (addToKillRing _ _) _ _ => apply wp_any; intros [? ?|?]
          end; cbv beta iota
        | wp_touch ]; try discriminate.
      intros line err s' E. injection E as <- <- <-.
      repeat match goal with
             | H : (_ =? _) = true |- _ => apply Z.eqb_eq in H
             | H : (_ && _) = true |- _ => apply andb_true_iff in H; destruct H
             end.
      subst v. repeat split; auto. apply len_zero. assumption.
    + unfold dispatchAction. apply wp_bind, wp_any. intros [? ?|?]; cbv beta iota.
      * repeat wp_touch; discriminate.
      * discriminate.
  - intros [-> [Hp [Hl [-> [-> ->]]]]]. cbn [dispatch].
    apply dispatchRune_ctrlD_eof; assumption.
Qed.

Lemma entered_Ret (p : gostring) (s : State) :
  exists e, (startPrompt ;;; getColumns ;;; fmt_Print p) s = Ret e (entered p s).
Proof.
  unfold entered, bind, startPrompt, getColumns, modify, fmt_Print.
  destruct (stdoutErr _); eexists; reflexivity.
Qed.

Lemma entered_ring (p : gostring) (s : State) : killRing (entered p s) = killRing s.
Proof.
  unfold entered, bind, startPrompt, getColumns, modify, fmt_Print.
  destruct (stdoutErr _); reflexivity.
Qed.

(** How a session ends with [io.EOF]. *)
Lemma Prompt_eof
  (fb : gostring -> State -> list event -> outcome (gostring * option error))
  (p : gostring) (s : State) (inp : list event)
  (line : gostring) (s' : State) (rest : list event) :
  terminalSupported s = true -> terminalOutput s = true -> ring_ok s ->
  Prompt fb p s inp = Some (Done (line, Some io_EOF) s' rest)
  <-> line = []
      /\ exists l0 s0 inp0,
           reaches p (initial (entered p s), entered p s, inp) (l0, s0, inp0)
           /\ (eof_round p l0 s0 inp0 s' rest
               \/ read_eof_round p l0 s0 inp0 s' rest).
Proof.
  intros TS TO R. unfold Prompt.
  rewrite TS, TO. cbn [negb].
  destruct (entered_Ret p s) as [e E]. rewrite E.
  assert (R1 : ring_ok (entered p s)) by (unfold ring_ok; rewrite entered_ring; exact R).
  split.
  - intros H. apply mainLoop_returns in H. destruct H as [l0 [s0 [inp0 [Rch It]]]].
    destruct (reaches_suffix p _ _ Rch R1) as [R0 _]. cbn [fst snd] in *.
    apply iteration_eof in It; [|exact R0].
    destruct It as [Er ->]. split; [reflexivity|]. exists l0, s0, inp0. auto.
  - intros [-> [l0 [s0 [inp0 [Rch Er]]]]].
    destruct (reaches_suffix p _ _ Rch R1) as [R0 _]. cbn [fst snd] in *.
    assert (It : iteration p l0 s0 inp0 = Done (Return [] io_EOF) s' rest)
      by (apply iteration_eof; [exact R0|auto]).
    assert (M1 : mainLoop 1 p l0 s0 inp0 = Some (Done ([], Some io_EOF) s' rest))
      by (cbn [mainLoop]; rewrite It; reflexivity).
    destruct (mainLoop_reaches p _ _ Rch 1%nat _ M1) as [fuel' M2]. cbn [fst snd] in M2.
    destruct (mainLoop_total (S (length inp)) p (initial (entered p s)) _ _ inp R1
                (touched_refl _) ltac:(lia)) as [o [M3 _]].
    rewrite M3.
    pose proof (mainLoop_more _ _ _ _ _ _ M2 (fuel' + S (length inp))%nat ltac:(lia)) as A.
    pose proof (mainLoop_more _ _ _ _ _ _ M3 (fuel' + S (length inp))%nat ltac:(lia)) as B.
    rewrite A in B. symmetry. exact B.
Qed.

(** C7, as amended.  The switch of [Prompt] returns [io.EOF] for CTRL-D
    on an empty line with the cursor at 0 and returns for no other key or
    state.  CTRL-D in any other state first calls [startPrompt]; then it
    beeps with the cursor at or past the end of the line, and otherwise
    cuts the rune at the cursor out and refreshes; in both cases the loop
    goes on.  On a terminal with line editing and a well-formed kill
    ring, a session ends with [io.EOF] exactly when it reaches a round
    that dispatches CTRL-D on an empty line with the cursor at 0, or a
    round in which a read of a key fails with [io.EOF], at the head of
    the loop or inside a sub-mode; the latter needs such a failing read
    among the events, so without one the session ends with [io.EOF]
    exactly on that CTRL-D.  When standard output is no terminal
    [Prompt] returns [ErrNotTerminalOutput], and on a terminal without
    line editing it returns what [promptUnsupported] returns. *)
Theorem ctrlD_eof :
  (forall p next l s line err s',
     dispatch p next l s = Ret (Return line err) s'
     <-> next = Rune ctrlD /\ Loop.pos l = 0 /\ Loop.line l = []
         /\ line = [] /\ err = io_EOF /\ s' = s)
  /\ (forall p l s,
        ~ (Loop.pos l = 0 /\ Loop.line l = []) ->
        dispatchRune p ctrlD l s
        = (if len (Loop.line l) <=? Loop.pos l
           then fmt_Print beep ;;; ret (Continue l)
           else line <- cut (Loop.line l) (Loop.pos l) (Loop.pos l + 1) ;;
                redraw p (Loop.set_line l line) ;;;
                ret (Continue (Loop.set_line l line)))
          (emits s [StartPrompt]))
  /\ (forall fb p s inp line s' rest,
        terminalSupported s = true -> terminalOutput s = true -> ring_ok s ->
        (Prompt fb p s inp = Some (Done (line, Some io_EOF) s' rest)
         <-> line = []
             /\ exists l0 s0 inp0,
                  reaches p (initial (entered p s), entered p s, inp) (l0, s0, inp0)
                  /\ (eof_round p l0 s0 inp0 s' rest
                      \/ read_eof_round p l0 s0 inp0 s' rest)))
  /\ (forall p l s inp s' rest,
        ring_ok s -> read_eof_round p l s inp s' rest -> In (Fail io_EOF) inp)
  /\ (forall fb p s inp line s' rest,
        terminalSupported s = true -> terminalOutput s = true -> ring_ok s ->
        ~ In (Fail io_EOF) inp ->
        (Prompt fb p s inp = Some (Done (line, Some io_EOF) s' rest)
         <-> line = []
             /\ exists l0 s0 inp0,
                  reaches p (initial (entered p s), entered p s, inp) (l0, s0, inp0)
                  /\ eof_round p l0 s0 inp0 s' rest))
  /\ (forall fb p s inp,
        (terminalOutput s = false ->
         Prompt fb p s inp = Some (Done ([], Some errNotTerminalOutput) s inp))
        /\ (terminalOutput s = true -> terminalSupported s = false ->
            Prompt fb p s inp = Some (fb p s inp))).
Proof.
  split; [exact dispatch_Return|]. split; [exact dispatchRune_ctrlD_other|].
  split; [exact Prompt_eof|]. split; [exact read_eof_round_fail|].
  split; [|intros fb p s inp; unfold Prompt; split;
           [intros ->; reflexivity|intros -> ->; reflexivity]].
  intros fb p s inp line s' rest TS TO R NF.
  rewrite (Prompt_eof fb p s inp line s' rest TS TO R).
  assert (R1 : ring_ok (entered p s)) by (unfold ring_ok; rewrite entered_ring; exact R).
  split; intros [-> [l0 [s0 [inp0 [Rch Er]]]]]; (split; [reflexivity|]);
    exists l0, s0, inp0; (split; [exact Rch|]); [|left; exact Er].
  destruct Er as [Er|Er]; [exact Er|]. exfalso.
  destruct (reaches_suffix p _ _ Rch R1) as [R0 [used U]]. cbn [fst snd] in *.
  apply NF. rewrite U. apply in_or_app. right.
  exact (read_eof_round_fail _ _ _ _ _ _ R0 Er).
Qed.

Lemma ctrlD_eof_witness :
  Prompt noFallback (str "> ") (newState 80)
    [Key (Rune 97); Key (Rune ctrlD); Key (Rune ctrlH); Key (Rune ctrlD)]
  = Some (Done ([], Some io_EOF)
            (emits (set_columns (newState 80) 80)
               [StartPrompt; GetColumns; Print (str "> "); Print (str "a");
                StartPrompt; Print beep; CursorPos 0; Print (str "> "); Print [];
                EraseLine; CursorPos 2]) []).
Proof.
  apply (proj1 (proj2 (proj2 ctrlD_eof)));
    [reflexivity|reflexivity|split; [vm_compute; discriminate|constructor]|].
  split; [reflexivity|].
  eexists _, _, _. split.
  - eapply reaches_round; [vm_compute; reflexivity|].
    eapply reaches_round; [vm_compute; reflexivity|].
    eapply reaches_round; [vm_compute; reflexivity|].
    apply reaches_here.
  - left. eexists _, _, _. split; [reflexivity|]. split; [vm_compute; reflexivity|].
    split; reflexivity.
Defined.

(** C7, as stated, fails: when the first read of a key fails with
    [io.EOF], [Prompt] returns [io.EOF] and no CTRL-D was pressed. *)
Lemma ctrlD_eof_counterexample :
  Prompt noFallback (str "> ") (newState 80) [Fail io_EOF]
  = Some (Done ([], Some io_EOF) (entered (str "> ") (newState 80)) [])
  /\ ~ eof_iff_ctrlD noFallback (str "> ") (newState 80) [Fail io_EOF].
Proof.
  assert (E : Prompt noFallback (str "> ") (newState 80) [Fail io_EOF]
              = Some (Done ([], Some io_EOF) (entered (str "> ") (newState 80)) []))
    by (vm_compute; reflexivity).
  split; [exact E|]. intros H.
  destruct (proj1 (H _ _ _) E) as [_ [l0 [s0 [inp0 [Rch [next [inp1 [l1 [I _]]]]]]]]].
  inversion Rch as [x|l s inp l' s1 inp' y It _]; subst.
  - discriminate.
  - unfold iteration in It. discriminate It.
Qed.

(** ** History navigation *)

Lemma index_nth {A : Type} (l : list A) (i : Z) (d : A) :
  0 <= i < len l -> index l i = Some (nth (Z.to_nat i) l d).
Proof.
  intros H. unfold index. replace ((0 <=? i) && (i <? len l)) with true by lia.
  apply nth_error_nth'. unfold len in H. lia.
Qed.

Lemma fmt_Print_returns (x : gostring) (s : State) :
  exists e ops, fmt_Print x s = Ret e (emits s ops).
Proof.
  unfold fmt_Print. destruct (stdoutErr s) as [e|].
  - exists (Some e), []. rewrite emits_nil. reflexivity.
  - exists None, [Print x]. reflexivity.
Qed.

Lemma historyPrev_eq (l : Loop.locals) (s : State) :
  0 <= Loop.historyPos l <= len (Loop.prefixHistory l) ->
  historyPrev l s
  = Ret (if 0 <? Loop.historyPos l then Some (older l) else None) s.
Proof.
  intros H. unfold historyPrev, older.
  destruct (Z.ltb_spec 0 (Loop.historyPos l)) as [L|L]; [|reflexivity].
  unfold bind.
  destruct (Loop.historyPos l =? len (Loop.prefixHistory l));
    destruct l as [line pos hE ph hp hA kA]; cbn [Loop.historyPos Loop.prefixHistory
      Loop.set_historyEnd Loop.set_historyPos Loop.set_line Loop.set_pos Loop.line
      Loop.pos Loop.historyEnd Loop.historyAction Loop.killAction] in *;
    rewrite (index_nth ph (hp - 1) []) by lia; reflexivity.
Qed.

Lemma historyNext_eq (l : Loop.locals) (s : State) :
  0 <= Loop.historyPos l <= len (Loop.prefixHistory l) ->
  historyNext l s
  = Ret (if Loop.historyPos l <? len (Loop.prefixHistory l)
         then Some (newer l) else None) s.
Proof.
  intros H. unfold historyNext, newer.
  destruct (Z.ltb_spec (Loop.historyPos l) (len (Loop.prefixHistory l))) as [L|L];
    [|reflexivity].
  unfold bind.
  destruct l as [line pos hE ph hp hA kA]; cbn [Loop.historyPos Loop.prefixHistory
      Loop.set_historyEnd Loop.set_historyPos Loop.set_line Loop.set_pos Loop.line
      Loop.pos Loop.historyEnd Loop.historyAction Loop.killAction] in *.
  destruct (hp + 1 =? len ph) eqn:E; [reflexivity|].
  rewrite (index_nth ph (hp + 1) []) by lia. reflexivity.
Qed.

Lemma bottom_history (l : Loop.locals) (s : State) :
  Loop.historyAction l = true ->
  bottom l s = Ret (if 0 <? Loop.killAction l
                    then Loop.set_killAction l (Loop.killAction l - 1) else l) s.
Proof. intros H. unfold bottom, bind, get, ret. rewrite H. reflexivity. Qed.

Lemma hooks_plain (p : gostring) (l : Loop.locals) (next : iface) (s : State)
  (inp : list event) :
  is_rune next tab = false -> is_rune next ctrlY = false ->
  is_rune next ctrlR = false ->
  hooks p l next s inp = Done (inl (l, next)) s inp.
Proof.
  intros H1 H2 H3. unfold hooks, hookTab. rewrite H1. cbn [and_then].
  unfold hookYank. rewrite H2. cbn [andb and_then]. unfold hookSearch.
  rewrite H3. reflexivity.
Qed.

Lemma iteration_plain (p : gostring) (l : Loop.locals) (next : iface) (s : State)
  (inp : list event) :
  is_rune next tab = false -> is_rune next ctrlY = false ->
  is_rune next ctrlR = false ->
  iteration p l s (Key next :: inp)
  = run (dispatched p next (Loop.set_historyAction l false)) s
        (fun c s => Done c s inp).
Proof.
  intros H1 H2 H3. unfold iteration. rewrite hooks_plain by assumption. reflexivity.
Qed.

Lemma settled_eq (l : Loop.locals) (b : bool) :
  settled (Loop.set_historyAction l b) = settled l.
Proof. destruct l. reflexivity. Qed.

Lemma older_hA (l : Loop.locals) (b : bool) :
  settled (older (Loop.set_historyAction l b)) = settled (older l).
Proof.
  destruct l as [line pos hE ph hp hA kA]. unfold older.
  cbn [Loop.historyPos Loop.prefixHistory Loop.set_historyAction Loop.line
       Loop.historyEnd Loop.historyAction Loop.killAction].
  destruct (0 <? hp); reflexivity.
Qed.

Lemma newer_hA (l : Loop.locals) (b : bool) :
  settled (newer (Loop.set_historyAction l b)) = settled (newer l).
Proof.
  destruct l as [line pos hE ph hp hA kA]. unfold newer.
  cbn [Loop.historyPos Loop.prefixHistory Loop.set_historyAction Loop.line
       Loop.historyEnd Loop.historyAction Loop.killAction].
  destruct (hp <? len ph); reflexivity.
Qed.

(** A round on a history key, on a terminal where [refresh] returns. *)
Lemma round_history (p : gostring) (k : iface) (l : Loop.locals) (s : State)
  (inp : list event) :
  roomy p s -> 0 <= Loop.historyPos l <= len (Loop.prefixHistory l) ->
  (is_up k -> exists ops,
     iteration p l s (Key k :: inp)
     = Done (Continue (settled (older l))) (emits s ops) inp)
  /\ (is_down k -> exists ops,
        iteration p l s (Key k :: inp)
        = Done (Continue (settled (newer l))) (emits s ops) inp).
Proof.
  intros Rm H.
  set (l0 := Loop.set_historyAction l false).
  set (l1 := Loop.set_historyAction l0 true).
  assert (H1 : 0 <= Loop.historyPos l1 <= len (Loop.prefixHistory l1))
    by (destruct l; exact H).
  assert (Hb : forall l2 : Loop.locals, Loop.historyAction l2 = true ->
            forall s2, bottom l2 s2 = Ret (settled l2) s2).
  { intros l2 E s2. rewrite bottom_history by exact E. unfold settled.
    destruct l2; cbn in *; subst; reflexivity. }
  assert (Hold : Loop.historyAction (older l1) = true)
    by (unfold older; destruct (0 <? Loop.historyPos l1); reflexivity).
  assert (Hnew : Loop.historyAction (newer l1) = true)
    by (unfold newer; destruct (_ <? _); reflexivity).
  assert (E1 : settled l1 = settled l) by (destruct l; reflexivity).
  assert (Eo : settled (older l1) = settled (older l))
    by (unfold l1, l0; rewrite !older_hA; reflexivity).
  assert (En : settled (newer l1) = settled (newer l))
    by (unfold l1, l0; rewrite !newer_hA; reflexivity).
  assert (Obeep : (0 <? Loop.historyPos l1) = false -> older l = l)
    by (unfold older; destruct l; cbn; intros ->; reflexivity).
  assert (Nbeep : (Loop.historyPos l1 <? len (Loop.prefixHistory l1)) = false ->
                  newer l = l)
    by (unfold newer; destruct l; cbn; intros ->; reflexivity).
  split; intros [-> | ->]; rewrite iteration_plain by reflexivity;
    unfold run, dispatched, bind; cbn [dispatch];
    fold l0.
  - (* up *)
    unfold dispatchAction, bind. fold l1.
    rewrite historyPrev_eq by exact H1.
    destruct (0 <? Loop.historyPos l1) eqn:Hp.
    + destruct (redraw_returns p (older l1) s Rm) as [ops Hr].
      unfold ret. cbv beta iota. rewrite Hr. cbv beta iota. rewrite Hb by exact Hold. rewrite Eo. eauto.
    + destruct (fmt_Print_returns beep s) as [e [ops1 Hf]]. rewrite Hf.
      destruct (redraw_returns p l1 (emits s ops1) Rm) as [ops Hr].
      unfold ret. cbv beta iota. rewrite Hr. cbv beta iota.
      rewrite Hb by reflexivity. rewrite E1, (Obeep eq_refl), emits_emits. eauto.
  - (* CTRL-P *)
    unfold dispatchRune. cbn [Z.eqb ctrlP cr lf ctrlA ctrlE ctrlB ctrlF ctrlD ctrlK
      Pos.eqb orb]. unfold bind. fold l1.
    rewrite historyPrev_eq by exact H1.
    destruct (0 <? Loop.historyPos l1) eqn:Hp.
    + destruct (redraw_returns p (older l1) s Rm) as [ops Hr].
      unfold ret. cbv beta iota. rewrite Hr. cbv beta iota. rewrite Hb by exact Hold. rewrite Eo. eauto.
    + destruct (fmt_Print_returns beep s) as [e [ops1 Hf]]. rewrite Hf.
      unfold ret. cbv beta iota. rewrite Hb by reflexivity. rewrite E1, (Obeep eq_refl). eauto.
  - (* down *)
    unfold dispatchAction, bind. fold l1.
    rewrite historyNext_eq by exact H1.
    destruct (Loop.historyPos l1 <? len (Loop.prefixHistory l1)) eqn:Hp.
    + destruct (redraw_returns p (newer l1) s Rm) as [ops Hr].
      unfold ret. cbv beta iota. rewrite Hr. cbv beta iota. rewrite Hb by exact Hnew. rewrite En. eauto.
    + destruct (fmt_Print_returns beep s) as [e [ops1 Hf]]. rewrite Hf.
      destruct (redraw_returns p l1 (emits s ops1) Rm) as [ops Hr].
      unfold ret. cbv beta iota. rewrite Hr. cbv beta iota.
      rewrite Hb by reflexivity. rewrite E1, (Nbeep eq_refl), emits_emits. eauto.
  - (* CTRL-N *)
    unfold dispatchRune. cbn [Z.eqb ctrlN ctrlP cr lf ctrlA ctrlE ctrlB ctrlF ctrlD
      ctrlK Pos.eqb orb]. unfold bind. fold l1.
    rewrite historyNext_eq by exact H1.
    destruct (Loop.historyPos l1 <? len (Loop.prefixHistory l1)) eqn:Hp.
    + destruct (redraw_returns p (newer l1) s Rm) as [ops Hr].
      unfold ret. cbv beta iota. rewrite Hr. cbv beta iota. rewrite Hb by exact Hnew. rewrite En. eauto.
    + destruct (fmt_Print_returns beep s) as [e [ops1 Hf]]. rewrite Hf.
      unfold ret. cbv beta iota. rewrite Hb by reflexivity. rewrite E1, (Nbeep eq_refl). eauto.
Qed.

Lemma navigating_older (l0 l : Loop.locals) (m : bool) :
  navigating l0 m l ->
  navigating l0 (m || (0 <? Loop.historyPos l)) (settled (older l))
  /\ Loop.historyPos (settled (older l)) = Z.max (Loop.historyPos l - 1) 0.
Proof.
  unfold navigating, settled, older. cbv zeta.
  destruct l as [line pos hE ph hp hA kA].
  cbn [Loop.historyPos Loop.prefixHistory Loop.line Loop.pos Loop.historyEnd
       Loop.historyAction Loop.killAction Loop.set_historyAction].
  intros [Hph [Hr [Hend [Hsave [Hm Hn]]]]]. subst ph.
  destruct (Z.ltb_spec 0 hp) as [L|L];
    cbn [Loop.historyPos Loop.prefixHistory Loop.line Loop.pos Loop.historyEnd
         Loop.historyAction Loop.killAction Loop.set_historyAction
         Loop.set_killAction];
    destruct (0 <? kA);
    cbn [Loop.historyPos Loop.prefixHistory Loop.line Loop.pos Loop.historyEnd
         Loop.historyAction Loop.killAction Loop.set_historyAction
         Loop.set_killAction];
    rewrite ?orb_true_r, ?orb_false_r;
    (split; [|lia]); repeat split; auto; try lia.
  all: try (intros _; destruct (Z.eqb_spec hp (len (Loop.prefixHistory l0)));
            [f_equal; auto|apply Hsave; lia]).
  all: try discriminate.
Qed.

Lemma navigating_newer (l0 l : Loop.locals) (m : bool) :
  Forall (fun r => ValidRune r = true) (Loop.line l0) ->
  navigating l0 m l ->
  navigating l0 m (settled (newer l))
  /\ Loop.historyPos (settled (newer l))
     = Z.min (Loop.historyPos l + 1) (len (Loop.prefixHistory l0)).
Proof.
  unfold navigating, settled, newer. cbv zeta. intros V.
  destruct l as [line pos hE ph hp hA kA].
  cbn [Loop.historyPos Loop.prefixHistory Loop.line Loop.pos Loop.historyEnd
       Loop.historyAction Loop.killAction Loop.set_historyAction].
  intros [Hph [Hr [Hend [Hsave [Hm Hn]]]]]. subst ph.
  destruct (Z.ltb_spec hp (len (Loop.prefixHistory l0))) as [L|L];
    cbn [Loop.historyPos Loop.prefixHistory Loop.line Loop.pos Loop.historyEnd
         Loop.historyAction Loop.killAction Loop.set_historyAction
         Loop.set_killAction];
    destruct (0 <? kA);
    cbn [Loop.historyPos Loop.prefixHistory Loop.line Loop.pos Loop.historyEnd
         Loop.historyAction Loop.killAction Loop.set_historyAction
         Loop.set_killAction];
    (split; [|lia]); repeat split; auto; try lia.
  all: try (intros E; replace (hp + 1 =? len (Loop.prefixHistory l0)) with true by lia;
            rewrite Hsave by lia; apply runes_string_of_runes; exact V).
  all: try (intros E; apply Hsave; lia).
  all: try (intros ->; destruct (Hn eq_refl); lia).
Qed.

Lemma reaches_trans (p : gostring) (x y z : Loop.locals * State * list event) :
  reaches p x y -> reaches p y z -> reaches p x z.
Proof.
  induction 1 as [x|l s inp l1 s1 inp1 y E _ IH]; intros H; [exact H|].
  eapply reaches_round; [exact E|]. apply IH. exact H.
Qed.

Lemma press_ups (p : gostring) (l0 : Loop.locals) (inp : list event)
  (ups : list iface) :
  Forall is_up ups ->
  forall (l : Loop.locals) (s : State) (m : bool),
  roomy p s -> navigating l0 m l ->
  exists l' ops,
    reaches p (l, s, map Key ups ++ inp) (l', emits s ops, inp)
    /\ navigating l0 (m || ((0 <? len ups) && (0 <? Loop.historyPos l))) l'
    /\ Loop.historyPos l' = Z.max (Loop.historyPos l - len ups) 0.
Proof.
  induction 1 as [|k ups Hk _ IH]; intros l s m Rm N.
  - exists l, []. rewrite emits_nil. split; [apply reaches_here|].
    cbn [len length Z.of_nat Z.ltb Z.compare andb]. rewrite orb_false_r.
    split; [exact N|]. destruct N as [_ [? _]]. unfold len; cbn; lia.
  - assert (Hr : 0 <= Loop.historyPos l <= len (Loop.prefixHistory l))
      by (destruct N as [-> [? _]]; assumption).
    destruct (round_history p k l s (map Key ups ++ inp) Rm Hr) as [U _].
    destruct (U Hk) as [ops1 E1].
    destruct (navigating_older l0 l m N) as [N1 P1].
    destruct (IH (settled (older l)) (emits s ops1) _ Rm N1) as [l' [ops [Rch [N' P']]]].
    exists l', (ops1 ++ ops). rewrite <- emits_emits. split; [|split].
    + eapply reaches_round; [exact E1|exact Rch].
    + replace (m || ((0 <? len (k :: ups)) && (0 <? Loop.historyPos l)))
        with (m || (0 <? Loop.historyPos l)
              || ((0 <? len ups) && (0 <? Loop.historyPos (settled (older l)))));
        [exact N'|].
      rewrite P1. unfold len in *. cbn [length].
      destruct m, (Z.ltb_spec 0 (Loop.historyPos l)),
        (Z.ltb_spec 0 (Z.of_nat (length ups))); cbn [orb andb]; try lia.

    + rewrite P', P1. unfold len. cbn [length]. rewrite Nat2Z.inj_succ.
      destruct (Z.max_spec (Loop.historyPos l - 1) 0) as [[? ->]|[? ->]]; lia.
Qed.

Lemma press_downs (p : gostring) (l0 : Loop.locals) (inp : list event)
  (downs : list iface) :
  Forall (fun r => ValidRune r = true) (Loop.line l0) ->
  Forall is_down downs ->
  forall (l : Loop.locals) (s : State) (m : bool),
  roomy p s -> navigating l0 m l ->
  exists l' ops,
    reaches p (l, s, map Key downs ++ inp) (l', emits s ops, inp)
    /\ navigating l0 m l'
    /\ Loop.historyPos l'
       = Z.min (Loop.historyPos l + len downs) (len (Loop.prefixHistory l0)).
Proof.
  intros V. induction 1 as [|k downs Hk _ IH]; intros l s m Rm N.
  - exists l, []. rewrite emits_nil. split; [apply reaches_here|].
    split; [exact N|]. destruct N as [_ [? _]]. unfold len in *; cbn [length]; lia.
  - assert (Hr : 0 <= Loop.historyPos l <= len (Loop.prefixHistory l))
      by (destruct N as [-> [? _]]; assumption).
    destruct (round_history p k l s (map Key downs ++ inp) Rm Hr) as [_ D].
    destruct (D Hk) as [ops1 E1].
    destruct (navigating_newer l0 l m V N) as [N1 P1].
    destruct (IH (settled (newer l)) (emits s ops1) _ Rm N1) as [l' [ops [Rch [N' P']]]].
    exists l', (ops1 ++ ops). rewrite <- emits_emits. split; [|split].
    + eapply reaches_round; [exact E1|exact Rch].
    + exact N'.
    + rewrite P', P1. unfold len. cbn [length]. rewrite Nat2Z.inj_succ.
      pose proof (len_nonneg (Loop.prefixHistory l0)). unfold len in *.
      destruct (Z.min_spec (Loop.historyPos l + 1)
                  (Z.of_nat (length (Loop.prefixHistory l0)))) as [[? ->]|[? ->]]; lia.
Qed.

(** C4.  From the line in progress, on a terminal where [refresh]
    returns and with valid runes in the line, up or CTRL-P pressed n times
    and then down or CTRL-N pressed n times with no other key in between
    bring back the line at the end of the same history snapshot; the
    cursor is at the end of the line if a step was taken.  With the history
    "git status", "git push" and the line "g", up gives "git push" with the
    cursor at 8, up again "git status", and two downs give "g" with the
    cursor at 1. *)
Theorem history_reversible :
  (forall p l s inp ups downs,
     roomy p s ->
     Loop.historyPos l = len (Loop.prefixHistory l) ->
     Forall (fun r => ValidRune r = true) (Loop.line l) ->
     Forall is_up ups -> Forall is_down downs -> length ups = length downs ->
     exists l' ops,
       reaches p (l, s, map Key (ups ++ downs) ++ inp) (l', emits s ops, inp)
       /\ Loop.line l' = Loop.line l
       /\ Loop.prefixHistory l' = Loop.prefixHistory l
       /\ Loop.historyPos l' = Loop.historyPos l
       /\ Loop.pos l' = (if (0 <? len ups) && (0 <? Loop.historyPos l)
                         then len (Loop.line l) else Loop.pos l))
  /\ (let s := set_history (newState 80) [str "git status"; str "git push"] in
      let keys := [Key (Rune 103); Key (Action Act.up); Key (Rune ctrlP);
                   Key (Action Act.down); Key (Rune ctrlN)] in
      line_after 1 (str "> ") s keys = Some (runes (str "g"), 1)
      /\ line_after 2 (str "> ") s keys = Some (runes (str "git push"), 8)
      /\ line_after 3 (str "> ") s keys = Some (runes (str "git status"), 10)
      /\ line_after 4 (str "> ") s keys = Some (runes (str "git push"), 8)
      /\ line_after 5 (str "> ") s keys = Some (runes (str "g"), 1)).
Proof.
  split; [|cbv zeta; repeat split; vm_compute; reflexivity].
  intros p l s inp ups downs Rm Hend V Hu Hd Hlen.
  assert (N : navigating l false l).
  { unfold navigating. cbv zeta. pose proof (len_nonneg (Loop.prefixHistory l)).
    repeat split; auto; try lia; discriminate. }
  rewrite map_app, <- app_assoc.
  destruct (press_ups p l (map Key downs ++ inp) ups Hu l s false Rm N)
    as [l1 [ops1 [R1 [N1 P1]]]].
  destruct (press_downs p l inp downs V Hd l1 (emits s ops1) _ Rm N1)
    as [l2 [ops2 [R2 [N2 P2]]]].
  exists l2, (ops1 ++ ops2). rewrite <- emits_emits.
  split; [exact (reaches_trans _ _ _ _ R1 R2)|].
  assert (E : Loop.historyPos l2 = len (Loop.prefixHistory l)).
  { rewrite P2, P1. pose proof (len_nonneg (Loop.prefixHistory l)).
    unfold len in *. rewrite Hlen. lia. }
  destruct N2 as [Hph [_ [Hl [_ [Hm Hn]]]]].
  split; [exact (Hl E)|]. split; [exact Hph|]. split; [congruence|].
  cbn [orb] in *.
  destruct ((0 <? len ups) && (0 <? Loop.historyPos l)).
  - rewrite (Hm eq_refl), (Hl E). reflexivity.
  - apply Hn. reflexivity.
Qed.

Lemma history_reversible_witness :
  let s := set_history (newState 80) [str "git status"; str "git push"] in
  let l := Loop.mk [103] 1 [] [str "git status"; str "git push"] 2 false 0 in
  exists l' ops,
    reaches (str "> ") (l, s, map Key ([Action Act.up; Rune ctrlP]
                                        ++ [Rune ctrlN; Action Act.down]) ++ [])
            (l', emits s ops, [])
    /\ Loop.line l' = [103]
    /\ Loop.prefixHistory l' = [str "git status"; str "git push"]
    /\ Loop.historyPos l' = 2
    /\ Loop.pos l' = 1.
Proof.
  cbv zeta.
  apply (proj1 history_reversible (str "> ")
           (Loop.mk [103] 1 [] [str "git status"; str "git push"] 2 false 0)
           (set_history (newState 80) [str "git status"; str "git push"]) []
           [Action Act.up; Rune ctrlP] [Rune ctrlN; Action Act.down]).
  - vm_compute. discriminate.
  - reflexivity.
  - repeat constructor.
  - constructor; [left; reflexivity|constructor; [right; reflexivity|constructor]].
  - constructor; [right; reflexivity|constructor; [left; reflexivity|constructor]].
  - reflexivity.
Defined.

(** ** Reverse incremental search *)

Lemma HasPrefix_spec (s prefix : gostring) :
  HasPrefix s prefix = true <-> exists b, s = prefix ++ b.
Proof.
  revert s. induction prefix as [|c prefix IH]; intros s.
  - split; [intros _; exists s; reflexivity|destruct s; reflexivity].
  - destruct s as [|d s]; cbn [HasPrefix];
      [split; [discriminate|intros [b H]; discriminate]|].
    rewrite andb_true_iff, Z.eqb_eq, IH. split.
    + intros [-> [b ->]]. exists b. reflexivity.
    + intros [b H]. injection H as -> ->. split; [reflexivity|exists b; reflexivity].
Qed.

(** [Index] is the offset of the first occurrence, and -1 when there is
    none. *)
Lemma Index_spec (s sep : gostring) :
  (Index s sep = -1 /\ forall i, ~ occurs_at s sep i)
  \/ (0 <= Index s sep /\ occurs_at s sep (Index s sep)
      /\ forall i, occurs_at s sep i -> Index s sep <= i).
Proof.
  induction s as [|c s IH]; cbn [Index].
  - destruct (HasPrefix [] sep) eqn:E.
    + right. apply HasPrefix_spec in E. destruct E as [b E].
      split; [lia|]. split.
      * exists [], b. split; [exact E|reflexivity].
      * intros i [a [b' [_ <-]]]. apply len_nonneg.
    + left. split; [reflexivity|]. intros i [a [b [H _]]].
      destruct a; [|discriminate]. cbn [app] in H.
      assert (HasPrefix [] sep = true) by (apply HasPrefix_spec; exists b; exact H).
      congruence.
  - destruct (HasPrefix (c :: s) sep) eqn:E.
    + right. apply HasPrefix_spec in E. destruct E as [b E].
      split; [lia|]. split.
      * exists [], b. split; [exact E|reflexivity].
      * intros i [a [b' [_ <-]]]. apply len_nonneg.
    + assert (N0 : ~ occurs_at (c :: s) sep 0).
      { intros [a [b [H L]]]. apply len_zero in L. subst a. cbn [app] in H.
        assert (HasPrefix (c :: s) sep = true) by (apply HasPrefix_spec; exists b; exact H).
        congruence. }
      assert (Shift : forall i, occurs_at (c :: s) sep (i + 1) <-> occurs_at s sep i).
      { intros i. split.
        - intros [a [b [H L]]]. destruct a as [|d a].
          + exfalso. apply N0. exists [], b. split; [exact H|reflexivity].
          + injection H as -> ->. exists a, b. split; [reflexivity|].
            unfold len in *. cbn [length] in L. lia.
        - intros [a [b [-> L]]]. exists (c :: a), b. split; [reflexivity|].
          unfold len in *. cbn [length]. lia. }
      cbv zeta. destruct IH as [[-> IH]|[P [O F]]].
      * left. split; [reflexivity|]. intros i Oi.
        destruct (Z.eq_dec i 0) as [->|Hi]; [exact (N0 Oi)|].
        apply (IH (i - 1)). apply Shift. replace (i - 1 + 1) with i by lia. exact Oi.
      * right. replace (Index s sep <? 0) with false by lia.
        split; [lia|]. split; [apply Shift; exact O|].
        intros i Oi. destruct (Z.eq_dec i 0) as [->|Hi]; [exfalso; exact (N0 Oi)|].
        assert (Oi' : occurs_at s sep (i - 1))
          by (apply Shift; replace (i - 1 + 1) with i by lia; exact Oi).
        specialize (F _ Oi'). lia.
Qed.

(** [historyByPattern] keeps the entries that hold the pattern, in the
    order of the history, each with the offset of its first match. *)
Lemma historyByPattern_spec (hs : list gostring) (pattern : gostring) :
  historyByPattern hs pattern
  = (filter (fun h => 0 <=? Index h pattern) hs,
     map (fun h => Index h pattern) (filter (fun h => 0 <=? Index h pattern) hs)).
Proof.
  induction hs as [|h hs IH]; [reflexivity|].
  cbn [historyByPattern filter]. rewrite IH.
  destruct (0 <=? Index h pattern); reflexivity.
Qed.

Lemma nth_error_last {A : Type} (l : list A) (d : A) :
  l <> [] -> nth_error l (length l - 1) = Some (last l d).
Proof.
  induction l as [|a l IH]; [congruence|]. intros _.
  destruct l as [|b l]; [reflexivity|].
  change (last (a :: b :: l) d) with (last (b :: l) d).
  rewrite <- IH by discriminate. cbn [length].
  replace (S (S (length l)) - 1)%nat with (S (S (length l) - 1)) by lia.
  reflexivity.
Qed.

Lemma index_last {A : Type} (l : list A) (d : A) :
  l <> [] -> index l (len l - 1) = Some (last l d).
Proof.
  intros H. unfold index.
  assert (0 < len l) by (unfold len; destruct l; [congruence|cbn [length]; lia]).
  replace ((0 <=? len l - 1) && (len l - 1 <? len l)) with true by lia.
  rewrite <- (nth_error_last l d H). f_equal. unfold len. lia.
Qed.

Lemma search_types_printable (r : rune) :
  search_types r = negb (inb 0 31 r) && negb (r =? 127).
Proof.
  unfold search_types, search_commits, inb, ctrlR, ctrlS, ctrlH, bs, ctrlG.
  lia.
Qed.

Lemma string_of_runes_app (a b : list rune) :
  string_of_runes (a ++ b) = string_of_runes a ++ string_of_runes b.
Proof. apply flat_map_app. Qed.

Lemma string_of_runes_snoc (a : list rune) (r : rune) :
  string_of_runes (a ++ [r]) <> [].
Proof.
  rewrite string_of_runes_app. unfold string_of_runes at 2. cbn [flat_map].
  rewrite app_nil_r.
  pose proof (EncodeRune_nonempty r) as H. intros N.
  apply (f_equal (@length _)) in N. rewrite length_app in N. cbn [length] in N. lia.
Qed.

Lemma last_of_map {A B : Type} (f : A -> B) (l : list A) (a : A) (b : B) :
  l <> [] -> last (map f l) b = f (last l a).
Proof.
  induction l as [|x l IH]; [congruence|]. intros _.
  destruct l as [|y l]; [reflexivity|].
  change (last (map f (x :: y :: l)) b) with (last (map f (y :: l)) b).
  change (last (x :: y :: l) a) with (last (y :: l) a).
  apply IH. discriminate.
Qed.

Lemma getHistoryByPattern_matches (s : State) (pattern : gostring) :
  pattern <> [] ->
  getHistoryByPattern s pattern
  = (matches s pattern, map (fun h => Index h pattern) (matches s pattern)).
Proof.
  intros H. unfold getHistoryByPattern. destruct pattern; [congruence|].
  apply historyByPattern_spec.
Qed.

Lemma matches_spec (s : State) (pattern h : gostring) :
  In h (matches s pattern)
  <-> In h (history s) /\ exists i, occurs_at h pattern i.
Proof.
  unfold matches. rewrite filter_In.
  destruct (Index_spec h pattern) as [[E N]|[P [O _]]].
  - rewrite E. split; [intros [_ H]; discriminate|].
    intros [_ [i H]]. destruct (N i H).
  - split; [intros [H _]; split; [exact H|eexists; exact O]|].
    intros [H _]. split; [exact H|lia].
Qed.

Lemma search_rune_typed (r : rune) (v : Search.locals) (s : State) :
  search_types r = true -> Search.pos v = len (Search.line v) ->
  search_rune r v s = Ret (typed s r v) s.
Proof.
  intros T P. unfold search_types in T.
  unfold search_rune, bind, get.
  replace (r =? ctrlR) with false by lia.
  replace (r =? ctrlS) with false by lia.
  replace ((r =? ctrlH) || (r =? bs)) with false by lia.
  rewrite P. destruct (slice_app (Search.line v) []) as [_ S2].
  rewrite app_nil_r in S2. rewrite S2.
  rewrite slice_prefix by (pose proof (len_nonneg (Search.line v)); lia).
  unfold len at 1. rewrite Nat2Z.id, firstn_all. unfold check.
  unfold research. cbn [app].
  unfold ret. cbv beta iota.
  rewrite getHistoryByPattern_matches by apply string_of_runes_snoc.
  unfold typed. rewrite len_app. change (len [r]) with 1.
  set (pattern := string_of_runes (Search.line v ++ [r])).
  destruct (matches s pattern) as [|h t] eqn:M; [reflexivity|].
  unfold bind.
  replace (0 <? len (h :: t)) with true by (unfold len; cbn [length]; lia).
  rewrite (index_last (h :: t) []) by discriminate.
  replace (len (h :: t)) with (len (map (fun h0 => Index h0 pattern) (h :: t)))
    by (unfold len; rewrite length_map; reflexivity).
  rewrite (index_last _ 0) by discriminate.
  rewrite (last_of_map _ (h :: t) []) by discriminate.
  unfold len. rewrite length_map. reflexivity.
Qed.

(** The cursor of the search stays at the end of the pattern. *)
Lemma search_rune_cursor (r : rune) (v v' : Search.locals) (s s' : State) :
  Search.pos v = len (Search.line v) -> search_rune r v s = Ret v' s' ->
  Search.pos v' = len (Search.line v').
Proof.
  intros P. unfold search_rune, bind, get.
  assert (Beep : forall x, match fmt_Print beep s with
                           | Ret _ s1 => ret v s1
                           | Panic s1 => Panic s1
                           end = Ret x s' -> Search.pos x = len (Search.line x)).
  { intros x. destruct (fmt_Print beep s); [|discriminate].
    unfold ret. intros H. injection H as <- _. exact P. }
  assert (Move : forall i x,
    match check (index (Search.history v) i) s with
    | Ret fl s1 =>
      match check (index (Search.positions v) i) s1 with
      | Ret fp s2 =>
        ret (Search.mk (Search.line v) (Search.pos v) fl fp (Search.history v)
                       (Search.positions v) i) s2
      | Panic s2 => Panic s2
      end
    | Panic s1 => Panic s1
    end = Ret x s' -> Search.pos x = len (Search.line x)).
  { intros i x. unfold check, ret, panic.
    destruct (index (Search.history v) i); [|discriminate].
    destruct (index (Search.positions v) i); [|discriminate].
    intros H. injection H as <- _. exact P. }
  assert (Again : forall keep a b x, len (a ++ b) = x ->
    forall y, research keep s (a ++ b) x v s = Ret y s' ->
    Search.pos y = len (Search.line y)).
  { intros keep a b x L y. unfold research, bind, check, ret, panic.
    destruct (getHistoryByPattern s (string_of_runes (a ++ b))) as [hs ps].
    destruct (0 <? len hs).
    - destruct (index hs (len hs - 1)); [|discriminate].
      destruct (index ps (len hs - 1)); [|discriminate].
      intros H. injection H as <- _. symmetry. exact L.
    - intros H. injection H as <- _. symmetry. exact L. }
  destruct (r =? ctrlR).
  { destruct ((0 <? Search.historyPos v) && (Search.historyPos v <? len (Search.history v)));
      [apply Move|apply Beep]. }
  destruct (r =? ctrlS).
  { destruct ((Search.historyPos v <? len (Search.history v) - 1) && (0 <=? Search.historyPos v));
      [apply Move|apply Beep]. }
  pose proof (len_nonneg (Search.line v)) as N.
  destruct (slice_app (Search.line v) []) as [_ S2]. rewrite app_nil_r in S2.
  destruct ((r =? ctrlH) || (r =? bs)).
  - destruct (Search.pos v <=? 0) eqn:E; [apply Beep|].
    rewrite P in *. rewrite S2. rewrite slice_prefix by lia. unfold check, ret.
    apply Again. rewrite app_nil_r. unfold len in *. rewrite length_firstn. lia.
  - rewrite P in *. rewrite S2, slice_prefix by lia. unfold check, ret.
    apply (Again true _ ([r] ++ [])). rewrite !len_app.
    unfold len in *. rewrite length_firstn. cbn [length]. lia.
Qed.

(** Claim C5.  In the reverse search a rune that is no control code (the
    default case of the switch: none of 0..31 and not 127) goes to the end
    of the pattern, the matches are taken again, they are the history
    entries that hold the pattern as a substring, in history order, and
    the search stands at the newest of them, with the found line that
    entry and the found position the offset of the first occurrence of the
    pattern in it (the empty line and 0 without a match); the loop goes on
    from there after a refresh.  With [make build] and [make test] in the
    history, [t], [e] and then a key that leaves give [make test] and 5.
    CTRL-G hands back the original line and cursor with the constant
    [esc], which the switch of [Prompt] takes as it takes the rune ESC. *)
Theorem search_typing :
  (forall (r : rune) (v : Search.locals) (s : State),
     search_types r = true -> Search.pos v = len (Search.line v) ->
     search_rune r v s = Ret (typed s r v) s)
  /\ (forall r : rune, search_types r = negb (inb 0 31 r) && negb (r =? 127))
  /\ (forall (s : State) (pattern h : gostring),
        In h (matches s pattern)
        <-> In h (history s) /\ exists i, occurs_at h pattern i)
  /\ (forall (s : State) (pattern h : gostring),
        In h (matches s pattern) ->
        occurs_at h pattern (Index h pattern)
        /\ forall i, occurs_at h pattern i -> Index h pattern <= i)
  /\ (forall (r : rune) (v v' : Search.locals) (s s' : State),
        Search.pos v = len (Search.line v) -> search_rune r v s = Ret v' s' ->
        Search.pos v' = len (Search.line v'))
  /\ (forall (origLine : list rune) (origPos : Z) (r : rune) (v : Search.locals)
             (s : State) (inp : list event),
        search_types r = true -> Search.pos v = len (Search.line v) ->
        reverseISearch_loop origLine origPos v s (Key (Rune r) :: inp)
        = run (let '(p, l, n) := getLine (typed s r v) in refresh p l n) s
              (fun _ s' => reverseISearch_loop origLine origPos (typed s r v) s' inp))
  /\ (exists s' : State,
        reverseISearch [] 0 make_history
          [Key (Rune 116); Key (Rune 101); Key (Rune cr)]
        = Done (runes (str "make test"), 5, Rune cr, None) s' [])
  /\ (forall (origLine : list rune) (origPos : Z) (v : Search.locals) (s : State)
             (inp : list event),
        reverseISearch_loop origLine origPos v s (Key (Rune ctrlG) :: inp)
        = Done (origLine, origPos, Int esc, None) s inp)
  /\ (forall (p : gostring) (l : Loop.locals),
        dispatch p (Int esc) l = dispatchRune p esc l).
Proof.
  split; [exact search_rune_typed|].
  split; [exact search_types_printable|].
  split; [exact matches_spec|].
  split.
  { intros s pattern h H. unfold matches in H. apply filter_In in H.
    destruct H as [_ H].
    destruct (Index_spec h pattern) as [[E _]|[_ [O F]]]; [rewrite E in H; discriminate|].
    split; assumption. }
  split; [exact search_rune_cursor|].
  split.
  { intros origLine origPos r v s inp T P.
    cbn [reverseISearch_loop]. pose proof T as T'. unfold search_types in T'.
    replace (r =? ctrlG) with false by lia.
    replace (search_commits r) with false by lia.
    unfold run, bind. rewrite (search_rune_typed r v s T P).
    destruct (getLine (typed s r v)) as [[p l] n].
    destruct (refresh p l n s); reflexivity. }
  split; [eexists; vm_compute; reflexivity|].
  split; [reflexivity|reflexivity].
Qed.

Lemma search_typing_witness :
  search_rune 101 (typed make_history 116 (Search.mk [] 0 [] 0 [] [] (-1)))
    make_history
  = Ret (Search.mk [116; 101] 2 (str "make test") 5 [str "make test"] [5] 0)
        make_history.
Proof.
  rewrite (proj1 search_typing 101 _ make_history); reflexivity.
Defined.

(** ** A search left without a pattern *)

Lemma reverseISearch_start (origLine : list rune) (origPos : Z) (s : State)
  (inp : list event) :
  reverseISearch origLine origPos s inp
  = run (refresh searchPrompt (string_of_runes origLine) origPos) s
        (fun _ s' => reverseISearch_loop origLine origPos search_start s' inp).
Proof. reflexivity. Qed.

Lemma search_loop_rune (origLine : list rune) (origPos : Z) (v : Search.locals)
  (s : State) (r : rune) (inp : list event) :
  (r =? ctrlG) = false -> search_commits r = false ->
  reverseISearch_loop origLine origPos v s (Key (Rune r) :: inp)
  = run (v' <- search_rune r v ;;
         let '(p, l, n) := getLine v' in refresh p l n ;;; ret v') s
        (fun v' s => reverseISearch_loop origLine origPos v' s inp).
Proof. intros H1 H2. cbn [reverseISearch_loop]. rewrite H1, H2. reflexivity. Qed.

Lemma search_start_redrawn (s : State) :
  roomy searchPrompt s ->
  exists ops, (let '(p, l, n) := getLine search_start in
               refresh p l n ;;; ret search_start) s
              = Ret search_start (emits s ops).
Proof.
  intros R. change (getLine search_start) with (searchPrompt, @nil byte, 0).
  cbv beta iota. unfold bind.
  destruct (refresh_returns searchPrompt [] 0 s R) as [e [ops H]].
  rewrite H. exists ops. reflexivity.
Qed.

(** A key that does not count leaves an empty search as it is. *)
Lemma search_idle (origLine : list rune) (origPos : Z) (s : State) (k : iface)
  (inp : list event) :
  roomy searchPrompt s -> idles k = true ->
  exists ops,
    reverseISearch_loop origLine origPos search_start s (Key k :: inp)
    = reverseISearch_loop origLine origPos search_start (emits s ops) inp.
Proof.
  intros R I.
  assert (Quiet : exists ops,
    run (v' <- ret search_start ;;
         let '(p, l, n) := getLine v' in refresh p l n ;;; ret v') s
        (fun v' s => reverseISearch_loop origLine origPos v' s inp)
    = reverseISearch_loop origLine origPos search_start (emits s ops) inp).
  { destruct (search_start_redrawn s R) as [ops H]. exists ops.
    unfold run, bind at 1, ret at 1. rewrite H. reflexivity. }
  destruct k as [|n|r|a]; [exact Quiet|exact Quiet| |discriminate].
  cbn [idles] in I.
  rewrite search_loop_rune
    by (unfold search_commits, inb, ctrlR, ctrlS, ctrlH, bs, ctrlG in *; lia).
  assert (B : search_rune r search_start s
              = (fmt_Print beep ;;; ret search_start) s).
  { rewrite !orb_true_iff, !Z.eqb_eq in I.
    destruct I as [[[->| ->]| ->]| ->]; reflexivity. }
  unfold run, bind at 1. rewrite B. unfold bind at 1.
  destruct (fmt_Print_returns beep s) as [e [ops1 H1]]. rewrite H1.
  unfold ret at 1.
  destruct (search_start_redrawn (emits s ops1) R) as [ops2 H2]. rewrite H2.
  exists (ops1 ++ ops2). rewrite emits_emits. reflexivity.
Qed.

Lemma search_idles (origLine : list rune) (origPos : Z) (ks : list iface)
  (s : State) (inp : list event) :
  roomy searchPrompt s -> Forall (fun k => idles k = true) ks ->
  exists ops,
    reverseISearch_loop origLine origPos search_start s (map Key ks ++ inp)
    = reverseISearch_loop origLine origPos search_start (emits s ops) inp.
Proof.
  intros R F. revert s R. induction F as [|k ks I _ IH]; intros s R.
  - exists []. rewrite emits_nil. reflexivity.
  - cbn [map app]. destruct (search_idle origLine origPos s k (map Key ks ++ inp) R I)
      as [ops1 H1]. rewrite H1.
    destruct (IH (emits s ops1) R) as [ops2 H2]. rewrite H2.
    exists (ops1 ++ ops2). rewrite emits_emits. reflexivity.
Qed.

Lemma search_leaves (origLine : list rune) (origPos : Z) (s : State) (k : iface)
  (inp : list event) :
  leaves k = true ->
  reverseISearch_loop origLine origPos search_start s (Key k :: inp)
  = Done (if is_rune k ctrlG then (origLine, origPos, Int esc, None)
          else ([], 0, k, None)) s inp.
Proof.
  unfold leaves. intros L. destruct k as [|n|r|a]; try discriminate.
  - cbn [commits is_rune] in *. cbn [reverseISearch_loop].
    destruct (r =? ctrlG); [reflexivity|].
    cbn [orb] in L. rewrite orb_false_r in L. rewrite L. reflexivity.
  - reflexivity.
Qed.

(** An empty search that is left by a committing key, whatever came before
    among the keys that do not count. *)
Lemma search_empty_commit (origLine : list rune) (origPos : Z) (s : State)
  (ks : list iface) (k : iface) (inp : list event) :
  roomy searchPrompt s -> Forall (fun k => idles k = true) ks ->
  leaves k = true ->
  exists ops,
    reverseISearch origLine origPos s (map Key ks ++ Key k :: inp)
    = Done (if is_rune k ctrlG then (origLine, origPos, Int esc, None)
            else ([], 0, k, None)) (emits s ops) inp.
Proof.
  intros R F L. rewrite reverseISearch_start. unfold run.
  destruct (refresh_returns searchPrompt (string_of_runes origLine) origPos s R)
    as [e [ops1 H1]]. rewrite H1.
  destruct (search_idles origLine origPos ks (emits s ops1) (Key k :: inp) R F)
    as [ops2 H2]. rewrite H2, search_leaves by exact L.
  exists (ops1 ++ ops2). rewrite emits_emits. reflexivity.
Qed.

Lemma hooks_search_commit (p : gostring) (l : Loop.locals) (s : State)
  (ks : list iface) (k : iface) (inp : list event) :
  roomy p s -> roomy searchPrompt s -> Forall (fun k => idles k = true) ks ->
  commits k = true ->
  exists ops,
    hooks p l (Rune ctrlR) s (map Key ks ++ Key k :: inp)
    = Done (inl (Loop.set_pos (Loop.set_line l []) 0, k)) (emits s ops) inp.
Proof.
  intros Rp R F C. unfold hooks, hookTab.
  change (is_rune (Rune ctrlR) tab) with false. cbv beta iota. cbn [and_then].
  unfold hookYank. change (is_rune (Rune ctrlR) ctrlY) with false.
  cbn [andb]. cbv beta iota. cbn [and_then].
  unfold hookSearch. change (is_rune (Rune ctrlR) ctrlR) with true. cbv beta iota.
  assert (L : leaves k = true) by (unfold leaves; rewrite C; reflexivity).
  assert (G : is_rune k ctrlG = false).
  { destruct k as [|n|r|a]; try reflexivity. cbn [commits is_rune] in *.
    unfold search_commits, inb, ctrlG in *. lia. }
  destruct (search_empty_commit (Loop.line l) (Loop.pos l) s ks k inp R F L)
    as [ops1 H1]. rewrite H1, G. cbn [resume]. unfold run.
  destruct (redraw_returns p (Loop.set_pos (Loop.set_line l []) 0) (emits s ops1) Rp)
    as [ops2 H2]. rewrite H2.
  exists (ops1 ++ ops2). rewrite emits_emits. reflexivity.
Qed.

(** Claim C10.  [reverseISearch] enters its loop with an empty pattern, for
    which [getHistoryByPattern] has no match, so with an empty found line
    and 0.  A committing key (a control code of the two case lists that
    return, or an action) hands these back, whatever the line and cursor
    were, also after keys that change nothing (CTRL-R, CTRL-S, backspace,
    a value that is neither rune nor action); of the keys that leave the
    search only CTRL-G hands back the original line and cursor.  In
    [Prompt], CTRL-R and then CR returns the empty string whatever the
    line was. *)
Theorem empty_search_commit :
  (forall s : State, getHistoryByPattern s (string_of_runes []) = ([], []))
  /\ (forall (origLine : list rune) (origPos : Z) (s : State) (inp : list event),
        reverseISearch origLine origPos s inp
        = run (refresh searchPrompt (string_of_runes origLine) origPos) s
              (fun _ s' => reverseISearch_loop origLine origPos search_start s' inp))
  /\ (forall (origLine : list rune) (origPos : Z) (s : State) (ks : list iface)
             (k : iface) (inp : list event),
        roomy searchPrompt s -> Forall (fun k => idles k = true) ks ->
        commits k = true ->
        exists ops,
          reverseISearch origLine origPos s (map Key ks ++ Key k :: inp)
          = Done ([], 0, k, None) (emits s ops) inp)
  /\ (forall (origLine : list rune) (origPos : Z) (s : State) (ks : list iface)
             (k : iface) (inp : list event),
        roomy searchPrompt s -> Forall (fun k => idles k = true) ks ->
        leaves k = true -> origLine <> [] ->
        exists line pos next ops,
          reverseISearch origLine origPos s (map Key ks ++ Key k :: inp)
          = Done (line, pos, next, None) (emits s ops) inp
          /\ ((line, pos) = (origLine, origPos) <-> k = Rune ctrlG))
  /\ (forall (fuel : nat) (p : gostring) (l : Loop.locals) (s : State)
             (ks : list iface) (inp : list event),
        roomy p s -> roomy searchPrompt s ->
        Forall (fun k => idles k = true) ks ->
        exists ops,
          mainLoop (S fuel) p l s
            (Key (Rune ctrlR) :: map Key ks ++ Key (Rune cr) :: inp)
          = Some (Done ([], None) (emits s ops) inp)).
Proof.
  split; [reflexivity|].
  split; [exact reverseISearch_start|].
  split.
  { intros origLine origPos s ks k inp R F C.
    assert (L : leaves k = true) by (unfold leaves; rewrite C; reflexivity).
    destruct (search_empty_commit origLine origPos s ks k inp R F L) as [ops H].
    exists ops. rewrite H.
    replace (is_rune k ctrlG) with false; [reflexivity|].
    destruct k as [|n|r|a]; try reflexivity. cbn [commits is_rune] in *.
    unfold search_commits, inb, ctrlG in *. lia. }
  split.
  { intros origLine origPos s ks k inp R F L N.
    destruct (search_empty_commit origLine origPos s ks k inp R F L) as [ops H].
    destruct (is_rune k ctrlG) eqn:G.
    - exists origLine, origPos, (Int esc), ops. split; [exact H|].
      split; [intros _|reflexivity].
      destruct k as [|n|r|a]; try discriminate. cbn [is_rune] in G.
      apply Z.eqb_eq in G. subst r. reflexivity.
    - exists [], 0, k, ops. split; [exact H|].
      split; [intros E; injection E as E _; congruence|].
      intros ->. cbn [is_rune] in G. rewrite Z.eqb_refl in G. discriminate. }
  intros fuel p l s ks inp Rp R F.
  cbn [mainLoop]. unfold iteration.
  destruct (hooks_search_commit p (Loop.set_historyAction l false) s ks (Rune cr) inp
              Rp R F eq_refl) as [ops1 H1].
  rewrite H1. unfold run, dispatched, bind at 1. cbn [dispatch].
  unfold dispatchRune. change ((cr =? cr) || (cr =? lf)) with true. cbv beta iota.
  unfold bind at 1.
  destruct (fmt_Print_returns [lf] (emits s ops1)) as [e [ops2 H2]]. rewrite H2.
  unfold ret. exists (ops1 ++ ops2). rewrite emits_emits. reflexivity.
Qed.

Lemma empty_search_commit_witness :
  exists ops,
    reverseISearch [120; 121] 1 (newState 80)
      (map Key [Rune ctrlR; Rune bs] ++ Key (Rune cr) :: [])
    = Done ([], 0, Rune cr, None) (emits (newState 80) ops) [].
Proof.
  apply (proj1 (proj2 (proj2 empty_search_commit))).
  - unfold roomy. vm_compute. discriminate.
  - repeat constructor.
  - reflexivity.
Defined.

(** ** Completion *)

Lemma wrap_next (i n : Z) :
  0 <= i < n -> (if i <? n - 1 then i + 1 else 0) = (i + 1) mod n.
Proof.
  intros H. destruct (i <? n - 1) eqn:E.
  - rewrite Z.mod_small; lia.
  - replace (i + 1) with n by lia. rewrite Z.mod_same; lia.
Qed.

Lemma wrap_prev (i n : Z) :
  0 <= i < n -> (if 0 <? i then i - 1 else n - 1) = (i - 1) mod n.
Proof.
  intros H. destruct (0 <? i) eqn:E.
  - rewrite Z.mod_small; lia.
  - replace (i - 1) with (n - 1 + (-1) * n) by lia.
    rewrite Z.mod_add by lia. rewrite Z.mod_small; lia.
Qed.

(** One round of the loop of [tabComplete] with the candidate at
    [listEntry] on display. *)
Lemma tabComplete_round (p : gostring) (line : list rune) (pos : Z)
  (head : gostring) (list' : list gostring) (tail : gostring)
  (listEntry : Z) (s : State) (k : iface) (inp : list event) :
  roomy p s -> 0 <= listEntry < len list' ->
  exists pick ops,
    index list' listEntry = Some pick
    /\ tabComplete_loop p line pos head list' tail (RuneCountInString head)
         listEntry s (Key k :: inp)
       = if is_rune k tab then
           tabComplete_loop p line pos head list' tail (RuneCountInString head)
             ((listEntry + 1) mod len list') (emits s ops) inp
         else if is_shiftTab k then
           tabComplete_loop p line pos head list' tail (RuneCountInString head)
             ((listEntry - 1) mod len list') (emits s ops) inp
         else if is_rune k esc then
           Done (line, pos, Rune esc, None) (emits s ops) inp
         else
           let '(line', pos') := committed head pick tail in
           Done (line', pos', k, None) (emits s ops) inp.
Proof.
  intros R B.
  pose proof (index_nth list' listEntry [] B) as I.
  set (pick := nth (Z.to_nat listEntry) list' []) in *.
  destruct (refresh_returns p (head ++ pick ++ tail)
              (RuneCountInString head + RuneCountInString pick) s R) as [e [ops H]].
  exists pick, ops. split; [exact I|].
  cbn [tabComplete_loop]. unfold run, bind at 1. rewrite I.
  unfold check at 1. unfold ret at 1. cbv beta iota. unfold bind at 1.
  match goal with |- context [refresh ?a ?b ?c ?d] =>
    replace (refresh a b c d) with (Ret e (emits s ops)) by (symmetry; exact H)
  end. unfold ret. unfold committed.
  rewrite (wrap_next _ _ B), (wrap_prev _ _ B).
  destruct k as [|n|r|a]; cbn [is_rune is_shiftTab]; try reflexivity.
  destruct a; reflexivity.
Qed.

Lemma RuneCount_string_of_runes (l : list rune) :
  Forall (fun r => ValidRune r = true) l ->
  RuneCountInString (string_of_runes l) = len l.
Proof.
  intros H. unfold RuneCountInString. rewrite runes_string_of_runes by exact H.
  reflexivity.
Qed.

(** Claim C9.  Without a completer, or with one that has no candidate for
    the line, [tabComplete] hands back line, cursor and TAB at once, having
    read no key.  Otherwise it enters its loop at candidate 0; in a round at
    candidate [listEntry] TAB goes to the next and SHIFT-TAB to the previous
    candidate, both modulo the number of candidates, ESC hands back the
    original line and cursor and ESC, and any other key hands back the runes
    of [head ++ pick ++ tail], the cursor at the rune count of [head] plus
    that of [pick], and the key itself; for head, pick and tail that are
    strings of valid runes these are the three rune lists in a row and the
    length of the first two. *)
Theorem completion_keys :
  (forall (p : gostring) (line : list rune) (pos : Z) (s : State)
          (inp : list event),
     completer s = None ->
     tabComplete p line pos s inp = Done (line, pos, Rune tab, None) s inp)
  /\ (forall (p : gostring) (line : list rune) (pos : Z) (s : State)
             (inp : list event) (complete : WordCompleter) (head tail : gostring),
        completer s = Some complete ->
        complete (string_of_runes line) pos = (head, [], tail) ->
        tabComplete p line pos s inp = Done (line, pos, Rune tab, None) s inp)
  /\ (forall (p : gostring) (line : list rune) (pos : Z) (s : State)
             (inp : list event) (complete : WordCompleter) (head tail : gostring)
             (list' : list gostring),
        completer s = Some complete ->
        complete (string_of_runes line) pos = (head, list', tail) ->
        list' <> [] ->
        tabComplete p line pos s inp
        = tabComplete_loop p line pos head list' tail (RuneCountInString head)
            0 s inp)
  /\ (forall (p : gostring) (line : list rune) (pos : Z) (head : gostring)
             (list' : list gostring) (tail : gostring) (listEntry : Z)
             (s : State) (k : iface) (inp : list event),
        roomy p s -> 0 <= listEntry < len list' ->
        exists pick ops,
          index list' listEntry = Some pick
          /\ tabComplete_loop p line pos head list' tail (RuneCountInString head)
               listEntry s (Key k :: inp)
             = if is_rune k tab then
                 tabComplete_loop p line pos head list' tail
                   (RuneCountInString head) ((listEntry + 1) mod len list')
                   (emits s ops) inp
               else if is_shiftTab k then
                 tabComplete_loop p line pos head list' tail
                   (RuneCountInString head) ((listEntry - 1) mod len list')
                   (emits s ops) inp
               else if is_rune k esc then
                 Done (line, pos, Rune esc, None) (emits s ops) inp
               else
                 let '(line', pos') := committed head pick tail in
                 Done (line', pos', k, None) (emits s ops) inp)
  /\ (forall h c t : list rune,
        Forall (fun r => ValidRune r = true) (h ++ c ++ t) ->
        committed (string_of_runes h) (string_of_runes c) (string_of_runes t)
        = (h ++ c ++ t, len h + len c))
  /\ (exists s1 s2 s3 s4,
        tabComplete (str "> ") (runes (str "abc")) 3 abc_state [Key (Rune cr)]
        = Done (runes (str "abcdef"), 6, Rune cr, None) s1 []
        /\ tabComplete (str "> ") (runes (str "abc")) 3 abc_state
             [Key (Rune tab); Key (Rune cr)]
           = Done (runes (str "abcxyz"), 6, Rune cr, None) s2 []
        /\ tabComplete (str "> ") (runes (str "abc")) 3 abc_state
             [Key (Rune tab); Key (Rune tab); Key (Action Act.shiftTab);
              Key (Rune cr)]
           = Done (runes (str "abcxyz"), 6, Rune cr, None) s3 []
        /\ tabComplete (str "> ") (runes (str "abc")) 3 abc_state
             [Key (Rune tab); Key (Rune esc)]
           = Done (runes (str "abc"), 3, Rune esc, None) s4 []).
Proof.
  split.
  { intros p line pos s inp H. unfold tabComplete. rewrite H. reflexivity. }
  split.
  { intros p line pos s inp complete head tail H E. unfold tabComplete.
    rewrite H, E. reflexivity. }
  split.
  { intros p line pos s inp complete head tail list' H E N. unfold tabComplete.
    rewrite H, E. destruct list' as [|c list']; [congruence|].
    replace (len (c :: list') <=? 0) with false
      by (unfold len; cbn [length]; lia).
    reflexivity. }
  split; [exact tabComplete_round|].
  split.
  { intros h c t V. unfold committed.
    rewrite <- !string_of_runes_app, runes_string_of_runes by exact V.
    apply Forall_app in V. destruct V as [Vh V].
    apply Forall_app in V. destruct V as [Vc _].
    rewrite !RuneCount_string_of_runes by assumption. reflexivity. }
  do 4 eexists. split; [|split; [|split]]; vm_compute; reflexivity.
Qed.

Lemma completion_keys_witness :
  exists pick ops,
    index [str "abcdef"; str "abcxyz"] 1 = Some pick
    /\ tabComplete_loop (str "> ") [97] 1 [] [str "abcdef"; str "abcxyz"] []
         (RuneCountInString []) 1 (newState 80) (Key (Rune tab) :: [])
       = tabComplete_loop (str "> ") [97] 1 [] [str "abcdef"; str "abcxyz"] []
           (RuneCountInString []) 0 (emits (newState 80) ops) [].
Proof.
  apply (proj1 (proj2 (proj2 (proj2 completion_keys)))
           (str "> ") [97] 1 [] [str "abcdef"; str "abcxyz"] [] 1 (newState 80)
           (Rune tab) []).
  - unfold roomy. vm_compute. discriminate.
  - vm_compute. split; [discriminate|reflexivity].
Defined.

(** ** Kills that follow each other *)

Ltac wp_step :=
  first
    [ wp_head
    | lazymatch goal with
      | |- wp _ _ _ =>
        apply wp_writes; [solve [auto with writes]|intros ? ?|intros ?]
      end; cbv beta iota ].

Lemma dispatchRune_kept (p : gostring) (v : rune) (l : Loop.locals) (s : State) :
  killing (Rune v) l = false -> wp (dispatchRune p v l) s (kept l s).
Proof.
  intros K. unfold dispatchRune, historyPrev, historyNext, cut, insertAt.
  repeat wp_step; unfold kept; fields; cbn [Loop.killAction Loop.set_pos Loop.set_line Loop.set_historyAction Loop.set_historyPos Loop.set_historyEnd Loop.set_killAction Loop.set_prefixHistory]; auto.
  all: try (match goal with |- context [if ?c then _ else _] => destruct c end;
            cbn [Loop.killAction Loop.set_historyEnd Loop.set_historyAction]; auto).
  all: exfalso; unfold killing in K;
    repeat match goal with
           | H : (?x =? _) = true |- _ => is_var x; apply Z.eqb_eq in H; subst x
           end;
    cbn [Z.eqb Pos.eqb ctrlK ctrlU ctrlW orb andb] in K; try discriminate K;
    revert K;
    repeat match goal with
           | H : ?b = false |- _ =>
             let t := eval vm_compute in b in
             first [constr_eq t false | constr_eq t true]; clear H
           end;
    intros K; lia.
Qed.

Lemma dispatchAction_kept (p : gostring) (v : action) (l : Loop.locals) (s : State) :
  wp (dispatchAction p v l) s (kept l s).
Proof.
  unfold dispatchAction, historyPrev, historyNext, cut.
  destruct v; repeat wp_step; unfold kept; fields;
    cbn [Loop.killAction Loop.set_pos Loop.set_line Loop.set_historyAction
         Loop.set_historyPos Loop.set_historyEnd Loop.set_killAction
         Loop.set_prefixHistory]; auto.
  all: match goal with |- context [if ?c then _ else _] => destruct c end;
    cbn [Loop.killAction Loop.set_historyEnd Loop.set_historyAction]; auto.
Qed.

Lemma dispatch_kept (p : gostring) (k : iface) (l : Loop.locals) (s : State) :
  killing k l = false -> wp (dispatch p k l) s (kept l s).
Proof.
  intros K. destruct k as [|n|v|a]; cbn [dispatch].
  - unfold wp, ret, kept. auto.
  - unfold wp, ret, kept. auto.
  - apply dispatchRune_kept. exact K.
  - apply dispatchAction_kept.
Qed.

Lemma bottom_latch (l : Loop.locals) (s : State) :
  exists l', bottom l s = Ret l' s
    /\ Loop.line l' = Loop.line l /\ Loop.pos l' = Loop.pos l
    /\ Loop.killAction l' = counted (Loop.killAction l).
Proof.
  unfold bottom, bind, get, ret, counted. eexists. split; [reflexivity|].
  destruct (negb (Loop.historyAction l));
    cbn [Loop.killAction Loop.set_historyPos Loop.set_prefixHistory];
    destruct (0 <? Loop.killAction l); auto.
Qed.

(** A key on which nothing is killed leaves the ring alone and lets the
    latch count down. *)
Lemma dispatched_kept (p : gostring) (k : iface) (l : Loop.locals) (s : State) :
  killing k l = false ->
  match dispatched p k l s with
  | Ret (Continue l') s' =>
    Loop.killAction l' = counted (Loop.killAction l)
    /\ killRing s' = killRing s /\ columns s' = columns s
  | Ret _ s' => killRing s' = killRing s
  | Panic _ => True
  end.
Proof.
  intros K. pose proof (dispatch_kept p k l s K) as D. unfold wp, kept in D.
  unfold dispatched, bind.
  destruct (dispatch p k l s) as [[l1|l1|line err] s1|s1]; auto.
  destruct D as [D1 [D2 D3]].
  destruct (bottom_latch l1 s1) as [l2 [B [_ [_ B3]]]]. rewrite B. unfold ret.
  rewrite B3, D1. auto.
Qed.

Lemma pushed_head (r : Ring) :
  exists t, forall text : list rune, pushed r text = Some text :: t.
Proof.
  unfold pushed. destruct r as [|v r]; [exists []; reflexivity|].
  destruct (KillRingMax <=? len (v :: r)).
  - destruct (r ++ [v]) as [|x t] eqn:E; [destruct r; discriminate|].
    exists t. reflexivity.
  - exists (r ++ [v]). reflexivity.
Qed.

(** A text joined to the node a kill has just made is one kill of the two
    texts together. *)
Lemma joined_pushed (r : Ring) (a b : list rune) :
  joined (pushed r a) b 1 = pushed r (a ++ b)
  /\ joined (pushed r a) b 2 = pushed r (b ++ a).
Proof.
  destruct (pushed_head r) as [t H]. rewrite !H. split; reflexivity.
Qed.

Lemma kill_killed (l : Loop.locals) (text : list rune) (mode : Z) (s : State) :
  mode = 1 \/ mode = 2 -> filled (killRing s) ->
  kill l text mode s
  = Ret tt (set_killRing s (killed (Loop.killAction l) (killRing s) text mode)).
Proof.
  intros M F. unfold kill, killed. destruct (0 <? Loop.killAction l).
  - apply addToKillRing_join; assumption.
  - apply addToKillRing_new.
Qed.

Lemma dispatchRune_ctrlK (p : gostring) (l : Loop.locals) (s : State) :
  roomy p s -> filled (killRing s) ->
  0 <= Loop.pos l < len (Loop.line l) ->
  exists ops,
    dispatchRune p ctrlK l s
    = Ret (Continue (Loop.set_line (Loop.set_killAction l 2)
                       (firstn (Z.to_nat (Loop.pos l)) (Loop.line l))))
          (emits (set_killRing s
                    (killed (Loop.killAction l) (killRing s)
                       (skipn (Z.to_nat (Loop.pos l)) (Loop.line l)) 1)) ops).
Proof.
  intros R F B. unfold dispatchRune.
  cbn [Z.eqb ctrlK cr lf ctrlA ctrlE ctrlB ctrlF ctrlD Pos.eqb orb].
  replace (len (Loop.line l) <=? Loop.pos l) with false by lia.
  unfold bind at 1. rewrite slice_suffix by lia. unfold check at 1, ret at 1.
  unfold bind at 1. rewrite kill_killed by auto.
  unfold bind at 1. rewrite slice_prefix by lia. unfold check at 1, ret at 1.
  unfold bind.
  match goal with |- context [redraw p ?l' ?s'] =>
    destruct (redraw_returns p l' s' R) as [ops H]; rewrite H
  end.
  exists ops. reflexivity.
Qed.

Lemma dispatchRune_ctrlU (p : gostring) (l : Loop.locals) (s : State) :
  roomy p s -> filled (killRing s) ->
  0 <= Loop.pos l <= len (Loop.line l) ->
  exists ops,
    dispatchRune p ctrlU l s
    = Ret (Continue (Loop.set_pos
                       (Loop.set_line (Loop.set_killAction l 2)
                          (skipn (Z.to_nat (Loop.pos l)) (Loop.line l))) 0))
          (emits (set_killRing s
                    (killed (Loop.killAction l) (killRing s)
                       (firstn (Z.to_nat (Loop.pos l)) (Loop.line l)) 2)) ops).
Proof.
  intros R F B. unfold dispatchRune.
  cbn [Z.eqb ctrlU ctrlK ctrlP ctrlN ctrlT ctrlL ctrlH bs cr lf ctrlA ctrlE
       ctrlB ctrlF ctrlD Pos.eqb orb].
  unfold bind at 1. rewrite slice_prefix by lia. unfold check at 1, ret at 1.
  unfold bind at 1. rewrite kill_killed by auto.
  unfold bind at 1. rewrite slice_suffix by lia. unfold check at 1, ret at 1.
  unfold bind.
  match goal with |- context [redraw p ?l' ?s'] =>
    destruct (redraw_returns p l' s' R) as [ops H]; rewrite H
  end.
  exists ops. reflexivity.
Qed.

Lemma dispatched_ctrlK (p : gostring) (l : Loop.locals) (s : State) :
  roomy p s -> filled (killRing s) ->
  0 <= Loop.pos l < len (Loop.line l) ->
  exists l' s',
    dispatched p (Rune ctrlK) l s = Ret (Continue l') s'
    /\ killRing s' = killed (Loop.killAction l) (killRing s)
                       (skipn (Z.to_nat (Loop.pos l)) (Loop.line l)) 1
    /\ Loop.line l' = firstn (Z.to_nat (Loop.pos l)) (Loop.line l)
    /\ Loop.pos l' = Loop.pos l /\ Loop.killAction l' = 1
    /\ columns s' = columns s.
Proof.
  intros R F B. destruct (dispatchRune_ctrlK p l s R F B) as [ops H].
  unfold dispatched, bind. cbn [dispatch]. rewrite H.
  match goal with |- context [bottom ?l1 ?s1] =>
    destruct (bottom_latch l1 s1) as [l2 [E [B1 [B2 B3]]]]; rewrite E
  end.
  unfold ret. eexists. eexists. split; [reflexivity|].
  rewrite B1, B2, B3. repeat split.
Qed.

Lemma dispatched_ctrlU (p : gostring) (l : Loop.locals) (s : State) :
  roomy p s -> filled (killRing s) ->
  0 <= Loop.pos l <= len (Loop.line l) ->
  exists l' s',
    dispatched p (Rune ctrlU) l s = Ret (Continue l') s'
    /\ killRing s' = killed (Loop.killAction l) (killRing s)
                       (firstn (Z.to_nat (Loop.pos l)) (Loop.line l)) 2
    /\ Loop.line l' = skipn (Z.to_nat (Loop.pos l)) (Loop.line l)
    /\ Loop.pos l' = 0 /\ Loop.killAction l' = 1
    /\ columns s' = columns s.
Proof.
  intros R F B. destruct (dispatchRune_ctrlU p l s R F B) as [ops H].
  unfold dispatched, bind. cbn [dispatch]. rewrite H.
  match goal with |- context [bottom ?l1 ?s1] =>
    destruct (bottom_latch l1 s1) as [l2 [E [B1 [B2 B3]]]]; rewrite E
  end.
  unfold ret. eexists. eexists. split; [reflexivity|].
  rewrite B1, B2, B3. repeat split.
Qed.

Lemma killed_filled (latch : Z) (r : Ring) (text : list rune) (mode : Z) :
  filled r -> filled (killed latch r text mode).
Proof.
  intros F. unfold killed. destruct (0 <? latch);
    [apply joined_filled|apply pushed_filled]; exact F.
Qed.

Lemma roomy_columns (p : gostring) (s s' : State) :
  columns s' = columns s -> roomy p s -> roomy p s'.
Proof. unfold roomy. intros ->. auto. Qed.

(** Claim C1.  In the switch of [Prompt], CTRL-K before the end of the
    line cuts the line at the cursor and hands the suffix to the ring: as a
    node of its own when the latch is 0, after the text of the current node
    when it is set; the latch is 1 when the round is over.  CTRL-U right
    after it puts the prefix before the text of that same node, so that
    from a latch of 0 the node holds the whole line.  A key on which
    nothing is killed leaves the ring alone and the latch at 0, and the
    kill after it, CTRL-K or CTRL-U, makes a node of its own: two nodes for
    the two kills. *)
Theorem kill_coalescing :
  (forall (p : gostring) (l : Loop.locals) (s : State),
     roomy p s -> filled (killRing s) ->
     0 <= Loop.pos l < len (Loop.line l) ->
     exists l' s',
       dispatched p (Rune ctrlK) l s = Ret (Continue l') s'
       /\ killRing s'
          = (if 0 <? Loop.killAction l
             then joined (killRing s)
                    (skipn (Z.to_nat (Loop.pos l)) (Loop.line l)) 1
             else pushed (killRing s)
                    (skipn (Z.to_nat (Loop.pos l)) (Loop.line l)))
       /\ Loop.line l' = firstn (Z.to_nat (Loop.pos l)) (Loop.line l)
       /\ Loop.pos l' = Loop.pos l /\ Loop.killAction l' = 1)
  /\ (forall (p : gostring) (l : Loop.locals) (s : State),
        roomy p s -> filled (killRing s) ->
        0 <= Loop.pos l < len (Loop.line l) ->
        exists l1 s1 l2 s2,
          dispatched p (Rune ctrlK) l s = Ret (Continue l1) s1
          /\ dispatched p (Rune ctrlU) l1 s1 = Ret (Continue l2) s2
          /\ killRing s2
             = joined (killRing s1)
                 (firstn (Z.to_nat (Loop.pos l)) (Loop.line l)) 2
          /\ (Loop.killAction l <= 0 ->
              killRing s2 = pushed (killRing s) (Loop.line l)))
  /\ (forall (p : gostring) (k : iface) (l : Loop.locals) (s : State),
        killing k l = false -> 0 <= Loop.killAction l <= 1 ->
        match dispatched p k l s with
        | Ret (Continue l') s' =>
          Loop.killAction l' = 0 /\ killRing s' = killRing s
        | Ret _ s' => killRing s' = killRing s
        | Panic _ => True
        end)
  /\ (forall (p : gostring) (k : iface) (l l1 l2 : Loop.locals)
             (s s1 s2 : State),
        roomy p s -> filled (killRing s) ->
        0 <= Loop.pos l < len (Loop.line l) ->
        dispatched p (Rune ctrlK) l s = Ret (Continue l1) s1 ->
        killing k l1 = false ->
        dispatched p k l1 s1 = Ret (Continue l2) s2 ->
        0 <= Loop.pos l2 <= len (Loop.line l2) ->
        (Loop.pos l2 < len (Loop.line l2) ->
         exists l3 s3,
           dispatched p (Rune ctrlK) l2 s2 = Ret (Continue l3) s3
           /\ killRing s3
              = pushed (killRing s1)
                  (skipn (Z.to_nat (Loop.pos l2)) (Loop.line l2)))
        /\ exists l3 s3,
             dispatched p (Rune ctrlU) l2 s2 = Ret (Continue l3) s3
             /\ killRing s3
                = pushed (killRing s1)
                    (firstn (Z.to_nat (Loop.pos l2)) (Loop.line l2)))
  /\ session (runes (str "abcdef") ++ [ctrlB; ctrlB; ctrlB; ctrlK; ctrlU; cr])
     = Some ([], [Some (runes (str "abcdef"))])
  /\ session (runes (str "abcdef") ++ [ctrlB; ctrlB; ctrlB; ctrlU; ctrlK; cr])
     = Some ([], [Some (runes (str "abcdef"))])
  /\ session (runes (str "abcdef")
              ++ [ctrlB; ctrlB; ctrlB; ctrlK; ctrlB; ctrlU; cr])
     = Some (str "c", [Some (runes (str "ab")); Some (runes (str "def"))]).
Proof.
  split.
  { intros p l s R F B.
    destruct (dispatched_ctrlK p l s R F B) as [l' [s' [H [H1 [H2 [H3 [H4 _]]]]]]].
    exists l', s'. unfold killed in H1. auto. }
  split.
  { intros p l s R F B.
    destruct (dispatched_ctrlK p l s R F B) as [l1 [s1 [H [H1 [H2 [H3 [H4 H5]]]]]]].
    assert (L : len (firstn (Z.to_nat (Loop.pos l)) (Loop.line l)) = Loop.pos l)
      by (unfold len in *; rewrite length_firstn; lia).
    assert (B1 : 0 <= Loop.pos l1 <= len (Loop.line l1))
      by (rewrite H2, H3, L; lia).
    assert (F1 : filled (killRing s1))
      by (rewrite H1; apply killed_filled; exact F).
    destruct (dispatched_ctrlU p l1 s1 (roomy_columns p s s1 H5 R) F1 B1)
      as [l2 [s2 [G [G1 _]]]].
    exists l1, s1, l2, s2. split; [exact H|]. split; [exact G|].
    rewrite H4, H2, H3, firstn_firstn, Nat.min_id in G1.
    unfold killed at 1 in G1. cbn [Z.ltb Z.compare] in G1.
    split; [exact G1|].
    intros Z0. rewrite G1, H1. unfold killed.
    replace (0 <? Loop.killAction l) with false by lia.
    destruct (joined_pushed (killRing s)
                (skipn (Z.to_nat (Loop.pos l)) (Loop.line l))
                (firstn (Z.to_nat (Loop.pos l)) (Loop.line l))) as [_ J].
    rewrite J, firstn_skipn. reflexivity. }
  split.
  { intros p k l s K B. pose proof (dispatched_kept p k l s K) as D.
    destruct (dispatched p k l s) as [[l1|l1|line err] s1|s1]; auto.
    destruct D as [D1 [D2 _]]. split; [|exact D2].
    rewrite D1. unfold counted. destruct (0 <? Loop.killAction l) eqn:E; lia. }
  split.
  { intros p k l l1 l2 s s1 s2 R F B H K G B2.
    destruct (dispatched_ctrlK p l s R F B) as [l1' [s1' [H' [H1 [_ [_ [H4 H5]]]]]]].
    rewrite H in H'. injection H' as <- <-.
    pose proof (dispatched_kept p k l1 s1 K) as D. rewrite G in D.
    destruct D as [D1 [D2 D3]].
    rewrite H4 in D1. change (counted 1) with 0 in D1.
    assert (R2 : roomy p s2)
      by (apply (roomy_columns p s s2); [congruence|exact R]).
    assert (F2 : filled (killRing s2))
      by (rewrite D2, H1; apply killed_filled; exact F).
    split.
    - intros B3.
      destruct (dispatched_ctrlK p l2 s2 R2 F2 (conj (proj1 B2) B3))
        as [l3 [s3 [E [E1 _]]]].
      exists l3, s3. split; [exact E|].
      rewrite E1, D1, D2. reflexivity.
    - destruct (dispatched_ctrlU p l2 s2 R2 F2 B2) as [l3 [s3 [E [E1 _]]]].
      exists l3, s3. split; [exact E|].
      rewrite E1, D1, D2. reflexivity. }
  split; [vm_compute; reflexivity|].
  split; vm_compute; reflexivity.
Qed.

Lemma kill_coalescing_witness :
  exists l' s',
    dispatched (str "> ") (Rune ctrlK) (Loop.mk [97; 98; 99] 1 [] [] 0 false 0)
      (newState 80)
    = Ret (Continue l') s'
    /\ killRing s' = [Some [98; 99]]
    /\ Loop.line l' = [97] /\ Loop.pos l' = 1 /\ Loop.killAction l' = 1.
Proof.
  apply (proj1 kill_coalescing (str "> ") (Loop.mk [97; 98; 99] 1 [] [] 0 false 0)
           (newState 80)).
  - unfold roomy. vm_compute. discriminate.
  - constructor.
  - vm_compute. split; [discriminate|reflexivity].
Defined.

(** A key that a sub-mode takes is not one of the switch: CTRL-Y between
    CTRL-K and CTRL-U starts the yank, which reads CTRL-U and hands it
    back, and the switch gets it with the latch of CTRL-K still set. *)
Lemma yank_between_kills :
  session (runes (str "abcdef") ++ [ctrlB; ctrlB; ctrlB; ctrlK; ctrlY; ctrlU; cr])
  = Some ([], [Some (runes (str "abcdefdef"))]).
Proof. vm_compute. reflexivity. Qed.

(** ** PasswordPrompt *)

Ltac discreet_tac :=
  repeat (apply Forall_cons; [cbn; auto 6|]); apply Forall_nil.

(** [refresh] of the empty buffer with the cursor at 0, as CTRL-L does it
    in [PasswordPrompt]: where the prompt leaves no column, the window is
    out of range and the slice panics before anything but the prompt is
    written. *)
Lemma refresh_empty (p : gostring) (s : State) :
  exists ops,
    after (refresh p [] 0 s) = emits s ops /\ Forall (discreet p) ops
    /\ (RuneCountInString (stripAnsiColorSequences p) < columns s ->
        exists e, refresh p [] 0 s = Ret e (emits s ops)).
Proof.
  set (pLen := RuneCountInString (stripAnsiColorSequences p)).
  destruct s as [ts to h c cols k o se tw]. cbn [columns].
  destruct se as [e|].
  - exists [CursorPos 0]. split; [reflexivity|]. split; [discreet_tac|].
    intros _. exists (Some e). reflexivity.
  - destruct (pLen + 0 <? cols) eqn:Fit.
    + exists [CursorPos 0; Print p; Print []; EraseLine; CursorPos (pLen + 0)].
      assert (E : refresh p [] 0 (mkState ts to h c cols k o None tw)
                  = Ret None (emits (mkState ts to h c cols k o None tw)
                                [CursorPos 0; Print p; Print []; EraseLine;
                                 CursorPos (pLen + 0)])).
      { cbv [refresh bind cursorPos eraseLine modify fmt_Print get ret emit emits
             stdoutErr terminalSupported terminalOutput history completer columns
             killRing out termWidth].
        change (RuneCountInString []) with 0. fold pLen. rewrite Fit.
        rewrite <- !app_assoc. reflexivity. }
      rewrite E. split; [reflexivity|].
      split; [discreet_tac|].
      intros _. exists None. reflexivity.
    + exists [CursorPos 0; Print p].
      split; [|split; [discreet_tac|intros L; lia]].
      set (space := cols - pLen - 1).
      assert (Hs : space <= -1) by (subst space; lia).
      cbv [refresh bind cursorPos eraseLine modify fmt_Print get ret emit emits
           stdoutErr terminalSupported terminalOutput history completer columns
           killRing out termWidth].
      change (RuneCountInString []) with 0. change (runes []) with (@nil rune).
      fold pLen. rewrite Fit. fold space.
      unfold check, slice, panic, after. change (len (@nil rune)) with 0.
      repeat match goal with
             | |- context [if ?c then _ else _] =>
               let H := fresh "C" in destruct c eqn:H
             end;
        cbv beta iota in *;
        first [rewrite <- !app_assoc; reflexivity
              |exfalso; Z.quot_rem_to_equations; lia].
Qed.

Lemma fmt_Print_either (x : gostring) (s : State) :
  exists e ops, fmt_Print x s = Ret e (emits s ops) /\ (ops = [] \/ ops = [Print x]).
Proof.
  unfold fmt_Print. destruct (stdoutErr s) as [e|].
  - exists (Some e), []. rewrite emits_nil. auto.
  - exists None, [Print x]. auto.
Qed.

Lemma after_cut (line : list rune) (i j : Z) (s : State) :
  after (cut line i j s) = s.
Proof.
  unfold cut, bind, check, ret, panic.
  destruct (slice line 0 i); [|reflexivity].
  destruct (slice line j (len line)); reflexivity.
Qed.

Lemma after_insertAt (line : list rune) (pos : Z) (v : rune) (s : State) :
  after (insertAt line pos v s) = s.
Proof.
  unfold insertAt, bind, check, ret, panic.
  destruct (slice line 0 pos); [|reflexivity].
  destruct (slice line pos (len line)); reflexivity.
Qed.

(** The rune before the cursor cut out, for a cursor at the end. *)
Lemma cut_last (line : list rune) (s : State) :
  0 < len line ->
  cut line (len line - 1) (len line) s = Ret (removelast line) s.
Proof.
  intros H. unfold cut, bind.
  rewrite slice_prefix by lia.
  destruct (slice_app line []) as [_ S2]. rewrite app_nil_r in S2. rewrite S2.
  unfold check, ret. rewrite app_nil_r, removelast_firstn_len.
  f_equal. f_equal. unfold len. lia.
Qed.

(** A rune put in at the cursor, for a cursor at the end. *)
Lemma insertAt_end (line : list rune) (v : rune) (s : State) :
  insertAt line (len line) v s = Ret (line ++ [v]) s.
Proof.
  unfold insertAt, bind.
  destruct (slice_app line []) as [S1 S2]. rewrite app_nil_r in S1, S2.
  rewrite S1, S2. reflexivity.
Qed.

Lemma len_removelast {A : Type} (l : list A) :
  0 < len l -> len (removelast l) = len l - 1.
Proof.
  intros H. unfold len in *. rewrite removelast_firstn_len, length_firstn. lia.
Qed.

(** One round of [PasswordPrompt] on a key that does not end the input,
    from a cursor at the end of the line. *)
Lemma password_round (p : gostring) (line : list rune) (s : State) (k : iface)
  (inp : list event) :
  RuneCountInString (stripAnsiColorSequences p) < columns s ->
  password_ends k = false ->
  exists ops,
    passwordLoop p line (len line) s (Key k :: inp)
    = passwordLoop p (password_key line k) (len (password_key line k))
        (emits s ops) inp.
Proof.
  intros W E. destruct k as [|n|v|a];
    try (exists []; rewrite emits_nil; reflexivity).
  unfold password_ends in E. cbn [is_rune] in E. cbn [passwordLoop password_key].
  replace ((v =? cr) || (v =? lf)) with false by lia.
  replace (v =? ctrlD) with false by lia.
  pose proof (len_nonneg line) as N.
  destruct (v =? ctrlL) eqn:L.
  { replace ((v =? ctrlH) || (v =? bs)) with false
      by (unfold ctrlL, ctrlH, bs in *; lia).
    replace (inb 0 31 v) with true by (unfold inb, ctrlL in *; lia).
    unfold run, bind, eraseScreen, modify.
    destruct (refresh_empty p (emit s EraseScreen)) as [ops [_ [_ H]]].
    destruct (H W) as [e H']. rewrite H'.
    exists ([EraseScreen] ++ ops). rewrite <- emits_emits. reflexivity. }
  destruct ((v =? ctrlH) || (v =? bs)) eqn:B.
  { destruct (len line <=? 0) eqn:Z0.
    - assert (line = []) by (apply len_zero; lia). subst line.
      unfold run. destruct (fmt_Print_either beep s) as [e [ops [H _]]].
      rewrite H. exists ops. reflexivity.
    - unfold run. rewrite cut_last by lia. rewrite len_removelast by lia.
      exists []. rewrite emits_nil. reflexivity. }
  destruct (passwordBeeps v) eqn:P.
  { replace (inb 0 31 v) with true
      by (unfold passwordBeeps, inb, esc, tab, ctrlA, ctrlB, ctrlE, ctrlF, ctrlG,
            ctrlK, ctrlN, ctrlO, ctrlP, ctrlQ, ctrlR, ctrlS, ctrlT, ctrlU, ctrlV,
            ctrlW, ctrlX, ctrlY, ctrlZ, ctrlC in *; lia).
    unfold run. destruct (fmt_Print_either beep s) as [e [ops [H _]]].
    rewrite H. exists ops. reflexivity. }
  replace (inb 0 31 v) with false
    by (unfold passwordBeeps, inb, esc, tab, ctrlA, ctrlB, ctrlE, ctrlF, ctrlG,
          ctrlK, ctrlN, ctrlO, ctrlP, ctrlQ, ctrlR, ctrlS, ctrlT, ctrlU, ctrlV,
          ctrlW, ctrlX, ctrlY, ctrlZ, ctrlC, cr, lf, ctrlD, ctrlL, ctrlH, bs in *;
        lia).
  unfold run. rewrite insertAt_end. rewrite len_app. change (len [v]) with 1.
  exists []. rewrite emits_nil. reflexivity.
Qed.

(** A call and what follows it, when both send discreet operations only. *)
Lemma run_discreet {A B : Type} (p : gostring) (m : M A) (s : State)
  (k : A -> State -> outcome B) :
  (exists ops, after (m s) = emits s ops /\ Forall (discreet p) ops) ->
  (forall a s1, exists ops,
     final (k a s1) = emits s1 ops /\ Forall (discreet p) ops) ->
  exists ops, final (run m s k) = emits s ops /\ Forall (discreet p) ops.
Proof.
  intros [ops1 [H1 F1]] K. unfold run.
  destruct (m s) as [a s1|s1]; cbn [after] in H1; subst s1.
  - destruct (K a (emits s ops1)) as [ops2 [H2 F2]].
    exists (ops1 ++ ops2). rewrite H2, emits_emits. split; [reflexivity|].
    apply Forall_app. auto.
  - exists ops1. auto.
Qed.

Lemma fmt_Print_discreet (p x : gostring) (s : State) :
  discreet p (Print x) ->
  exists ops, after (fmt_Print x s) = emits s ops /\ Forall (discreet p) ops.
Proof.
  intros D. destruct (fmt_Print_either x s) as [e [ops [H [-> | ->]]]];
    rewrite H; eexists; (split; [reflexivity|]); auto.
Qed.

Lemma still_discreet {A : Type} (p : gostring) (m : M A) (s : State) :
  after (m s) = s ->
  exists ops, after (m s) = emits s ops /\ Forall (discreet p) ops.
Proof. intros H. exists []. rewrite H, emits_nil. auto. Qed.

Lemma passwordLoop_discreet (p : gostring) (inp : list event) :
  forall (line : list rune) (pos : Z) (s : State),
  exists ops,
    final (passwordLoop p line pos s inp) = emits s ops
    /\ Forall (discreet p) ops.
Proof.
  assert (Stop : forall (o : gostring * option passwordError) s rest,
            exists ops, final (Done o s rest) = emits s ops
                        /\ Forall (discreet p) ops).
  { intros o s rest. exists []. rewrite emits_nil. auto. }
  assert (Beep : forall s, exists ops,
            after (fmt_Print beep s) = emits s ops /\ Forall (discreet p) ops).
  { intros s. apply fmt_Print_discreet. cbn. auto. }
  induction inp as [|[k|err] inp IH]; intros line pos s; cbn [passwordLoop].
  - exists []. rewrite emits_nil. auto.
  - destruct k as [|n|v|a]; try apply IH.
    destruct ((v =? cr) || (v =? lf)).
    { apply run_discreet; [apply fmt_Print_discreet; cbn; auto|].
      intros _ s1. apply Stop. }
    destruct (v =? ctrlD).
    { destruct ((pos =? 0) && (len line =? 0)); [apply Stop|].
      apply run_discreet; [|intros _ s1; apply IH].
      exists [StartPrompt]. split; [reflexivity|discreet_tac]. }
    destruct (v =? ctrlL).
    { apply run_discreet; [|intros _ s1; apply IH].
      unfold bind, eraseScreen, modify.
      destruct (refresh_empty p (emit s EraseScreen)) as [ops [H [F _]]].
      exists ([EraseScreen] ++ ops). rewrite <- emits_emits. split.
      - destruct (refresh p [] 0 (emit s EraseScreen)); exact H.
      - apply Forall_app. split; [discreet_tac|exact F]. }
    destruct ((v =? ctrlH) || (v =? bs)).
    { destruct (pos <=? 0).
      - apply run_discreet; [apply Beep|intros _ s1; apply IH].
      - apply run_discreet; [|intros line1 s1; apply IH].
        apply still_discreet, after_cut. }
    destruct (passwordBeeps v).
    { apply run_discreet; [apply Beep|intros _ s1; apply IH]. }
    apply run_discreet; [|intros line1 s1; apply IH].
    apply still_discreet, after_insertAt.
  - apply Stop.
Qed.

Lemma entered_emits (p : gostring) (s : State) :
  exists ops,
    entered p s = emits (set_columns s (termWidth s)) ops
    /\ Forall (discreet p) ops.
Proof.
  unfold entered, bind, startPrompt, getColumns, modify, fmt_Print.
  destruct s as [ts to h c cols k o se tw]. destruct se as [e|].
  - exists [StartPrompt; GetColumns]. split; [|discreet_tac].
    unfold after, emits, emit, set_columns. cbn. rewrite <- !app_assoc. reflexivity.
  - exists [StartPrompt; GetColumns; Print p]. split; [|discreet_tac].
    unfold after, emits, emit, set_columns. cbn. rewrite <- !app_assoc. reflexivity.
Qed.

Lemma entered_columns (p : gostring) (s : State) :
  columns (entered p s) = termWidth s.
Proof.
  destruct (entered_emits p s) as [ops [H _]]. rewrite H. reflexivity.
Qed.

Lemma slice_same_length {A : Type} (l l' : list A) (lo hi : Z) :
  len l = len l' ->
  match slice l lo hi, slice l' lo hi with
  | Some a, Some b => len a = len b
  | None, None => True
  | _, _ => False
  end.
Proof.
  intros E. unfold slice. rewrite <- E.
  destruct ((0 <=? lo) && (lo <=? hi) && (hi <=? len l)); [|exact I].
  unfold len in *. rewrite !length_firstn, !length_skipn. lia.
Qed.

Lemma cut_same_length (line line' : list rune) (i j : Z) (s : State) :
  len line = len line' ->
  match cut line i j s, cut line' i j s with
  | Ret a s1, Ret b s2 => len a = len b /\ s1 = s /\ s2 = s
  | Panic s1, Panic s2 => s1 = s /\ s2 = s
  | _, _ => False
  end.
Proof.
  intros E. unfold cut, bind, check, ret, panic. rewrite <- E.
  pose proof (slice_same_length line line' 0 i E) as H1.
  pose proof (slice_same_length line line' j (len line) E) as H2.
  destruct (slice line 0 i), (slice line' 0 i); try contradiction; [|auto].
  destruct (slice line j (len line)), (slice line' j (len line));
    try contradiction; [|auto].
  rewrite !len_app. auto with zarith.
Qed.

Lemma insertAt_same_length (line line' : list rune) (pos : Z) (v v' : rune)
  (s : State) :
  len line = len line' ->
  match insertAt line pos v s, insertAt line' pos v' s with
  | Ret a s1, Ret b s2 => len a = len b /\ s1 = s /\ s2 = s
  | Panic s1, Panic s2 => s1 = s /\ s2 = s
  | _, _ => False
  end.
Proof.
  intros E. unfold insertAt, bind, check, ret, panic. rewrite <- E.
  pose proof (slice_same_length line line' 0 pos E) as H1.
  pose proof (slice_same_length line line' pos (len line) E) as H2.
  destruct (slice line 0 pos), (slice line' 0 pos); try contradiction; [|auto].
  destruct (slice line pos (len line)), (slice line' pos (len line));
    try contradiction; [|auto].
  rewrite !len_app. change (len [v]) with 1. change (len [v']) with 1.
  auto with zarith.
Qed.

(** The state [PasswordPrompt] leaves is the same for two lines of the
    same length and for events that differ in the runes of the password
    only. *)
Lemma passwordLoop_masked (p : gostring) (inp : list event) :
  forall (line line' : list rune) (pos : Z) (s : State),
  len line = len line' ->
  final (passwordLoop p line pos s inp)
  = final (passwordLoop p line' pos s (map masked inp)).
Proof.
  induction inp as [|[k|err] inp IH]; intros line line' pos s E;
    cbn [map masked]; [reflexivity| |reflexivity].
  destruct k as [|n|v|a]; try (cbn [passwordLoop]; apply IH; exact E).
  destruct (password_rune v) eqn:P.
  - unfold password_rune in P. cbn [passwordLoop].
    replace ((v =? cr) || (v =? lf)) with false
      by (unfold inb, cr, lf, bs in *; lia).
    replace (v =? ctrlD) with false by (unfold inb, ctrlD, bs in *; lia).
    replace (v =? ctrlL) with false by (unfold inb, ctrlL, bs in *; lia).
    replace ((v =? ctrlH) || (v =? bs)) with false
      by (unfold inb, ctrlH, bs in *; lia).
    replace (passwordBeeps v) with false
      by (unfold passwordBeeps, inb, esc, tab, ctrlA, ctrlB, ctrlE, ctrlF, ctrlG,
            ctrlK, ctrlN, ctrlO, ctrlP, ctrlQ, ctrlR, ctrlS, ctrlT, ctrlU, ctrlV,
            ctrlW, ctrlX, ctrlY, ctrlZ, ctrlC, bs in *; lia).
    change ((42 =? cr) || (42 =? lf)) with false.
    change (42 =? ctrlD) with false. change (42 =? ctrlL) with false.
    change ((42 =? ctrlH) || (42 =? bs)) with false.
    change (passwordBeeps 42) with false. cbv beta iota.
    unfold run. pose proof (insertAt_same_length line line' pos v 42 s E) as H.
    destruct (insertAt line pos v s), (insertAt line' pos 42 s);
      try contradiction.
    + destruct H as [H [-> ->]]. apply IH. exact H.
    + destruct H as [-> ->]. reflexivity.
  - cbn [passwordLoop]. rewrite <- E.
    destruct ((v =? cr) || (v =? lf)).
    { unfold run. destruct (fmt_Print [lf] s); reflexivity. }
    destruct (v =? ctrlD).
    { destruct ((pos =? 0) && (len line =? 0)); [reflexivity|].
      unfold run, startPrompt, modify. apply IH. exact E. }
    destruct (v =? ctrlL).
    { unfold run. destruct ((eraseScreen ;;; refresh p [] 0) s); [|reflexivity].
      apply IH. exact E. }
    destruct ((v =? ctrlH) || (v =? bs)).
    { destruct (pos <=? 0).
      - unfold run. destruct (fmt_Print beep s); [|reflexivity]. apply IH. exact E.
      - unfold run. pose proof (cut_same_length line line' (pos - 1) pos s E) as H.
        destruct (cut line (pos - 1) pos s), (cut line' (pos - 1) pos s);
          try contradiction.
        + destruct H as [H [-> ->]]. apply IH. exact H.
        + destruct H as [-> ->]. reflexivity. }
    destruct (passwordBeeps v).
    { unfold run. destruct (fmt_Print beep s); [|reflexivity]. apply IH. exact E. }
    unfold run. pose proof (insertAt_same_length line line' pos v v s E) as H.
    destruct (insertAt line pos v s), (insertAt line' pos v s);
      try contradiction.
    + destruct H as [H [-> ->]]. apply IH. exact H.
    + destruct H as [-> ->]. reflexivity.
Qed.

Lemma password_rounds (p : gostring) (ks : list iface) :
  forall (line : list rune) (s : State) (inp : list event),
  RuneCountInString (stripAnsiColorSequences p) < columns s ->
  Forall (fun k => password_ends k = false) ks ->
  exists ops,
    passwordLoop p line (len line) s (map Key ks ++ inp)
    = passwordLoop p (fold_left password_key ks line)
        (len (fold_left password_key ks line)) (emits s ops) inp.
Proof.
  induction ks as [|k ks IH]; intros line s inp W F.
  - exists []. rewrite emits_nil. reflexivity.
  - inversion F as [|? ? Hk Hks]; subst. cbn [map app fold_left].
    destruct (password_round p line s k (map Key ks ++ inp) W Hk) as [ops1 H1].
    rewrite H1.
    destruct (IH (password_key line k) (emits s ops1) inp W Hks) as [ops2 H2].
    rewrite H2. exists (ops1 ++ ops2). rewrite emits_emits. reflexivity.
Qed.

(** [PasswordPrompt] returns what was typed: the runes that are no control
    codes in the order of their keys, less the rune before each backspace.
    The keys are those before the first CR or LF; CTRL-D is not among
    them, and the prompt is narrower than the terminal. *)
Theorem password_returns_typed (p : gostring) (s : State) (ks : list iface)
  (enter : rune) (rest : list event) :
  terminalOutput s = true -> terminalSupported s = true ->
  RuneCountInString (stripAnsiColorSequences p) < termWidth s ->
  Forall (fun k => password_ends k = false) ks ->
  enter = cr \/ enter = lf ->
  exists ops,
    PasswordPrompt p s (map Key ks ++ Key (Rune enter) :: rest)
    = Done (string_of_runes (fold_left password_key ks []), None)
           (emits (entered p s) ops) rest.
Proof.
  intros TO TS W F E. unfold PasswordPrompt. rewrite TO, TS. cbn [negb].
  unfold run. destruct (entered_Ret p s) as [e H]. rewrite H.
  destruct (password_rounds p ks [] (entered p s) (Key (Rune enter) :: rest))
    as [ops1 H1]; [rewrite entered_columns; exact W|exact F|].
  change 0 with (len (@nil rune)) at 1. rewrite H1. cbn [passwordLoop].
  replace ((enter =? cr) || (enter =? lf)) with true by lia.
  unfold run. destruct (fmt_Print_either [lf] (emits (entered p s) ops1))
    as [e2 [ops2 [H2 _]]].
  rewrite H2. exists (ops1 ++ ops2). rewrite emits_emits. reflexivity.
Qed.

Lemma password_returns_typed_witness :
  exists ops,
    PasswordPrompt (str "Password: ") (newState 80)
      (map Key [Rune 97; Rune 98; Rune bs; Action Act.left; Rune 99]
       ++ Key (Rune cr) :: [])
    = Done (str "ac", None) (emits (entered (str "Password: ") (newState 80)) ops) [].
Proof.
  apply (password_returns_typed (str "Password: ") (newState 80)
           [Rune 97; Rune 98; Rune bs; Action Act.left; Rune 99] cr []).
  - reflexivity.
  - reflexivity.
  - vm_compute. reflexivity.
  - repeat constructor.
  - left. reflexivity.
Defined.

(** [PasswordPrompt] sends no text to the terminal but the prompt, the
    newline, the bell and the empty string, whatever the keys, and it
    leaves the history, the kill ring and the completer alone. *)
Theorem password_is_discreet (p : gostring) (s : State) (inp : list event) :
  exists ops,
    out (final (PasswordPrompt p s inp)) = out s ++ ops
    /\ Forall (discreet p) ops
    /\ history (final (PasswordPrompt p s inp)) = history s
    /\ killRing (final (PasswordPrompt p s inp)) = killRing s
    /\ completer (final (PasswordPrompt p s inp)) = completer s.
Proof.
  unfold PasswordPrompt.
  destruct (terminalOutput s); cbn [negb];
    [|exists []; rewrite app_nil_r; cbn [final]; auto].
  destruct (terminalSupported s); cbn [negb];
    [|exists []; rewrite app_nil_r; cbn [final]; auto].
  unfold run. destruct (entered_Ret p s) as [e H]. rewrite H.
  destruct (entered_emits p s) as [ops1 [H1 F1]].
  destruct (passwordLoop_discreet p inp [] 0 (entered p s)) as [ops2 [H2 F2]].
  rewrite H2, H1, emits_emits. exists (ops1 ++ ops2).
  split; [reflexivity|]. split; [apply Forall_app; auto|]. auto.
Qed.

(** What [PasswordPrompt] does to the terminal does not depend on the
    runes of the password: with each of them replaced by an asterisk the
    state it leaves is the same. *)
Theorem password_output_masked (p : gostring) (s : State) (inp : list event) :
  final (PasswordPrompt p s inp) = final (PasswordPrompt p s (map masked inp)).
Proof.
  unfold PasswordPrompt.
  destruct (negb (terminalOutput s)); [reflexivity|].
  destruct (negb (terminalSupported s)); [reflexivity|].
  unfold run. destruct ((startPrompt ;;; getColumns ;;; fmt_Print p) s);
    [|reflexivity].
  apply passwordLoop_masked. reflexivity.
Qed.

Lemma passwordLoop_error (p : gostring) (inp : list event) :
  forall (line : list rune) (pos : Z) (s : State) (text : gostring)
         (e : passwordError) (s' : State) (rest : list event),
  passwordLoop p line pos s inp = Done (text, Some e) s' rest ->
  text = []
  /\ exists err, e = pwError err
                 /\ (In (Fail err) inp \/ err = io_EOF /\ In (Key (Rune ctrlD)) inp).
Proof.
  induction inp as [|[k|err] inp IH]; intros line pos s text e s' rest;
    cbn [passwordLoop]; [discriminate| |].
  - assert (Next : forall line pos s,
              passwordLoop p line pos s inp = Done (text, Some e) s' rest ->
              text = []
              /\ exists err, e = pwError err
                   /\ (In (Fail err) (Key k :: inp)
                       \/ err = io_EOF /\ In (Key (Rune ctrlD)) (Key k :: inp))).
    { intros line1 pos1 s1 H. destruct (IH _ _ _ _ _ _ _ H) as [-> [err [-> D]]].
      split; [reflexivity|]. exists err. split; [reflexivity|].
      destruct D as [D|[D1 D2]]; [left; right; exact D|right; split; [exact D1|right; exact D2]]. }
    assert (Run : forall (A : Type) (m : M A) s (f : A -> list rune) (g : Z),
              run m s (fun a s => passwordLoop p (f a) g s inp)
              = Done (text, Some e) s' rest ->
              text = []
              /\ exists err, e = pwError err
                   /\ (In (Fail err) (Key k :: inp)
                       \/ err = io_EOF /\ In (Key (Rune ctrlD)) (Key k :: inp))).
    { intros A m s1 f g. unfold run. destruct (m s1); [apply Next|discriminate]. }
    destruct k as [|n|v|a]; try apply Next.
    destruct ((v =? cr) || (v =? lf)).
    { unfold run. destruct (fmt_Print [lf] s); discriminate. }
    destruct (v =? ctrlD) eqn:D.
    { apply Z.eqb_eq in D. subst v.
      destruct ((pos =? 0) && (len line =? 0)).
      - intros H. injection H as <- <- _ _. split; [reflexivity|].
        exists io_EOF. split; [reflexivity|]. right. split; [reflexivity|].
        left. reflexivity.
      - apply (Run unit startPrompt s (fun _ => line) pos). }
    destruct (v =? ctrlL).
    { apply (Run (option error) (eraseScreen ;;; refresh p [] 0) s (fun _ => line) pos). }
    destruct ((v =? ctrlH) || (v =? bs)).
    { destruct (pos <=? 0).
      - apply (Run (option error) (fmt_Print beep) s (fun _ => line) pos).
      - apply (Run (list rune) (cut line (pos - 1) pos) s (fun x => x) (pos - 1)). }
    destruct (passwordBeeps v).
    { apply (Run (option error) (fmt_Print beep) s (fun _ => line) pos). }
    apply (Run (list rune) (insertAt line pos v) s (fun x => x) (pos + 1)).
  - intros H. injection H as <- <- _ _. split; [reflexivity|].
    exists err. split; [reflexivity|]. left. left. reflexivity.
Qed.

(** When [PasswordPrompt] returns an error, the string it returns is
    empty, and the error is: that standard output is no terminal; that
    the terminal does not support line editing; an error that [readNext]
    reported; or [io.EOF], after a CTRL-D. *)
Theorem password_error_empty (p : gostring) (s : State) (inp : list event)
  (text : gostring) (e : passwordError) (s' : State) (rest : list event) :
  PasswordPrompt p s inp = Done (text, Some e) s' rest ->
  text = []
  /\ match e with
     | errNotSupported => terminalOutput s = true /\ terminalSupported s = false
     | pwError err =>
       (err = errNotTerminalOutput /\ terminalOutput s = false)
       \/ In (Fail err) inp
       \/ (err = io_EOF /\ In (Key (Rune ctrlD)) inp)
     end.
Proof.
  unfold PasswordPrompt. destruct (terminalOutput s); cbn [negb].
  - destruct (terminalSupported s); cbn [negb].
    + unfold run. destruct ((startPrompt ;;; getColumns ;;; fmt_Print p) s);
        [|discriminate].
      intros H. destruct (passwordLoop_error _ _ _ _ _ _ _ _ _ H)
        as [-> [err [-> D]]].
      split; [reflexivity|]. right. exact D.
    + intros H. injection H as <- <- _ _. auto.
  - intros H. injection H as <- <- _ _. auto.
Qed.

Lemma password_error_empty_witness :
  [] = @nil byte
  /\ ((io_EOF = errNotTerminalOutput /\ terminalOutput (newState 80) = false)
      \/ In (Fail io_EOF) [Key (Rune 97); Key (Rune bs); Key (Rune ctrlD)]
      \/ (io_EOF = io_EOF
          /\ In (Key (Rune ctrlD)) [Key (Rune 97); Key (Rune bs); Key (Rune ctrlD)])).
Proof.
  apply (password_error_empty (str "Password: ") (newState 80)
           [Key (Rune 97); Key (Rune bs); Key (Rune ctrlD)] [] (pwError io_EOF)
           (emits (set_columns (newState 80) 80)
              [StartPrompt; GetColumns; Print (str "Password: ")]) []).
  vm_compute. reflexivity.
Defined.

(** ** Typing and erasing at the prompt *)

Lemma insertAt_inserted (line : list rune) (pos : Z) (v : rune) (s : State) :
  0 <= pos <= len line ->
  insertAt line pos v s = Ret (inserted line pos v) s.
Proof.
  intros H. unfold insertAt, bind.
  rewrite slice_prefix, slice_suffix by lia. reflexivity.
Qed.

Lemma inserted_end (line : list rune) (v : rune) :
  inserted line (len line) v = line ++ [v].
Proof.
  unfold inserted, len. rewrite Nat2Z.id, firstn_all, skipn_all. reflexivity.
Qed.

Ltac not_control v :=
  unfold inserts, beeps, inb, cr, lf, ctrlA, ctrlB, ctrlC, ctrlD, ctrlE, ctrlF,
    ctrlG, ctrlH, tab, ctrlK, ctrlL, ctrlN, ctrlO, ctrlP, ctrlQ, ctrlR, ctrlS,
    ctrlT, ctrlU, ctrlV, ctrlW, ctrlX, ctrlY, ctrlZ, esc, bs in *; lia.

(** The switch on a rune that is no control code: the rune goes in at the
    cursor, which moves past it. *)
Lemma dispatchRune_inserts (p : gostring) (v : rune) (l : Loop.locals) (s : State) :
  inserts v = true -> roomy p s ->
  0 <= Loop.pos l <= len (Loop.line l) ->
  exists ops,
    dispatchRune p v l s
    = Ret (Continue (Loop.set_pos
                       (Loop.set_line l (inserted (Loop.line l) (Loop.pos l) v))
                       (Loop.pos l + 1)))
          (emits s ops).
Proof.
  intros I R B. unfold dispatchRune.
  replace ((v =? cr) || (v =? lf)) with false by not_control v.
  replace (v =? ctrlA) with false by not_control v.
  replace (v =? ctrlE) with false by not_control v.
  replace (v =? ctrlB) with false by not_control v.
  replace (v =? ctrlF) with false by not_control v.
  replace (v =? ctrlD) with false by not_control v.
  replace (v =? ctrlK) with false by not_control v.
  replace (v =? ctrlP) with false by not_control v.
  replace (v =? ctrlN) with false by not_control v.
  replace (v =? ctrlT) with false by not_control v.
  replace (v =? ctrlL) with false by not_control v.
  replace ((v =? ctrlH) || (v =? bs)) with false by not_control v.
  replace (v =? ctrlU) with false by not_control v.
  replace (v =? ctrlW) with false by not_control v.
  replace (v =? esc) with false by not_control v.
  replace (beeps v) with false by not_control v.
  cbv beta iota zeta. unfold bind at 1, get at 1.
  destruct ((Loop.pos l =? len (Loop.line l))
            && (len p + len (Loop.line l) <? columns s - 1)) eqn:Fast.
  - unfold bind. destruct (fmt_Print_returns (EncodeRune v) s) as [e [ops H]].
    rewrite H. exists ops. unfold ret.
    assert (E : len (Loop.line l) = Loop.pos l) by lia.
    rewrite <- inserted_end, E. reflexivity.
  - unfold bind at 1. rewrite insertAt_inserted by exact B.
    unfold bind.
    match goal with |- context [redraw p ?l' ?s'] =>
      destruct (redraw_returns p l' s' R) as [ops H]; rewrite H
    end.
    exists ops. reflexivity.
Qed.

(** A round of the main loop on such a rune. *)
Lemma round_inserts (p : gostring) (v : rune) (l : Loop.locals) (s : State)
  (inp : list event) :
  inserts v = true -> roomy p s ->
  0 <= Loop.pos l <= len (Loop.line l) ->
  exists l' ops,
    iteration p l s (Key (Rune v) :: inp) = Done (Continue l') (emits s ops) inp
    /\ Loop.line l' = inserted (Loop.line l) (Loop.pos l) v
    /\ Loop.pos l' = Loop.pos l + 1.
Proof.
  intros I R B.
  rewrite iteration_plain by (cbn [is_rune]; not_control v).
  unfold run, dispatched, bind. cbn [dispatch].
  destruct (dispatchRune_inserts p v (Loop.set_historyAction l false) s I R)
    as [ops H]; [destruct l; exact B|].
  rewrite H.
  match goal with |- context [bottom ?l1 ?s1] =>
    destruct (bottom_latch l1 s1) as [l2 [E [B1 [B2 _]]]]; rewrite E
  end.
  unfold ret. exists l2, ops. split; [reflexivity|].
  rewrite B1, B2. destruct l. split; reflexivity.
Qed.

Lemma len_inserted (line : list rune) (pos : Z) (v : rune) :
  0 <= pos <= len line -> len (inserted line pos v) = len line + 1.
Proof.
  intros H. unfold inserted, len in *.
  rewrite !length_app, length_firstn, length_skipn. cbn [length]. lia.
Qed.

(** Runes typed at the end of the line, and then CR or LF. *)
Lemma typing_mainLoop (p : gostring) (enter : rune) (rest : list event)
  (rs : list rune) :
  enter = cr \/ enter = lf ->
  forall (fuel : nat) (l : Loop.locals) (s : State),
  (length rs < fuel)%nat -> roomy p s ->
  Loop.pos l = len (Loop.line l) ->
  Forall (fun v => inserts v = true) rs ->
  exists ops,
    mainLoop fuel p l s (map (fun v => Key (Rune v)) rs ++ Key (Rune enter) :: rest)
    = Some (Done (string_of_runes (Loop.line l ++ rs), None) (emits s ops) rest).
Proof.
  intros E. induction rs as [|v rs IH]; intros fuel l s L R P F.
  - destruct fuel as [|fuel]; [cbn [length] in L; lia|].
    cbn [mainLoop map app].
    rewrite iteration_plain
      by (cbn [is_rune]; destruct E; subst enter; reflexivity).
    unfold run, dispatched, bind. cbn [dispatch]. unfold dispatchRune.
    replace ((enter =? cr) || (enter =? lf)) with true by lia.
    unfold bind. destruct (fmt_Print_returns [lf] s) as [e [ops H]]. rewrite H.
    unfold ret. exists ops. rewrite app_nil_r. destruct l. reflexivity.
  - destruct fuel as [|fuel]; [cbn [length] in L; lia|].
    inversion F as [|? ? Hv Hrs]; subst.
    cbn [mainLoop map app].
    pose proof (len_nonneg (Loop.line l)) as N.
    destruct (round_inserts p v l s
                (map (fun v => Key (Rune v)) rs ++ Key (Rune enter) :: rest) Hv R)
      as [l' [ops1 [H [H1 H2]]]]; [lia|].
    rewrite H.
    destruct (IH fuel l' (emits s ops1)) as [ops2 H']; try assumption.
    + cbn [length] in L. lia.
    + rewrite H1, H2, len_inserted by lia. lia.
    + rewrite H'. exists (ops1 ++ ops2). rewrite emits_emits.
      rewrite H1, P, inserted_end, <- app_assoc. reflexivity.
Qed.

(** [Prompt] returns what was typed: runes that are no control codes, one
    after the other, and then CR or LF, on a terminal that leaves two
    columns or more after the prompt and the cursor. *)
Theorem prompt_returns_typed
  (fb : gostring -> State -> list event -> outcome (gostring * option error))
  (p : gostring) (s : State) (rs : list rune) (enter : rune) (rest : list event) :
  terminalOutput s = true -> terminalSupported s = true ->
  2 <= termWidth s - RuneCountInString (stripAnsiColorSequences p) - 1 ->
  Forall (fun v => inserts v = true) rs ->
  enter = cr \/ enter = lf ->
  exists ops,
    Prompt fb p s (map (fun v => Key (Rune v)) rs ++ Key (Rune enter) :: rest)
    = Some (Done (string_of_runes rs, None) (emits (entered p s) ops) rest).
Proof.
  intros TO TS W F E. unfold Prompt. rewrite TO, TS. cbn [negb].
  destruct (entered_Ret p s) as [e H]. rewrite H.
  apply (typing_mainLoop p enter rest rs E _ (initial (entered p s)) (entered p s)).
  - rewrite length_app, length_map. cbn [length]. lia.
  - unfold roomy. rewrite entered_columns. exact W.
  - reflexivity.
  - exact F.
Qed.

Lemma prompt_returns_typed_witness :
  exists ops,
    Prompt noFallback (str "> ") (newState 80)
      (map (fun v => Key (Rune v)) (runes (str "ls -l")) ++ Key (Rune cr) :: [])
    = Some (Done (str "ls -l", None) (emits (entered (str "> ") (newState 80)) ops) []).
Proof.
  apply (prompt_returns_typed noFallback (str "> ") (newState 80)
           (runes (str "ls -l")) cr []).
  - reflexivity.
  - reflexivity.
  - vm_compute. discriminate.
  - repeat constructor.
  - left. reflexivity.
Defined.

Lemma cut_erased (line : list rune) (pos : Z) (s : State) :
  0 < pos <= len line -> cut line (pos - 1) pos s = Ret (erased line pos) s.
Proof.
  intros H. unfold cut, bind.
  rewrite slice_prefix, slice_suffix by lia. reflexivity.
Qed.

Lemma erased_inserted (line : list rune) (pos : Z) (v : rune) :
  0 <= pos <= len line -> erased (inserted line pos v) (pos + 1) = line.
Proof.
  intros H. unfold erased, inserted.
  replace (pos + 1 - 1) with pos by lia.
  assert (L : length (firstn (Z.to_nat pos) line) = Z.to_nat pos)
    by (rewrite length_firstn; unfold len in H; lia).
  rewrite firstn_app, L, Nat.sub_diag, firstn_O, app_nil_r.
  rewrite firstn_firstn, Nat.min_id.
  rewrite skipn_app, L.
  replace (Z.to_nat (pos + 1) - Z.to_nat pos)%nat with 1%nat by lia.
  rewrite (skipn_all2 (firstn (Z.to_nat pos) line)) by lia.
  cbn [app skipn]. apply firstn_skipn.
Qed.

(** Backspace, CTRL-H or DEL, with a rune before the cursor. *)
Lemma dispatchRune_backspace (p : gostring) (v : rune) (l : Loop.locals) (s : State) :
  v = ctrlH \/ v = bs -> roomy p s ->
  0 < Loop.pos l <= len (Loop.line l) ->
  exists ops,
    dispatchRune p v l s
    = Ret (Continue (Loop.set_pos
                       (Loop.set_line l (erased (Loop.line l) (Loop.pos l)))
                       (Loop.pos l - 1)))
          (emits s ops).
Proof.
  intros V R B.
  assert (E : dispatchRune p v l s
              = (if Loop.pos l <=? 0 then fmt_Print beep ;;; ret (Continue l)
                 else line <- cut (Loop.line l) (Loop.pos l - 1) (Loop.pos l) ;;
                      redraw p (Loop.set_pos (Loop.set_line l line) (Loop.pos l - 1)) ;;;
                      ret (Continue (Loop.set_pos (Loop.set_line l line)
                                       (Loop.pos l - 1)))) s)
    by (destruct V; subst v; reflexivity).
  rewrite E. replace (Loop.pos l <=? 0) with false by lia.
  unfold bind at 1. rewrite cut_erased by exact B. unfold bind.
  match goal with |- context [redraw p ?l' ?s'] =>
    destruct (redraw_returns p l' s' R) as [ops H]; rewrite H
  end.
  exists ops. reflexivity.
Qed.

Lemma round_backspace (p : gostring) (v : rune) (l : Loop.locals) (s : State)
  (inp : list event) :
  v = ctrlH \/ v = bs -> roomy p s ->
  0 < Loop.pos l <= len (Loop.line l) ->
  exists l' ops,
    iteration p l s (Key (Rune v) :: inp) = Done (Continue l') (emits s ops) inp
    /\ Loop.line l' = erased (Loop.line l) (Loop.pos l)
    /\ Loop.pos l' = Loop.pos l - 1.
Proof.
  intros V R B.
  rewrite iteration_plain by (destruct V; subst v; reflexivity).
  unfold run, dispatched, bind. cbn [dispatch].
  destruct (dispatchRune_backspace p v (Loop.set_historyAction l false) s V R)
    as [ops H]; [destruct l; exact B|].
  rewrite H.
  match goal with |- context [bottom ?l1 ?s1] =>
    destruct (bottom_latch l1 s1) as [l2 [E [B1 [B2 _]]]]; rewrite E
  end.
  unfold ret. exists l2, ops. split; [reflexivity|].
  rewrite B1, B2. destruct l. split; reflexivity.
Qed.

(** A rune typed and then a backspace: line and cursor are what they
    were, wherever the cursor is in the line. *)
Theorem type_then_backspace (p : gostring) (v erase : rune) (l : Loop.locals)
  (s : State) (inp : list event) :
  inserts v = true -> erase = ctrlH \/ erase = bs -> roomy p s ->
  0 <= Loop.pos l <= len (Loop.line l) ->
  exists l' ops,
    reaches p (l, s, Key (Rune v) :: Key (Rune erase) :: inp) (l', emits s ops, inp)
    /\ Loop.line l' = Loop.line l /\ Loop.pos l' = Loop.pos l.
Proof.
  intros I V R B.
  destruct (round_inserts p v l s (Key (Rune erase) :: inp) I R B)
    as [l1 [ops1 [H1 [L1 P1]]]].
  destruct (round_backspace p erase l1 (emits s ops1) inp V R)
    as [l2 [ops2 [H2 [L2 P2]]]].
  { rewrite L1, P1, len_inserted by exact B. lia. }
  exists l2, (ops1 ++ ops2). rewrite <- emits_emits. split.
  - eapply reaches_round; [exact H1|].
    eapply reaches_round; [exact H2|apply reaches_here].
  - rewrite L2, P2, L1, P1, erased_inserted by exact B. split; [reflexivity|lia].
Qed.

Lemma type_then_backspace_witness :
  exists l' ops,
    reaches (str "> ") (Loop.mk [97; 98] 1 [] [] 0 false 0, newState 80,
                        [Key (Rune 120); Key (Rune bs)])
      (l', emits (newState 80) ops, [])
    /\ Loop.line l' = [97; 98] /\ Loop.pos l' = 1.
Proof.
  apply (type_then_backspace (str "> ") 120 bs (Loop.mk [97; 98] 1 [] [] 0 false 0)
           (newState 80) []).
  - reflexivity.
  - right. reflexivity.
  - unfold roomy. vm_compute. discriminate.
  - vm_compute. split; discriminate.
Defined.

(** ** Yanking *)

Lemma ring_Prev_nonempty (r : Ring) : r <> [] -> ring_Prev r <> [].
Proof. destruct r; [congruence|discriminate]. Qed.

Lemma ring_Value_filled (r : Ring) :
  r <> [] -> filled r -> ring_Value r = Some (ring_text r).
Proof.
  intros N F. unfold ring_text. destruct r as [|[v|] r]; [congruence|reflexivity|].
  inversion F; congruence.
Qed.

Lemma iter_ring_Prev_ok (n : nat) (r : Ring) :
  r <> [] -> filled r ->
  Nat.iter n ring_Prev r <> [] /\ filled (Nat.iter n ring_Prev r).
Proof.
  intros N F. induction n as [|n [IH1 IH2]]; [auto|].
  cbn [Nat.iter]. split; [apply ring_Prev_nonempty|apply ring_Prev_filled]; assumption.
Qed.

(** The loop of [yank] on ALT-Y pressed [n] times and then a key that
    leaves: the text [n] nodes back is in the line. *)
Lemma yank_loop_rotates (again : bool) (p : gostring) (ls le : list rune)
  (k : iface) (inp : list event) (n : nat) :
  leaves_yank k = true -> again && is_rune k ctrlY = false ->
  forall s : State,
  roomy p s -> killRing s <> [] -> filled (killRing s) ->
  exists ops,
    yank_loop again p ls le s
      (map Key (repeat (Action Act.altY) n) ++ Key k :: inp)
    = Done (ls ++ ring_text (Nat.iter n ring_Prev (killRing s)) ++ le,
            len ls + len (ring_text (Nat.iter n ring_Prev (killRing s))), k, None)
           (emits (set_killRing s (Nat.iter n ring_Prev (killRing s))) ops) inp.
Proof.
  intros K A.
  assert (Shown : forall s : State, roomy p s -> killRing s <> [] ->
            filled (killRing s) ->
            exists ops,
              (s0 <- get ;;
               value <- check (ring_Value (killRing s0)) ;;
               refresh p (string_of_runes (ls ++ value ++ le))
                 (len ls + len value) ;;;
               ret (ls ++ value ++ le, len ls + len value)) s
              = Ret (ls ++ ring_text (killRing s) ++ le,
                     len ls + len (ring_text (killRing s))) (emits s ops)).
  { intros s R N F. unfold bind at 1, get at 1. unfold bind at 1.
    rewrite (ring_Value_filled _ N F). unfold check at 1, ret at 1.
    unfold bind.
    match goal with |- context [refresh ?a ?b ?c ?d] =>
      destruct (refresh_returns a b c d R) as [e [ops H]];
        replace (refresh a b c d) with (Ret e (emits s ops)) by (symmetry; exact H)
    end.
    exists ops. reflexivity. }
  induction n as [|n IH]; intros s R N F.
  - cbn [repeat map app Nat.iter].
    destruct (Shown s R N F) as [ops H].
    destruct k as [|m|v|a]; try discriminate.
    + cbn [yank_loop]. unfold run. rewrite H. cbn [is_rune] in A.
      rewrite A. cbn [andb]. exists ops. destruct s; reflexivity.
    + destruct a; try discriminate; cbn [yank_loop]; unfold run; rewrite H;
        exists ops; destruct s; reflexivity.
  - cbn [repeat map app]. destruct (Shown s R N F) as [ops1 H].
    cbn [yank_loop]. unfold run at 1. rewrite H.
    destruct (IH (set_killRing (emits s ops1) (ring_Prev (killRing (emits s ops1)))))
      as [ops2 H2].
    + exact R.
    + apply ring_Prev_nonempty. exact N.
    + apply ring_Prev_filled. exact F.
    + rewrite H2. exists (ops1 ++ ops2).
      rewrite Nat.iter_succ_r.
      destruct s; unfold emits, set_killRing; cbn; rewrite <- app_assoc; reflexivity.
Qed.

Lemma split_at (text : list rune) (pos : Z) (s : State) :
  0 <= pos <= len text ->
  split text pos s
  = Ret (firstn (Z.to_nat pos) text, skipn (Z.to_nat pos) text) s.
Proof.
  intros H. unfold split, bind.
  rewrite slice_prefix, slice_suffix by lia. reflexivity.
Qed.

Lemma len_firstn (text : list rune) (pos : Z) :
  0 <= pos <= len text -> len (firstn (Z.to_nat pos) text) = pos.
Proof. intros H. unfold len in *. rewrite length_firstn. lia. Qed.

(** ALT-Y as often as the ring has nodes brings the pointer back. *)
Lemma ring_Prev_snoc (a : Ring) (x : option (list rune)) :
  ring_Prev (a ++ [x]) = x :: a.
Proof.
  unfold ring_Prev. destruct (a ++ [x]) eqn:E; [destruct a; discriminate|].
  rewrite <- E, last_last, removelast_last. reflexivity.
Qed.

Lemma iter_ring_Prev_app (b a : Ring) :
  Nat.iter (length b) ring_Prev (a ++ b) = b ++ a.
Proof.
  revert a. induction b as [|x b IH] using rev_ind; intros a.
  - rewrite app_nil_r. reflexivity.
  - rewrite length_app. cbn [length]. rewrite Nat.add_1_r, Nat.iter_succ_r.
    rewrite app_assoc, ring_Prev_snoc.
    change (x :: a ++ b) with ((x :: a) ++ b). rewrite IH, <- app_assoc.
    reflexivity.
Qed.

Lemma iter_ring_Prev_length (r : Ring) : Nat.iter (length r) ring_Prev r = r.
Proof.
  rewrite <- (app_nil_l r) at 2. rewrite iter_ring_Prev_app. apply app_nil_r.
Qed.

(** [yank] puts the text at the pointer of the kill ring into the line at
    the cursor and leaves the cursor after it; every ALT-Y before the key
    that ends the yank moves the pointer one node back and shows the text
    there instead.  The key that ends it is handed back. *)
Theorem yank_puts_text (p : gostring) (text : list rune) (pos : Z) (s : State)
  (n : nat) (k : iface) (inp : list event) :
  roomy p s -> killRing s <> [] -> filled (killRing s) ->
  0 <= pos <= len text -> leaves_yank k = true ->
  exists ops,
    yank p text pos s (map Key (repeat (Action Act.altY) n) ++ Key k :: inp)
    = Done (yanked text pos (ring_text (Nat.iter n ring_Prev (killRing s))),
            pos + len (ring_text (Nat.iter n ring_Prev (killRing s))), k, None)
           (emits (set_killRing s (Nat.iter n ring_Prev (killRing s))) ops) inp.
Proof.
  intros R N F B K. unfold yank, run. rewrite split_at by exact B.
  destruct (yank_loop_rotates false p (firstn (Z.to_nat pos) text)
              (skipn (Z.to_nat pos) text) k inp n K eq_refl s R N F) as [ops H].
  rewrite H, len_firstn by exact B. exists ops. reflexivity.
Qed.

Lemma yank_puts_text_witness :
  exists ops,
    yank (str "> ") [97; 98] 1 (set_killRing (newState 80) [Some [120]; Some [121]])
      (map Key (repeat (Action Act.altY) 1) ++ Key (Rune 99) :: [])
    = Done ([97; 121; 98], 2, Rune 99, None)
           (emits (set_killRing (newState 80) [Some [121]; Some [120]]) ops) [].
Proof.
  apply (yank_puts_text (str "> ") [97; 98] 1
           (set_killRing (newState 80) [Some [120]; Some [121]]) 1 (Rune 99) []).
  - unfold roomy. vm_compute. discriminate.
  - discriminate.
  - repeat constructor; discriminate.
  - vm_compute. split; discriminate.
  - reflexivity.
Defined.

(** ALT-Y pressed as often as the kill ring has nodes shows the text the
    yank began with, and leaves the ring as it was. *)
Theorem yank_full_circle (p : gostring) (text : list rune) (pos : Z) (s : State)
  (k : iface) (inp : list event) :
  roomy p s -> killRing s <> [] -> filled (killRing s) ->
  0 <= pos <= len text -> leaves_yank k = true ->
  exists ops,
    yank p text pos s
      (map Key (repeat (Action Act.altY) (length (killRing s))) ++ Key k :: inp)
    = Done (yanked text pos (ring_text (killRing s)),
            pos + len (ring_text (killRing s)), k, None) (emits s ops) inp.
Proof.
  intros R N F B K.
  destruct (yank_loop_rotates false p (firstn (Z.to_nat pos) text)
              (skipn (Z.to_nat pos) text) k inp (length (killRing s)) K eq_refl
              s R N F) as [ops H].
  unfold yank, run. rewrite split_at by exact B.
  rewrite H, iter_ring_Prev_length, len_firstn by exact B.
  exists ops. destruct s; reflexivity.
Qed.

Lemma yank_full_circle_witness :
  exists ops,
    yank (str "> ") [97; 98] 1 (set_killRing (newState 80) [Some [120]; Some [121]])
      (map Key (repeat (Action Act.altY) 2) ++ Key (Rune 99) :: [])
    = Done ([97; 120; 98], 2, Rune 99, None)
           (emits (set_killRing (newState 80) [Some [120]; Some [121]]) ops) [].
Proof.
  apply (yank_full_circle (str "> ") [97; 98] 1
           (set_killRing (newState 80) [Some [120]; Some [121]]) (Rune 99) []).
  - unfold roomy. vm_compute. discriminate.
  - discriminate.
  - repeat constructor; discriminate.
  - vm_compute. split; discriminate.
  - reflexivity.
Defined.

(** ** Erasing a word *)

Lemma firstn_len_app {A : Type} (a b : list A) :
  firstn (Z.to_nat (len a)) (a ++ b) = a.
Proof.
  unfold len. rewrite Nat2Z.id, firstn_app, Nat.sub_diag, firstn_all.
  cbn [firstn]. apply app_nil_r.
Qed.

Lemma skipn_len_app {A : Type} (a b : list A) :
  skipn (Z.to_nat (len a)) (a ++ b) = b.
Proof.
  unfold len. rewrite Nat2Z.id, skipn_app, Nat.sub_diag, skipn_all. reflexivity.
Qed.

Lemma index_snoc {A : Type} (a b : list A) (c : A) :
  index ((a ++ [c]) ++ b) (len (a ++ [c]) - 1) = Some c.
Proof.
  rewrite <- app_assoc. unfold index. rewrite !len_app. change (len [c]) with 1.
  pose proof (len_nonneg a). pose proof (len_nonneg b).
  replace ((0 <=? len a + 1 - 1) && (len a + 1 - 1 <? len a + (1 + len b)))
    with true by lia.
  replace (len a + 1 - 1) with (len a) by lia.
  unfold len. rewrite Nat2Z.id, nth_error_app2, Nat.sub_diag by lia. reflexivity.
Qed.

Lemma cut_snoc (a b : list rune) (c : rune) (s : State) :
  cut ((a ++ [c]) ++ b) (len (a ++ [c]) - 1) (len (a ++ [c])) s = Ret (a ++ b) s.
Proof.
  rewrite cut_erased.
  - unfold erased. rewrite skipn_len_app.
    replace (len (a ++ [c]) - 1) with (len a)
      by (rewrite len_app; change (len [c]) with 1; lia).
    rewrite <- app_assoc, firstn_len_app. reflexivity.
  - rewrite !len_app. change (len [c]) with 1.
    pose proof (len_nonneg a). pose proof (len_nonneg b). lia.
Qed.

(** What one loop of CTRL-W does, for the runes [a] before the cursor and
    [b] from the cursor on: it takes the longest end [m] of [a] on which
    [stop] does not hold from the line to [buf], last rune first. *)
Lemma erase_loop_spec (stop : rune -> bool) (b : list rune) (s : State)
  (a : list rune) :
  forall (fuel : nat) (buf : list rune),
  (length a < fuel)%nat ->
  exists a' m,
    a = a' ++ m
    /\ Forall (fun c => stop c = false) m
    /\ (a' = [] \/ exists a'' c, a' = a'' ++ [c] /\ stop c = true)
    /\ erase_loop stop fuel (a ++ b) (len a) buf s
       = Ret (a' ++ b, len a', buf ++ rev m) s.
Proof.
  induction a as [|c a IH] using rev_ind; intros fuel buf L.
  - exists [], []. destruct fuel as [|fuel]; [lia|].
    repeat split; auto. rewrite app_nil_r. reflexivity.
  - destruct fuel as [|fuel]; [lia|]. cbn [erase_loop].
    replace (len (a ++ [c]) =? 0) with false
      by (rewrite len_app; change (len [c]) with 1; pose proof (len_nonneg a); lia).
    unfold bind at 1. rewrite index_snoc.
    unfold check at 1, ret at 1.
    destruct (stop c) eqn:Sc.
    + exists (a ++ [c]), []. rewrite !app_nil_r. repeat split; auto.
      right. exists a, c. auto.
    + unfold bind. rewrite cut_snoc.
      replace (len (a ++ [c]) - 1) with (len a)
        by (rewrite len_app; change (len [c]) with 1; lia).
      destruct (IH fuel (buf ++ [c])) as [a' [m [E [F [T H]]]]].
      { rewrite length_app in L. cbn [length] in L. lia. }
      rewrite H. exists a', (m ++ [c]). split; [|split; [|split]].
      * rewrite E, app_assoc. reflexivity.
      * apply Forall_app. auto.
      * exact T.
      * rewrite rev_app_distr, <- app_assoc. reflexivity.
Qed.

(** CTRL-W with runes before the cursor: of the runes [a] before the
    cursor it takes the white space [m1] at the end and the word [m2]
    before that, and hands the two, as they stood in the line, to the
    ring. *)
Lemma dispatchRune_ctrlW (p : gostring) (l : Loop.locals) (s : State)
  (a b : list rune) :
  roomy p s -> filled (killRing s) ->
  Loop.line l = a ++ b -> Loop.pos l = len a -> a <> [] ->
  exists a2 m2 m1 ops,
    a = a2 ++ m2 ++ m1
    /\ Forall (fun c => IsSpace c = true) m1
    /\ Forall (fun c => IsSpace c = false) m2
    /\ (a2 = [] \/ exists a3 c, a2 = a3 ++ [c] /\ IsSpace c = true)
    /\ (m2 = [] -> a2 = [])
    /\ dispatchRune p ctrlW l s
       = Ret (Continue (Loop.set_pos
                          (Loop.set_line (Loop.set_killAction l 2) (a2 ++ b))
                          (len a2)))
             (emits (set_killRing s
                       (killed (Loop.killAction l) (killRing s) (m2 ++ m1) 2))
                ops).
Proof.
  intros R F Hl Hp Ha. unfold dispatchRune.
  cbn [Z.eqb ctrlW ctrlU ctrlK ctrlP ctrlN ctrlT ctrlL ctrlH bs cr lf ctrlA ctrlE
       ctrlB ctrlF ctrlD Pos.eqb orb].
  rewrite Hl, Hp.
  replace (len a =? 0) with false
    by (symmetry; apply Z.eqb_neq; intros E; apply len_zero in E; auto).
  destruct (erase_loop_spec (fun c => negb (IsSpace c)) b s a
              (S (Z.to_nat (len a))) []) as [a1 [m1 [E1 [F1 [T1 H1]]]]];
    [unfold len; lia|].
  destruct (erase_loop_spec IsSpace b s a1
              (S (Z.to_nat (len a1))) ([] ++ rev m1)) as [a2 [m2 [E2 [F2 [T2 H2]]]]];
    [unfold len; lia|].
  unfold bind at 1. rewrite H1. unfold bind at 1. rewrite H2.
  unfold bind at 1. rewrite kill_killed by auto.
  unfold bind.
  match goal with |- context [redraw p ?l' ?s'] =>
    destruct (redraw_returns p l' s' R) as [ops H]; rewrite H
  end.
  exists a2, m2, m1, ops. split; [|split; [|split; [|split; [|split]]]].
  - rewrite E1, E2, <- app_assoc. reflexivity.
  - eapply Forall_impl; [|exact F1]. cbv beta. intros c Hc.
    destruct (IsSpace c); [reflexivity|discriminate].
  - exact F2.
  - exact T2.
  - intros ->. rewrite app_nil_r in E2. subst a2.
    destruct T1 as [T1|[a3 [c [-> Hc]]]]; [exact T1|].
    destruct T2 as [T2|[a4 [c' [E Hc']]]]; [exact T2|].
    apply app_inj_tail in E. destruct E as [_ <-].
    rewrite Hc' in Hc. discriminate.
  - rewrite app_nil_l, rev_app_distr, !rev_involutive. reflexivity.
Qed.

(** The switch and the bottom of the loop body, for a rune on which the
    switch goes on. *)
Lemma dispatched_Continue (p : gostring) (v : rune) (l l1 : Loop.locals)
  (s s1 : State) :
  dispatchRune p v l s = Ret (Continue l1) s1 ->
  exists l2,
    dispatched p (Rune v) l s = Ret (Continue l2) s1
    /\ Loop.line l2 = Loop.line l1 /\ Loop.pos l2 = Loop.pos l1
    /\ Loop.killAction l2 = counted (Loop.killAction l1).
Proof.
  intros H. unfold dispatched, bind. cbn [dispatch]. rewrite H.
  destruct (bottom_latch l1 s1) as [l2 [E B]]. rewrite E.
  exists l2. split; [reflexivity|exact B].
Qed.

(** [yank] right after a kill that made a node of its own. *)
Lemma yank_pushed (p : gostring) (line : list rune) (pos : Z) (s : State)
  (r : Ring) (text : list rune) (k : iface) (inp : list event) :
  roomy p s -> filled r -> killRing s = pushed r text ->
  0 <= pos <= len line -> leaves_yank k = true ->
  exists ops,
    yank p line pos s (Key k :: inp)
    = Done (yanked line pos text, pos + len text, k, None) (emits s ops) inp.
Proof.
  intros R F E B K. destruct (pushed_head r) as [t Ht].
  assert (N : killRing s <> []) by (rewrite E, Ht; discriminate).
  assert (F' : filled (killRing s)) by (rewrite E; apply pushed_filled; exact F).
  destruct (yank_loop_rotates false p (firstn (Z.to_nat pos) line)
              (skipn (Z.to_nat pos) line) k inp 0 K eq_refl s R N F') as [ops H].
  unfold yank, run. rewrite split_at by exact B.
  cbn [repeat map app Nat.iter] in H. rewrite H, len_firstn by exact B.
  assert (T : ring_text (killRing s) = text) by (rewrite E, Ht; reflexivity).
  change (Nat.iter 0 ring_Prev (killRing s)) with (killRing s).
  rewrite T. exists ops. destruct s; reflexivity.
Qed.

(** CTRL-W erases the word before the cursor: with the runes [a] before
    the cursor and [b] from the cursor on, the white space [m1] at the end
    of [a] and the run [m2] of other runes before it go from the line to
    the kill ring, in the order they had, and the cursor moves to where
    they began; what is left before the cursor is empty or ends in white
    space. *)
Theorem ctrlW_erases_word (p : gostring) (l : Loop.locals) (s : State)
  (a b : list rune) (inp : list event) :
  roomy p s -> filled (killRing s) ->
  Loop.line l = a ++ b -> Loop.pos l = len a -> a <> [] ->
  exists a2 m2 m1 l' ops,
    a = a2 ++ m2 ++ m1
    /\ Forall (fun c => IsSpace c = true) m1
    /\ Forall (fun c => IsSpace c = false) m2
    /\ (a2 = [] \/ exists a3 c, a2 = a3 ++ [c] /\ IsSpace c = true)
    /\ (m2 = [] -> a2 = [])
    /\ iteration p l s (Key (Rune ctrlW) :: inp)
       = Done (Continue l')
              (emits (set_killRing s
                        (killed (Loop.killAction l) (killRing s) (m2 ++ m1) 2))
                 ops) inp
    /\ Loop.line l' = a2 ++ b /\ Loop.pos l' = len a2 /\ Loop.killAction l' = 1.
Proof.
  intros R F Hl Hp Ha.
  destruct (dispatchRune_ctrlW p (Loop.set_historyAction l false) s a b R F)
    as [a2 [m2 [m1 [ops [E [F1 [F2 [T [Z0 H]]]]]]]]];
    try (destruct l; assumption).
  destruct (dispatched_Continue _ _ _ _ _ _ H) as [l2 [D [L2 [P2 K2]]]].
  exists a2, m2, m1, l2, ops. repeat (split; [assumption|]).
  split; [|split; [|split]].
  - rewrite iteration_plain by reflexivity. unfold run. rewrite D.
    destruct l; reflexivity.
  - rewrite L2. reflexivity.
  - rewrite P2. reflexivity.
  - rewrite K2. reflexivity.
Qed.

Lemma ctrlW_erases_word_witness :
  exists a2 m2 m1 l' ops,
    str "ls  foo " = a2 ++ m2 ++ m1
    /\ Forall (fun c => IsSpace c = true) m1
    /\ Forall (fun c => IsSpace c = false) m2
    /\ (a2 = [] \/ exists a3 c, a2 = a3 ++ [c] /\ IsSpace c = true)
    /\ (m2 = [] -> a2 = [])
    /\ iteration (str "> ")
         (Loop.mk (str "ls  foo " ++ str "bar") 8 [] [] 0 false 0) (newState 80)
         (Key (Rune ctrlW) :: [])
       = Done (Continue l')
              (emits (set_killRing (newState 80)
                        (killed 0 (killRing (newState 80)) (m2 ++ m1) 2))
                 ops) []
    /\ Loop.line l' = a2 ++ str "bar" /\ Loop.pos l' = len a2
    /\ Loop.killAction l' = 1.
Proof.
  apply (ctrlW_erases_word (str "> ")
           (Loop.mk (str "ls  foo " ++ str "bar") 8 [] [] 0 false 0) (newState 80)
           (str "ls  foo ") (str "bar") []).
  - unfold roomy. vm_compute. discriminate.
  - constructor.
  - reflexivity.
  - reflexivity.
  - discriminate.
Defined.

Lemma yanked_app (a b text : list rune) :
  yanked (a ++ b) (len a) text = a ++ text ++ b.
Proof. unfold yanked. rewrite firstn_len_app, skipn_len_app. reflexivity. Qed.

(** A kill that makes a node of its own, and a yank right after it: the
    line is back.  For the runes [a] before the cursor and [b] after it,
    CTRL-K takes [b] and the yank leaves the cursor at the end of the
    line; CTRL-U takes [a], CTRL-W the end of [a], and the yank leaves the
    cursor where it was. *)
Theorem kill_then_yank (p : gostring) (l : Loop.locals) (s : State)
  (a b : list rune) (k : iface) (inp : list event) :
  roomy p s -> filled (killRing s) ->
  Loop.line l = a ++ b -> Loop.pos l = len a -> Loop.killAction l <= 0 ->
  leaves_yank k = true ->
  (b <> [] ->
   exists l1 s1 ops,
     dispatched p (Rune ctrlK) l s = Ret (Continue l1) s1
     /\ yank p (Loop.line l1) (Loop.pos l1) s1 (Key k :: inp)
        = Done (a ++ b, len (a ++ b), k, None) (emits s1 ops) inp)
  /\ (exists l1 s1 ops,
        dispatched p (Rune ctrlU) l s = Ret (Continue l1) s1
        /\ yank p (Loop.line l1) (Loop.pos l1) s1 (Key k :: inp)
           = Done (a ++ b, len a, k, None) (emits s1 ops) inp)
  /\ (a <> [] ->
      exists l1 s1 ops,
        dispatched p (Rune ctrlW) l s = Ret (Continue l1) s1
        /\ yank p (Loop.line l1) (Loop.pos l1) s1 (Key k :: inp)
           = Done (a ++ b, len a, k, None) (emits s1 ops) inp).
Proof.
  intros R F Hl Hp Hk K.
  pose proof (len_nonneg a) as Na. pose proof (len_nonneg b) as Nb.
  assert (New : forall text mode,
            killed (Loop.killAction l) (killRing s) text mode
            = pushed (killRing s) text).
  { intros text mode. unfold killed.
    replace (0 <? Loop.killAction l) with false by lia. reflexivity. }
  split; [|split].
  - intros Hb.
    assert (B : 0 <= Loop.pos l < len (Loop.line l)).
    { rewrite Hl, Hp, len_app. split; [lia|].
      assert (len b <> 0) by (intros E; apply len_zero in E; auto). lia. }
    destruct (dispatchRune_ctrlK p l s R F B) as [ops1 H].
    destruct (dispatched_Continue _ _ _ _ _ _ H) as [l1 [D [L1 [P1 _]]]].
    cbn [Loop.line Loop.pos Loop.set_line Loop.set_killAction] in L1, P1.
    rewrite Hl, Hp, firstn_len_app in L1. rewrite Hl, Hp, skipn_len_app, New in *.
    destruct (yank_pushed p (Loop.line l1) (Loop.pos l1)
                (emits (set_killRing s (pushed (killRing s) b)) ops1)
                (killRing s) b k inp R F eq_refl) as [ops2 Y]; [|exact K|].
    { rewrite L1, P1. lia. }
    eexists _, _, ops2. split; [exact D|]. rewrite Y.
    rewrite L1, P1. rewrite <- (app_nil_r a) at 1.
    rewrite yanked_app, app_nil_r, len_app. reflexivity.
  - assert (B : 0 <= Loop.pos l <= len (Loop.line l))
      by (rewrite Hl, Hp, len_app; lia).
    destruct (dispatchRune_ctrlU p l s R F B) as [ops1 H].
    destruct (dispatched_Continue _ _ _ _ _ _ H) as [l1 [D [L1 [P1 _]]]].
    cbn [Loop.line Loop.pos Loop.set_line Loop.set_pos Loop.set_killAction] in L1, P1.
    rewrite Hl, Hp, skipn_len_app in L1. rewrite Hl, Hp, firstn_len_app, New in *.
    destruct (yank_pushed p (Loop.line l1) (Loop.pos l1)
                (emits (set_killRing s (pushed (killRing s) a)) ops1)
                (killRing s) a k inp R F eq_refl) as [ops2 Y]; [|exact K|].
    { rewrite L1, P1. lia. }
    eexists _, _, ops2. split; [exact D|]. rewrite Y. rewrite L1, P1.
    change 0 with (len (@nil rune)) at 1.
    change b with ([] ++ b) at 1. rewrite yanked_app. reflexivity.
  - intros Ha.
    destruct (dispatchRune_ctrlW p l s a b R F Hl Hp Ha)
      as [a2 [m2 [m1 [ops1 [E [_ [_ [_ [_ H]]]]]]]]].
    destruct (dispatched_Continue _ _ _ _ _ _ H) as [l1 [D [L1 [P1 _]]]].
    cbn [Loop.line Loop.pos Loop.set_line Loop.set_pos Loop.set_killAction] in L1, P1.
    rewrite New in *.
    destruct (yank_pushed p (Loop.line l1) (Loop.pos l1)
                (emits (set_killRing s (pushed (killRing s) (m2 ++ m1))) ops1)
                (killRing s) (m2 ++ m1) k inp R F eq_refl) as [ops2 Y]; [|exact K|].
    { rewrite L1, P1, len_app. pose proof (len_nonneg a2). lia. }
    eexists _, _, ops2. split; [exact D|]. rewrite Y. rewrite L1, P1.
    rewrite yanked_app, E, !len_app, <- !app_assoc. reflexivity.
Qed.

Lemma kill_then_yank_witness :
  exists l1 s1 ops,
    dispatched (str "> ") (Rune ctrlU) (Loop.mk (str "foo" ++ str "bar") 3 [] [] 0 false 0)
      (newState 80) = Ret (Continue l1) s1
    /\ yank (str "> ") (Loop.line l1) (Loop.pos l1) s1 (Key (Rune 120) :: [])
       = Done (str "foo" ++ str "bar", len (str "foo"), Rune 120, None)
              (emits s1 ops) [].
Proof.
  apply (proj1 (proj2 (kill_then_yank (str "> ")
           (Loop.mk (str "foo" ++ str "bar") 3 [] [] 0 false 0) (newState 80)
           (str "foo") (str "bar") (Rune 120) []
           ltac:(unfold roomy; vm_compute; discriminate)
           ltac:(constructor) eq_refl eq_refl
           ltac:(vm_compute; discriminate) eq_refl))).
Defined.

(** ** What a session leaves alone *)

(** The events a session hands back are the end of those it was given. *)
Lemma mainLoop_rest (fuel : nat) :
  forall (p : gostring) (l : Loop.locals) (s : State) (inp : list event)
         (r : gostring * option error) (s' : State) (rest : list event),
  ring_ok s ->
  mainLoop fuel p l s inp = Some (Done r s' rest) ->
  exists used, inp = used ++ rest.
Proof.
  induction fuel as [|fuel IH]; intros p l s inp r s' rest R; [discriminate|].
  cbn [mainLoop].
  pose proof (iteration_sane p l s inp R) as [T H].
  destruct (iteration p l s inp) as [[l1|l1|line1 err1] s1 inp1|s1|s1];
    cbn [final] in T; try discriminate.
  - destruct H as [[used [_ U]] _]. intros M.
    destruct (IH _ _ _ _ _ _ _ (touched_ring_ok _ _ T R) M) as [used' U'].
    exists (used ++ used'). rewrite U, U', app_assoc. reflexivity.
  - destruct H as [[used [_ U]] _]. intros M. injection M as _ _ <-.
    exists used. exact U.
  - destruct H as [[used [_ U]] _]. intros M. injection M as _ _ <-.
    exists used. exact U.
Qed.

(** [Prompt] on a terminal with line editing gives a result whatever the
    events: it returns, waits for a key that does not come, or panics.
    The history and the completer are as they were, the kill ring is
    within its bound, and the events it hands back are the end of those
    it was given. *)
Theorem prompt_keeps_history
  (fb : gostring -> State -> list event -> outcome (gostring * option error))
  (p : gostring) (s : State) (inp : list event) :
  terminalSupported s = true -> ring_ok s ->
  exists o,
    Prompt fb p s inp = Some o
    /\ history (final o) = history s
    /\ completer (final o) = completer s
    /\ ring_ok (final o)
    /\ match o with
       | Done _ _ rest => exists used, inp = used ++ rest
       | _ => True
       end.
Proof.
  intros TS R. unfold Prompt. rewrite TS. cbn [negb].
  destruct (terminalOutput s); cbn [negb].
  - destruct (entered_Ret p s) as [e H]. rewrite H.
    assert (R1 : ring_ok (entered p s))
      by (unfold ring_ok; rewrite entered_ring; exact R).
    destruct (entered_emits p s) as [ops [E _]].
    destruct (mainLoop_total (S (length inp)) p (initial (entered p s))
                (entered p s) (entered p s) inp R1 (touched_refl _) ltac:(lia))
      as [o [M T]].
    exists o. split; [exact M|].
    destruct (touched_frame _ _ T) as [Hh [_ [Hc _]]].
    rewrite Hh, Hc, E. split; [reflexivity|]. split; [reflexivity|].
    split; [exact (touched_ring_ok _ _ T R1)|].
    destruct o as [r s' rest|s'|s']; auto.
    exact (mainLoop_rest _ _ _ _ _ _ _ _ R1 M).
  - eexists. split; [reflexivity|]. cbn [final].
    split; [reflexivity|]. split; [reflexivity|]. split; [exact R|].
    exists []. reflexivity.
Qed.

Lemma prompt_keeps_history_witness :
  exists o,
    Prompt noFallback (str "> ") (set_history (newState 80) [str "ls"])
      [Key (Rune 97); Key (Action Act.up); Key (Rune cr); Key (Rune 98)] = Some o
    /\ history (final o) = [str "ls"]
    /\ completer (final o) = None
    /\ ring_ok (final o)
    /\ match o with
       | Done _ _ rest =>
         exists used,
           [Key (Rune 97); Key (Action Act.up); Key (Rune cr); Key (Rune 98)]
           = used ++ rest
       | _ => True
       end.
Proof.
  apply (prompt_keeps_history noFallback (str "> ")
           (set_history (newState 80) [str "ls"])
           [Key (Rune 97); Key (Action Act.up); Key (Rune cr); Key (Rune 98)]).
  - reflexivity.
  - split; [vm_compute; discriminate|constructor].
Defined.

(** With a kill ring in order, when [Prompt] returns an error, either
    the terminal has no line editing and what [Prompt] returns is what
    [promptUnsupported] returned, or the line it returns is empty and the
    error is: that standard output is no terminal; an error that
    [readNext] reported; or [io.EOF]. *)
Theorem prompt_error_empty
  (fb : gostring -> State -> list event -> outcome (gostring * option error))
  (p : gostring) (s : State) (inp : list event) (line : gostring) (err : error)
  (s' : State) (rest : list event) :
  ring_ok s ->
  Prompt fb p s inp = Some (Done (line, Some err) s' rest) ->
  (terminalOutput s = true /\ terminalSupported s = false
   /\ fb p s inp = Done (line, Some err) s' rest)
  \/ (line = []
      /\ ((err = errNotTerminalOutput /\ terminalOutput s = false)
          \/ (terminalSupported s = true
              /\ (In (Fail err) inp \/ err = io_EOF)))).
Proof.
  intros R. unfold Prompt.
  destruct (terminalOutput s); cbn [negb];
    [|intros M; injection M as <- <- _ _; auto].
  destruct (terminalSupported s); cbn [negb];
    [|intros M; injection M as M; auto].
  destruct (entered_Ret p s) as [e H]. rewrite H. intros M.
  assert (R1 : ring_ok (entered p s))
    by (unfold ring_ok; rewrite entered_ring; exact R).
  apply mainLoop_returns in M. destruct M as [l0 [s0 [inp0 [Rch It]]]].
  destruct (reaches_suffix p _ _ Rch R1) as [R0 [used U]]. cbn [fst snd] in *.
  pose proof (iteration_sane p l0 s0 inp0 R0) as [_ S]. rewrite It in S.
  right.
  destruct S as [_ [-> [S|S]]]; (split; [reflexivity|]); right;
    (split; [reflexivity|]).
  - left. rewrite U. apply in_or_app. right. exact S.
  - right. exact S.
Qed.

Lemma prompt_error_empty_witness :
  (terminalOutput (newState 80) = true /\ terminalSupported (newState 80) = false
   /\ noFallback (str "> ") (newState 80) [Key (Rune 97); Fail (errOS 5)]
      = Done (str "", Some (errOS 5))
          (emits (set_columns (newState 80) 80)
             [StartPrompt; GetColumns; Print (str "> "); Print (str "a")]) [])
  \/ (str "" = []
      /\ ((errOS 5 = errNotTerminalOutput /\ terminalOutput (newState 80) = false)
          \/ (terminalSupported (newState 80) = true
              /\ (In (Fail (errOS 5)) [Key (Rune 97); Fail (errOS 5)]
                  \/ errOS 5 = io_EOF)))).
Proof.
  apply (prompt_error_empty noFallback (str "> ") (newState 80)
           [Key (Rune 97); Fail (errOS 5)] (str "") (errOS 5)
           (emits (set_columns (newState 80) 80)
              [StartPrompt; GetColumns; Print (str "> "); Print (str "a")]) []).
  - split; [vm_compute; discriminate|constructor].
  - vm_compute. reflexivity.
Defined.

(** ** History: where reading stops *)

(** [ReadHistory]'s loop over the lines of [h] at the head of the input:
    it appends them, evicting the oldest entries, and goes on with what
    follows. *)
Lemma ReadHistory_loop_lines (h : list gostring) (tail : list byte) (err : error) :
  forall (fuel : nat) (s : State) (num : Z),
  Forall storable h -> len (history s) <= HistoryLimit ->
  ReadHistory_loop (length h + fuel) s (mkReader (history_file h ++ tail) err) num
  = ReadHistory_loop fuel (set_history s (evict (history s ++ h)))
      (mkReader tail err) (num + len h).
Proof.
  induction h as [|e h IH]; intros fuel s num Hok Hlim.
  - cbn [length Nat.add history_file flat_map app].
    rewrite app_nil_r, evict_short, set_history_same by exact Hlim.
    f_equal. unfold len. cbn [length]. lia.
  - inversion Hok as [|? ? [Hlf [Hv [Hfit Hcr]]] Hok']; subst.
    cbn [length Nat.add ReadHistory_loop history_file flat_map].
    rewrite <- !app_assoc. cbn [app]. rewrite ReadLine_entry by assumption.
    cbv beta iota zeta. rewrite Hv. cbn [negb]. cbv beta iota zeta.
    rewrite trim_evict by exact Hlim.
    fold (history_file h). rewrite IH; [|exact Hok'|apply len_evict].
    cbn [history set_history].
    rewrite set_history_twice, evict_app_list.
    rewrite <- app_assoc. cbn [app]. f_equal.
    unfold len. cbn [length]. lia.
Qed.

Lemma fuel_split (h : list gostring) (tail : list byte) :
  exists k, (length (history_file h ++ tail) + 2 = length h + S (S k))%nat
            /\ (length tail <= k)%nat.
Proof.
  pose proof (history_file_length h) as L.
  exists (length (history_file h ++ tail) - length h)%nat.
  rewrite length_app. unfold gostring, byte, rune in *. lia.
Qed.

(** [ReadHistory] reads its input to the end when each of its lines is
    shorter than the reader's buffer and valid UTF-8: every line goes to
    the history in its order, without the LF or the CR LF that ends it,
    the oldest entries making room, and so does a last line that has no
    LF after it.  At the end of the input it returns no error when the
    reader reports [io.EOF], and the error of the reader otherwise, with
    all it read in place; the one exception is a reader that reports
    [bufio.ErrBufferFull], where what follows the last LF is not taken
    and the error is that of a line too long, with its number. *)
Theorem read_history_to_the_end (s : State) (raws : list (list byte))
  (e : gostring) (err : error) :
  len (history s) <= HistoryLimit -> Forall readable raws ->
  ~ In lf e -> (length e < defaultBufSize)%nat -> Valid e = true ->
  ReadHistory s (mkReader (history_file raws ++ e) err)
  = Some match err with
         | ErrBufferFull =>
           (set_history s (evict (history s ++ map chomp raws)), len raws,
            Some (errLineTooLong (len raws + 1)))
         | _ =>
           (set_history s (evict (history s ++ map chomp raws ++ unterminated e)),
            len raws + len (unterminated e),
            if is_EOF err then None else Some err)
         end.
Proof.
  intros Hlim Hok Hlf Hfit Hv.
  rewrite ReadHistory_reads; [|..|exact Hlim]; [| |exact Hlf].
  - rewrite (lines_read_readable raws e err 0 Hok Hfit Hv).
    unfold len. destruct err; cbn [fst snd]; rewrite ?length_app, ?length_map;
      do 3 f_equal; lia.
  - eapply Forall_impl; [|exact Hok]. intros raw [H _]. exact H.
Qed.

Lemma read_history_to_the_end_witness :
  ReadHistory (newState 80)
    (mkReader (history_file [str "ls" ++ [cr]; str "cd"] ++ str "pwd") (errOS 5))
  = Some (set_history (newState 80) [str "ls"; str "cd"; str "pwd"], 3,
          Some (errOS 5)).
Proof.
  rewrite (read_history_to_the_end (newState 80) [str "ls" ++ [cr]; str "cd"]
             (str "pwd") (errOS 5)).
  - reflexivity.
  - vm_compute. discriminate.
  - repeat (apply Forall_cons || apply Forall_nil);
      (split; [not_in|split; [fits|vm_compute; reflexivity]]).
  - not_in.
  - fits.
  - reflexivity.
Defined.

(** [ReadHistory] stops at the first line it does not take, a line that
    is no valid UTF-8 or one that does not end within the 4096 bytes of
    the reader's buffer: the lines before it are in the history and are
    what the count says, and the error carries the number of the line. *)
Theorem read_history_stops (s : State) (h : list gostring) (tail : list byte)
  (err : error) :
  len (history s) <= HistoryLimit -> Forall storable h ->
  ((exists bad rest,
      tail = bad ++ lf :: rest /\ ~ In lf bad
      /\ (length bad < defaultBufSize)%nat /\ last bad 0 <> cr
      /\ Valid bad = false) ->
   ReadHistory s (mkReader (history_file h ++ tail) err)
   = Some (set_history s (evict (history s ++ h)), len h,
           Some (errInvalidString (len h + 1))))
  /\ (~ In lf (firstn defaultBufSize tail) ->
      (defaultBufSize <= length tail)%nat ->
      ReadHistory s (mkReader (history_file h ++ tail) err)
      = Some (set_history s (evict (history s ++ h)), len h,
              Some (errLineTooLong (len h + 1)))).
Proof.
  intros Hlim Hok. unfold ReadHistory. cbn [r_data].
  destruct (fuel_split h tail) as [k [-> _]].
  rewrite ReadHistory_loop_lines by assumption. split.
  - intros [bad [rest [-> [Hlf [Hfit [Hcr Hv]]]]]].
    cbn [ReadHistory_loop]. rewrite ReadLine_entry by assumption.
    cbv beta iota zeta. rewrite Hv. reflexivity.
  - intros Hlf Hlong.
    destruct (ReadLine_long tail err Hlf Hlong) as [line [rd' E]].
    cbn [ReadHistory_loop]. rewrite E. reflexivity.
Qed.

Lemma read_history_stops_witness :
  ReadHistory (newState 80)
    (mkReader (history_file [str "ls"] ++ [255; lf; 99; 100; lf]) io_EOF)
  = Some (set_history (newState 80) [str "ls"], 1, Some (errInvalidString 2)).
Proof.
  rewrite (proj1 (read_history_stops (newState 80) [str "ls"]
                    [255; lf; 99; 100; lf] io_EOF
                    ltac:(vm_compute; discriminate)
                    ltac:(repeat (apply Forall_cons || apply Forall_nil);
                          (split; [not_in|split; [vm_compute; reflexivity
                                                 |split; [fits|]]]);
                          vm_compute; discriminate))).
  - reflexivity.
  - exists [255], [99; 100; lf]. split; [reflexivity|]. split; [not_in|].
    split; [fits|]. split; [vm_compute; discriminate|]. vm_compute. reflexivity.
Defined.

(** ** Rendering: the line stays on the screen *)

Lemma RuneCount_EncodeRune_app (r : rune) (s : gostring) :
  RuneCountInString (EncodeRune r ++ s) = 1 + RuneCountInString s.
Proof.
  unfold RuneCountInString.
  destruct (ValidRune r) eqn:V.
  - rewrite runes_EncodeRune_app by exact V. unfold len. cbn [length]. lia.
  - assert (E : EncodeRune r = EncodeRune RuneError).
    { unfold ValidRune, MaxRune in V. unfold EncodeRune, RuneError, MaxRune.
      destruct (Z.ltb_spec r 0); [reflexivity|].
      destruct (Z.leb_spec r 127); [lia|].
      destruct (Z.leb_spec r 2047); [lia|].
      replace ((1114111 <? r) || ((55296 <=? r) && (r <=? 57343))) with true by lia.
      reflexivity. }
    rewrite E, runes_EncodeRune_app by reflexivity. unfold len. cbn [length]. lia.
Qed.

Lemma RuneCount_runes (l : list rune) : RuneCountInString (string_of_runes l) = len l.
Proof.
  induction l as [|r l IH]; [reflexivity|].
  cbn [string_of_runes flat_map]. rewrite RuneCount_EncodeRune_app.
  unfold string_of_runes in IH. rewrite IH. unfold len. cbn [length]. lia.
Qed.




(** ** The prompt without its colours *)

Lemma stripAnsi_plain (pre t : gostring) :
  ~ In 27 pre -> stripAnsi false (pre ++ t) = pre ++ stripAnsi false t.
Proof.
  induction pre as [|b pre IH]; intros H; [reflexivity|].
  cbn [app stripAnsi].
  replace (b =? 27) with false by (cbn [In] in H; lia).
  cbn [andb]. rewrite IH; [reflexivity|]. cbn [In] in H. tauto.
Qed.

Lemma stripAnsi_inside (code post : gostring) :
  ~ In 109 code -> stripAnsi true (code ++ 109 :: post) = stripAnsi false post.
Proof.
  induction code as [|b code IH]; intros H; [reflexivity|].
  cbn [app stripAnsi].
  replace (b =? 109) with false by (cbn [In] in H; lia).
  apply IH. cbn [In] in H. tauto.
Qed.




(** [stripAnsiColorSequences] takes a colour sequence out and goes on
    behind it: text without ESC stays, and from an ESC up to the first m
    after it everything goes. *)
Theorem strip_colour_sequence (pre code post : gostring) :
  ~ In esc pre -> ~ In 109 code ->
  stripAnsiColorSequences (pre ++ [esc] ++ code ++ [109] ++ post)
  = pre ++ stripAnsiColorSequences post.
Proof.
  intros Hpre Hcode. unfold stripAnsiColorSequences.
  rewrite stripAnsi_plain by exact Hpre. f_equal.
  cbn [app stripAnsi]. change (esc =? 27) with true. cbn [andb].
  replace (existsb (Z.eqb 109) (code ++ 109 :: post)) with true.
  - apply stripAnsi_inside. exact Hcode.
  - symmetry. rewrite existsb_app. cbn [existsb]. rewrite Z.eqb_refl.
    rewrite orb_true_r. reflexivity.
Qed.

Lemma strip_colour_sequence_witness :
  stripAnsiColorSequences (str "$" ++ [esc] ++ str "[1;32" ++ [109] ++ str " ok")
  = str "$" ++ stripAnsiColorSequences (str " ok").
Proof.
  apply (strip_colour_sequence (str "$") (str "[1;32") (str " ok")).
  - intros H. vm_compute in H. intuition discriminate.
  - intros H. vm_compute in H. intuition discriminate.
Defined.


(** ** History: a writer that runs out of room *)

Lemma history_file_cons (item : gostring) (h : list gostring) :
  length (history_file (item :: h))
  = (length (item ++ [lf]) + length (history_file h))%nat.
Proof. cbn [history_file flat_map]. apply length_app. Qed.

Lemma WriteHistory_loop_limited (h : list gostring) :
  forall (n : nat) (w0 : list byte) (num : Z),
  exists (w : Limited) (k : nat),
    WriteHistory_loop h (mkLimited n w0) num
    = (w, num + Z.of_nat k,
       if (length (history_file h) <=? n)%nat then None else Some (errOS 28))
    /\ written w = w0 ++ firstn n (history_file h)
    /\ whole_lines h n k.
Proof.
  induction h as [|item h IH]; intros n w0 num.
  - exists (mkLimited n w0), 0%nat. cbn [WriteHistory_loop history_file flat_map length].
    split; [f_equal; f_equal; lia|]. split.
    + cbn [written]. rewrite firstn_nil, app_nil_r. reflexivity.
    + unfold whole_lines. cbn. lia.
  - cbn [WriteHistory_loop Fprintln Write limited_Writer room written].
    cbn [history_file flat_map]. fold (history_file h).
    unfold Fprintln, Write. unfold limited_Writer at 1. cbn [room written].
    destruct (Nat.leb_spec (length (item ++ [lf])) n) as [L|L]; cbv beta iota zeta;
      match goal with
      | |- context [(?x <=? n)%nat] =>
        replace x with (length (item ++ [lf]) + length (history_file h))%nat
          by (symmetry; apply length_app)
      end.
    + destruct (IH (n - length (item ++ [lf]))%nat (w0 ++ item ++ [lf]) (num + 1))
        as [w [k [E [Hw [K1 [K2 K3]]]]]].
      exists w, (S k). rewrite E. split; [|split].
      * f_equal; [f_equal; lia|].
        destruct (Nat.leb_spec (length (history_file h)) (n - length (item ++ [lf])));
          destruct (Nat.leb_spec (length (item ++ [lf]) + length (history_file h)) n);
          (reflexivity || lia).
      * rewrite Hw, <- app_assoc. f_equal.
        rewrite firstn_app.
        f_equal. symmetry. apply firstn_all2. exact L.
      * unfold whole_lines in *.
        change (firstn (S k) (item :: h)) with (item :: firstn k h).
        change (firstn (S (S k)) (item :: h)) with (item :: firstn (S k) h).
        rewrite !history_file_cons. cbn [length].
        unfold gostring, byte, rune in *. lia.
    + exists (mkLimited 0 (w0 ++ firstn n (item ++ [lf]))), 0%nat.
      split; [|split].
      * f_equal; [f_equal; lia|].
        destruct (Nat.leb_spec (length (item ++ [lf]) + length (history_file h)) n);
          [lia|reflexivity].
      * cbn [written]. f_equal. symmetry.
        etransitivity; [apply firstn_app|].
        match goal with
        | |- context [firstn ?m (history_file h)] =>
          replace m with 0%nat by (unfold gostring, byte, rune in *; lia)
        end.
        cbn [firstn]. rewrite app_nil_r. reflexivity.
      * unfold whole_lines.
        change (firstn 1 (item :: h)) with (item :: firstn 0 h).
        rewrite history_file_cons. cbn [length firstn history_file flat_map].
        unfold gostring, byte, rune in *. lia.
Qed.

(** [WriteHistory] to a writer with room for [n] bytes, which writes what
    fits and then fails: the writer holds the first [n] bytes of the
    file, the count is the number of lines that are whole within them,
    and the error is that of the writer when the file is longer than
    [n], and none when it is not. *)
Theorem write_history_out_of_room (s : State) (n : nat) :
  exists (w : Limited) (k : nat),
    WriteHistory s (mkLimited n [])
    = (w, Z.of_nat k,
       if (length (history_file (history s)) <=? n)%nat
       then None else Some (errOS 28))
    /\ written w = firstn n (history_file (history s))
    /\ whole_lines (history s) n k.
Proof.
  unfold WriteHistory.
  destruct (WriteHistory_loop_limited (history s) n [] 0) as [w [k [E [Hw K]]]].
  exists w, k. rewrite E. split; [reflexivity|]. split; [exact Hw|exact K].
Qed.

(** ** No key makes the editor panic *)

Lemma slice_Some {A : Type} (l a : list A) (lo hi : Z) :
  slice l lo hi = Some a -> 0 <= lo <= hi /\ hi <= len l /\ len a = hi - lo.
Proof.
  unfold slice. destruct ((0 <=? lo) && (lo <=? hi) && (hi <=? len l)) eqn:E;
    [|discriminate].
  intros H. injection H as <-. unfold len in *.
  rewrite length_firstn, length_skipn. lia.
Qed.

Lemma slice_None {A : Type} (l : list A) (lo hi : Z) :
  slice l lo hi = None -> ~ (0 <= lo <= hi /\ hi <= len l).
Proof.
  unfold slice. destruct ((0 <=? lo) && (lo <=? hi) && (hi <=? len l)) eqn:E;
    [discriminate|]. lia.
Qed.

Lemma index_None {A : Type} (l : list A) (i : Z) :
  index l i = None -> ~ (0 <= i < len l).
Proof.
  unfold index. destruct ((0 <=? i) && (i <? len l)) eqn:E; [|lia].
  intros H. apply nth_error_None in H. unfold len in *. lia.
Qed.

Lemma erase_loop_safe (stop : rune -> bool) (fuel : nat) :
  forall (line : list rune) (pos : Z) (buf : list rune) (s : State),
  0 <= pos <= len line ->
  exists line' pos' buf',
    erase_loop stop fuel line pos buf s = Ret (line', pos', buf') s
    /\ 0 <= pos' <= len line'.
Proof.
  induction fuel as [|fuel IH]; intros line pos buf s H; cbn [erase_loop].
  - exists line, pos, buf. split; [reflexivity|exact H].
  - destruct (Z.eqb_spec pos 0) as [Hp|Hp].
    + exists line, pos, buf. split; [reflexivity|exact H].
    + unfold bind at 1, check at 1.
      destruct (index line (pos - 1)) as [c|] eqn:Hc;
        [|apply index_None in Hc; lia].
      unfold ret at 1. cbv beta iota.
      destruct (stop c).
      * exists line, pos, buf. split; [reflexivity|exact H].
      * unfold bind at 1, cut, bind at 1, check at 1.
        destruct (slice line 0 (pos - 1)) as [a|] eqn:Ha;
          [|apply slice_None in Ha; lia].
        unfold ret at 1. cbv beta iota. unfold bind at 1, check at 1.
        destruct (slice line pos (len line)) as [b|] eqn:Hb;
          [|apply slice_None in Hb; lia].
        unfold ret at 1. cbv beta iota. unfold ret at 1. cbv beta iota. apply IH.
        apply slice_Some in Ha, Hb. rewrite len_app. lia.
Qed.

Lemma wordLeft_loop_safe (fuel : nat) :
  forall (line : list rune) (pos : Z) (s : State),
  0 < pos <= len line ->
  exists pos', wordLeft_loop fuel line pos s = Ret pos' s /\ 0 <= pos' <= len line.
Proof.
  induction fuel as [|fuel IH]; intros line pos s H; cbn [wordLeft_loop].
  - exists pos. split; [reflexivity|lia].
  - cbv zeta. destruct (Z.eqb_spec (pos - 1) 0) as [Hp|Hp].
    + exists (pos - 1). split; [reflexivity|lia].
    + unfold bind, check.
      destruct (index line (pos - 1 - 1)) as [c|] eqn:Hc;
        [|apply index_None in Hc; lia].
      unfold ret at 1. cbv beta iota.
      destruct (IsSpace c).
      * exists (pos - 1). split; [reflexivity|lia].
      * apply IH. lia.
Qed.

Lemma wordRight_loop_safe (fuel : nat) :
  forall (line : list rune) (pos : Z) (s : State),
  0 <= pos < len line ->
  exists pos', wordRight_loop fuel line pos s = Ret pos' s /\ 0 <= pos' <= len line.
Proof.
  induction fuel as [|fuel IH]; intros line pos s H; cbn [wordRight_loop].
  - exists pos. split; [reflexivity|lia].
  - cbv zeta. destruct (Z.eqb_spec (pos + 1) (len line)) as [Hp|Hp].
    + exists (pos + 1). split; [reflexivity|lia].
    + unfold bind, check.
      destruct (index line (pos + 1)) as [c|] eqn:Hc;
        [|apply index_None in Hc; lia].
      unfold ret at 1. cbv beta iota.
      destruct (IsSpace c).
      * exists (pos + 1). split; [reflexivity|lia].
      * apply IH. lia.
Qed.

Lemma wp_redraw_roomy (p : gostring) (l : Loop.locals) (s : State)
  (Q : result unit -> Prop) :
  roomy p s -> (forall ops, Q (Ret tt (emits s ops))) -> wp (redraw p l) s Q.
Proof.
  intros R H. unfold wp. destruct (redraw_returns p l s R) as [ops E].
  rewrite E. apply H.
Qed.

Lemma wp_refresh_roomy (p buf : gostring) (pos : Z) (s : State)
  (Q : result (option error) -> Prop) :
  roomy p s -> (forall e ops, Q (Ret e (emits s ops))) -> wp (refresh p buf pos) s Q.
Proof.
  intros R H. unfold wp. destruct (refresh_returns p buf pos s R) as [e [ops E]].
  rewrite E. apply H.
Qed.

Lemma wp_erase_loop_safe (stop : rune -> bool) (fuel : nat) (line : list rune)
  (pos : Z) (buf : list rune) (s : State)
  (Q : result (list rune * Z * list rune) -> Prop) :
  0 <= pos <= len line ->
  (forall line' pos' buf', 0 <= pos' <= len line' -> Q (Ret (line', pos', buf') s)) ->
  wp (erase_loop stop fuel line pos buf) s Q.
Proof.
  intros H K. unfold wp.
  destruct (erase_loop_safe stop fuel line pos buf s H) as [line' [pos' [buf' [E I]]]].
  rewrite E. apply K. exact I.
Qed.

Lemma wp_wordLeft_loop_safe (fuel : nat) (line : list rune) (pos : Z) (s : State)
  (Q : result Z -> Prop) :
  0 < pos <= len line ->
  (forall pos', 0 <= pos' <= len line -> Q (Ret pos' s)) ->
  wp (wordLeft_loop fuel line pos) s Q.
Proof.
  intros H K. unfold wp.
  destruct (wordLeft_loop_safe fuel line pos s H) as [pos' [E I]].
  rewrite E. apply K. exact I.
Qed.

Lemma wp_wordRight_loop_safe (fuel : nat) (line : list rune) (pos : Z) (s : State)
  (Q : result Z -> Prop) :
  0 <= pos < len line ->
  (forall pos', 0 <= pos' <= len line -> Q (Ret pos' s)) ->
  wp (wordRight_loop fuel line pos) s Q.
Proof.
  intros H K. unfold wp.
  destruct (wordRight_loop_safe fuel line pos s H) as [pos' [E I]].
  rewrite E. apply K. exact I.
Qed.

(** One step of a call that is to return: the calls that draw return on
    a terminal with room, the loops return on a cursor in the line. *)
Ltac wp_safe R :=
  first
    [ lazymatch goal with
      | |- wp (redraw _ _) _ _ => apply wp_redraw_roomy; [exact R|intros ?]
      | |- wp (refresh _ _ _) _ _ => apply wp_refresh_roomy; [exact R|intros ? ?]
      | |- wp (erase_loop _ _ _ _ _) _ _ =>
        apply wp_erase_loop_safe; [|intros ? ? ? ?]
      | |- wp (wordLeft_loop _ _ _) _ _ =>
        apply wp_wordLeft_loop_safe; [|intros ? ?]
      | |- wp (wordRight_loop _ _ _) _ _ =>
        apply wp_wordRight_loop_safe; [|intros ? ?]
      | |- wp (addToKillRing _ _) _ _ =>
        apply wp_addToKillRing; [lia|solve [touch]|intros ? ? ? ?]
      end; cbv beta iota
    | wp_head ].

Ltac unfold_locals :=
  cbn [Loop.line Loop.pos Loop.historyPos Loop.prefixHistory Loop.historyEnd
       Loop.historyAction Loop.killAction Loop.set_line Loop.set_pos
       Loop.set_historyEnd Loop.set_prefixHistory Loop.set_historyPos
       Loop.set_historyAction Loop.set_killAction] in *.

Ltac bounds :=
  repeat match goal with
         | H : slice _ _ _ = Some _ |- _ => apply slice_Some in H
         | H : slice _ _ _ = None |- _ => apply slice_None in H
         | H : index _ _ = None |- _ => apply index_None in H
         | H : index _ _ = Some _ |- _ => clear H
         end.

Ltac lengths :=
  unfold len in *;
  rewrite ?length_app, ?length_firstn, ?length_skipn in *;
  cbn [length] in *; lia.

Lemma dispatchRune_safe (p : gostring) (v : rune) (l : Loop.locals) (s : State) :
  ring_ok s -> roomy p s -> in_line l ->
  wp (dispatchRune p v l) s (returns s in_line_after).
Proof.
  intros K R [I1 I2]. unfold dispatchRune, kill, historyPrev, historyNext, cut, insertAt.
  cbv zeta.
  repeat wp_safe R; fields; unfold_locals; unfold returns; bounds;
    repeat match goal with H : context [v] |- _ => clear H end;
    try (split; [touch|]); unfold in_line_after, in_line; unfold_locals.
  all: try lengths.
  all: repeat match goal with
              | |- context [if ?c then _ else _] => destruct c eqn:?
              | H : context [if ?c then _ else _] |- _ => destruct c eqn:?
              end; unfold_locals; try lengths.
Qed.

Lemma dispatchAction_safe (p : gostring) (v : action) (l : Loop.locals) (s : State) :
  ring_ok s -> roomy p s -> in_line l ->
  wp (dispatchAction p v l) s (returns s in_line_after).
Proof.
  intros K R [I1 I2].
  unfold dispatchAction, historyPrev, historyNext, cut. cbv zeta.
  destruct v; repeat wp_safe R; fields; unfold_locals; unfold returns; bounds;
    try (split; [touch|]); unfold in_line_after, in_line; unfold_locals.
  all: try lengths.
  all: repeat match goal with
              | |- context [if ?c then _ else _] => destruct c eqn:?
              | H : context [if ?c then _ else _] |- _ => destruct c eqn:?
              end; unfold_locals; try lengths.
Qed.

Lemma dispatched_safe (p : gostring) (next : iface) (l : Loop.locals) (s : State) :
  ring_ok s -> roomy p s -> in_line l ->
  wp (dispatched p next l) s (returns s in_line_after).
Proof.
  intros K R I. unfold dispatched. apply wp_bind.
  assert (D : wp (dispatch p next l) s (returns s in_line_after)).
  { destruct next as [| |v|a]; cbn [dispatch].
    - apply wp_ret. split; [touch|exact I].
    - apply wp_ret. split; [touch|exact I].
    - apply dispatchRune_safe; assumption.
    - apply dispatchAction_safe; assumption. }
  unfold wp in *. destruct (dispatch p next l s) as [c s1|s1]; [|exact D].
  destruct D as [T D]. destruct c as [l1|l1|line err].
  - unfold bottom, bind, get, ret. cbv beta iota. split; [exact T|].
    destruct D as [D1 D2]. unfold in_line_after, in_line.
    destruct (negb (Loop.historyAction l1)), (0 <? Loop.killAction _); unfold_locals;
      split; try assumption; pose proof (len_nonneg (getHistoryByPrefix s1
        (string_of_runes (Loop.line l1)))); lia.
  - split; [exact T|exact D].
  - split; [exact T|exact D].
Qed.

Lemma yank_loop_safe (inp : list event) :
  forall (again : bool) (p : gostring) (ls le : list rune) (s : State),
  ring_ok s -> killRing s <> [] -> roomy p s ->
  match yank_loop again p ls le s inp with
  | Done (line, pos, next, err) _ _ =>
    0 <= pos <= len line /\ (err = None -> In (Key next) inp)
  | Blocked _ => True
  | Panicked _ => False
  end.
Proof.
  induction inp as [|ev inp IH]; intros again p ls le s K N R;
    cbn [yank_loop]; unfold run, bind at 1, get at 1; unfold bind at 1;
    rewrite (ring_Value_filled (killRing s) N (proj2 K)); cbn [check];
    unfold ret at 1; cbv beta iota zeta; unfold bind at 1;
    destruct (refresh_returns p
                (string_of_runes (ls ++ ring_text (killRing s) ++ le))
                (len ls + len (ring_text (killRing s))) s R) as [e [ops E]];
    rewrite E; unfold ret at 1; cbv beta iota.
  - exact I.
  - assert (B : 0 <= len ls + len (ring_text (killRing s))
                <= len (ls ++ ring_text (killRing s) ++ le))
      by (rewrite !len_app;
          pose proof (len_nonneg ls); pose proof (len_nonneg le);
          pose proof (len_nonneg (ring_text (killRing s))); lia).
    destruct ev as [next|err]; [|split; [exact B|discriminate]].
    destruct next as [| |key|act].
    + specialize (IH again p ls le (emits s ops) K N R).
      destruct (yank_loop again p ls le (emits s ops) inp)
        as [[[[line pos] next] err] s' rest|s'|s']; auto.
      destruct IH as [IH1 IH2]. split; [exact IH1|]. intros H. right. auto.
    + specialize (IH again p ls le (emits s ops) K N R).
      destruct (yank_loop again p ls le (emits s ops) inp)
        as [[[[line pos] next] err] s' rest|s'|s']; auto.
      destruct IH as [IH1 IH2]. split; [exact IH1|]. intros H. right. auto.
    + destruct (again && (key =? ctrlY)
                && negb (ring_Len (killRing (emits s ops)) =? 0));
        [|split; [exact B|intros _; left; reflexivity]].
      unfold run, split, bind at 1, check at 1.
      destruct (slice _ 0 _) as [a|] eqn:Ha; [|apply slice_None in Ha; lia].
      unfold ret at 1. cbv beta iota. unfold bind at 1, check at 1.
      destruct (slice _ _ (len _)) as [b|] eqn:Hb; [|apply slice_None in Hb; lia].
      unfold ret at 1. cbv beta iota. unfold ret at 1. cbv beta iota.
      specialize (IH again p a b (emits s ops) K N R).
      destruct (yank_loop again p a b (emits s ops) inp)
        as [[[[line pos] next] err] s' rest|s'|s']; auto.
      destruct IH as [IH1 IH2]. split; [exact IH1|]. intros H. right. auto.
    + assert (Y : match yank_loop again p ls le
                          (set_killRing (emits s ops)
                             (ring_Prev (killRing (emits s ops)))) inp with
                  | Done (line, pos, next, err) _ _ =>
                    0 <= pos <= len line /\ (err = None -> In (Key next) inp)
                  | Blocked _ => True
                  | Panicked _ => False
                  end).
      { apply IH.
        - destruct K as [K1 K2].
          split; [apply ring_Prev_bounded|apply ring_Prev_filled]; assumption.
        - apply ring_Prev_nonempty. exact N.
        - exact R. }
      destruct act; try (split; [exact B|intros _; left; reflexivity]).
      destruct (yank_loop again p ls le _ inp)
        as [[[[line pos] next] err] s' rest|s'|s']; auto.
      destruct Y as [Y1 Y2]. split; [exact Y1|]. intros H. right. auto.
Qed.

Lemma yanks_safe (p : gostring) (text : list rune) (pos : Z) (s : State)
  (inp : list event) :
  ring_ok s -> killRing s <> [] -> roomy p s -> 0 <= pos <= len text ->
  match yanks p text pos s inp with
  | Done (line, pos, next, err) _ _ =>
    0 <= pos <= len line /\ (err = None -> In (Key next) inp)
  | Blocked _ => True
  | Panicked _ => False
  end.
Proof.
  intros K N R B. unfold yanks, run, split, bind at 1, check at 1.
  destruct (slice _ 0 _) as [a|] eqn:Ha; [|apply slice_None in Ha; lia].
  unfold ret at 1. cbv beta iota. unfold bind at 1, check at 1.
  destruct (slice _ _ (len _)) as [b|] eqn:Hb; [|apply slice_None in Hb; lia].
  unfold ret at 1. cbv beta iota. unfold ret at 1. cbv beta iota.
  apply yank_loop_safe; assumption.
Qed.

Lemma is_rune_other (next : iface) (r : rune) :
  next <> Rune r -> is_rune next r = false.
Proof.
  destruct next as [| |key|a]; try reflexivity. intros H. cbn [is_rune].
  destruct (Z.eqb_spec key r); [congruence|reflexivity].
Qed.

Lemma hooks_safe (p : gostring) (l : Loop.locals) (next : iface) (s : State)
  (inp : list event) :
  ring_ok s -> roomy p s -> completer s = None -> in_line l ->
  Forall no_search (Key next :: inp) ->
  match hooks p l next s inp with
  | Done (inl (l', _)) _ _ => in_line l'
  | Done (inr _) _ _ | Blocked _ => True
  | Panicked _ => False
  end.
Proof.
  intros K R C I F. inversion F as [|ev inp' F1 F2]; subst.
  assert (S1 : is_rune next ctrlR = false)
    by (apply is_rune_other; intros ->; apply F1; reflexivity).
  unfold hooks, hookTab. destruct (is_rune next tab) eqn:Tb.
  - unfold tabComplete. rewrite C. cbn [resume]. unfold run.
    destruct (redraw_returns p (Loop.set_pos (Loop.set_line l (Loop.line l))
                                  (Loop.pos l)) s R) as [ops E].
    rewrite E. cbn [and_then]. unfold hookYank, hookSearch. cbn [is_rune andb].
    change (tab =? ctrlY) with false. change (tab =? ctrlR) with false.
    cbn [andb and_then]. exact I.
  - cbn [and_then]. unfold hookYank.
    destruct (is_rune next ctrlY && negb (ring_Len (killRing s) =? 0)) eqn:Y.
    + apply andb_true_iff in Y. destruct Y as [_ Y].
      assert (N : killRing s <> []).
      { intros E. rewrite E in Y. discriminate. }
      pose proof (yanks_safe p (Loop.line l) (Loop.pos l) s inp K N R (proj1 I)) as H.
      destruct (yanks p (Loop.line l) (Loop.pos l) s inp)
        as [[[[line pos] next'] [err|]] s' rest|s'|s']; cbn [resume and_then]; auto.
      destruct H as [H1 H2]. unfold hookSearch.
      rewrite is_rune_other.
      * split; [exact H1|exact (proj2 I)].
      * intros ->. rewrite Forall_forall in F2. exact (F2 _ (H2 eq_refl) eq_refl).
    + cbn [and_then]. unfold hookSearch. rewrite S1. exact I.
Qed.

Lemma iteration_safe (p : gostring) (l : Loop.locals) (s : State)
  (inp : list event) :
  ring_ok s -> roomy p s -> completer s = None -> in_line l ->
  Forall no_search inp ->
  match iteration p l s inp with
  | Done c _ _ => in_line_after c
  | Blocked _ => True
  | Panicked _ => False
  end.
Proof.
  intros K R C I F. unfold iteration.
  destruct inp as [|[next|err] inp]; [exact Logic.I| |exact Logic.I].
  pose proof (hooks_safe p (Loop.set_historyAction l false) next s inp K R C I F) as H.
  pose proof (hooks_psane p (Loop.set_historyAction l false) next s s inp K
                (touched_refl s)) as [T _].
  destruct (hooks p (Loop.set_historyAction l false) next s inp)
    as [[[l1 next1]|e] s1 rest|s1|s1]; cbn [final] in T;
    [|exact Logic.I|exact Logic.I|exact H].
  destruct (touched_frame _ _ T) as [_ [Hc _]].
  pose proof (dispatched_safe p next1 l1 s1 (touched_ring_ok _ _ T K)
                (roomy_columns p s s1 Hc R) H) as D.
  unfold wp, run in *. destruct (dispatched p next1 l1 s1); [|exact D].
  exact (proj2 D).
Qed.

Lemma mainLoop_safe (fuel : nat) :
  forall (p : gostring) (l : Loop.locals) (s : State) (inp : list event)
         (o : outcome (gostring * option error)),
  ring_ok s -> roomy p s -> completer s = None -> in_line l ->
  Forall no_search inp ->
  mainLoop fuel p l s inp = Some o -> forall s', o <> Panicked s'.
Proof.
  induction fuel as [|fuel IH]; intros p l s inp o K R C I F; [discriminate|].
  cbn [mainLoop].
  pose proof (iteration_safe p l s inp K R C I F) as H.
  pose proof (iteration_sane p l s inp K) as [T U].
  destruct (iteration p l s inp) as [[l1|l1|line1 err1] s1 inp1|s1|s1];
    cbn [final] in T; try (intros M; injection M as <-; discriminate);
    [|contradiction].
  destruct U as [[used [_ U]] _].
  destruct (touched_frame _ _ T) as [_ [Hc [Hm _]]].
  apply IH.
  - exact (touched_ring_ok _ _ T K).
  - exact (roomy_columns p s s1 Hc R).
  - rewrite Hm. exact C.
  - exact H.
  - rewrite U in F. apply Forall_app in F. exact (proj2 F).
Qed.

(** The locals stay in order from round to round. *)
Lemma reaches_in_line (p : gostring) (x y : Loop.locals * State * list event) :
  reaches p x y ->
  ring_ok (snd (fst x)) -> roomy p (snd (fst x)) ->
  completer (snd (fst x)) = None -> in_line (fst (fst x)) ->
  Forall no_search (snd x) ->
  in_line (fst (fst y)).
Proof.
  induction 1 as [x|l s inp l1 s1 inp1 y E _ IH]; intros K R C I F; [exact I|].
  cbn [fst snd] in *.
  pose proof (iteration_safe p l s inp K R C I F) as H.
  pose proof (iteration_sane p l s inp K) as [T U].
  rewrite E in *. cbn [final in_line_after] in *.
  destruct U as [[used [_ U]] _].
  destruct (touched_frame _ _ T) as [_ [Hc [Hm _]]].
  apply IH.
  - exact (touched_ring_ok _ _ T K).
  - exact (roomy_columns p s s1 Hc R).
  - rewrite Hm. exact C.
  - exact H.
  - rewrite U in F. apply Forall_app in F. exact (proj2 F).
Qed.

(** [Prompt] does not panic: without a completer, on a terminal that
    leaves two columns or more after the prompt and the cursor, and with
    a kill ring in order, every sequence of events that holds no CTRL-R
    makes it return or leaves it waiting for the next key.  At the head
    of every round that the loop comes to, whatever the keys before it,
    a yank among them or not, the cursor is in the line or at its end and
    the place in the history snapshot is in the snapshot or at its
    end. *)
Theorem prompt_never_panics
  (fb : gostring -> State -> list event -> outcome (gostring * option error))
  (p : gostring) (s : State) (inp : list event) :
  terminalSupported s = true -> ring_ok s -> completer s = None ->
  2 <= termWidth s - RuneCountInString (stripAnsiColorSequences p) - 1 ->
  Forall (fun ev => ev <> Key (Rune ctrlR)) inp ->
  (exists o, Prompt fb p s inp = Some o /\ forall s', o <> Panicked s')
  /\ (forall l' s' rest,
        reaches p (initial (entered p s), entered p s, inp) (l', s', rest) ->
        0 <= Loop.pos l' <= len (Loop.line l')
        /\ 0 <= Loop.historyPos l' <= len (Loop.prefixHistory l')).
Proof.
  intros TS K C W F.
  destruct (entered_emits p s) as [ops [Es _]].
  assert (K1 : ring_ok (entered p s))
    by (unfold ring_ok; rewrite entered_ring; exact K).
  assert (W1 : roomy p (entered p s))
    by (unfold roomy; rewrite entered_columns; exact W).
  assert (C1 : completer (entered p s) = None) by (rewrite Es; exact C).
  assert (I1 : in_line (initial (entered p s))).
  { unfold in_line, initial. cbn [Loop.pos Loop.line Loop.historyPos Loop.prefixHistory].
    pose proof (len_nonneg (getHistoryByPrefix (entered p s) (string_of_runes []))).
    unfold len at 1. cbn [length]. lia. }
  split.
  - destruct (Prompt_total fb p s inp TS K) as [o [P _]].
    exists o. split; [exact P|].
    revert P. unfold Prompt. rewrite TS. cbn [negb].
    destruct (terminalOutput s); cbn [negb];
      [|intros P; injection P as <-; discriminate].
    destruct (entered_Ret p s) as [e E]. rewrite E.
    apply mainLoop_safe; assumption.
  - intros l' s' rest Rch.
    exact (reaches_in_line p _ _ Rch K1 W1 C1 I1 F).
Qed.

Lemma prompt_never_panics_witness :
  (exists o,
     Prompt noFallback (str "> ") (set_history (newState 80) [str "ls"])
       [Key (Rune 97); Key (Rune 32); Key (Rune 98); Key (Rune ctrlT);
        Key (Action Act.wordLeft); Key (Rune ctrlW); Key (Rune ctrlY);
        Key (Action Act.altY); Key (Action Act.up); Key (Action Act.down);
        Key (Rune tab); Key (Rune ctrlK)] = Some o
     /\ forall s', o <> Panicked s')
  /\ (forall l' s' rest,
        reaches (str "> ")
          (initial (entered (str "> ") (set_history (newState 80) [str "ls"])),
           entered (str "> ") (set_history (newState 80) [str "ls"]),
           [Key (Rune 97); Key (Rune 32); Key (Rune 98); Key (Rune ctrlT);
            Key (Action Act.wordLeft); Key (Rune ctrlW); Key (Rune ctrlY);
            Key (Action Act.altY); Key (Action Act.up); Key (Action Act.down);
            Key (Rune tab); Key (Rune ctrlK)])
          (l', s', rest) ->
        0 <= Loop.pos l' <= len (Loop.line l')
        /\ 0 <= Loop.historyPos l' <= len (Loop.prefixHistory l')).
Proof.
  apply (prompt_never_panics noFallback (str "> ")
           (set_history (newState 80) [str "ls"])).
  - reflexivity.
  - split; [vm_compute; discriminate|constructor].
  - reflexivity.
  - vm_compute. discriminate.
  - repeat (apply Forall_cons; [discriminate|]). apply Forall_nil.
Defined.

(** ** The key that ends a yank *)

(** CTRL-Y does not take a round of its own.  The yank it starts reads
    on, and the key that ends it, one that is neither CTRL-Y nor CTRL-R,
    goes to the switch in the round of the CTRL-Y, with the text of the
    ring in the line and the kill latch as the round found it: a kill
    before the CTRL-Y and a kill that ends the yank are consecutive. *)
Theorem yank_key_same_round (p : gostring) (l : Loop.locals) (s : State)
  (n : nat) (k : iface) (inp : list event) :
  roomy p s -> killRing s <> [] -> filled (killRing s) ->
  0 <= Loop.pos l <= len (Loop.line l) ->
  leaves_yank k = true -> is_rune k ctrlY = false -> is_rune k ctrlR = false ->
  exists l' ops,
    iteration p l s
      (Key (Rune ctrlY) :: map Key (repeat (Action Act.altY) n) ++ Key k :: inp)
    = run (dispatched p k l')
          (emits (set_killRing s (Nat.iter n ring_Prev (killRing s))) ops)
          (fun c s' => Done c s' inp)
    /\ Loop.line l'
       = yanked (Loop.line l) (Loop.pos l)
           (ring_text (Nat.iter n ring_Prev (killRing s)))
    /\ Loop.pos l'
       = Loop.pos l + len (ring_text (Nat.iter n ring_Prev (killRing s)))
    /\ Loop.killAction l' = Loop.killAction l.
Proof.
  intros R N F B K Y S.
  destruct (yank_loop_rotates true p (firstn (Z.to_nat (Loop.pos l)) (Loop.line l))
              (skipn (Z.to_nat (Loop.pos l)) (Loop.line l)) k inp n K Y s R N F)
    as [ops E].
  eexists _, ops. split; [|split; [|split]].
  - unfold iteration, hooks, hookTab. cbn [is_rune].
    change (ctrlY =? tab) with false. cbn [and_then]. unfold hookYank.
    cbn [is_rune Loop.line Loop.pos Loop.set_historyAction].
    rewrite Z.eqb_refl. cbn [andb].
    replace (negb (ring_Len (killRing s) =? 0)) with true.
    2:{ unfold ring_Len, len. destruct (killRing s); [congruence|reflexivity]. }
    unfold yanks, run at 1. rewrite split_at by exact B.
    rewrite E. cbn [resume and_then]. unfold hookSearch. rewrite S.
    reflexivity.
  - reflexivity.
  - cbn [Loop.pos Loop.set_pos]. rewrite len_firstn by exact B. reflexivity.
  - reflexivity.
Qed.

Lemma yank_key_same_round_witness :
  let s := set_killRing (newState 80) [Some (runes (str "def"))] in
  let l := Loop.mk (runes (str "abc")) 3 [] [] 0 false 1 in
  exists l' ops,
    iteration (str "> ") l s [Key (Rune ctrlY); Key (Rune ctrlU)]
    = run (dispatched (str "> ") (Rune ctrlU) l') (emits s ops)
          (fun c s' => Done c s' [])
    /\ Loop.line l' = runes (str "abcdef")
    /\ Loop.pos l' = 6
    /\ Loop.killAction l' = 1.
Proof.
  intros s l.
  apply (yank_key_same_round (str "> ") l s 0 (Rune ctrlU) []).
  - unfold roomy. vm_compute. discriminate.
  - discriminate.
  - repeat constructor. discriminate.
  - vm_compute. split; discriminate.
  - reflexivity.
  - reflexivity.
  - reflexivity.
Defined.

(** ** Recalling a line by its beginning *)

Lemma EncodeRune_DecodeRune (b : byte) (s : gostring) :
  negb ((fst (DecodeRune (b :: s)) =? RuneError)
        && (snd (DecodeRune (b :: s)) =? 1)%nat) = true ->
  EncodeRune (fst (DecodeRune (b :: s))) = firstn (snd (DecodeRune (b :: s))) (b :: s).
Proof.
  unfold DecodeRune, first, RuneError.
  repeat match goal with
         | |- context [if ?c then _ else _] => destruct c eqn:?
         | |- context [match ?x with _ => _ end] => destruct x
         end; cbn [fst snd firstn Nat.eqb andb negb]; intros V;
    try discriminate V; try (rewrite Z.eqb_refl in V; discriminate V).
  all: unfold EncodeRune, MaxRune.
  all: repeat (decide_if; cbv beta iota).
  all: try (exfalso; btest).
  all: repeat (f_equal; try btest).
Qed.

Lemma string_of_runes_loop (fuel : nat) :
  forall s : gostring,
  (length s <= fuel)%nat -> Valid_loop fuel s = true ->
  string_of_runes (runes_loop fuel s) = s.
Proof.
  induction fuel as [|fuel IH]; intros s L V.
  - destruct s; [reflexivity|cbn [length] in L; lia].
  - destruct s as [|b s]; [reflexivity|].
    cbn [runes_loop Valid_loop] in *.
    pose proof (EncodeRune_DecodeRune b s) as E.
    pose proof (DecodeRune_size b s) as Z.
    destruct (DecodeRune (b :: s)) as [r size]. cbn [fst snd] in *.
    apply andb_true_iff in V. destruct V as [V1 V2].
    cbn [string_of_runes flat_map]. fold (string_of_runes (runes_loop fuel (skipn size (b :: s)))).
    rewrite IH; [|rewrite length_skipn; cbn [length] in *; lia|exact V2].
    rewrite (E V1). apply firstn_skipn.
Qed.

(** [string([]rune(s))] is [s] when [s] is valid UTF-8. *)
Lemma string_of_runes_runes (s : gostring) :
  Valid s = true -> string_of_runes (runes s) = s.
Proof. intros V. apply string_of_runes_loop; [lia|exact V]. Qed.

Lemma round_inserts_snapshot (p : gostring) (v : rune) (l : Loop.locals)
  (s : State) (inp : list event) :
  inserts v = true -> roomy p s ->
  0 <= Loop.pos l <= len (Loop.line l) ->
  exists l' ops,
    iteration p l s (Key (Rune v) :: inp) = Done (Continue l') (emits s ops) inp
    /\ Loop.line l' = inserted (Loop.line l) (Loop.pos l) v
    /\ Loop.pos l' = Loop.pos l + 1
    /\ fresh_snapshot l' (emits s ops).
Proof.
  intros I R B.
  rewrite iteration_plain by (cbn [is_rune]; not_control v).
  unfold run, dispatched, bind at 1. cbn [dispatch].
  destruct (dispatchRune_inserts p v (Loop.set_historyAction l false) s I R)
    as [ops H]; [destruct l; exact B|].
  rewrite H. unfold bottom, bind, get, ret.
  eexists _, ops. split; [reflexivity|].
  destruct l as [line pos hE ph hp hA kA].
  cbn [Loop.historyAction Loop.set_historyAction Loop.set_line Loop.set_pos negb
       Loop.line Loop.pos Loop.killAction Loop.set_prefixHistory
       Loop.set_historyPos Loop.prefixHistory Loop.historyPos Loop.historyEnd].
  unfold fresh_snapshot.
  destruct (0 <? kA); cbn [Loop.line Loop.pos Loop.prefixHistory Loop.historyPos
                           Loop.set_killAction]; auto.
Qed.

Lemma recalled_older (l : Loop.locals) (s : State) :
  fresh_snapshot l s ->
  Loop.line (settled (older l)) = recalled (history s) (Loop.line l).
Proof.
  intros [P H]. unfold recalled, settled, older. rewrite H, P. unfold getHistoryByPrefix.
  set (ph := filter _ (history s)).
  assert (L : forall l0 : Loop.locals,
            Loop.line (if 0 <? Loop.killAction (Loop.set_historyAction l0 true)
                       then Loop.set_killAction (Loop.set_historyAction l0 true)
                              (Loop.killAction (Loop.set_historyAction l0 true) - 1)
                       else Loop.set_historyAction l0 true) = Loop.line l0)
    by (intros [? ? ? ? ? ? kA]; cbn; destruct (0 <? kA); reflexivity).
  cbv zeta. rewrite L.
  destruct (rev ph) as [|e t] eqn:E.
  - apply (f_equal (@rev _)) in E. rewrite rev_involutive in E. cbn [rev] in E.
    rewrite E. reflexivity.
  - apply (f_equal (@rev _)) in E. rewrite rev_involutive in E. cbn [rev] in E.
    rewrite E. replace (0 <? len (rev t ++ [e])) with true
      by (rewrite len_app; pose proof (len_nonneg (rev t)); unfold len at 2;
          cbn [length]; lia).
    cbn [Loop.line]. f_equal.
    replace (Z.to_nat (len (rev t ++ [e]) - 1)) with (length (rev t))
      by (unfold len; rewrite length_app; cbn [length]; lia).
    rewrite app_nth2, Nat.sub_diag by lia. reflexivity.
Qed.

(** Runes typed at the end of the line, then up, then CR or LF. *)
Lemma recall_mainLoop (p : gostring) (k : iface) (enter : rune)
  (rest : list event) (rs : list rune) :
  is_up k -> enter = cr \/ enter = lf ->
  forall (fuel : nat) (l : Loop.locals) (s : State),
  (length rs + 1 < fuel)%nat -> roomy p s ->
  Loop.pos l = len (Loop.line l) -> fresh_snapshot l s ->
  Forall (fun v => inserts v = true) rs ->
  exists ops,
    mainLoop fuel p l s
      (map (fun v => Key (Rune v)) rs ++ Key k :: Key (Rune enter) :: rest)
    = Some (Done (string_of_runes (recalled (history s) (Loop.line l ++ rs)), None)
                 (emits s ops) rest).
Proof.
  intros U E. induction rs as [|v rs IH]; intros fuel l s L R P S F.
  - destruct fuel as [|[|fuel]]; [cbn [length] in L; lia..|].
    cbn [map app]. rewrite app_nil_r.
    assert (H : 0 <= Loop.historyPos l <= len (Loop.prefixHistory l))
      by (destruct S as [_ S]; rewrite S; pose proof (len_nonneg (Loop.prefixHistory l)); lia).
    destruct (proj1 (round_history p k l s (Key (Rune enter) :: rest) R H) U)
      as [ops1 H1].
    cbn [mainLoop]. rewrite H1.
    rewrite iteration_plain
      by (cbn [is_rune]; destruct E; subst enter; reflexivity).
    unfold run, dispatched, bind. cbn [dispatch]. unfold dispatchRune.
    replace ((enter =? cr) || (enter =? lf)) with true by lia.
    unfold bind. destruct (fmt_Print_returns [lf] (emits s ops1)) as [e [ops2 H2]].
    rewrite H2. unfold ret. exists (ops1 ++ ops2). rewrite emits_emits.
    rewrite <- (recalled_older l s S). destruct (settled (older l)). reflexivity.
  - destruct fuel as [|fuel]; [cbn [length] in L; lia|].
    inversion F as [|? ? Hv Hrs]; subst.
    cbn [mainLoop map app].
    pose proof (len_nonneg (Loop.line l)) as N.
    destruct (round_inserts_snapshot p v l s
                (map (fun v => Key (Rune v)) rs ++ Key k :: Key (Rune enter) :: rest)
                Hv R) as [l' [ops1 [H [H1 [H2 H3]]]]]; [lia|].
    rewrite H.
    destruct (IH fuel l' (emits s ops1)) as [ops2 H']; try assumption.
    + cbn [length] in L. lia.
    + rewrite H1, H2, len_inserted by lia. lia.
    + rewrite H'. exists (ops1 ++ ops2). rewrite emits_emits.
      rewrite H1, P, inserted_end, <- app_assoc. reflexivity.
Qed.

Lemma filter_none {A : Type} (f : A -> bool) (l : list A) :
  Forall (fun x => f x = false) l -> filter f l = [].
Proof.
  induction 1 as [|x l H _ IH]; [reflexivity|]. cbn [filter]. rewrite H. exact IH.
Qed.

Lemma recalled_newest (old new : list gostring) (e : gostring) (line : list rune) :
  HasPrefix e (string_of_runes line) = true ->
  Forall (fun x => HasPrefix x (string_of_runes line) = false) new ->
  recalled (old ++ e :: new) line = runes e.
Proof.
  intros H F. unfold recalled. rewrite filter_app. cbn [filter]. rewrite H.
  rewrite (filter_none _ new F), rev_app_distr. reflexivity.
Qed.

Lemma recalled_none (h : list gostring) (line : list rune) :
  Forall (fun x => HasPrefix x (string_of_runes line) = false) h ->
  recalled h line = line.
Proof. intros F. unfold recalled. rewrite (filter_none _ h F). reflexivity. Qed.

Lemma entered_history (p : gostring) (s : State) : history (entered p s) = history s.
Proof. destruct (entered_emits p s) as [ops [E _]]. rewrite E. reflexivity. Qed.

(** Text typed at the prompt, then up or CTRL-P, then CR or LF: [Prompt]
    returns the newest entry of the history that begins with the text,
    as it is when it is valid UTF-8; when no entry begins with the text,
    it returns the text. *)
Theorem prompt_recalls_prefix
  (fb : gostring -> State -> list event -> outcome (gostring * option error))
  (p : gostring) (s : State) (rs : list rune) (k : iface) (enter : rune)
  (rest : list event) :
  terminalOutput s = true -> terminalSupported s = true ->
  2 <= termWidth s - RuneCountInString (stripAnsiColorSequences p) - 1 ->
  Forall (fun v => inserts v = true) rs -> is_up k -> enter = cr \/ enter = lf ->
  let keys := map (fun v => Key (Rune v)) rs ++ Key k :: Key (Rune enter) :: rest in
  let other := fun x : gostring => HasPrefix x (string_of_runes rs) = false in
  (forall old e new,
     history s = old ++ e :: new ->
     HasPrefix e (string_of_runes rs) = true -> Forall other new ->
     Valid e = true ->
     exists ops,
       Prompt fb p s keys = Some (Done (e, None) (emits (entered p s) ops) rest))
  /\ (Forall other (history s) ->
      exists ops,
        Prompt fb p s keys
        = Some (Done (string_of_runes rs, None) (emits (entered p s) ops) rest)).
Proof.
  intros TO TS W F U E keys other.
  assert (M : exists ops,
            Prompt fb p s keys
            = Some (Done (string_of_runes (recalled (history s) rs), None)
                         (emits (entered p s) ops) rest)).
  { unfold Prompt. rewrite TO, TS. cbn [negb].
    destruct (entered_Ret p s) as [e H]. rewrite H.
    rewrite <- (entered_history p s).
    apply (recall_mainLoop p k enter rest rs U E _ (initial (entered p s))
             (entered p s)).
    - unfold keys. rewrite length_app, length_map. cbn [length]. lia.
    - unfold roomy. rewrite entered_columns. exact W.
    - reflexivity.
    - split; reflexivity.
    - exact F. }
  destruct M as [ops M]. split.
  - intros old e new Hh He Hn V. exists ops. rewrite M, Hh.
    rewrite (recalled_newest old new e rs He Hn), string_of_runes_runes by exact V.
    reflexivity.
  - intros Hn. exists ops. rewrite M, (recalled_none _ rs Hn). reflexivity.
Qed.

Lemma prompt_recalls_prefix_witness :
  exists ops,
    Prompt noFallback (str "> ")
      (set_history (newState 80) [str "git status"; str "git push"; str "ls"])
      (map (fun v => Key (Rune v)) (runes (str "gi"))
       ++ Key (Action Act.up) :: Key (Rune cr) :: [])
    = Some (Done (str "git push", None)
              (emits (entered (str "> ")
                        (set_history (newState 80)
                           [str "git status"; str "git push"; str "ls"])) ops) []).
Proof.
  apply (proj1 (prompt_recalls_prefix noFallback (str "> ")
                  (set_history (newState 80)
                     [str "git status"; str "git push"; str "ls"])
                  (runes (str "gi")) (Action Act.up) cr []
                  eq_refl eq_refl ltac:(vm_compute; discriminate)
                  ltac:(repeat constructor) ltac:(left; reflexivity)
                  ltac:(left; reflexivity))
          [str "git status"] (str "git push") [str "ls"]).
  - reflexivity.
  - reflexivity.
  - repeat constructor.
  - reflexivity.
Defined.

(** ** Moving by words, and swapping two runes *)

Lemma index_at {A : Type} (a b : list A) (c : A) (i : Z) :
  i = len a -> index (a ++ c :: b) i = Some c.
Proof.
  intros ->. unfold index. rewrite len_app.
  pose proof (len_nonneg a). pose proof (len_nonneg b).
  replace ((0 <=? len a) && (len a <? len a + len (c :: b))) with true
    by (unfold len in *; cbn [length]; lia).
  unfold len. rewrite Nat2Z.id, nth_error_app2, Nat.sub_diag by lia. reflexivity.
Qed.

Lemma wordLeft_loop_spec (fuel : nat) :
  forall (a b : list rune) (s : State),
  a <> [] -> (length a <= fuel)%nat ->
  exists a2 m c,
    a = a2 ++ m ++ [c]
    /\ Forall (fun x => IsSpace x = false) m
    /\ ends_in_space a2
    /\ wordLeft_loop fuel (a ++ b) (len a) s = Ret (len a2) s.
Proof.
  induction fuel as [|fuel IH]; intros a b s N L.
  - destruct a; [congruence|cbn [length] in L; lia].
  - destruct (exists_last N) as [a1 [c ->]]. cbn [wordLeft_loop]. cbv zeta.
    assert (P : len (a1 ++ [c]) - 1 = len a1)
      by (rewrite len_app; unfold len; cbn [length]; lia).
    rewrite P.
    destruct a1 as [|x a1'] eqn:Ea.
    + exists [], [], c. repeat split; [constructor|left; reflexivity].
    + rewrite <- Ea in *.
      assert (N1 : a1 <> []) by (rewrite Ea; discriminate).
      replace (len a1 =? 0) with false
        by (rewrite Ea; unfold len; cbn [length]; lia).
      destruct (exists_last N1) as [a0 [d Ed]].
      unfold bind, check.
      replace (index ((a1 ++ [c]) ++ b) (len a1 - 1)) with (Some d).
      2:{ symmetry. rewrite Ed, <- !app_assoc. apply index_at.
          rewrite len_app. unfold len. cbn [length]. lia. }
      unfold ret at 1. cbv beta iota.
      destruct (IsSpace d) eqn:Sp.
      * exists a1, [], c. split; [reflexivity|]. split; [constructor|].
        split; [right; exists a0, d; auto|reflexivity].
      * destruct (IH a1 ([c] ++ b) s N1) as [a2 [m [c' [E [F [S H]]]]]].
        { rewrite length_app in L. cbn [length] in L. lia. }
        assert (c' = d).
        { rewrite Ed in E. rewrite !app_assoc in E.
          apply app_inj_tail in E. symmetry. exact (proj2 E). }
        subst c'. exists a2, (m ++ [d]), c. split; [|split; [|split]].
        -- rewrite E, <- !app_assoc. reflexivity.
        -- apply Forall_app. split; [exact F|repeat constructor; exact Sp].
        -- exact S.
        -- rewrite <- app_assoc. exact H.
Qed.

Lemma wordRight_loop_spec (fuel : nat) :
  forall (a b : list rune) (s : State),
  b <> [] -> (length b <= fuel)%nat ->
  exists c m b2,
    b = c :: m ++ b2
    /\ Forall (fun x => IsSpace x = false) m
    /\ begins_with_space b2
    /\ wordRight_loop fuel (a ++ b) (len a) s = Ret (len a + 1 + len m) s.
Proof.
  induction fuel as [|fuel IH]; intros a b s N L.
  - destruct b; [congruence|cbn [length] in L; lia].
  - destruct b as [|c b1]; [congruence|]. cbn [wordRight_loop]. cbv zeta.
    destruct b1 as [|d b0] eqn:Eb.
    + exists c, [], []. split; [reflexivity|]. split; [constructor|].
      split; [left; reflexivity|].
      replace (len a + 1 =? len (a ++ [c])) with true
        by (rewrite len_app; unfold len; cbn [length]; lia).
      unfold ret. f_equal. unfold len. cbn [length]. lia.
    + rewrite <- Eb in *.
      assert (N1 : b1 <> []) by (rewrite Eb; discriminate).
      replace (len a + 1 =? len (a ++ c :: b1)) with false
        by (rewrite len_app, Eb; unfold len; cbn [length]; lia).
      unfold bind, check.
      replace (index (a ++ c :: b1) (len a + 1)) with (Some d).
      2:{ symmetry. rewrite Eb.
          change (a ++ c :: d :: b0) with (a ++ [c] ++ d :: b0).
          rewrite app_assoc. apply index_at.
          rewrite len_app. unfold len. cbn [length]. lia. }
      unfold ret at 1. cbv beta iota.
      destruct (IsSpace d) eqn:Sp.
      * exists c, [], b1. split; [reflexivity|]. split; [constructor|].
        split; [right; exists d, b0; auto|].
        unfold ret. f_equal. unfold len. cbn [length]. lia.
      * destruct (IH (a ++ [c]) b1 s N1) as [c' [m [b2 [E [F [S H]]]]]].
        { cbn [length] in L. lia. }
        assert (c' = d) by (rewrite Eb in E; congruence).
        subst c'. exists c, (d :: m), b2. split; [|split; [|split]].
        -- rewrite E. reflexivity.
        -- constructor; assumption.
        -- exact S.
        -- replace (a ++ c :: b1) with ((a ++ [c]) ++ b1)
             by (rewrite <- app_assoc; reflexivity).
           replace (len a + 1) with (len (a ++ [c]))
             by (rewrite len_app; unfold len; cbn [length]; lia).
           rewrite H. f_equal. rewrite len_app. unfold len. cbn [length]. lia.
Qed.

(** The switch on an action, and the bottom of the loop body after it. *)
Lemma round_action (p : gostring) (v : action) (l l1 : Loop.locals) (s : State)
  (inp : list event) (step : M Loop.locals) :
  roomy p s ->
  dispatchAction p v (Loop.set_historyAction l false)
  = (l' <- step ;; redraw p l' ;;; ret (Continue l')) ->
  step s = Ret l1 s ->
  exists l2 ops,
    iteration p l s (Key (Action v) :: inp) = Done (Continue l2) (emits s ops) inp
    /\ Loop.line l2 = Loop.line l1 /\ Loop.pos l2 = Loop.pos l1.
Proof.
  intros R D H. rewrite iteration_plain by reflexivity.
  unfold run, dispatched, bind at 1. cbn [dispatch]. rewrite D.
  unfold bind at 1. rewrite H. unfold bind at 1.
  destruct (redraw_returns p l1 s R) as [ops E]. rewrite E.
  unfold ret at 1. cbv beta iota. unfold ret at 1. cbv beta iota.
  unfold bind at 1.
  destruct (bottom_latch l1 (emits s ops)) as [l2 [B [B1 [B2 _]]]]. rewrite B.
  unfold ret. exists l2, ops. auto.
Qed.

(** Word left and word right move the cursor over the rune next to it and
    over the runes after that which are no white space: word left, from
    the end of [a], stops at the start of the line or after a white space;
    word right, from the start of [b], stops at the end of the line or
    before a white space.  The line stays as it is. *)
Theorem word_motion (p : gostring) (l : Loop.locals) (s : State)
  (a b : list rune) (inp : list event) :
  roomy p s -> Loop.line l = a ++ b -> Loop.pos l = len a ->
  (a <> [] ->
   exists a2 m c l' ops,
     a = a2 ++ m ++ [c]
     /\ Forall (fun x => IsSpace x = false) m /\ ends_in_space a2
     /\ iteration p l s (Key (Action Act.wordLeft) :: inp)
        = Done (Continue l') (emits s ops) inp
     /\ Loop.line l' = a ++ b /\ Loop.pos l' = len a2)
  /\ (b <> [] ->
      exists c m b2 l' ops,
        b = c :: m ++ b2
        /\ Forall (fun x => IsSpace x = false) m /\ begins_with_space b2
        /\ iteration p l s (Key (Action Act.wordRight) :: inp)
           = Done (Continue l') (emits s ops) inp
        /\ Loop.line l' = a ++ b /\ Loop.pos l' = len (a ++ c :: m)).
Proof.
  intros R Hl Hp. split; intros N.
  - destruct (wordLeft_loop_spec (Z.to_nat (len a)) a b s N)
      as [a2 [m [c [E [F [S H]]]]]]; [unfold len; lia|].
    destruct (round_action p Act.wordLeft l
                (Loop.set_pos (Loop.set_historyAction l false) (len a2)) s inp
                (pos <- wordLeft_loop (Z.to_nat (len a)) (a ++ b) (len a) ;;
                 ret (Loop.set_pos (Loop.set_historyAction l false) pos)) R)
      as [l2 [ops [I [L2 P2]]]].
    + unfold dispatchAction. destruct l as [line pos hE ph hp hA kA].
      cbn [Loop.line Loop.pos Loop.set_historyAction] in *. subst line pos.
      replace (0 <? len a) with true
        by (destruct a; [congruence|unfold len; cbn [length]; lia]).
      reflexivity.
    + unfold bind. rewrite H. reflexivity.
    + exists a2, m, c, l2, ops. repeat (split; [assumption|]).
      rewrite L2, P2. destruct l. split; [exact Hl|reflexivity].
  - destruct (wordRight_loop_spec (Z.to_nat (len (a ++ b) - len a)) a b s N)
      as [c [m [b2 [E [F [S H]]]]]]; [rewrite len_app; unfold len; lia|].
    destruct (round_action p Act.wordRight l
                (Loop.set_pos (Loop.set_historyAction l false) (len a + 1 + len m))
                s inp
                (pos <- wordRight_loop (Z.to_nat (len (a ++ b) - len a)) (a ++ b)
                          (len a) ;;
                 ret (Loop.set_pos (Loop.set_historyAction l false) pos)) R)
      as [l2 [ops [I [L2 P2]]]].
    + unfold dispatchAction. destruct l as [line pos hE ph hp hA kA].
      cbn [Loop.line Loop.pos Loop.set_historyAction] in *. subst line pos.
      replace (len a <? len (a ++ b)) with true
        by (rewrite len_app; destruct b; [congruence|unfold len; cbn [length]; lia]).
      reflexivity.
    + unfold bind. rewrite H. reflexivity.
    + exists c, m, b2, l2, ops. repeat (split; [assumption|]).
      rewrite L2, P2. destruct l. split; [exact Hl|].
      cbn [Loop.pos Loop.set_pos]. rewrite len_app. unfold len. cbn [length]. lia.
Qed.

Lemma word_motion_witness :
  exists a2 m c l' ops,
    runes (str "ls foo") = a2 ++ m ++ [c]
    /\ Forall (fun x => IsSpace x = false) m /\ ends_in_space a2
    /\ iteration (str "> ") (Loop.mk (runes (str "ls foo bar")) 6 [] [] 0 false 0)
         (newState 80) [Key (Action Act.wordLeft)]
       = Done (Continue l') (emits (newState 80) ops) []
    /\ Loop.line l' = runes (str "ls foo") ++ runes (str " bar")
    /\ Loop.pos l' = len a2.
Proof.
  apply (proj1 (word_motion (str "> ")
                  (Loop.mk (runes (str "ls foo bar")) 6 [] [] 0 false 0)
                  (newState 80) (runes (str "ls foo")) (runes (str " bar")) []
                  ltac:(unfold roomy; vm_compute; discriminate) eq_refl eq_refl)).
  discriminate.
Defined.

(** CTRL-T swaps two runes and leaves the cursor after them: the rune
    before the cursor and the one under it, or the last two runes of the
    line when the cursor is at its end. *)
Theorem ctrlT_swaps (p : gostring) (l : Loop.locals) (s : State)
  (a b : list rune) (x y : rune) (inp : list event) :
  roomy p s -> Loop.line l = a ++ [x; y] ++ b ->
  Loop.pos l = len a + 1 \/ (b = [] /\ Loop.pos l = len a + 2) ->
  exists l' ops,
    iteration p l s (Key (Rune ctrlT) :: inp) = Done (Continue l') (emits s ops) inp
    /\ Loop.line l' = a ++ [y; x] ++ b /\ Loop.pos l' = len a + 2.
Proof.
  intros R Hl Hp.
  assert (D : exists ops,
            dispatchRune p ctrlT (Loop.set_historyAction l false) s
            = Ret (Continue (Loop.set_pos
                               (Loop.set_line (Loop.set_historyAction l false)
                                  (a ++ [y; x] ++ b)) (len a + 2)))
                  (emits s ops)).
  { unfold dispatchRune.
    cbn [Z.eqb ctrlT ctrlK cr lf ctrlA ctrlE ctrlB ctrlF ctrlD ctrlP ctrlN
         Pos.eqb orb].
    destruct l as [line pos hE ph hp hA kA].
    cbn [Loop.line Loop.pos Loop.set_historyAction] in *. subst line.
    pose proof (len_nonneg a) as Na. pose proof (len_nonneg b) as Nb.
    assert (L : len (a ++ [x; y] ++ b) = len a + 2 + len b)
      by (rewrite !len_app; unfold len; cbn [length]; lia).
    rewrite L.
    replace ((len a + 2 + len b <? 2) || (pos <? 1)) with false by lia.
    set (q := if pos =? len a + 2 + len b then pos - 1 else pos).
    assert (Q : q = len a + 1).
    { subst q. destruct Hp as [->|[-> ->]].
      - replace (len a + 1 =? len a + 2 + len b) with false by lia. reflexivity.
      - change (len []) with 0.
        replace (len a + 2 =? len a + 2 + 0) with true by lia. lia. }
    rewrite Q. unfold bind at 1, check at 1.
    rewrite (index_at a (y :: b) x) by lia.
    unfold ret at 1. cbv beta iota. unfold bind at 1, check at 1.
    replace (index (a ++ [x; y] ++ b) (len a + 1)) with (Some y).
    2:{ symmetry. change (a ++ [x; y] ++ b) with (a ++ [x] ++ y :: b).
        rewrite app_assoc. apply index_at.
        rewrite len_app. unfold len. cbn [length]. lia. }
    unfold ret at 1. cbv beta iota. unfold bind.
    replace (firstn (Z.to_nat (len a + 1 - 1)) (a ++ [x; y] ++ b)) with a.
    2:{ replace (Z.to_nat (len a + 1 - 1)) with (length a) by (unfold len; lia).
        rewrite firstn_app, Nat.sub_diag, firstn_all. cbn [firstn app].
        rewrite app_nil_r. reflexivity. }
    replace (skipn (Z.to_nat (len a + 1 + 1)) (a ++ [x; y] ++ b)) with b.
    2:{ replace (Z.to_nat (len a + 1 + 1)) with (length a + 2)%nat
          by (unfold len; lia).
        rewrite skipn_app, skipn_all2 by lia.
        replace (length a + 2 - length a)%nat with 2%nat by lia. reflexivity. }
    match goal with |- context [redraw p ?l' ?s'] =>
      destruct (redraw_returns p l' s' R) as [ops H]; rewrite H
    end.
    exists ops. unfold ret. do 3 f_equal. lia. }
  destruct D as [ops D].
  destruct (dispatched_Continue _ _ _ _ _ _ D) as [l2 [E [L2 [P2 _]]]].
  exists l2, ops. split; [|split].
  - rewrite iteration_plain by reflexivity. unfold run. rewrite E. reflexivity.
  - rewrite L2. reflexivity.
  - rewrite P2. reflexivity.
Qed.

Lemma ctrlT_swaps_witness :
  exists l' ops,
    iteration (str "> ") (Loop.mk (runes (str "sl -l")) 1 [] [] 0 false 0)
      (newState 80) [Key (Rune ctrlT)]
    = Done (Continue l') (emits (newState 80) ops) []
    /\ Loop.line l' = [] ++ [108; 115] ++ runes (str " -l") /\ Loop.pos l' = len (@nil rune) + 2.
Proof.
  apply (ctrlT_swaps (str "> ") (Loop.mk (runes (str "sl -l")) 1 [] [] 0 false 0)
           (newState 80) [] (runes (str " -l")) 115 108 []).
  - unfold roomy. vm_compute. discriminate.
  - reflexivity.
  - left. reflexivity.
Defined.

(** ** Completion with a completer of the text before the cursor *)

Lemma string_of_runes_ascii (line : list rune) :
  ascii_line line -> string_of_runes line = line.
Proof.
  induction 1 as [|r line H _ IH]; [reflexivity|].
  cbn [string_of_runes flat_map]. fold (string_of_runes line). rewrite IH.
  unfold EncodeRune. replace (r <? 0) with false by lia.
  replace (r <=? 127) with true by lia. reflexivity.
Qed.

(** TAB pressed [n] times on the candidate at [listEntry], and then a key
    that picks_candidate. *)
Lemma tab_cycles (p : gostring) (line : list rune) (pos : Z) (head : gostring)
  (list' : list gostring) (tail : gostring) (k : iface) (inp : list event) :
  picks_candidate k = true ->
  forall (n : nat) (listEntry : Z) (s : State),
  roomy p s -> 0 <= listEntry < len list' ->
  exists pick ops,
    index list' ((listEntry + Z.of_nat n) mod len list') = Some pick
    /\ tabComplete_loop p line pos head list' tail (RuneCountInString head)
         listEntry s (map Key (repeat (Rune tab) n) ++ Key k :: inp)
       = Done (runes (head ++ pick ++ tail),
               RuneCountInString head + RuneCountInString pick, k, None)
              (emits s ops) inp.
Proof.
  intros C. unfold picks_candidate in C.
  apply andb_true_iff in C. destruct C as [C C3].
  apply andb_true_iff in C. destruct C as [C1 C2].
  apply negb_true_iff in C1, C2, C3.
  induction n as [|n IH]; intros listEntry s R B.
  - cbn [repeat map app].
    destruct (tabComplete_round p line pos head list' tail listEntry s k inp R B)
      as [pick [ops [I H]]].
    exists pick, ops. rewrite H, C1, C2, C3.
    replace (listEntry + Z.of_nat 0) with listEntry by lia.
    rewrite Z.mod_small by lia. split; [exact I|reflexivity].
  - cbn [repeat map app].
    destruct (tabComplete_round p line pos head list' tail listEntry s (Rune tab)
                (map Key (repeat (Rune tab) n) ++ Key k :: inp) R B)
      as [pick0 [ops0 [_ H]]].
    rewrite H. cbn [is_rune]. rewrite Z.eqb_refl.
    destruct (IH ((listEntry + 1) mod len list') (emits s ops0) R)
      as [pick [ops [I H']]]; [apply Z.mod_pos_bound; lia|].
    exists pick, (ops0 ++ ops). rewrite H', emits_emits. split; [|reflexivity].
    rewrite <- I. f_equal. rewrite Zplus_mod_idemp_l. f_equal. lia.
Qed.

(** After [SetCompleter f], on a line of ASCII runes with the cursor in
    it: the first TAB hands [f] the text before the cursor, TAB pressed
    [n] more times goes on through the candidates of [f], around and
    around, and the next key puts the candidate it finds on display in
    the place of the text before the cursor, keeps what follows the
    cursor, and leaves the cursor after the candidate. *)
Theorem set_completer_completes (p : gostring) (f : Completer) (line : list rune)
  (pos : Z) (s : State) (n : nat) (k : iface) (inp : list event) :
  roomy p s -> ascii_line line -> 0 <= pos <= len line ->
  f (string_of_runes (firstn (Z.to_nat pos) line)) <> [] -> picks_candidate k = true ->
  let cs := f (string_of_runes (firstn (Z.to_nat pos) line)) in
  let s' := SetCompleter s (Some f) in
  exists pick ops,
    index cs (Z.of_nat n mod len cs) = Some pick
    /\ tabComplete p line pos s' (map Key (repeat (Rune tab) n) ++ Key k :: inp)
       = Done (runes (pick ++ string_of_runes (skipn (Z.to_nat pos) line)),
               RuneCountInString pick, k, None) (emits s' ops) inp.
Proof.
  intros R A B N C cs s'.
  assert (A0 : ascii_line (firstn (Z.to_nat pos) line ++ skipn (Z.to_nat pos) line))
    by (rewrite firstn_skipn; exact A).
  apply Forall_app in A0. destruct A0 as [A1 A2].
  unfold tabComplete, s', SetCompleter. cbn [completer set_completer].
  rewrite (string_of_runes_ascii line A). cbv beta iota zeta.
  subst cs. rewrite (string_of_runes_ascii _ A1) in *.
  rewrite (string_of_runes_ascii _ A2).
  set (cs := f (firstn (Z.to_nat pos) line)) in *.
  assert (L : 0 < len cs)
    by (destruct cs eqn:E; [congruence|unfold len; cbn [length]; lia]).
  match goal with
  | |- context [if ?c then _ else _] =>
    assert (G : c = false) by (change ((len cs <=? 0) = false); lia); rewrite G
  end.
  destruct (tab_cycles p line pos [] cs (skipn (Z.to_nat pos) line) k inp C n 0
              (set_completer s (Some (fun line0 pos0 =>
                 ([], f (firstn (Z.to_nat pos0) line0),
                  skipn (Z.to_nat pos0) line0)))) R)
    as [pick [ops [I H]]]; [lia|].
  exists pick, ops. split; [exact I|].
  etransitivity; [exact H|reflexivity].
Qed.

Lemma set_completer_completes_witness :
  let f : Completer := fun _ => [str "list"; str "load"] in
  let s' := SetCompleter (newState 80) (Some f) in
  exists pick ops,
    index [str "list"; str "load"] (Z.of_nat 3 mod 2) = Some pick
    /\ tabComplete (str "> ") (runes (str "l x")) 1 s'
         (map Key (repeat (Rune tab) 3) ++ Key (Rune 32) :: [])
       = Done (runes (pick ++ string_of_runes (skipn (Z.to_nat 1) (runes (str "l x")))),
               RuneCountInString pick, Rune 32, None) (emits s' ops) [].
Proof.
  intros f s'.
  apply (set_completer_completes (str "> ") f (runes (str "l x")) 1 (newState 80)
           3 (Rune 32) []).
  - unfold roomy. vm_compute. discriminate.
  - repeat constructor; vm_compute; discriminate.
  - vm_compute. split; discriminate.
  - discriminate.
  - reflexivity.
Defined.

(** ** Searching for a line and taking it *)

Lemma EncodeRune_no_esc (r : rune) : r <> esc -> ~ In esc (EncodeRune r).
Proof.
  unfold EncodeRune, esc, MaxRune. intros N.
  repeat match goal with |- context [if ?c then _ else _] => destruct c eqn:? end;
    cbn [In]; intros H;
    repeat match goal with H : _ \/ _ |- _ => destruct H as [H|H] end;
    try contradiction; try lia;
    Z.div_mod_to_equations; lia.
Qed.

Lemma string_of_runes_no_esc (l : list rune) :
  Forall (fun r => search_types r = true) l -> ~ In esc (string_of_runes l).
Proof.
  induction 1 as [|r l H _ IH]; [exact (fun H => H)|].
  cbn [string_of_runes flat_map]. intros I. apply in_app_or in I.
  destruct I as [I|I]; [|exact (IH I)].
  apply (EncodeRune_no_esc r); [|exact I].
  rewrite search_types_printable in H. unfold inb, esc in *. lia.
Qed.

(** The prompt of the search with the pattern [line] in it takes 22
    columns and those of the pattern. *)
Lemma search_prompt_width (line : list rune) :
  Forall (fun r => search_types r = true) line ->
  RuneCountInString
    (stripAnsiColorSequences
       (str "(reverse-i-search)`" ++ string_of_runes line ++ str "': "))
  = 22 + len line.
Proof.
  intros F. unfold stripAnsiColorSequences.
  rewrite <- (app_nil_r (_ ++ _ ++ _)) at 1.
  rewrite stripAnsi_plain.
  - cbn [stripAnsi]. rewrite app_nil_r.
    rewrite <- (string_of_runes_ascii (str "(reverse-i-search)`"))
      by (repeat constructor; vm_compute; discriminate).
    rewrite <- (string_of_runes_ascii (str "': "))
      by (repeat constructor; vm_compute; discriminate).
    rewrite <- !string_of_runes_app, RuneCount_runes, !len_app.
    change (len (str "(reverse-i-search)`")) with 19.
    change (len (str "': ")) with 3. lia.
  - intros I. apply in_app_or in I. destruct I as [I|I].
    + vm_compute in I. intuition discriminate.
    + apply in_app_or in I. destruct I as [I|I].
      * exact (string_of_runes_no_esc line F I).
      * vm_compute in I. intuition discriminate.
Qed.

Lemma typed_all_snoc (s : State) (rs : list rune) (r : rune) (v : Search.locals) :
  typed_all s (rs ++ [r]) v = typed s r (typed_all s rs v).
Proof. unfold typed_all. rewrite fold_left_app. reflexivity. Qed.

Lemma typed_all_line (s : State) (rs : list rune) :
  forall v : Search.locals,
  Search.line (typed_all s rs v) = Search.line v ++ rs
  /\ (Search.pos v = len (Search.line v) ->
      Search.pos (typed_all s rs v) = len (Search.line (typed_all s rs v))).
Proof.
  induction rs as [|r rs IH]; intros v.
  - cbn. rewrite app_nil_r. auto.
  - change (typed_all s (r :: rs) v) with (typed_all s rs (typed s r v)).
    destruct (IH (typed s r v)) as [H1 H2]. rewrite H1. split.
    + cbn [typed Search.line]. rewrite <- app_assoc. reflexivity.
    + intros _. rewrite <- H1. apply H2. reflexivity.
Qed.

(** What the search has found once a pattern that is not empty is typed:
    the newest entry that holds it, and the empty line without one. *)
Lemma typed_all_found (s : State) (rs : list rune) (v : Search.locals) :
  rs <> [] ->
  Search.foundLine (typed_all s rs v)
  = last (matches s (string_of_runes (Search.line v ++ rs))) [].
Proof.
  intros N. destruct (exists_last N) as [rs' [r ->]].
  rewrite typed_all_snoc. cbn [typed Search.foundLine].
  rewrite (proj1 (typed_all_line s rs' v)), <- app_assoc. reflexivity.
Qed.

Lemma search_loop_typed (origLine : list rune) (origPos : Z) (r : rune)
  (v : Search.locals) (s : State) (inp : list event) :
  search_types r = true -> Search.pos v = len (Search.line v) ->
  reverseISearch_loop origLine origPos v s (Key (Rune r) :: inp)
  = run (let '(p, l, n) := getLine (typed s r v) in refresh p l n) s
        (fun _ s' => reverseISearch_loop origLine origPos (typed s r v) s' inp).
Proof.
  intros T P. cbn [reverseISearch_loop]. pose proof T as T'.
  unfold search_types in T'.
  replace (r =? ctrlG) with false by lia.
  replace (search_commits r) with false by lia.
  unfold run, bind. rewrite (search_rune_typed r v s T P).
  destruct (getLine (typed s r v)) as [[p l] n].
  destruct (refresh p l n s); reflexivity.
Qed.

(** The rounds of the search loop on the runes of a pattern. *)
Lemma search_rounds (origLine : list rune) (origPos : Z) (inp : list event)
  (rs : list rune) :
  forall (v : Search.locals) (s : State),
  Forall (fun r => search_types r = true) (Search.line v ++ rs) ->
  Search.pos v = len (Search.line v) ->
  2 <= columns s - (22 + len (Search.line v ++ rs)) - 1 ->
  exists ops,
    reverseISearch_loop origLine origPos v s (map (fun r => Key (Rune r)) rs ++ inp)
    = reverseISearch_loop origLine origPos (typed_all s rs v) (emits s ops) inp.
Proof.
  induction rs as [|r rs IH]; intros v s F P W.
  - exists []. rewrite emits_nil. reflexivity.
  - cbn [map app].
    assert (F1 : Forall (fun r => search_types r = true) (Search.line v ++ [r])).
    { replace (Search.line v ++ r :: rs) with ((Search.line v ++ [r]) ++ rs) in F
        by (rewrite <- app_assoc; reflexivity).
      apply Forall_app in F. exact (proj1 F). }
    assert (T : search_types r = true).
    { apply Forall_app in F1. destruct F1 as [_ F1]. inversion F1; assumption. }
    rewrite (search_loop_typed origLine origPos r v s _ T P).
    unfold run. cbn [getLine typed Search.line Search.foundLine Search.foundPos].
    match goal with |- context [refresh ?p ?l ?n s] =>
      destruct (refresh_returns p l n s) as [e [ops1 H1]]
    end.
    { unfold roomy. rewrite search_prompt_width by exact F1.
      rewrite !len_app in *. pose proof (len_nonneg rs).
      unfold len in *. cbn [length] in *. lia. }
    rewrite H1.
    destruct (IH (typed s r v) (emits s ops1)) as [ops2 H2].
    + cbn [typed Search.line]. rewrite <- app_assoc. exact F.
    + reflexivity.
    + cbn [typed Search.line]. rewrite <- app_assoc. exact W.
    + rewrite H2. exists (ops1 ++ ops2). rewrite emits_emits. reflexivity.
Qed.

Lemma matches_newest (s : State) (pattern : gostring) (old new : list gostring)
  (e : gostring) :
  history s = old ++ e :: new ->
  (exists i, occurs_at e pattern i) ->
  Forall (fun x => forall i, ~ occurs_at x pattern i) new ->
  last (matches s pattern) [] = e.
Proof.
  intros H [i O] F. unfold matches. rewrite H, filter_app. cbn [filter].
  replace (0 <=? Index e pattern) with true.
  2:{ destruct (Index_spec e pattern) as [[_ N]|[P _]]; [destruct (N i O)|lia]. }
  rewrite (filter_none _ new).
  - apply last_last.
  - apply Forall_forall. intros x Hx. rewrite Forall_forall in F.
    destruct (Index_spec x pattern) as [[E _]|[_ [O' _]]]; [rewrite E; reflexivity|].
    destruct (F x Hx _ O').
Qed.

Lemma matches_none (s : State) (pattern : gostring) :
  Forall (fun x => forall i, ~ occurs_at x pattern i) (history s) ->
  matches s pattern = [].
Proof.
  intros F. unfold matches. apply filter_none.
  apply Forall_forall. intros x Hx. rewrite Forall_forall in F.
  destruct (Index_spec x pattern) as [[E _]|[_ [O' _]]]; [rewrite E; reflexivity|].
  destruct (F x Hx _ O').
Qed.

(** CTRL-R, a pattern and CR or LF, in the main loop. *)
Lemma search_mainLoop (fuel : nat) (p : gostring) (l : Loop.locals) (s : State)
  (rs : list rune) (enter : rune) (inp : list event) :
  roomy p s -> 2 <= columns s - (22 + len rs) - 1 -> rs <> [] ->
  Forall (fun r => search_types r = true) rs -> enter = cr \/ enter = lf ->
  exists ops,
    mainLoop (S fuel) p l s
      (Key (Rune ctrlR) :: map (fun r => Key (Rune r)) rs ++ Key (Rune enter) :: inp)
    = Some (Done (string_of_runes
                    (runes (last (matches s (string_of_runes rs)) [])), None)
                 (emits s ops) inp).
Proof.
  intros Rp W N F E.
  assert (Rs : roomy searchPrompt s).
  { unfold roomy. change (RuneCountInString (stripAnsiColorSequences searchPrompt))
      with 22. pose proof (len_nonneg rs). lia. }
  cbn [mainLoop]. unfold iteration, hooks, hookTab.
  change (is_rune (Rune ctrlR) tab) with false. cbv beta iota. cbn [and_then].
  unfold hookYank. change (is_rune (Rune ctrlR) ctrlY) with false.
  cbn [andb]. cbv beta iota. cbn [and_then].
  unfold hookSearch. change (is_rune (Rune ctrlR) ctrlR) with true. cbv beta iota.
  rewrite reverseISearch_start. unfold run at 1.
  match goal with |- context [refresh searchPrompt ?b ?n s] =>
    destruct (refresh_returns searchPrompt b n s Rs) as [e0 [ops0 H0]]
  end.
  rewrite H0.
  destruct (search_rounds (Loop.line (Loop.set_historyAction l false))
              (Loop.pos (Loop.set_historyAction l false))
              (Key (Rune enter) :: inp) rs search_start (emits s ops0))
    as [ops1 H1]; [exact F|reflexivity|exact W|].
  rewrite H1. cbn [reverseISearch_loop].
  replace (enter =? ctrlG) with false by (destruct E; subst enter; reflexivity).
  replace (search_commits enter) with true by (destruct E; subst enter; reflexivity).
  cbn [resume]. unfold run at 1.
  match goal with |- context [redraw p ?l' ?s'] =>
    destruct (redraw_returns p l' s' Rp) as [ops2 H2]
  end.
  rewrite H2. unfold run, dispatched, bind at 1. cbn [dispatch].
  unfold dispatchRune.
  replace ((enter =? cr) || (enter =? lf)) with true by lia.
  unfold bind at 1.
  match goal with |- context [fmt_Print [lf] ?s'] =>
    destruct (fmt_Print_returns [lf] s') as [e3 [ops3 H3]]
  end.
  rewrite H3. unfold ret. exists (ops0 ++ ops1 ++ ops2 ++ ops3).
  rewrite !emits_emits.
  cbn [Loop.line Loop.set_pos Loop.set_line].
  rewrite (typed_all_found _ rs search_start N). reflexivity.
Qed.

(** CTRL-R at a fresh prompt, a pattern of runes that are no control
    codes, then CR or LF: [Prompt] returns the newest entry of the history
    that holds the pattern, as it is when it is valid UTF-8, and the empty
    string when no entry holds the pattern.  The terminal leaves two
    columns or more after either prompt and the cursor; the prompt of the
    search takes 22 columns and those of the pattern. *)
Theorem prompt_search_returns
  (fb : gostring -> State -> list event -> outcome (gostring * option error))
  (p : gostring) (s : State) (rs : list rune) (enter : rune) (rest : list event) :
  terminalOutput s = true -> terminalSupported s = true ->
  2 <= termWidth s - RuneCountInString (stripAnsiColorSequences p) - 1 ->
  2 <= termWidth s - (22 + len rs) - 1 ->
  rs <> [] -> Forall (fun r => search_types r = true) rs ->
  enter = cr \/ enter = lf ->
  let keys := Key (Rune ctrlR)
              :: map (fun r => Key (Rune r)) rs ++ Key (Rune enter) :: rest in
  let without := fun x : gostring =>
                   forall i, ~ occurs_at x (string_of_runes rs) i in
  (forall old e new,
     history s = old ++ e :: new ->
     (exists i, occurs_at e (string_of_runes rs) i) -> Forall without new ->
     Valid e = true ->
     exists ops,
       Prompt fb p s keys = Some (Done (e, None) (emits (entered p s) ops) rest))
  /\ (Forall without (history s) ->
      exists ops,
        Prompt fb p s keys = Some (Done ([], None) (emits (entered p s) ops) rest)).
Proof.
  intros TO TS W Ws N F E keys without.
  assert (M : exists ops,
            Prompt fb p s keys
            = Some (Done (string_of_runes
                            (runes (last (matches (entered p s) (string_of_runes rs)) [])),
                          None) (emits (entered p s) ops) rest)).
  { unfold Prompt. rewrite TO, TS. cbn [negb].
    destruct (entered_Ret p s) as [e H]. rewrite H.
    apply search_mainLoop; try assumption.
    - unfold roomy. rewrite entered_columns. exact W.
    - rewrite entered_columns. exact Ws. }
  destruct M as [ops M]. split.
  - intros old e new Hh He Hn V. exists ops. rewrite M.
    rewrite (matches_newest (entered p s) _ old new e), string_of_runes_runes;
      try assumption; [reflexivity|].
    rewrite entered_history. exact Hh.
  - intros Hn. exists ops. rewrite M, matches_none; [reflexivity|].
    rewrite entered_history. exact Hn.
Qed.

Lemma prompt_search_returns_witness :
  exists ops,
    Prompt noFallback (str "> ")
      (set_history (newState 80) [str "make build"; str "make test"; str "ls"])
      (Key (Rune ctrlR)
       :: map (fun r => Key (Rune r)) (runes (str "ma")) ++ Key (Rune cr) :: [])
    = Some (Done (str "make test", None)
              (emits (entered (str "> ")
                        (set_history (newState 80)
                           [str "make build"; str "make test"; str "ls"])) ops) []).
Proof.
  apply (proj1 (prompt_search_returns noFallback (str "> ")
                  (set_history (newState 80)
                     [str "make build"; str "make test"; str "ls"])
                  (runes (str "ma")) cr []
                  eq_refl eq_refl ltac:(vm_compute; discriminate)
                  ltac:(vm_compute; discriminate) ltac:(discriminate)
                  ltac:(repeat constructor) ltac:(left; reflexivity))
          [str "make build"] (str "make test") [str "ls"]).
  - reflexivity.
  - exists 0, [], (str "ke test"). split; reflexivity.
  - repeat constructor. intros i [a [b [H _]]].
    destruct a as [|x [|y [|z a]]]; discriminate H.
  - reflexivity.
Defined.

(** ** No key makes the password prompt panic *)

Lemma passwordLoop_safe (p : gostring) (inp : list event) :
  forall (line : list rune) (s : State),
  RuneCountInString (stripAnsiColorSequences p) < columns s ->
  forall s', passwordLoop p line (len line) s inp <> Panicked s'.
Proof.
  induction inp as [|ev inp IH]; intros line s W s'; [discriminate|].
  destruct ev as [k|err]; [|discriminate].
  destruct (password_ends k) eqn:E.
  - destruct k as [|n|v|a]; try discriminate E.
    unfold password_ends in E. cbn [is_rune] in E. cbn [passwordLoop].
    destruct ((v =? cr) || (v =? lf)) eqn:E1.
    + unfold run. destruct (fmt_Print_returns [lf] s) as [e [ops H]]. rewrite H.
      discriminate.
    + replace (v =? ctrlD) with true by lia.
      destruct ((len line =? 0) && (len line =? 0)); [discriminate|].
      unfold run, startPrompt, modify. apply IH. exact W.
  - destruct (password_round p line s k inp W E) as [ops H]. rewrite H.
    apply IH. exact W.
Qed.

(** [PasswordPrompt] does not panic: when the prompt is narrower than the
    terminal, every sequence of events makes it return or leaves it
    waiting for the next key. *)
Theorem password_never_panics (p : gostring) (s : State) (inp : list event) :
  RuneCountInString (stripAnsiColorSequences p) < termWidth s ->
  match PasswordPrompt p s inp with
  | Done _ _ _ | Blocked _ => True
  | Panicked _ => False
  end.
Proof.
  intros W.
  assert (H : forall s', PasswordPrompt p s inp <> Panicked s').
  { intros s'. unfold PasswordPrompt.
    destruct (negb (terminalOutput s)); [discriminate|].
    destruct (negb (terminalSupported s)); [discriminate|].
    unfold run. destruct (entered_Ret p s) as [e H]. rewrite H.
    apply (passwordLoop_safe p inp []). rewrite entered_columns. exact W. }
  destruct (PasswordPrompt p s inp) as [r s1 rest|s1|s1]; auto.
  exact (H s1 eq_refl).
Qed.

Lemma password_never_panics_witness :
  match PasswordPrompt (str "Password: ") (newState 80)
          [Key (Rune 115); Key (Rune ctrlL); Key (Rune bs); Key (Rune bs);
           Key (Rune ctrlD); Key (Action Act.left); Key (Rune cr)] with
  | Done _ _ _ | Blocked _ => True
  | Panicked _ => False
  end.
Proof.
  apply (password_never_panics (str "Password: ") (newState 80)).
  vm_compute. reflexivity.
Defined.
